(** * Generalized Fibonacci buddy allocator (mem.c), 64-bit target

    A shallow embedding of the allocator: the header codec works on
    64-bit words stored in a word-addressed heap, the array of free
    lists is the typed view [struct cell *data] with its cells in
    order, and every free list is the sequence of the items linked
    from the cell (first item first).  The host allocator is a bump
    pointer [brk]; a region it hands out keeps whatever words the heap
    held there (malloc does not clear memory). *)

From stdpp Require Import gmap list.

Open Scope Z_scope.

(** ** Constants of the x86_64 branch *)

Definition MIN_SIZE : Z := 3.
Definition SIZE_1 : Z := 4.
Definition SIZE_2 : Z := 5.
Definition SIZE_3 : Z := 7.
Definition DATA_INIT_BLOCKS : Z := 69.
Definition ARRAY_INIT_SIZE : Z := 11.
Definition ARRAY_INIT_CAPACITY : Z := 16.

Definition BLOCK_SIZE : Z := 8.
Definition POINTER_SIZE : Z := 8.
Definition HEADER_SIZE : Z := POINTER_SIZE.
Definition SIZEOF_CELL : Z := 16.

Definition LEFT : bool := false.
Definition RIGHT : bool := true.
Definition NULL : Z := 0.

Definition BLOCKS (n : Z) : Z := (n + BLOCK_SIZE - 1) / BLOCK_SIZE.

(** Wrap-around of [uintptr_t] and of [unsigned int]. *)
Definition uintptr (z : Z) : Z := z mod 2 ^ 64.
Definition uint (z : Z) : Z := z mod 2 ^ 32.

(** ** Heap of machine words *)

Definition load (h : gmap Z Z) (a : Z) : Z := default 0 (h !! a).
Definition store (h : gmap Z Z) (a : Z) (w : Z) : gmap Z Z := <[a := w]> h.

(** ** Item header codec *)

Definition item_get_size (h : gmap Z Z) (item : Z) : Z :=
  Z.shiftr (load h item) 3.

Definition item_set_size (h : gmap Z Z) (item : Z) (sz : Z) : gmap Z Z :=
  let size_field := load h item in
  let flags := Z.land size_field 7 in
  store h item (Z.lor flags (uintptr (Z.shiftl sz 3))).

Definition item_is_in_use (h : gmap Z Z) (item : Z) : bool :=
  negb (Z.land (load h item) 4 =? 0).

Definition set_flag (h : gmap Z Z) (item : Z) (bit : Z) (v : bool) : gmap Z Z :=
  let size_field := Z.land (load h item) (2 ^ 64 - 1 - bit) in
  let tmp := if v then bit else 0 in
  store h item (Z.lor size_field tmp).

Definition item_set_in_use (h : gmap Z Z) (item : Z) (in_use : bool) : gmap Z Z :=
  set_flag h item 4 in_use.

Definition item_get_lr_bit (h : gmap Z Z) (item : Z) : bool :=
  negb (Z.land (load h item) 2 =? 0).

Definition item_set_lr_bit (h : gmap Z Z) (item : Z) (v : bool) : gmap Z Z :=
  set_flag h item 2 v.

Definition item_get_inh_bit (h : gmap Z Z) (item : Z) : bool :=
  negb (Z.land (load h item) 1 =? 0).

Definition item_set_inh_bit (h : gmap Z Z) (item : Z) (v : bool) : gmap Z Z :=
  set_flag h item 1 v.

Definition item_get_area (item : Z) : Z := item + POINTER_SIZE.
Definition item_from_area (area : Z) : Z := area - POINTER_SIZE.

(** ** Cells, the array and the allocator state *)

Record cell := Cell { cell_size : Z; cell_items : list Z }.

Record array := Array {
  data : Z;
  cells : list cell;
  capacity : Z
}.

Definition array_size (a : array) : Z := Z.of_nat (length (cells a)).

Record state := State {
  heap : gmap Z Z;
  arr : array;
  mem_list : Z;
  brk : Z
}.

Definition set_heap (s : state) (h : gmap Z Z) : state :=
  State h (arr s) (mem_list s) (brk s).
Definition set_arr (s : state) (a : array) : state :=
  State (heap s) a (mem_list s) (brk s).
Definition set_cells (a : array) (cs : list cell) : array :=
  Array (data a) cs (capacity a).

(** [array->data[i]]: an index outside [0, array->size) reads no cell
    (an unsigned index that wrapped below zero is far outside too). *)
Definition cell_at (a : array) (i : Z) : option cell :=
  if (0 <=? i) && (i <? array_size a) then cells a !! Z.to_nat i else None.

Definition set_items (a : array) (i : Z) (l : list Z) : option array :=
  c ← cell_at a i;
  Some (set_cells a (<[Z.to_nat i := Cell (cell_size c) l]> (cells a))).

(** ** Free-list operations *)

Definition take_item (s : state) (i : Z) : option (state * Z) :=
  c ← cell_at (arr s) i;
  match cell_items c with
  | [] => None
  | item :: next =>
      a ← set_items (arr s) i next;
      Some (set_arr s a, item)
  end.

Definition insert_item (s : state) (i : Z) (item : Z) : option state :=
  c ← cell_at (arr s) i;
  a ← set_items (arr s) i (item :: cell_items c);
  Some (set_arr s a).

Fixpoint remove_first (item : Z) (l : list Z) : list Z :=
  match l with
  | [] => []
  | curr :: next => if curr =? item then next else curr :: remove_first item next
  end.

Definition delete_item (s : state) (i : Z) (item : Z) : option state :=
  c ← cell_at (arr s) i;
  a ← set_items (arr s) i (remove_first item (cell_items c));
  Some (set_arr s a).

(** ** Chunk source *)

Definition malloc (s : state) (bytes : Z) : state * Z :=
  (State (heap s) (arr s) (mem_list s) (brk s + bytes), brk s).

(** [n] is an [unsigned int] and BLOCK_SIZE an [int], so their product
    is taken in 32 bits before it meets the [size_t] operand. *)
Definition alloc_new_item (s : state) (n : Z) : state * Z :=
  let '(s, tmp) := malloc s (uint (BLOCK_SIZE * n) + POINTER_SIZE * 2) in
  let h := store (heap s) tmp (mem_list s) in
  let fake_right := tmp + uint (BLOCK_SIZE * n) + POINTER_SIZE in
  let h := item_set_size h fake_right 0 in
  let h := item_set_lr_bit h fake_right RIGHT in
  let h := item_set_in_use h fake_right true in
  let item := tmp + POINTER_SIZE in
  let h := item_set_size h item n in
  let h := item_set_lr_bit h item LEFT in
  (State h (arr s) tmp (brk s), item).

(** ** The chunk source of the older revision *)

(** alloc_new_item as it was when the chunks came from calloc; the
    header codec is the same. *)
Module Old.

(** calloc hands out [nmemb * size] bytes of zeros: the words inside
    them read 0. *)
Definition calloc (s : state) (nmemb size : Z) : state * Z :=
  let bytes := nmemb * size in
  let '(s, tmp) := malloc s bytes in
  (set_heap s (filter (λ kv : Z * Z, ¬ (tmp ≤ kv.1 < tmp + bytes)) (heap s)), tmp).

Definition alloc_new_item (s : state) (n : Z) : state * Z :=
  let '(s, tmp) := calloc s (uint (BLOCK_SIZE * n) + POINTER_SIZE * 2) 1 in
  let h := store (heap s) tmp (mem_list s) in
  let fake_right := tmp + uint (BLOCK_SIZE * n) + POINTER_SIZE in
  let h := item_set_size h fake_right 0 in
  let h := item_set_lr_bit h fake_right RIGHT in
  let h := item_set_in_use h fake_right true in
  let item := tmp + POINTER_SIZE in
  let h := item_set_size h item n in
  (State h (arr s) tmp (brk s), item).

End Old.

(** ** Splitter *)

(** One pass of the body of the [while] of split_item, entered with
    the loop test already true. *)
Definition split_step (s : state) (i : Z) (curr : Z) (n : Z)
  : option (state * Z * Z) :=
  c4 ← cell_at (arr s) (i - 4);
  c1 ← cell_at (arr s) (i - 1);
  let szl := cell_size c4 in
  let szr := cell_size c1 in
  let inh_l := item_get_lr_bit (heap s) curr in
  let inh_r := item_get_inh_bit (heap s) curr in
  let left := curr in
  let right := curr + szl * BLOCK_SIZE in
  let h := item_set_size (heap s) left szl in
  let h := item_set_size h right szr in
  let h := item_set_lr_bit h left LEFT in
  let h := item_set_lr_bit h right RIGHT in
  let h := item_set_in_use h left false in
  let h := item_set_in_use h right false in
  let h := item_set_inh_bit h left inh_l in
  let h := item_set_inh_bit h right inh_r in
  let s := set_heap s h in
  let i_left := i - 4 in
  let i_right := i - 1 in
  if szl >=? n then
    s ← insert_item s i_right right;
    Some (s, i_left, left)
  else
    s ← insert_item s i_left left;
    Some (s, i_right, right).

Fixpoint split_loop (fuel : nat) (s : state) (i : Z) (curr : Z) (n : Z)
  : option (state * Z * Z) :=
  match fuel with
  | O => None
  | S fuel =>
      c1 ← cell_at (arr s) (i - 1);
      if (cell_size c1 >=? n) && (i >? 4) then
        '(s, i, curr) ← split_step s i curr n;
        split_loop fuel s i curr n
      else Some (s, i, curr)
  end.

(** The index falls at every pass and the loop needs [i > 4], so [i]
    tests of the loop condition are enough. *)
Definition split_item (s : state) (i : Z) (item : Z) (n : Z) : option (state * Z) :=
  '(s, _, curr) ← split_loop (Z.to_nat i) s i item n;
  Some (s, curr).

(** ** Coalescer *)

Definition item_get_buddy (s : state) (item : Z) (i : Z) : option (Z * Z) :=
  if negb (item_get_lr_bit (heap s) item) then
    let ibuddy := i + 3 in
    let sz := item_get_size (heap s) item in
    Some (item + sz * BLOCK_SIZE, ibuddy)
  else
    let ibuddy := i - 3 in
    c ← cell_at (arr s) ibuddy;
    Some (item - cell_size c * BLOCK_SIZE, ibuddy).

(** The loop test of coalesce; the cell of the buddy is only read when
    the buddy is not in use. *)
Definition coalesce_test (s : state) (buddy ibuddy : Z) : option bool :=
  if item_is_in_use (heap s) buddy then Some false
  else
    c ← cell_at (arr s) ibuddy;
    Some (cell_size c =? item_get_size (heap s) buddy).

(** One pass of the body of the [while] of coalesce; it yields the new
    index, the merged item, its buddy and the buddy's index. *)
Definition coalesce_step (s : state) (i item buddy ibuddy : Z)
  : option (state * Z * Z * Z * Z) :=
  s ← delete_item s i item;
  s ← delete_item s ibuddy buddy;
  let is_left := negb (item_get_lr_bit (heap s) item) in
  let left := if is_left then item else buddy in
  let right := if is_left then buddy else item in
  let i := if is_left then i + 4 else i + 1 in
  let item := left in
  c ← cell_at (arr s) i;
  let sz := cell_size c in
  let lr_bit := item_get_inh_bit (heap s) left in
  let inh_bit := item_get_inh_bit (heap s) right in
  let h := item_set_lr_bit (heap s) item lr_bit in
  let h := item_set_inh_bit h item inh_bit in
  let h := item_set_size h item sz in
  let h := item_set_in_use h item false in
  let s := set_heap s h in
  '(buddy, ibuddy) ← item_get_buddy s item i;
  s ← insert_item s i item;
  Some (s, i, item, buddy, ibuddy).

Fixpoint coalesce_loop (fuel : nat) (s : state) (i item buddy ibuddy : Z)
  : option (state * Z * Z) :=
  match fuel with
  | O => None
  | S fuel =>
      go ← coalesce_test s buddy ibuddy;
      if go : bool then
        '(s, i, item, buddy, ibuddy) ← coalesce_step s i item buddy ibuddy;
        coalesce_loop fuel s i item buddy ibuddy
      else Some (s, i, item)
  end.

(** coalesce together with the index and the item its loop ended on.
    Every pass raises the index and reads the cell there, so the loop
    test runs at most [array->size] times. *)
Definition coalesce_end (s : state) (i : Z) : option (state * Z * Z) :=
  c ← cell_at (arr s) i;
  item ← head (cell_items c);
  '(buddy, ibuddy) ← item_get_buddy s item i;
  coalesce_loop (length (cells (arr s))) s i item buddy ibuddy.

Definition coalesce (s : state) (i : Z) : option state :=
  '(s, _, _) ← coalesce_end s i;
  Some s.

(** ** mem_free *)

(** [while (size != array.data[i].size) i++] from index [i] on. *)
Fixpoint find_size (cs : list cell) (sz : Z) (i : Z) : option Z :=
  match cs with
  | [] => None
  | c :: cs => if cell_size c =? sz then Some i else find_size cs sz (i + 1)
  end.

(** The part of mem_free before its call of coalesce. *)
Definition mem_free_insert (s : state) (area : Z) : option (state * Z) :=
  let item := item_from_area area in
  let sz := item_get_size (heap s) item in
  i ← find_size (cells (arr s)) sz 0;
  let s := set_heap s (item_set_in_use (heap s) item false) in
  s ← insert_item s i item;
  Some (s, i).

Definition mem_free (s : state) (area : Z) : option state :=
  '(s, i) ← mem_free_insert s area;
  coalesce s i.

(** ** The array of free lists and mem_alloc *)

(** The [for] loop of array_init, from index [i] with [k] cells to go. *)
Fixpoint array_init_loop (k : nat) (cs : list cell) (i : Z) (prev : Z) : option (list cell) :=
  match k with
  | O => Some cs
  | S k =>
      c4 ← cs !! Z.to_nat (i - 4);
      let sz := uintptr (prev + cell_size c4) in
      array_init_loop k (cs ++ [Cell sz []]) (i + 1) sz
  end.

Definition array_init (s : state) : option state :=
  let '(s, data_item) := alloc_new_item s DATA_INIT_BLOCKS in
  let s := set_heap s (item_set_in_use (heap s) data_item true) in
  let cs := [Cell MIN_SIZE []; Cell SIZE_1 []; Cell SIZE_2 []; Cell SIZE_3 []] in
  let prev := SIZE_3 in
  cs ← array_init_loop (Z.to_nat (ARRAY_INIT_SIZE - 4)) cs 4 prev;
  Some (set_arr s (Array (item_get_area data_item) cs ARRAY_INIT_CAPACITY)).

Definition mem_init (s : state) : option state :=
  array_init (State (heap s) (arr s) NULL (brk s)).

(** The search loop of mem_alloc, from index [i] on. *)
Fixpoint find_cell (cs : list cell) (n : Z) (i : Z) : Z :=
  match cs with
  | [] => i
  | c :: cs =>
      if (cell_size c <? n) || bool_decide (cell_items c = [])
      then find_cell cs n (i + 1) else i
  end.

Section alloc.
(** mem_alloc and mem_free as array_inc_size calls them. *)
Variable rec_alloc : state → Z → option (state * Z).

Definition array_inc_size (s : state) : option state :=
  let a := arr s in
  let i := array_size a + 1 - 1 in
  c1 ← cell_at a (i - 1);
  c4 ← cell_at a (i - 4);
  let cs := cells a ++ [Cell (uintptr (cell_size c1 + cell_size c4)) []] in
  let a := set_cells a cs in
  let s := set_arr s a in
  if array_size a =? capacity a then
    let a := Array (data a) (cells a) (uint (capacity a * 2)) in
    let s := set_arr s a in
    let old_data := data a in
    '(s, new_data) ← rec_alloc s (uint (capacity a * SIZEOF_CELL));
    let s := set_arr s (Array new_data (cells (arr s)) (capacity (arr s))) in
    mem_free s old_data
  else Some s.

(** The [do ... while] of mem_alloc, entered with [i] already lowered. *)
Fixpoint grow_loop (fuel : nat) (s : state) (i : Z) (n : Z) : option (state * Z) :=
  match fuel with
  | O => None
  | S fuel =>
      s ← array_inc_size s;
      let i := i + 1 in
      c ← cell_at (arr s) i;
      if cell_size c <? n then grow_loop fuel s i n else Some (s, i)
  end.

(** The first half of mem_alloc: the item to split and its index,
    taken from a list or drawn from the host after growing the array. *)
Definition mem_alloc_pick (fuel : nat) (s : state) (n : Z) : option (state * Z * Z) :=
  let i := find_cell (cells (arr s)) n 0 in
  if i =? array_size (arr s) then
    let i := i - 1 in
    '(s, i) ← grow_loop fuel s i n;
    c ← cell_at (arr s) i;
    let '(s, item) := alloc_new_item s (uint (cell_size c)) in
    Some (s, i, item)
  else
    '(s, item) ← take_item s i;
    Some (s, i, item).

Definition mem_alloc_body (fuel : nat) (s : state) (x : Z) : option (state * Z) :=
  let n := BLOCKS (x + HEADER_SIZE) in
  '(s, i, item) ← mem_alloc_pick fuel s n;
  '(s, item) ← split_item s i item n;
  let s := set_heap s (item_set_in_use (heap s) item true) in
  Some (s, item_get_area item).
End alloc.

(** [fuel] bounds the passes of the growing loop and the depth at which
    array_inc_size calls back into mem_alloc. *)
Fixpoint mem_alloc (fuel : nat) (s : state) (x : Z) : option (state * Z) :=
  match fuel with
  | O => None
  | S fuel => mem_alloc_body (mem_alloc fuel) (S fuel) s x
  end.

(** ** The links of the free lists

    The free lists as mem.c stores them.  The cell holds the first item
    of its list; an item on a list holds the previous item in its word 1
    and the next item in its word 2, behind the header in word 0.  The
    array is the typed view of the first items, cell by cell.  Reading
    the links of NULL has no defined result. *)

Module Links.

Definition item_get_prev (h : gmap Z Z) (item : Z) : Z := load h (item + POINTER_SIZE).
Definition item_set_prev (h : gmap Z Z) (item prev : Z) : gmap Z Z :=
  store h (item + POINTER_SIZE) prev.
Definition item_get_next (h : gmap Z Z) (item : Z) : Z := load h (item + 2 * POINTER_SIZE).
Definition item_set_next (h : gmap Z Z) (item next : Z) : gmap Z Z :=
  store h (item + 2 * POINTER_SIZE) next.

Record lstate := LState { mem : gmap Z Z; heads : list Z }.

(** [array->data[i].items] *)
Definition items_at (m : lstate) (i : Z) : option Z :=
  if (0 <=? i) && (i <? Z.of_nat (length (heads m))) then heads m !! Z.to_nat i else None.

Definition take_item (m : lstate) (i : Z) : option (lstate * Z) :=
  items ← items_at m i;
  if items =? NULL then None else
  let next := item_get_next (mem m) items in
  let h := if next =? NULL then mem m else item_set_prev (mem m) next NULL in
  let item := items in
  Some (LState h (<[Z.to_nat i := next]> (heads m)), item).

Definition insert_item (m : lstate) (i : Z) (item : Z) : option lstate :=
  items ← items_at m i;
  if item =? NULL then None else
  let h := item_set_next (mem m) item items in
  let h := if items =? NULL then h else item_set_prev h items item in
  let h := item_set_prev h item NULL in
  Some (LState h (<[Z.to_nat i := item]> (heads m))).

(** The search loop of delete_item; [fuel] bounds its passes. *)
Fixpoint find_item (fuel : nat) (h : gmap Z Z) (curr item : Z) : option Z :=
  match fuel with
  | O => None
  | S fuel =>
      if negb (curr =? NULL) && negb (curr =? item)
      then find_item fuel h (item_get_next h curr) item
      else Some curr
  end.

Definition delete_item (fuel : nat) (m : lstate) (i : Z) (item : Z) : option lstate :=
  items ← items_at m i;
  curr ← find_item fuel (mem m) items item;
  if curr =? NULL then Some m else
  let prev := item_get_prev (mem m) curr in
  let next := item_get_next (mem m) curr in
  let h := if prev =? NULL then mem m else item_set_next (mem m) prev next in
  let h := if next =? NULL then h else item_set_prev h next prev in
  let hs := if curr =? items then <[Z.to_nat i := next]> (heads m) else heads m in
  Some (LState h hs).

End Links.

(** ** mem_finalize *)

(** The loop of mem_finalize: the chunks handed back to the host, in
    the order of the calls of free; [fuel] bounds its passes.  The host
    keeps no book of the chunks, so what mem_finalize does to it is the
    list of the pointers it frees. *)
Fixpoint free_chunks (fuel : nat) (h : gmap Z Z) (mem_list : Z) : option (list Z) :=
  match fuel with
  | O => None
  | S fuel =>
      if mem_list =? NULL then Some []
      else
        let tmp := mem_list in
        freed ← free_chunks fuel h (load h mem_list);
        Some (tmp :: freed)
  end.

Definition mem_finalize (fuel : nat) (s : state) : option (state * list Z) :=
  let a := Array NULL (cells (arr s)) (capacity (arr s)) in
  freed ← free_chunks fuel (heap s) (mem_list s);
  Some (State (heap s) a NULL (brk s), freed).

(** * Specification notions *)

(** ** Headers *)

(** What the four getters of the codec return at an item. *)
Definition header (h : gmap Z Z) (a : Z) (sz : Z) (u lr inh : bool) : Prop :=
  item_get_size h a = sz ∧ item_is_in_use h a = u ∧
  item_get_lr_bit h a = lr ∧ item_get_inh_bit h a = inh.

(** A write to one item leaves the header of every other item alone. *)
Definition same_at (h h' : gmap Z Z) (b : Z) : Prop := load h' b = load h b.

(** ** The sequence of cell sizes *)

Fixpoint lad4 (n : nat) : Z * Z * Z * Z :=
  match n with
  | O => (MIN_SIZE, SIZE_1, SIZE_2, SIZE_3)
  | S n => let '(a, b, c, d) := lad4 n in (b, c, d, d + a)
  end.

(** The term of index [i]: 3, 4, 5, 7, 10, 14, 19, 26, ... *)
Definition ladder (i : Z) : Z := (lad4 (Z.to_nat i)).1.1.1.

(** The longest array whose terms all pass the 32-bit product
    [BLOCK_SIZE * n] of alloc_new_item unchanged. *)
Definition MAX_CELLS : Z := 60.

(** ** The splitting tree of a chunk *)

(** A block as the splitting tree knows it: its address, the index of
    its size in the array, its two bits and whether it is handed out. *)
Record leaf := Leaf {
  l_addr : Z;
  l_idx : Z;
  l_lr : bool;
  l_inh : bool;
  l_used : bool
}.

Definition l_end (l : leaf) : Z := l_addr l + ladder (l_idx l) * BLOCK_SIZE.

Definition set_used (l : leaf) (u : bool) : leaf :=
  Leaf (l_addr l) (l_idx l) (l_lr l) (l_inh l) u.

Definition left_child (x : leaf) (u : bool) : leaf :=
  Leaf (l_addr x) (l_idx x - 4) LEFT (l_lr x) u.

Definition right_child (x : leaf) (u : bool) : leaf :=
  Leaf (l_addr x + ladder (l_idx x - 4) * BLOCK_SIZE) (l_idx x - 1) RIGHT (l_inh x) u.

(** The parent of the buddies [x] (left) and [y] (right). *)
Definition parent (x y : leaf) : leaf :=
  Leaf (l_addr x) (l_idx x + 4) (l_inh x) (l_inh y) false.

(** [covers a i lr inh L]: the blocks [L], in address order, are what
    splitting has made of the block at [a] with index [i] and bits
    [lr], [inh]. *)
Inductive covers : Z → Z → bool → bool → list leaf → Prop :=
  | covers_leaf a i lr inh u :
      covers a i lr inh [Leaf a i lr inh u]
  | covers_node a i lr inh L1 L2 :
      4 < i →
      covers a (i - 4) LEFT lr L1 →
      covers (a + ladder (i - 4) * BLOCK_SIZE) (i - 1) RIGHT inh L2 →
      covers a i lr inh (L1 ++ L2).

(** [forest cs L]: [L] lists the blocks of the chunks [cs], oldest
    chunk first; a chunk is the address and the index of its block. *)
Inductive forest : list (Z * Z) → list leaf → Prop :=
  | forest_nil : forest [] []
  | forest_cons b i inh L cs L' :
      covers b i LEFT inh L → forest cs L' → forest ((b, i) :: cs) (L ++ L').

(** Blocks in rising address order between [lo] and [hi]. *)
Fixpoint asc (lo : Z) (L : list leaf) (hi : Z) : Prop :=
  match L with
  | [] => lo ≤ hi
  | l :: L => lo ≤ l_addr l ∧ 1 ≤ l_idx l ∧ asc (l_end l) L hi
  end.

(** ** The invariant *)

(** The header of a block agrees with the splitting tree; the in_use
    bit of a block in [pend] (one an operation is working on) is free. *)
Definition hdr_ok (h : gmap Z Z) (pend : gset Z) (l : leaf) : Prop :=
  item_get_size h (l_addr l) = ladder (l_idx l) ∧
  item_get_lr_bit h (l_addr l) = l_lr l ∧
  item_get_inh_bit h (l_addr l) = l_inh l ∧
  (l_addr l ∉ pend → item_is_in_use h (l_addr l) = l_used l).

Definition cells_ok (cs : list cell) : Prop :=
  ARRAY_INIT_SIZE ≤ Z.of_nat (length cs) ≤ MAX_CELLS ∧
  ∀ j c, cs !! j = Some c → cell_size c = ladder (Z.of_nat j).

Definition free_at (L : list leaf) (a j : Z) : Prop :=
  ∃ l, l ∈ L ∧ l_addr l = a ∧ l_idx l = j ∧ l_used l = false.

(** Free-list typing: the list of cell [j] holds, once each, the free
    blocks of index [j]. *)
Definition lists_ok (cs : list cell) (L : list leaf) : Prop :=
  ∀ j c, cs !! j = Some c →
    NoDup (cell_items c) ∧ ∀ a, a ∈ cell_items c ↔ free_at L a (Z.of_nat j).

Definition sentinel (c : Z * Z) : Z := c.1 + ladder c.2 * BLOCK_SIZE.

Definition chunk_ok (s : state) (L : list leaf) (c : Z * Z) : Prop :=
  1 ≤ c.2 < array_size (arr s) ∧
  item_is_in_use (heap s) (sentinel c) = true ∧
  sentinel c < brk s ∧
  ∀ l, l ∈ L → ¬ (l_addr l ≤ sentinel c < l_end l).

(** The areas in [P] are handed out: to callers, or to the array. *)
Definition prot_ok (P pend : gset Z) (L : list leaf) : Prop :=
  ∀ p, p ∈ P →
    ∃ l, l ∈ L ∧ l_addr l = item_from_area p ∧ l_used l = true ∧ l_addr l ∉ pend.

Definition pend_ok (pend : gset Z) (L : list leaf) : Prop :=
  ∀ a, a ∈ pend → ∃ l, l ∈ L ∧ l_addr l = a ∧ l_used l = true.

Record inv (s : state) (pend P : gset Z) (cs : list (Z * Z)) (L : list leaf) : Prop := Inv {
  inv_cells : cells_ok (cells (arr s));
  inv_cap : array_size (arr s) < capacity (arr s);
  inv_forest : forest cs L;
  inv_asc : ∃ lo, asc lo L (brk s);
  inv_hdr : Forall (hdr_ok (heap s) pend) L;
  inv_chunks : Forall (chunk_ok s L) cs;
  inv_lists : lists_ok (cells (arr s)) L;
  inv_prot : prot_ok P pend L;
  inv_pend : pend_ok pend L
}.

(** ** Closed forms of the writes *)

(** The state after the list of cell [i] became [l]. *)
Definition with_items (s : state) (i : Z) (c : cell) (l : list Z) : state :=
  set_arr s (set_cells (arr s) (<[Z.to_nat i := Cell (cell_size c) l]> (cells (arr s)))).

(** The heap after the header writes of split_item's loop body. *)
Definition split_writes (h : gmap Z Z) (left right szl szr : Z) (inh_l inh_r : bool)
  : gmap Z Z :=
  let h := item_set_size h left szl in
  let h := item_set_size h right szr in
  let h := item_set_lr_bit h left LEFT in
  let h := item_set_lr_bit h right RIGHT in
  let h := item_set_in_use h left false in
  let h := item_set_in_use h right false in
  let h := item_set_inh_bit h left inh_l in
  item_set_inh_bit h right inh_r.

(** The heap after the header writes of coalesce's loop body. *)
Definition merge_writes (h : gmap Z Z) (item : Z) (lr_bit inh_bit : bool) (sz : Z)
  : gmap Z Z :=
  let h := item_set_lr_bit h item lr_bit in
  let h := item_set_inh_bit h item inh_bit in
  let h := item_set_size h item sz in
  item_set_in_use h item false.

(** ** Tactics for membership goals *)

(** Membership in lists built with [++] and [::]. *)
Ltac mem :=
  repeat match goal with
         | H : _ ∈ _ ++ _ |- _ => rewrite elem_of_app in H
         | H : _ ∈ _ :: _ |- _ => rewrite elem_of_cons in H
         end;
  rewrite ?elem_of_app, ?elem_of_cons; intuition (auto; congruence).

(** Membership in a set, from membership hypotheses. *)
Ltac mem_set_in :=
  repeat first [rewrite elem_of_union | rewrite elem_of_difference
               | rewrite elem_of_singleton];
  repeat match goal with
         | H : _ ∉ _ |- _ => revert H
         | H : _ ∈ _ |- _ => revert H
         end;
  repeat first [rewrite elem_of_union | rewrite elem_of_difference
               | rewrite elem_of_singleton];
  intuition congruence.

(** Membership in sets built from singletons. *)
Ltac mem_set :=
  repeat first [rewrite elem_of_union | rewrite elem_of_difference
               | rewrite elem_of_singleton | rewrite elem_of_empty];
  intuition (auto; lia).

(** ** The invariant between calls *)

(** What the list operations leave alone. *)
Definition same_frame (s s' : state) : Prop :=
  data (arr s') = data (arr s) ∧ capacity (arr s') = capacity (arr s) ∧
  brk s' = brk s ∧ mem_list s' = mem_list s ∧
  cell_size <$> cells (arr s') = cell_size <$> cells (arr s).

(** What a caller may free: the area of a block that is handed out. *)
Definition freeable (L : list leaf) (P : gset Z) (area : Z) : Prop :=
  (area ∉ P) ∧ ∃ x, x ∈ L ∧ l_addr x = item_from_area area ∧ l_used x = true.

(** mem_free together with the index and the item coalesce ended on. *)
Definition mem_free_end (s : state) (area : Z) : option (state * Z * Z) :=
  '(s, i) ← mem_free_insert s area;
  coalesce_end s i.

(** The invariant between calls: [U] are the areas callers hold; the
    area of the array is handed out too, to the allocator itself. *)
Definition tinv (s : state) (U : gset Z) : Prop :=
  (data (arr s) ∉ U) ∧ ∃ cs L, inv s ∅ (U ∪ {[data (arr s)]}) cs L.

Definition alen (s : state) : nat := length (cells (arr s)).

Definition alloc_mono (alloc : state → Z → option (state * Z)) : Prop :=
  ∀ s x s' p, alloc s x = Some (s', p) → (alen s ≤ alen s')%nat.

(** What array_inc_size needs of the mem_alloc it calls: it keeps the
    invariant as long as the array stays within [MAX_CELLS] cells, the
    block it returns is large enough, and a request that the array
    already covers does not move the array. *)
Definition alloc_ok (alloc : state → Z → option (state * Z)) : Prop :=
  ∀ s U x s' p,
    tinv s U → 0 ≤ x → alloc s x = Some (s', p) →
    array_size (arr s') ≤ MAX_CELLS →
    tinv s' (U ∪ {[p]}) ∧ (p ∉ U) ∧ brk s ≤ brk s' ∧
    BLOCKS (x + HEADER_SIZE) ≤ item_get_size (heap s') (item_from_area p) ∧
    (BLOCKS (x + HEADER_SIZE) ≤ ladder (array_size (arr s)) →
     array_size (arr s) + 1 < capacity (arr s) →
     data (arr s') = data (arr s) ∧ capacity (arr s') = capacity (arr s) ∧
     array_size (arr s') ≤ array_size (arr s) + 1).

(** What array_inc_size needs of the mem_alloc it calls to get through:
    a request that the array already covers is served, with at most one
    more cell. *)
Definition alloc_nested (alloc : state → Z → option (state * Z)) : Prop :=
  ∀ s U x,
    tinv s U → 0 ≤ x →
    BLOCKS (x + HEADER_SIZE) ≤ ladder (array_size (arr s)) →
    array_size (arr s) + 1 < capacity (arr s) → array_size (arr s) < MAX_CELLS →
    ∃ s' p, alloc s x = Some (s', p) ∧ array_size (arr s') ≤ array_size (arr s) + 1.

(** An address inside the block of one of the areas [P], by the size
    the header of the block has in [s]. *)
Definition guarded (s : state) (P : gset Z) (a : Z) : Prop :=
  ∃ q, q ∈ P ∧
    item_from_area q ≤ a
    < item_from_area q + item_get_size (heap s) (item_from_area q) * BLOCK_SIZE.

(** From [s] to [s'] no word inside the blocks of the areas [P] changed. *)
Definition keeps (s s' : state) (P : gset Z) : Prop :=
  ∀ a, guarded s P a → load (heap s') a = load (heap s) a.

(** The area that holds the array has room for [capacity] cells. *)
Definition fitcap (s : state) : Prop :=
  capacity (arr s) * SIZEOF_CELL
  ≤ item_get_size (heap s) (item_from_area (data (arr s))) * BLOCK_SIZE - HEADER_SIZE.

(** What a run of allocator code from [s] to [s'] does to the blocks
    handed out: those of the callers are left alone, and either the
    array stayed where it was, its block left alone too, or it moved to
    a larger area that has room for its new capacity. *)
Definition steps (s s' : state) (U : gset Z) : Prop :=
  keeps s s' U ∧
  ((capacity (arr s') = capacity (arr s) ∧ data (arr s') = data (arr s) ∧
    keeps s s' (U ∪ {[data (arr s)]})) ∨
   (capacity (arr s) < capacity (arr s') ∧ fitcap s')).

Definition alloc_steps (alloc : state → Z → option (state * Z)) : Prop :=
  ∀ s U x s' p,
    tinv s U → 0 ≤ x → alloc s x = Some (s', p) → array_size (arr s') ≤ MAX_CELLS →
    steps s s' U.

Definition init_cells : list cell :=
  [Cell 3 []; Cell 4 []; Cell 5 []; Cell 7 []; Cell 10 []; Cell 14 []; Cell 19 [];
   Cell 26 []; Cell 36 []; Cell 50 []; Cell 69 []].

(** ** The free lists in memory *)

(** [dll h prev head l]: from [head] the next links of [h] run through
    the items [l] and end in NULL, and each item's previous link is the
    item before it, [prev] for the first. *)
Fixpoint dll (h : gmap Z Z) (prev head : Z) (l : list Z) : Prop :=
  match l with
  | [] => head = NULL
  | x :: l =>
      head = x ∧ x ≠ NULL ∧ Links.item_get_prev h x = prev ∧
      dll h x (Links.item_get_next h x) l
  end.

(** Two items whose three first words do not overlap. *)
Definition far (x y : Z) : Prop := x + 3 * POINTER_SIZE ≤ y ∨ y + 3 * POINTER_SIZE ≤ x.

Definition apart (l : list Z) : Prop :=
  NoDup l ∧ ∀ x y, x ∈ l → y ∈ l → x ≠ y → far x y.

(** The items of all free lists. *)
Definition all_items (cs : list cell) : list Z := cs ≫= cell_items.

(** [a] is word 1 or word 2 of an item of [l]. *)
Definition link_word (l : list Z) (a : Z) : Prop :=
  ∃ x, x ∈ l ∧ (a = x + POINTER_SIZE ∨ a = x + 2 * POINTER_SIZE).

(** The links in memory spell the lists of the cells. *)
Definition links_ok (s : state) (m : Links.lstate) : Prop :=
  Forall2 (λ c hd, dll (Links.mem m) NULL hd (cell_items c))
          (cells (arr s)) (Links.heads m) ∧
  apart (all_items (cells (arr s))).

Definition same_links (h h' : gmap Z Z) (x : Z) : Prop :=
  load h' (x + POINTER_SIZE) = load h (x + POINTER_SIZE) ∧
  load h' (x + 2 * POINTER_SIZE) = load h (x + 2 * POINTER_SIZE).

(** Giving the first item of a list another previous item. *)
Definition relink (h : gmap Z Z) (next prev : Z) : gmap Z Z :=
  if next =? NULL then h else Links.item_set_prev h next prev.

Ltac links :=
  unfold same_links, Links.item_set_prev, Links.item_set_next,
    Links.item_get_prev, Links.item_get_next, far, POINTER_SIZE, NULL in *.

(** ** The chunk list *)

(** A chunk [c] is the address and the index of its block: its first
    word, the link of the chunk list, lies before the block, and it ends
    behind the header of its sentinel. *)
Definition chunk_base (c : Z * Z) : Z := c.1 - POINTER_SIZE.
Definition chunk_end (c : Z * Z) : Z := sentinel c + POINTER_SIZE.

(** The chunks [cs] lie one behind the other from [lo] to [hi]. *)
Fixpoint tiles (lo : Z) (cs : list (Z * Z)) (hi : Z) : Prop :=
  match cs with
  | [] => lo = hi
  | c :: cs => chunk_base c = lo ∧ tiles (chunk_end c) cs hi
  end.

(** From [head] the first words of the chunks run through [bs] to NULL. *)
Fixpoint chain (h : gmap Z Z) (head : Z) (bs : list Z) : Prop :=
  match bs with
  | [] => head = NULL
  | b :: bs => head = b ∧ b ≠ NULL ∧ chain h (load h b) bs
  end.

Definition chunks_ok (s : state) (lo : Z) (cs : list (Z * Z)) : Prop :=
  0 < lo ∧ tiles lo cs (brk s) ∧
  chain (heap s) (mem_list s) (reverse (chunk_base <$> cs)).

(** [a] lies in the block of no chunk. *)
Definition outside (cs : list (Z * Z)) (a : Z) : Prop :=
  ∀ c, c ∈ cs → ¬ (c.1 ≤ a < sentinel c).

Definition kept_out (s s' : state) (cs : list (Z * Z)) : Prop :=
  ∀ a, outside cs a → load (heap s') a = load (heap s) a.

(** The invariant between calls with the chunk list: the chunks of the
    invariant are those of the list of [mem_list], laid out from [lo]
    to the break. *)
Definition finv (s : state) (U : gset Z) (lo : Z) : Prop :=
  (data (arr s) ∉ U) ∧
  ∃ cs L, inv s ∅ (U ∪ {[data (arr s)]}) cs L ∧ chunks_ok s lo cs.

Definition alloc_fin (alloc : state → Z → option (state * Z)) : Prop :=
  ∀ s U lo x s' p, finv s U lo → 0 ≤ x → alloc s x = Some (s', p) →
    array_size (arr s') ≤ MAX_CELLS → finv s' (U ∪ {[p]}) lo.

(** ** Coalesced and held blocks *)

(** [x] and the block [y] behind it are not two free halves of a split. *)
Definition unmerged (x y : leaf) : Prop :=
  l_lr x = LEFT → l_lr y = RIGHT → l_addr y = l_end x → l_idx y = l_idx x + 3 →
  l_used x = true ∨ l_used y = true.

(** No block of [L] and the block behind it are two free halves. *)
Fixpoint packed (L : list leaf) : Prop :=
  match L with
  | x :: L' => match L' with y :: _ => unmerged x y | [] => True end ∧ packed L'
  | [] => True
  end.

(** All blocks but [x] are coalesced. *)
Definition packed_but (x : leaf) (L : list leaf) : Prop :=
  ∃ A B, L = A ++ x :: B ∧ packed A ∧ packed B.

(** Every block in use is held: its area is in [X]. *)
Definition tight (X : gset Z) (L : list leaf) : Prop :=
  ∀ l, l ∈ L → l_used l = true → item_get_area (l_addr l) ∈ X.

(** Between calls: the chunk list is intact (when the host's break
    started above 0), no free block has a free buddy, and every block in
    use is held by the caller or by the array. *)
Definition neat (lo : Z) (U : gset Z) (s : state) (cs : list (Z * Z)) (L : list leaf)
  : Prop :=
  (0 < lo → chunks_ok s lo cs) ∧ packed L ∧ tight (U ∪ {[data (arr s)]}) L.

(** Within mem_alloc, with the block [x] taken but not handed out. *)
Definition neat_mid (lo : Z) (U : gset Z) (x : leaf) (s : state) (cs : list (Z * Z))
    (L : list leaf) : Prop :=
  (0 < lo → chunks_ok s lo cs) ∧ packed L ∧
  tight (U ∪ {[data (arr s)]} ∪ {[item_get_area (l_addr x)]}) L.

(** The invariant between calls together with a property [E] of the
    held areas, the state, the chunks and the blocks. *)
Definition xinv (E : gset Z → state → list (Z * Z) → list leaf → Prop)
    (s : state) (U : gset Z) : Prop :=
  (data (arr s) ∉ U) ∧
  ∃ cs L, inv s ∅ (U ∪ {[data (arr s)]}) cs L ∧ E U s cs L.

(** An allocator that keeps [xinv E]. *)
Definition alloc_x (E : gset Z → state → list (Z * Z) → list leaf → Prop)
    (alloc : state → Z → option (state * Z)) : Prop :=
  ∀ s U x s' p, xinv E s U → 0 ≤ x → alloc s x = Some (s', p) →
    array_size (arr s') ≤ MAX_CELLS → xinv E s' (U ∪ {[p]}).

(** ** Reachable states *)

(** The calls a client makes. *)
Inductive op := Alloc (x : Z) | Free (area : Z).

(** Every term of the array passes 32-bit arithmetic unchanged. *)
Definition fits (s : state) : bool := array_size (arr s) <=? MAX_CELLS.

(** Runs the calls in order from [s]; [U] are the areas handed out and
    not yet freed.  A call outside the contract of the interface (a
    byte count that is no [unsigned int], a pointer that is not held)
    or past [fits] ends the run. *)
Fixpoint run (fuel : nat) (ops : list op) (s : state) (U : gset Z)
  : option (state * gset Z) :=
  match ops with
  | [] => Some (s, U)
  | Alloc x :: ops =>
      if (0 <=? x) && (x <? 2 ^ 32) then
        '(s, p) ← mem_alloc fuel s x;
        if fits s then run fuel ops s (U ∪ {[p]}) else None
      else None
  | Free area :: ops =>
      if decide (area ∈ U) then
        s ← mem_free s area;
        run fuel ops s (U ∖ {[area]})
      else None
  end.

(** The states the allocator gets to, with the areas its callers hold:
    after mem_init, by calls of mem_alloc and mem_free, as long as the
    array has at most [MAX_CELLS] cells; past that a chunk has 4 GiB or
    more and the 32-bit product of alloc_new_item wraps. *)
Definition reachable (s : state) (U : gset Z) : Prop :=
  ∃ s0 s1 fuel ops, mem_init s0 = Some s1 ∧ run fuel ops s1 ∅ = Some (s, U).

(** ** Every sequence of calls *)

(** The longest array whose sizes all fit the 61-bit size field of a
    header, and the longest whose sizes all fit a [uintptr_t]. *)
Definition HDR_CELLS : Z := 129.
Definition WORD_CELLS : Z := 135.

(** The sizes of the cells as array_init and array_inc_size compute
    them: the terms of the sequence, in the arithmetic of [uintptr_t]. *)
Definition sized (a : array) : Prop :=
  ARRAY_INIT_SIZE ≤ array_size a ∧
  ∀ j c, cells a !! j = Some c → cell_size c = uintptr (ladder (Z.of_nat j)).

(** What every operation does to the array and to the host's break. *)
Definition grown (s s' : state) : Prop :=
  (sized (arr s) → sized (arr s')) ∧ brk s ≤ brk s' ∧
  array_size (arr s) ≤ array_size (arr s').


(** The states the allocator gets to from [s0] by mem_init and then
    calls of mem_alloc and mem_free, however long the array gets; [U]
    are the areas handed out and not yet freed. *)
Inductive calls (s0 : state) : state → gset Z → Prop :=
  | calls_init s :
      mem_init s0 = Some s → calls s0 s ∅
  | calls_alloc s U fuel x s' p :
      calls s0 s U → 0 ≤ x < 2 ^ 32 → mem_alloc fuel s x = Some (s', p) →
      calls s0 s' (U ∪ {[p]})
  | calls_free s U p s' :
      calls s0 s U → p ∈ U → mem_free s p = Some s' → calls s0 s' (U ∖ {[p]}).

(** The size field of the header at [a]: the 61 bits above the flags. *)
Definition fld (h : gmap Z Z) (a : Z) : Z := item_get_size h a mod 2 ^ 61.

(** No header that was not of MIN_SIZE in [h] is of MIN_SIZE in [h']. *)
Definition no_new_min (h h' : gmap Z Z) : Prop :=
  ∀ a, fld h a ≠ MIN_SIZE → fld h' a ≠ MIN_SIZE.




(** ** Writes of the caller *)

(** [h] is the heap of [s] after the caller wrote into areas it holds:
    every word that overlaps no area of [U] is as it was. *)
Definition scribbled (s : state) (U : gset Z) (h : gmap Z Z) : Prop :=
  ∀ k,
    (∀ q, q ∈ U →
       k + POINTER_SIZE ≤ q ∨
       item_from_area q + item_get_size (heap s) (item_from_area q) * BLOCK_SIZE ≤ k) →
    load h k = load (heap s) k.

(** The states a client reaches that, between the calls, writes into
    the areas it holds. *)
Inductive ureach : state → gset Z → Prop :=
  | ureach_init s0 s :
      mem_init s0 = Some s → ureach s ∅
  | ureach_alloc s U fuel x s' p :
      ureach s U → 0 ≤ x < 2 ^ 32 → mem_alloc fuel s x = Some (s', p) → fits s' = true →
      ureach s' (U ∪ {[p]})
  | ureach_free s U p s' :
      ureach s U → p ∈ U → mem_free s p = Some s' → ureach s' (U ∖ {[p]})
  | ureach_write s U h :
      ureach s U → scribbled s U h → ureach (set_heap s h) U.

(** ** Concrete states *)

(** The state the examples start from: an empty heap, the host's
    break at 4096. *)
Definition boot : state := State ∅ (Array 0 [] 0) 0 4096.

Definition s_init : state := default boot (mem_init boot).

(** [s_init], then [a = mem_alloc(100)], [b = mem_alloc(40)]. *)
Definition ops_ab : list op := [Alloc 100; Alloc 40].
Definition s_ab : state * gset Z := default (boot, ∅) (run 2 ops_ab s_init ∅).

Definition s_61 : state * Z := default (boot, 0) (mem_alloc 60 s_init 3974807624).

(** [s_ab] after the caller stored a word at the start of the area
    4680. *)
Definition s_w : state := set_heap s_ab.1 (store (heap s_ab.1) 4680 12345).

(** The state after mem_init and mem_alloc(1), and that state with the
    block of 19 blocks taken off the list of cell 6, as mem_alloc does
    before it calls split_item. *)
Definition s_a1 : state := default boot (fst <$> mem_alloc 2 s_init 1).
Definition s_t : state := default boot (fst <$> take_item s_a1 6).

(** A state whose unused memory holds old data: the words at 4104 and
    at 4128 have their three flag bits set. *)
Definition junk : state := State {[4104 := 7; 4128 := 7]} (Array 0 [] 0) 0 4096.

(** Eight times mem_alloc(24) on [s_init], then mem_free of the fourth
    area: the list of cell 4 holds two items.  [m_l] are the links of
    the lists of that state. *)
Definition ops_l : list op :=
  [Alloc 24; Alloc 24; Alloc 24; Alloc 24; Alloc 24; Alloc 24; Alloc 24; Alloc 24;
   Free 4808].
Definition s_l : state * gset Z := default (boot, ∅) (run 2 ops_l s_init ∅).
Definition m_l : Links.lstate :=
  Links.LState {[4808 := 0; 4816 := 5064; 5072 := 4800; 5080 := 0; 5152 := 0; 5160 := 0]}
               ((λ c, hd NULL (cell_items c)) <$> cells (arr s_l.1)).

(** Eight times mem_alloc(24) on [s_init], then mem_free of all eight
    areas. *)
Definition ops_f : list op :=
  [Alloc 24; Alloc 24; Alloc 24; Alloc 24; Alloc 24; Alloc 24; Alloc 24; Alloc 24;
   Free 4808; Free 4736; Free 4680; Free 5040; Free 4776; Free 4888; Free 4960; Free 4928].
Definition s_f : state * gset Z := default (boot, ∅) (run 2 ops_f s_init ∅).

(** [s'] has the heap [h] and the array of [s] up to the free lists. *)
Definition like (s : state) (h : gmap Z Z) (s' : state) : Prop :=
  heap s' = h ∧ same_frame s s'.

(** * Properties *)

(** ** Words and the header codec *)

Lemma testbit_mask (w k : Z) :
  0 ≤ k → negb (Z.land w (2 ^ k) =? 0) = Z.testbit w k.
Proof.
  intros Hk. destruct (Z.testbit w k) eqn:Hb.
  - apply negb_true_iff, Z.eqb_neq. intros H0.
    assert (Z.testbit (Z.land w (2 ^ k)) k = false) as Hc by (rewrite H0; apply Z.bits_0).
    rewrite Z.land_spec, Hb, Z.pow2_bits_true in Hc by done. done.
  - apply negb_false_iff, Z.eqb_eq, Z.bits_inj'. intros n Hn.
    rewrite Z.land_spec, Z.bits_0, Z.pow2_bits_eqb by done.
    destruct (Z.eqb_spec k n) as [->|]; [by rewrite Hb | apply andb_false_r].
Qed.

Lemma in_use_testbit h a : item_is_in_use h a = Z.testbit (load h a) 2.
Proof. apply (testbit_mask _ 2). lia. Qed.
Lemma lr_testbit h a : item_get_lr_bit h a = Z.testbit (load h a) 1.
Proof. apply (testbit_mask _ 1). lia. Qed.
Lemma inh_testbit h a : item_get_inh_bit h a = Z.testbit (load h a) 0.
Proof. apply (testbit_mask _ 0). lia. Qed.

Lemma load_store h a w b : load (store h a w) b = if decide (a = b) then w else load h b.
Proof. unfold load, store. rewrite lookup_insert. by case_decide. Qed.

Lemma load_store_eq h a w : load (store h a w) a = w.
Proof. rewrite load_store. by case_decide. Qed.

Lemma load_store_ne h a w b : a ≠ b → load (store h a w) b = load h b.
Proof. intros. rewrite load_store. by case_decide. Qed.

(** The word written by [set_flag]. *)
Lemma set_flag_bits w k v n :
  0 ≤ k < 64 → 0 ≤ n →
  Z.testbit (Z.lor (Z.land w (2 ^ 64 - 1 - 2 ^ k)) (if v : bool then 2 ^ k else 0)) n
  = if n =? k then v else Z.testbit w n && (n <? 64).
Proof.
  intros Hk Hn.
  assert (2 ^ 64 - 1 - 2 ^ k = Z.ldiff (Z.ones 64) (2 ^ k)) as ->.
  { replace (2 ^ 64 - 1) with (Z.ones 64) by reflexivity.
    apply Z.sub_nocarry_ldiff.
    apply Z.bits_inj'. intros m Hm. rewrite Z.ldiff_spec, Z.bits_0, Z.pow2_bits_eqb by lia.
      destruct (Z.eqb_spec k m) as [<-|]; [|done].
      rewrite Z.ones_spec_low by lia. done. }
  rewrite Z.lor_spec, Z.land_spec, Z.ldiff_spec, Z.pow2_bits_eqb by lia.
  assert (Z.testbit (Z.ones 64) n = (n <? 64)) as ->.
  { destruct (Z.ltb_spec n 64); [apply Z.ones_spec_low | apply Z.ones_spec_high]; lia. }
  rewrite (Z.eqb_sym k n).
  destruct (Z.eqb_spec n k) as [->|Hne].
  - destruct v; [rewrite Z.pow2_bits_true by lia|rewrite Z.bits_0]; simpl.
    + apply orb_true_r.
    + by rewrite !andb_false_r.
  - assert (Z.testbit (if v then 2 ^ k else 0) n = false) as ->.
    { destruct v; [|apply Z.bits_0]. apply Z.pow2_bits_false. lia. }
    simpl. by rewrite andb_true_r, orb_false_r.
Qed.

Lemma testbit_high (sz n m : Z) : 0 ≤ sz < 2 ^ m → m ≤ n → Z.testbit sz n = false.
Proof.
  intros [H0 H1] Hn. destruct (decide (sz = 0)) as [->|]; [apply Z.bits_0|].
  apply Z.bits_above_log2; [done|].
  assert (Z.log2 sz < m); [|lia]. apply Z.log2_lt_pow2; lia.
Qed.

Lemma header_fun h a sz u lr inh sz' u' lr' inh' :
  header h a sz u lr inh → header h a sz' u' lr' inh' →
  sz = sz' ∧ u = u' ∧ lr = lr' ∧ inh = inh'.
Proof. unfold header. intros (<- & <- & <- & <-) (<- & <- & <- & <-). done. Qed.

Lemma set_size_word (w sz n : Z) :
  0 ≤ n →
  Z.testbit (Z.lor (Z.land w 7) (uintptr (Z.shiftl sz 3))) n
  = if n <? 3 then Z.testbit w n else Z.testbit sz (n - 3) && (n <? 64).
Proof.
  intros Hn. unfold uintptr.
  rewrite Z.lor_spec, Z.land_spec, Z.testbit_mod_pow2 by lia.
  change 7 with (Z.ones 3).
  destruct (Z.ltb_spec n 3).
  - rewrite Z.ones_spec_low, Z.shiftl_spec_low by lia.
    by rewrite andb_true_r, andb_false_r, orb_false_r.
  - rewrite Z.ones_spec_high, Z.shiftl_spec by lia.
    rewrite andb_false_r. simpl. apply andb_comm.
Qed.

Lemma header_set_size h a sz :
  0 ≤ sz < 2 ^ 61 →
  header (item_set_size h a sz) a sz
    (item_is_in_use h a) (item_get_lr_bit h a) (item_get_inh_bit h a).
Proof.
  intros Hsz. unfold header.
  rewrite !in_use_testbit, !lr_testbit, !inh_testbit.
  unfold item_get_size, item_set_size. rewrite !load_store_eq.
  rewrite !set_size_word by lia. split_and!; try done.
  apply Z.bits_inj'. intros n Hn.
  rewrite Z.shiftr_spec, set_size_word by lia.
  destruct (Z.ltb_spec (n + 3) 3); [lia|].
  replace (n + 3 - 3) with n by lia.
  destruct (Z.ltb_spec (n + 3) 64); [apply andb_true_r|].
  rewrite andb_false_r. symmetry. apply (testbit_high sz n 61); lia.
Qed.

Lemma header_set_flag h a k v sz :
  0 ≤ k < 3 → 0 ≤ sz < 2 ^ 61 → item_get_size h a = sz →
  let h' := set_flag h a (2 ^ k) v in
  item_get_size h' a = sz ∧
  item_is_in_use h' a = (if k =? 2 then v else item_is_in_use h a) ∧
  item_get_lr_bit h' a = (if k =? 1 then v else item_get_lr_bit h a) ∧
  item_get_inh_bit h' a = (if k =? 0 then v else item_get_inh_bit h a).
Proof.
  intros Hk Hsz Hs h'. subst h'.
  rewrite !in_use_testbit, !lr_testbit, !inh_testbit.
  unfold item_get_size, set_flag in *. rewrite !load_store_eq.
  rewrite !set_flag_bits by lia.
  split_and!.
  - rewrite <-Hs. apply Z.bits_inj'. intros n Hn.
    rewrite !Z.shiftr_spec, set_flag_bits by lia.
    destruct (Z.eqb_spec (n + 3) k); [lia|].
    destruct (Z.ltb_spec (n + 3) 64); [apply andb_true_r|].
    rewrite andb_false_r. symmetry.
    rewrite <-Z.shiftr_spec by lia. rewrite Hs. apply (testbit_high sz n 61); lia.
  - rewrite (Z.eqb_sym k 2). destruct (2 =? k); [done|]. apply andb_true_r.
  - rewrite (Z.eqb_sym k 1). destruct (1 =? k); [done|]. apply andb_true_r.
  - rewrite (Z.eqb_sym k 0). destruct (0 =? k); [done|]. apply andb_true_r.
Qed.

Lemma header_set_in_use h a sz u lr inh v :
  0 ≤ sz < 2 ^ 61 → header h a sz u lr inh →
  header (item_set_in_use h a v) a sz v lr inh.
Proof.
  intros Hsz (Hs & Hu & Hl & Hi).
  destruct (header_set_flag h a 2 v sz) as (? & ? & ? & ?); [lia..|done|].
  unfold header, item_set_in_use. simpl in *. by subst.
Qed.

Lemma header_set_lr_bit h a sz u lr inh v :
  0 ≤ sz < 2 ^ 61 → header h a sz u lr inh →
  header (item_set_lr_bit h a v) a sz u v inh.
Proof.
  intros Hsz (Hs & Hu & Hl & Hi).
  destruct (header_set_flag h a 1 v sz) as (? & ? & ? & ?); [lia..|done|].
  unfold header, item_set_lr_bit. simpl in *. by subst.
Qed.

Lemma header_set_inh_bit h a sz u lr inh v :
  0 ≤ sz < 2 ^ 61 → header h a sz u lr inh →
  header (item_set_inh_bit h a v) a sz u lr v.
Proof.
  intros Hsz (Hs & Hu & Hl & Hi).
  destruct (header_set_flag h a 0 v sz) as (? & ? & ? & ?); [lia..|done|].
  unfold header, item_set_inh_bit. simpl in *. by subst.
Qed.

Lemma same_at_header h h' b sz u lr inh :
  same_at h h' b → header h b sz u lr inh → header h' b sz u lr inh.
Proof.
  unfold same_at, header, item_get_size, item_is_in_use, item_get_lr_bit, item_get_inh_bit.
  by intros ->.
Qed.

Lemma same_at_refl h b : same_at h h b.
Proof. done. Qed.

Lemma same_at_trans h1 h2 h3 b : same_at h1 h2 b → same_at h2 h3 b → same_at h1 h3 b.
Proof. unfold same_at. congruence. Qed.

Lemma same_at_set_size h a sz b : a ≠ b → same_at h (item_set_size h a sz) b.
Proof. intros. unfold same_at, item_set_size. by rewrite load_store_ne. Qed.

Lemma same_at_set_flag h a k v b : a ≠ b → same_at h (set_flag h a k v) b.
Proof. intros. unfold same_at, set_flag. by rewrite load_store_ne. Qed.

Lemma same_at_store h a w b : a ≠ b → same_at h (store h a w) b.
Proof. intros. unfold same_at. by rewrite load_store_ne. Qed.

(** ** The generalized Fibonacci sequence of the array *)

Lemma lad4_spec n :
  lad4 n = (ladder (Z.of_nat n), ladder (Z.of_nat n + 1),
            ladder (Z.of_nat n + 2), ladder (Z.of_nat n + 3)).
Proof.
  unfold ladder.
  replace (Z.to_nat (Z.of_nat n + 1)) with (S n) by lia.
  replace (Z.to_nat (Z.of_nat n + 2)) with (S (S n)) by lia.
  replace (Z.to_nat (Z.of_nat n + 3)) with (S (S (S n))) by lia.
  rewrite Nat2Z.id. simpl. destruct (lad4 n) as [[[a b] c] d]. done.
Qed.

Lemma ladder_rec i : 4 ≤ i → ladder i = ladder (i - 1) + ladder (i - 4).
Proof.
  intros Hi. pose proof (lad4_spec (Z.to_nat (i - 4))) as H.
  rewrite Z2Nat.id in H by lia.
  unfold ladder at 1. replace (Z.to_nat i) with (S (S (S (S (Z.to_nat (i - 4)))))) by lia.
  simpl. rewrite H. simpl. f_equal. f_equal. lia.
Qed.

Lemma ladder_neg i : i ≤ 0 → ladder i = 3.
Proof. intros. unfold ladder. by replace (Z.to_nat i) with O by lia. Qed.

Lemma ladder_step i : 0 ≤ i → 3 ≤ ladder i ∧ ladder i < ladder (i + 1).
Proof.
  intros Hi. revert i Hi Hi.
  apply (Z_lt_induction (λ i, 0 ≤ i → 3 ≤ ladder i ∧ ladder i < ladder (i + 1))).
  intros i IH Hi.
  destruct (decide (i = 0)) as [->|]; [by vm_compute|].
  destruct (decide (i = 1)) as [->|]; [by vm_compute|].
  destruct (decide (i = 2)) as [->|]; [by vm_compute|].
  rewrite (ladder_rec (i + 1)) by lia.
  replace (i + 1 - 1) with i by lia. replace (i + 1 - 4) with (i - 3) by lia.
  pose proof (IH (i - 3)). pose proof (IH (i - 1)).
  replace (i - 1 + 1) with i in * by lia. lia.
Qed.

Lemma ladder_lt i j : 0 ≤ i < j → ladder i < ladder j.
Proof.
  intros [Hi Hij]. replace j with (i + 1 + Z.of_nat (Z.to_nat (j - i - 1))) by lia.
  induction (Z.to_nat (j - i - 1)) as [|k IH].
  - rewrite Z.add_0_r. by apply ladder_step.
  - etrans; [apply IH|]. rewrite Nat2Z.inj_succ.
    replace (i + 1 + Z.succ (Z.of_nat k)) with (i + 1 + Z.of_nat k + 1) by lia.
    apply ladder_step. lia.
Qed.

Lemma ladder_le i j : 0 ≤ i ≤ j → ladder i ≤ ladder j.
Proof.
  intros. destruct (decide (i = j)) as [->|]; [done|].
  apply Z.lt_le_incl, ladder_lt. lia.
Qed.

Lemma ladder_inj i j : 0 ≤ i → 0 ≤ j → ladder i = ladder j → i = j.
Proof.
  intros Hi Hj Heq. destruct (Z.lt_trichotomy i j) as [?|[?|?]]; [|done|].
  - pose proof (ladder_lt i j). lia.
  - pose proof (ladder_lt j i). lia.
Qed.

Lemma ladder_ge i : 0 ≤ i → 3 ≤ ladder i.
Proof. intros. by apply ladder_step. Qed.

Lemma ladder_small i : 0 ≤ i < MAX_CELLS → ladder i < 2 ^ 29.
Proof.
  intros. assert (ladder i ≤ ladder (MAX_CELLS - 1)) by (apply ladder_le; lia).
  assert (ladder (MAX_CELLS - 1) < 2 ^ 29) by (by vm_compute). lia.
Qed.

(** ** Blocks of a chunk *)

Lemma app_eq_mid {A} (L1 L2 A0 B : list A) (x : A) :
  L1 ++ L2 = A0 ++ x :: B →
  (∃ K, L1 = A0 ++ x :: K ∧ B = K ++ L2) ∨ (∃ K, L2 = K ++ x :: B ∧ A0 = L1 ++ K).
Proof.
  revert A0. induction L1 as [|a L1 IH]; intros A0 H; simpl in *.
  - right. by exists A0.
  - destruct A0 as [|a' A0]; simpl in *; injection H as -> H.
    + left. by exists L1.
    + destruct (IH _ H) as [(K & -> & ->)|(K & -> & ->)]; [left|right]; by exists K.
Qed.

Lemma l_end_gt l : 0 ≤ l_idx l → l_addr l < l_end l.
Proof. intros. unfold l_end, BLOCK_SIZE. pose proof (ladder_ge (l_idx l)). lia. Qed.

Lemma asc_le lo L hi : asc lo L hi → lo ≤ hi.
Proof.
  revert lo. induction L as [|l L IH]; simpl; intros lo; [done|].
  intros (? & ? & H). apply IH in H. pose proof (l_end_gt l). lia.
Qed.

Lemma asc_weaken lo lo' L hi hi' : asc lo L hi → lo' ≤ lo → hi ≤ hi' → asc lo' L hi'.
Proof.
  revert lo lo'. induction L as [|l L IH]; simpl; intros lo lo'; [lia|].
  intros (? & ? & H) ? ?. split_and!; [lia|done|]. eapply IH; [done|lia..].
Qed.

Lemma asc_app lo L1 L2 hi :
  asc lo (L1 ++ L2) hi ↔ ∃ mid, asc lo L1 mid ∧ asc mid L2 hi.
Proof.
  revert lo. induction L1 as [|l L1 IH]; simpl; intros lo.
  - split.
    + intros H. exists lo. split; [lia|done].
    + intros (mid & ? & H). eapply asc_weaken; [done|lia..].
  - rewrite IH. split.
    + intros (? & ? & mid & ? & ?). exists mid. done.
    + intros (mid & (? & ? & ?) & ?). split_and!; [done..|]. by exists mid.
Qed.

Lemma asc_mid lo A x B hi :
  asc lo (A ++ x :: B) hi →
  asc lo A (l_addr x) ∧ 1 ≤ l_idx x ∧ asc (l_end x) B hi.
Proof.
  rewrite asc_app. intros (mid & HA & Hm & ? & HB). split_and!; [|done..].
  eapply asc_weaken; [done|lia..].
Qed.

Lemma asc_mid_2 lo A x B hi :
  asc lo A (l_addr x) → 1 ≤ l_idx x → asc (l_end x) B hi → asc lo (A ++ x :: B) hi.
Proof. intros. apply asc_app. exists (l_addr x). simpl. split_and!; [done|lia|done..]. Qed.

Lemma asc_Forall lo L hi :
  asc lo L hi → Forall (λ l, lo ≤ l_addr l ∧ l_end l ≤ hi ∧ 1 ≤ l_idx l) L.
Proof.
  revert lo. induction L as [|l L IH]; simpl; intros lo; [done|].
  intros (? & ? & H). constructor.
  - apply asc_le in H. lia.
  - eapply Forall_impl; [by apply IH|]. simpl. intros l' (? & ? & ?).
    pose proof (l_end_gt l). lia.
Qed.

(** In an ascending list a block is known by any address inside it. *)
Lemma asc_inside lo L hi l1 l2 w :
  asc lo L hi → l1 ∈ L → l2 ∈ L →
  l_addr l1 ≤ w < l_end l1 → l_addr l2 ≤ w < l_end l2 → l1 = l2.
Proof.
  intros Hasc H1 H2 Hw1 Hw2.
  apply list_elem_of_split in H1 as (A & B & ->).
  apply asc_mid in Hasc as (HA & ? & HB).
  apply asc_Forall in HA, HB. rewrite Forall_forall in HA, HB.
  apply elem_of_app in H2 as [H2|H2].
  - apply HA in H2. lia.
  - apply elem_of_cons in H2 as [->|H2]; [done|]. apply HB in H2. lia.
Qed.

Lemma asc_addr_inj lo L hi l1 l2 :
  asc lo L hi → l1 ∈ L → l2 ∈ L → l_addr l1 = l_addr l2 → l1 = l2.
Proof.
  intros Hasc H1 H2 Heq. eapply (asc_inside _ _ _ _ _ (l_addr l1)); [done..| |].
  - apply asc_Forall in Hasc. rewrite Forall_forall in Hasc.
    apply Hasc in H1. pose proof (l_end_gt l1). lia.
  - apply asc_Forall in Hasc. rewrite Forall_forall in Hasc.
    apply Hasc in H2. pose proof (l_end_gt l2). lia.
Qed.

Lemma asc_not_elem lo A x B hi l :
  asc lo (A ++ x :: B) hi → l ∈ A ++ B → l_addr l ≠ l_addr x ∧ l ≠ x.
Proof.
  intros Hasc Hl. apply asc_mid in Hasc as (HA & ? & HB).
  apply asc_Forall in HA, HB. rewrite Forall_forall in HA, HB.
  pose proof (l_end_gt x). pose proof (l_end_gt l).
  apply elem_of_app in Hl as [Hl|Hl]; [apply HA in Hl|apply HB in Hl];
    split; try intros ->; lia.
Qed.

(** *** Shape of a split block *)

Lemma covers_first a i lr inh L :
  covers a i lr inh L →
  ∃ y L', L = y :: L' ∧ l_addr y = a ∧ l_idx y ≤ i ∧
          (l_idx y = i → L' = [] ∧ l_lr y = lr ∧ l_inh y = inh).
Proof.
  induction 1 as [a i lr inh u|a i lr inh L1 L2 Hi _ IH1 _ _].
  - eexists _, _. split_and!; [done..|]. done.
  - destruct IH1 as (y & L' & -> & ? & ? & _).
    exists y, (L' ++ L2). split_and!; [done..|lia|lia].
Qed.

Lemma covers_asc a i lr inh L :
  1 ≤ i → covers a i lr inh L → asc a L (a + ladder i * BLOCK_SIZE).
Proof.
  intros Hi H. induction H as [a i lr inh u|a i lr inh L1 L2 Hi' _ IH1 _ IH2].
  - simpl. unfold l_end. simpl. lia.
  - apply asc_app. eexists. split; [apply IH1; lia|].
    rewrite (ladder_rec i) by lia.
    eapply asc_weaken; [apply IH2; lia|lia|unfold BLOCK_SIZE; lia].
Qed.

Lemma covers_idx a i lr inh L :
  1 ≤ i → covers a i lr inh L → Forall (λ l, 1 ≤ l_idx l ≤ i) L.
Proof.
  intros Hi H. induction H as [a i lr inh u|a i lr inh L1 L2 Hi' _ IH1 _ IH2].
  - constructor; [simpl; lia|done].
  - apply Forall_app. split.
    + eapply Forall_impl; [apply IH1; lia|]. simpl. lia.
    + eapply Forall_impl; [apply IH2; lia|]. simpl. lia.
Qed.

Lemma covers_set_used a i lr inh A x B u :
  covers a i lr inh (A ++ x :: B) → covers a i lr inh (A ++ set_used x u :: B).
Proof.
  intros H. remember (A ++ x :: B) as L eqn:HL. revert A B HL.
  induction H as [a i lr inh u'|a i lr inh L1 L2 Hi H1 IH1 H2 IH2]; intros A B HL.
  - destruct A as [|? [|]]; simplify_eq/=. apply covers_leaf.
  - apply app_eq_mid in HL as [(K & -> & ->)|(K & -> & ->)].
    + replace (A ++ set_used x u :: K ++ L2)
        with ((A ++ set_used x u :: K) ++ L2) by (by rewrite <-app_assoc).
      apply covers_node; [done| |done]. by apply IH1.
    + rewrite <-app_assoc. apply covers_node; [done..|]. by apply IH2.
Qed.

Lemma covers_split a i lr inh A x B u1 u2 :
  covers a i lr inh (A ++ x :: B) → 4 < l_idx x →
  covers a i lr inh (A ++ left_child x u1 :: right_child x u2 :: B).
Proof.
  intros H Hx. remember (A ++ x :: B) as L eqn:HL. revert A B HL.
  induction H as [a i lr inh u'|a i lr inh L1 L2 Hi H1 IH1 H2 IH2]; intros A B HL.
  - destruct A as [|? [|]]; simplify_eq/=.
    apply (covers_node a i lr inh [_] [_]); [done|apply covers_leaf..].
  - apply app_eq_mid in HL as [(K & -> & ->)|(K & -> & ->)].
    + replace (A ++ left_child x u1 :: right_child x u2 :: K ++ L2)
        with ((A ++ left_child x u1 :: right_child x u2 :: K) ++ L2)
        by (by rewrite <-app_assoc).
      apply covers_node; [done| |done]. by apply IH1.
    + rewrite <-app_assoc. apply covers_node; [done..|]. by apply IH2.
Qed.

(** The buddy of a left block: the next block begins where the buddy
    does, and it is the buddy itself exactly when its index is the one
    three cells up. *)
Lemma covers_buddy_left a i lr inh A x B :
  covers a i lr inh (A ++ x :: B) → l_lr x = LEFT →
  (A = [] ∧ B = [] ∧ l_addr x = a ∧ l_idx x = i ∧ lr = LEFT) ∨
  (∃ y B', B = y :: B' ∧ l_addr y = l_end x ∧ l_idx x + 4 ≤ i ∧
           l_idx y ≤ l_idx x + 3 ∧
           (l_idx y = l_idx x + 3 → covers a i lr inh (A ++ parent x y :: B'))).
Proof.
  intros H Hx. remember (A ++ x :: B) as L eqn:HL. revert A B HL.
  induction H as [a i lr inh u'|a i lr inh L1 L2 Hi H1 IH1 H2 IH2]; intros A B HL.
  - left. destruct A as [|? [|]]; simplify_eq/=. done.
  - right. apply app_eq_mid in HL as [(K & -> & ->)|(K & -> & ->)].
    + destruct (IH1 _ _ eq_refl) as [(-> & -> & Ha & Hxi & _)|(y & B' & -> & ? & ? & ? & Hm)].
      * destruct (covers_first _ _ _ _ _ H2) as (y & L' & -> & Hy & ? & Hy').
        exists y, L'. unfold l_end. rewrite Hxi, Hy, Ha. split_and!; [done..|lia|lia|].
        intros Hyi. destruct Hy' as (-> & Hlr & Hinh); [lia|].
        simpl. unfold parent. rewrite Hxi, Ha, Hinh.
        pose proof (covers_first _ _ _ _ _ H1) as (x' & L'' & [= <- <-] & _ & _ & Hx').
        destruct Hx' as (_ & _ & ->); [done|].
        replace (i - 4 + 4) with i by lia. apply covers_leaf.
      * exists y, (B' ++ L2). split_and!; [done..|lia|done|].
        intros Hyi. replace (A ++ parent x y :: B' ++ L2)
          with ((A ++ parent x y :: B') ++ L2) by (by rewrite <-app_assoc).
        apply covers_node; [done| |done]. by apply Hm.
    + destruct (IH2 _ _ eq_refl) as [(-> & -> & Ha & Hxi & ?)|(y & B' & -> & ? & ? & ? & Hm)];
        [done|].
      exists y, B'. split_and!; [done..|lia|done|].
      intros Hyi. rewrite <-app_assoc. apply covers_node; [done..|]. by apply Hm.
Qed.

(** The buddy of a right block begins [ladder (i - 3)] blocks below
    it; the block found there is the buddy itself exactly when its
    index is the one three cells down. *)
Lemma covers_buddy_right a i lr inh A x B :
  covers a i lr inh (A ++ x :: B) → l_lr x = RIGHT →
  (A = [] ∧ B = [] ∧ l_addr x = a ∧ l_idx x = i ∧ lr = RIGHT) ∨
  (∃ A0 y K, A = A0 ++ y :: K ∧
             l_addr y = l_addr x - ladder (l_idx x - 3) * BLOCK_SIZE ∧
             4 ≤ l_idx x ∧ l_idx x + 1 ≤ i ∧ l_idx y ≤ l_idx x - 3 ∧
             (l_idx y = l_idx x - 3 →
              K = [] ∧ l_end y = l_addr x ∧
              covers a i lr inh (A0 ++ parent (set_used y false) x :: B) ∧
              l_idx (parent y x) = l_idx x + 1)).
Proof.
  intros H Hx. remember (A ++ x :: B) as L eqn:HL. revert A B HL.
  induction H as [a i lr inh u'|a i lr inh L1 L2 Hi H1 IH1 H2 IH2]; intros A B HL.
  - left. destruct A as [|? [|]]; simplify_eq/=. done.
  - right. apply app_eq_mid in HL as [(K & -> & ->)|(K & -> & ->)].
    + destruct (IH1 _ _ eq_refl)
        as [(-> & -> & Ha & Hxi & ?)|(A0 & y & K' & -> & ? & ? & ? & ? & Hm)]; [done|].
      exists A0, y, K'. split_and!; [done..|lia|done|].
      intros Hyi. destruct (Hm Hyi) as (-> & ? & Hc & ?). split_and!; [done..| |done].
      replace (A0 ++ parent (set_used y false) x :: K ++ L2)
        with ((A0 ++ parent (set_used y false) x :: K) ++ L2) by (by rewrite <-app_assoc).
      apply covers_node; [done| |done]. done.
    + destruct (IH2 _ _ eq_refl)
        as [(-> & -> & Ha & Hxi & _)|(A0 & y & K' & -> & ? & ? & ? & ? & Hm)].
      * destruct (covers_first _ _ _ _ _ H1) as (y & L' & -> & Hy & ? & Hy').
        exists [], y, L'. rewrite app_nil_r, Hxi, Hy, Ha.
        replace (i - 1 - 3) with (i - 4) by lia.
        split_and!; [done|lia|lia|lia|lia|].
        intros Hyi. destruct Hy' as (-> & Hlr & Hinh); [lia|].
        pose proof (covers_first _ _ _ _ _ H2) as (x' & L'' & [= <- <-] & _ & _ & Hx').
        destruct Hx' as (_ & _ & Hxinh); [done|].
        split_and!; [done|unfold l_end; rewrite Hy, Hyi; lia| |simpl; lia].
        simpl. unfold parent. simpl. rewrite Hy, Hyi, Hinh, Hxinh.
        replace (i - 4 + 4) with i by lia. apply covers_leaf.
      * exists (L1 ++ A0), y, K'. rewrite <-app_assoc. split_and!; [done..|lia|done|].
        intros Hyi. destruct (Hm Hyi) as (-> & ? & Hc & ?). split_and!; [done..| |done].
        rewrite <-app_assoc. apply covers_node; [done..|].
        done.
Qed.

(** *** The blocks of all chunks *)

Lemma forest_snoc cs L b i inh L' :
  forest cs L → covers b i LEFT inh L' → forest (cs ++ [(b, i)]) (L ++ L').
Proof.
  induction 1 as [|b0 i0 inh0 L0 cs L1 Hc Hf IH]; intros H'; simpl.
  - rewrite <-(app_nil_r L'). apply (forest_cons _ _ inh); [done|constructor].
  - rewrite <-app_assoc. apply (forest_cons _ _ inh0); [done|]. by apply IH.
Qed.

Lemma forest_set_used cs A x B u :
  forest cs (A ++ x :: B) → forest cs (A ++ set_used x u :: B).
Proof.
  intros H. remember (A ++ x :: B) as L eqn:HL. revert A B HL.
  induction H as [|b i inh L cs L' Hc Hf IH]; intros A B HL.
  - by destruct A.
  - apply app_eq_mid in HL as [(K & -> & ->)|(K & -> & ->)].
    + replace (A ++ set_used x u :: K ++ L')
        with ((A ++ set_used x u :: K) ++ L') by (by rewrite <-app_assoc).
      apply (forest_cons _ _ inh); [|done]. by apply covers_set_used.
    + rewrite <-app_assoc. apply (forest_cons _ _ inh); [done|]. by apply IH.
Qed.

Lemma forest_split cs A x B u1 u2 :
  forest cs (A ++ x :: B) → 4 < l_idx x →
  forest cs (A ++ left_child x u1 :: right_child x u2 :: B).
Proof.
  intros H Hx. remember (A ++ x :: B) as L eqn:HL. revert A B HL.
  induction H as [|b i inh L cs L' Hc Hf IH]; intros A B HL.
  - by destruct A.
  - apply app_eq_mid in HL as [(K & -> & ->)|(K & -> & ->)].
    + replace (A ++ left_child x u1 :: right_child x u2 :: K ++ L')
        with ((A ++ left_child x u1 :: right_child x u2 :: K) ++ L')
        by (by rewrite <-app_assoc).
      apply (forest_cons _ _ inh); [|done]. by apply covers_split.
    + rewrite <-app_assoc. apply (forest_cons _ _ inh); [done|]. by apply IH.
Qed.

(** Every block lies in a chunk and its index is at most the chunk's. *)
Lemma forest_chunk cs L l :
  forest cs L → Forall (λ c, 1 ≤ c.2) cs → l ∈ L →
  ∃ b i, (b, i) ∈ cs ∧ 1 ≤ l_idx l ≤ i ∧ b ≤ l_addr l ∧
         l_end l ≤ b + ladder i * BLOCK_SIZE.
Proof.
  induction 1 as [|b i inh L cs L' Hc Hf IH]; intros Hcs Hl.
  - by apply elem_of_nil in Hl.
  - apply Forall_cons in Hcs as [Hi Hcs]. simpl in Hi.
    apply elem_of_app in Hl as [Hl|Hl].
    + exists b, i. split; [left|].
      pose proof (covers_idx _ _ _ _ _ Hi Hc) as H1.
      pose proof (asc_Forall _ _ _ (covers_asc _ _ _ _ _ Hi Hc)) as H2.
      rewrite Forall_forall in H1, H2. specialize (H1 _ Hl). specialize (H2 _ Hl). lia.
    + destruct (IH Hcs Hl) as (b' & i' & ? & ?). exists b', i'. split; [by right|done].
Qed.

Lemma forest_buddy_left cs A x B :
  forest cs (A ++ x :: B) → l_lr x = LEFT →
  (l_addr x, l_idx x) ∈ cs ∨
  (∃ y B' c, B = y :: B' ∧ l_addr y = l_end x ∧ l_idx y ≤ l_idx x + 3 ∧
             c ∈ cs ∧ l_idx x + 4 ≤ c.2 ∧
             (l_idx y = l_idx x + 3 → forest cs (A ++ parent x y :: B'))).
Proof.
  intros H Hx. remember (A ++ x :: B) as L eqn:HL. revert A B HL.
  induction H as [|b i inh L cs L' Hc Hf IH]; intros A B HL.
  - by destruct A.
  - apply app_eq_mid in HL as [(K & -> & ->)|(K & -> & ->)].
    + destruct (covers_buddy_left _ _ _ _ _ _ _ Hc Hx)
        as [(-> & -> & <- & <- & _)|(y & B' & -> & ? & ? & ? & Hm)].
      * left. left.
      * right. exists y, (B' ++ L'), (b, i). split_and!; [done..|left|done|].
        intros Hyi. replace (A ++ parent x y :: B' ++ L')
          with ((A ++ parent x y :: B') ++ L') by (by rewrite <-app_assoc).
        apply (forest_cons _ _ inh); [|done]. by apply Hm.
    + destruct (IH _ _ eq_refl) as [?|(y & B' & c & -> & ? & ? & ? & ? & Hm)].
      * left. by right.
      * right. exists y, B', c. split_and!; [done..|by right|done|].
        intros Hyi. rewrite <-app_assoc. apply (forest_cons _ _ inh); [done|]. by apply Hm.
Qed.

Lemma forest_buddy_right cs A x B :
  forest cs (A ++ x :: B) → l_lr x = RIGHT →
  ∃ A0 y K, A = A0 ++ y :: K ∧
            l_addr y = l_addr x - ladder (l_idx x - 3) * BLOCK_SIZE ∧
            4 ≤ l_idx x ∧ l_idx y ≤ l_idx x - 3 ∧
            (l_idx y = l_idx x - 3 →
             K = [] ∧ l_end y = l_addr x ∧
             forest cs (A0 ++ parent (set_used y false) x :: B)).
Proof.
  intros H Hx. remember (A ++ x :: B) as L eqn:HL. revert A B HL.
  induction H as [|b i inh L cs L' Hc Hf IH]; intros A B HL.
  - by destruct A.
  - apply app_eq_mid in HL as [(K & -> & ->)|(K & -> & ->)].
    + destruct (covers_buddy_right _ _ _ _ _ _ _ Hc Hx)
        as [(-> & -> & ? & ? & ?)|(A0 & y & K' & -> & ? & ? & ? & ? & Hm)]; [done|].
      exists A0, y, K'. split_and!; [done..|].
      intros Hyi. destruct (Hm Hyi) as (-> & ? & ? & _). split_and!; [done..|].
      replace (A0 ++ parent (set_used y false) x :: K ++ L')
        with ((A0 ++ parent (set_used y false) x :: K) ++ L') by (by rewrite <-app_assoc).
      by apply (forest_cons _ _ inh).
    + destruct (IH _ _ eq_refl) as (A0 & y & K' & -> & ? & ? & ? & Hm).
      exists (L ++ A0), y, K'. rewrite <-app_assoc. split_and!; [done..|].
      intros Hyi. destruct (Hm Hyi) as (-> & ? & ?). split_and!; [done..|].
      rewrite <-app_assoc. by apply (forest_cons _ _ inh).
Qed.

(** ** The invariant of the allocator *)

Lemma cell_at_Some a i c :
  cell_at a i = Some c ↔ 0 ≤ i < array_size a ∧ cells a !! Z.to_nat i = Some c.
Proof.
  unfold cell_at. destruct (Z.leb_spec 0 i), (Z.ltb_spec i (array_size a)); simpl;
    split; try done; try lia; naive_solver.
Qed.

Lemma cell_at_lookup a i :
  0 ≤ i < array_size a → ∃ c, cell_at a i = Some c.
Proof.
  intros Hi. destruct (cells a !! Z.to_nat i) as [c|] eqn:Hc.
  - exists c. apply cell_at_Some. done.
  - apply lookup_ge_None in Hc. unfold array_size in Hi. lia.
Qed.

Lemma cells_ok_at a i c :
  cells_ok (cells a) → cell_at a i = Some c → cell_size c = ladder i.
Proof.
  intros [_ H] [? Hc]%cell_at_Some. rewrite (H _ _ Hc). f_equal. lia.
Qed.

Lemma inv_leaf_idx s pend P cs L l :
  inv s pend P cs L → l ∈ L → 1 ≤ l_idx l < array_size (arr s).
Proof.
  intros HI Hl.
  assert (Forall (λ c : Z * Z, 1 ≤ c.2) cs) as Hcs.
  { eapply Forall_impl; [apply (inv_chunks _ _ _ _ _ HI)|]. intros c (? & _). lia. }
  destruct (forest_chunk _ _ _ (inv_forest _ _ _ _ _ HI) Hcs Hl) as (b & i & Hc & ? & _).
  pose proof (inv_chunks _ _ _ _ _ HI) as Hch. rewrite Forall_forall in Hch.
  destruct (Hch _ Hc) as (? & _). simpl in *. lia.
Qed.

Lemma inv_leaf_size s pend P cs L l :
  inv s pend P cs L → l ∈ L → 3 ≤ ladder (l_idx l) < 2 ^ 29.
Proof.
  intros HI Hl. pose proof (inv_leaf_idx _ _ _ _ _ _ HI Hl).
  destruct (inv_cells _ _ _ _ _ HI) as [? _].
  split; [apply ladder_ge; lia|apply ladder_small]. unfold array_size in *. lia.
Qed.

Lemma inv_leaf_header s pend P cs L l :
  inv s pend P cs L → l ∈ L →
  header (heap s) (l_addr l) (ladder (l_idx l))
    (item_is_in_use (heap s) (l_addr l)) (l_lr l) (l_inh l).
Proof.
  intros HI Hl. pose proof (inv_hdr _ _ _ _ _ HI) as H. rewrite Forall_forall in H.
  destruct (H _ Hl) as (? & ? & ? & _). done.
Qed.

Lemma inv_addr_inj s pend P cs L l1 l2 :
  inv s pend P cs L → l1 ∈ L → l2 ∈ L → l_addr l1 = l_addr l2 → l1 = l2.
Proof. intros HI. destruct (inv_asc _ _ _ _ _ HI) as [lo ?]. by eapply asc_addr_inj. Qed.

(** *** Lists of items *)

Lemma remove_first_elem a l b :
  NoDup l → b ∈ remove_first a l ↔ b ∈ l ∧ b ≠ a.
Proof.
  induction l as [|c l IH]; simpl; intros Hnd.
  - split; [by intros ?%elem_of_nil|by intros [?%elem_of_nil _]].
  - apply NoDup_cons in Hnd as [Hc Hnd]. destruct (Z.eqb_spec c a) as [->|Hne].
    + rewrite elem_of_cons. split; [|naive_solver]. intros Hb. split; [by right|].
      by intros ->.
    + rewrite !elem_of_cons, IH by done. naive_solver.
Qed.

Lemma remove_first_NoDup a l : NoDup l → NoDup (remove_first a l).
Proof.
  induction l as [|c l IH]; simpl; intros Hnd; [done|].
  apply NoDup_cons in Hnd as [Hc Hnd]. destruct (Z.eqb_spec c a) as [->|Hne]; [done|].
  apply NoDup_cons. split; [|by apply IH]. rewrite remove_first_elem by done. naive_solver.
Qed.

Lemma set_items_eq a i c l :
  cell_at a i = Some c →
  set_items a i l = Some (set_cells a (<[Z.to_nat i := Cell (cell_size c) l]> (cells a))).
Proof. intros H. unfold set_items. by rewrite H. Qed.

Lemma insert_item_eq s i c item :
  cell_at (arr s) i = Some c →
  insert_item s i item = Some (with_items s i c (item :: cell_items c)).
Proof. intros H. unfold insert_item. rewrite H. simpl. by rewrite (set_items_eq _ _ c). Qed.

Lemma delete_item_eq s i c item :
  cell_at (arr s) i = Some c →
  delete_item s i item = Some (with_items s i c (remove_first item (cell_items c))).
Proof. intros H. unfold delete_item. rewrite H. simpl. by rewrite (set_items_eq _ _ c). Qed.

Lemma take_item_eq s i c item next :
  cell_at (arr s) i = Some c → cell_items c = item :: next →
  take_item s i = Some (with_items s i c (remove_first item (cell_items c)), item).
Proof.
  intros H Hc. unfold take_item. rewrite H. simpl. rewrite Hc. simpl.
  rewrite (set_items_eq _ _ c), Z.eqb_refl by done. done.
Qed.

Lemma with_items_size s i c l : array_size (arr (with_items s i c l)) = array_size (arr s).
Proof. unfold array_size. simpl. by rewrite length_insert. Qed.

Lemma with_items_cell_at s i c l j :
  cell_at (arr s) i = Some c →
  cell_at (arr (with_items s i c l)) j =
    if decide (j = i) then Some (Cell (cell_size c) l) else cell_at (arr s) j.
Proof.
  intros [Hi Hc]%cell_at_Some. unfold cell_at. rewrite with_items_size. simpl.
  destruct (Z.leb_spec 0 j), (Z.ltb_spec j (array_size (arr s))); simpl;
    case_decide; subst; try done; try lia.
  - apply list_lookup_insert_eq. unfold array_size in *. lia.
  - apply list_lookup_insert_ne. lia.
Qed.

Lemma with_items_cells_ok s i c l :
  cell_at (arr s) i = Some c → cells_ok (cells (arr s)) →
  cells_ok (cells (arr (with_items s i c l))).
Proof.
  intros [Hi Hc]%cell_at_Some [Hlen Hsz]. split; simpl.
  - by rewrite length_insert.
  - intros j c' Hj. destruct (decide (j = Z.to_nat i)) as [->|Hne].
    + rewrite list_lookup_insert_eq in Hj by (unfold array_size in *; lia).
      injection Hj as <-. simpl. by apply Hsz.
    + rewrite list_lookup_insert_ne in Hj by done. by apply Hsz.
Qed.

(** *** A block changes hands *)

Lemma elem_of_mid {A} (l : A) L1 x L2 : l ∈ L1 ++ x :: L2 ↔ l = x ∨ l ∈ L1 ++ L2.
Proof. rewrite !elem_of_app, elem_of_cons. naive_solver. Qed.

Lemma asc_set_used lo A x B hi u :
  asc lo (A ++ x :: B) hi → asc lo (A ++ set_used x u :: B) hi.
Proof. intros (? & ? & ?)%asc_mid. by apply asc_mid_2. Qed.

Lemma free_at_mid lo A x B hi a j :
  asc lo (A ++ x :: B) hi →
  free_at (A ++ x :: B) a j ↔
  free_at (A ++ B) a j ∨ (l_used x = false ∧ a = l_addr x ∧ j = l_idx x).
Proof.
  intros Hasc. unfold free_at. split.
  - intros (l & [->|Hl]%elem_of_mid & ? & ? & ?); [by right|]. left. by exists l.
  - intros [(l & Hl & ?)|(? & -> & ->)].
    + exists l. split; [|done]. apply elem_of_mid. by right.
    + exists x. split; [|done]. apply elem_of_mid. by left.
Qed.

Lemma free_at_rest lo A x B hi a j :
  asc lo (A ++ x :: B) hi → free_at (A ++ B) a j → a ≠ l_addr x.
Proof.
  intros Hasc (l & Hl & <- & _). by eapply asc_not_elem.
Qed.

Lemma hdr_ok_mono h pend pend' l : pend ⊆ pend' → hdr_ok h pend l → hdr_ok h pend' l.
Proof. intros Hsub (? & ? & ? & Hu). split_and!; [done..|]. intros ?. apply Hu. set_solver. Qed.

Lemma hdr_ok_set_used h pend x u :
  l_addr x ∈ pend → hdr_ok h pend x → hdr_ok h pend (set_used x u).
Proof. intros ? (? & ? & ? & _). by split_and!. Qed.

Lemma lists_ok_lookup cs L i c a :
  lists_ok cs L → 0 ≤ i → cs !! Z.to_nat i = Some c →
  a ∈ cell_items c ↔ free_at L a i.
Proof. intros H Hi Hc. destruct (H _ _ Hc) as [_ ->]. by rewrite Z2Nat.id. Qed.

(** A free block leaves the list of its cell. *)
Lemma inv_unlist_at s pend P cs A x B c :
  inv s pend P cs (A ++ x :: B) → l_used x = false →
  cell_at (arr s) (l_idx x) = Some c →
  inv (with_items s (l_idx x) c (remove_first (l_addr x) (cell_items c)))
      (pend ∪ {[l_addr x]}) P cs (A ++ set_used x true :: B).
Proof.
  intros HI Hxu Hc. pose proof Hc as [Hi Hci]%cell_at_Some.
  destruct HI as [Hcells Hcap Hfor [lo Hasc] Hhdr Hch Hlists Hprot Hpend].
  rewrite Forall_forall in Hhdr. rewrite Forall_forall in Hch.
  split.
  - by apply with_items_cells_ok.
  - rewrite with_items_size. done.
  - by apply forest_set_used.
  - exists lo. by apply asc_set_used.
  - apply Forall_forall. intros l [->|Hl]%elem_of_mid.
    + apply hdr_ok_set_used; [set_solver|].
      eapply hdr_ok_mono; [|apply Hhdr, elem_of_mid; by left]. set_solver.
    + eapply hdr_ok_mono; [|apply Hhdr, elem_of_mid; by right]. set_solver.
  - apply Forall_forall. intros ch Hin. destruct (Hch _ Hin) as (? & ? & ? & Hout).
    unfold chunk_ok. rewrite with_items_size. simpl. split_and!; [lia|lia|done|done|].
    intros l [->|Hl]%elem_of_mid.
    + apply (Hout x). apply elem_of_mid. by left.
    + apply Hout. apply elem_of_mid. by right.
  - intros j c' Hj. simpl in Hj.
    destruct (decide (j = Z.to_nat (l_idx x))) as [->|Hne].
    + rewrite list_lookup_insert_eq in Hj by (unfold array_size in *; lia).
      injection Hj as <-. simpl. destruct (Hlists _ _ Hci) as [Hnd Hiff].
      split; [by apply remove_first_NoDup|]. intros b.
      rewrite remove_first_elem, Hiff by done.
      rewrite (free_at_mid lo A x B), (free_at_mid lo A (set_used x true) B)
        by (done || by apply asc_set_used).
      simpl. pose proof (free_at_rest lo A x B _ b (Z.of_nat (Z.to_nat (l_idx x))) Hasc).
      naive_solver.
    + rewrite list_lookup_insert_ne in Hj by done.
      destruct (Hlists _ _ Hj) as [Hnd Hiff]. split; [done|]. intros b.
      rewrite Hiff.
      rewrite (free_at_mid lo A x B), (free_at_mid lo A (set_used x true) B)
        by (done || by apply asc_set_used).
      simpl. assert (Z.of_nat j ≠ l_idx x) by lia. naive_solver.
  - intros p Hp. destruct (Hprot _ Hp) as (l & Hl & ? & ? & ?).
    apply elem_of_mid in Hl as [->|Hl]; [congruence|].
    exists l. split_and!; [apply elem_of_mid; by right|done..|].
    pose proof (asc_not_elem _ _ _ _ _ _ Hasc Hl). set_solver.
  - intros b [Hb| ->%elem_of_singleton]%elem_of_union.
    + destruct (Hpend _ Hb) as (l & Hl & ? & ?).
      apply elem_of_mid in Hl as [->|Hl]; [congruence|].
      exists l. split; [apply elem_of_mid; by right|done].
    + exists (set_used x true). split; [apply elem_of_mid; by left|done].
Qed.

(** An item leaves the list of its cell. *)
Lemma inv_unlist s pend P cs L i c a :
  inv s pend P cs L → cell_at (arr s) i = Some c → a ∈ cell_items c →
  ∃ A x B, L = A ++ x :: B ∧ l_addr x = a ∧ l_idx x = i ∧ l_used x = false ∧
    inv (with_items s i c (remove_first a (cell_items c))) (pend ∪ {[a]}) P cs
        (A ++ set_used x true :: B).
Proof.
  intros HI Hc Ha. pose proof Hc as [Hi Hci]%cell_at_Some.
  pose proof (proj1 (lists_ok_lookup _ _ _ _ a (inv_lists _ _ _ _ _ HI) (proj1 Hi) Hci) Ha)
    as (x & Hx & <- & <- & Hxu).
  apply list_elem_of_split in Hx as (A & B & ->).
  exists A, x, B. split_and!; [done..|]. by apply inv_unlist_at.
Qed.

(** A block that is not in use enters the list of its cell. *)
Lemma inv_list s pend P cs A x B c :
  inv s pend P cs (A ++ x :: B) → l_used x = true → l_addr x ∈ pend →
  item_is_in_use (heap s) (l_addr x) = false →
  cell_at (arr s) (l_idx x) = Some c →
  inv (with_items s (l_idx x) c (l_addr x :: cell_items c)) (pend ∖ {[l_addr x]}) P cs
      (A ++ set_used x false :: B).
Proof.
  intros HI Hxu Hxp Hfree Hc. pose proof Hc as [Hi Hci]%cell_at_Some.
  destruct HI as [Hcells Hcap Hfor [lo Hasc] Hhdr Hch Hlists Hprot Hpend].
  rewrite Forall_forall in Hhdr. rewrite Forall_forall in Hch.
  split.
  - by apply with_items_cells_ok.
  - rewrite with_items_size. done.
  - by apply forest_set_used.
  - exists lo. by apply asc_set_used.
  - apply Forall_forall. intros l [->|Hl]%elem_of_mid.
    + destruct (Hhdr x) as (? & ? & ? & _); [apply elem_of_mid; by left|].
      by split_and!.
    + destruct (Hhdr l) as (? & ? & ? & Hu); [apply elem_of_mid; by right|].
      split_and!; [done..|]. intros Hn. apply Hu.
      pose proof (asc_not_elem _ _ _ _ _ _ Hasc Hl). set_solver.
  - apply Forall_forall. intros ch Hin. destruct (Hch _ Hin) as (? & ? & ? & Hout).
    unfold chunk_ok. rewrite with_items_size. simpl. split_and!; [lia|lia|done|done|].
    intros l [->|Hl]%elem_of_mid.
    + apply (Hout x). apply elem_of_mid. by left.
    + apply Hout. apply elem_of_mid. by right.
  - intros j c' Hj. simpl in Hj.
    destruct (decide (j = Z.to_nat (l_idx x))) as [->|Hne].
    + rewrite list_lookup_insert_eq in Hj by (unfold array_size in *; lia).
      injection Hj as <-. simpl. destruct (Hlists _ _ Hci) as [Hnd Hiff].
      assert (∀ b, free_at (A ++ x :: B) b (Z.of_nat (Z.to_nat (l_idx x))) ↔
                   free_at (A ++ B) b (Z.of_nat (Z.to_nat (l_idx x)))) as Hold.
      { intros b. rewrite (free_at_mid lo A x B) by done. split; [|by left].
        intros [?|(? & _)]; [done|congruence]. }
      split.
      * apply NoDup_cons. split; [|done]. rewrite Hiff, Hold.
        intros ?%(free_at_rest lo A x B (brk s)); done.
      * intros b. rewrite elem_of_cons, Hiff, Hold.
        rewrite (free_at_mid lo A (set_used x false) B) by (by apply asc_set_used).
        simpl. split; [intros [->|?]; [right; split_and!; [done..|lia]|by left]|].
        intros [?|(_ & -> & _)]; [by right|by left].
    + rewrite list_lookup_insert_ne in Hj by done.
      destruct (Hlists _ _ Hj) as [Hnd Hiff]. split; [done|]. intros b.
      rewrite Hiff.
      rewrite (free_at_mid lo A x B), (free_at_mid lo A (set_used x false) B)
        by (done || by apply asc_set_used).
      simpl. assert (Z.of_nat j ≠ l_idx x) by lia.
      split; (intros [?|(? & ? & ?)]; [by left|congruence || lia]).
  - intros p Hp. destruct (Hprot _ Hp) as (l & Hl & ? & ? & ?).
    apply elem_of_mid in Hl as [->|Hl]; [done|].
    exists l. split_and!; [apply elem_of_mid; by right|done..|]. set_solver.
  - intros b [Hb Hne]%elem_of_difference.
    destruct (Hpend _ Hb) as (l & Hl & ? & ?).
    apply elem_of_mid in Hl as [->|Hl]; [set_solver|].
    exists l. split; [apply elem_of_mid; by right|done].
Qed.

(** Header writes that keep every block's header right. *)
Lemma inv_set_heap s pend P cs L h :
  inv s pend P cs L →
  Forall (hdr_ok h pend) L →
  Forall (λ c, item_is_in_use h (sentinel c) = true) cs →
  inv (set_heap s h) pend P cs L.
Proof.
  intros [Hcells Hcap Hfor Hasc Hhdr Hch Hlists Hprot Hpend] Hh Hs.
  split; try done.
  rewrite Forall_forall in Hch, Hs. apply Forall_forall. intros c Hc.
  destruct (Hch _ Hc) as (? & ? & ? & ?).
  unfold chunk_ok. simpl. split_and!; [lia|lia|by apply Hs|done..].
Qed.

(** A pending block is handed out: its in_use bit is set. *)
Lemma inv_claim s pend P cs L x :
  inv s pend P cs L → x ∈ L → l_addr x ∈ pend →
  inv (set_heap s (item_set_in_use (heap s) (l_addr x) true))
      (pend ∖ {[l_addr x]}) (P ∪ {[item_get_area (l_addr x)]}) cs L.
Proof.
  intros HI Hx Hxp.
  pose proof (inv_leaf_size _ _ _ _ _ _ HI Hx) as Hsz.
  pose proof (inv_leaf_header _ _ _ _ _ _ HI Hx) as Hh.
  pose proof (λ l2, inv_addr_inj _ _ _ _ _ x l2 HI Hx) as Hinj.
  destruct HI as [Hcells Hcap Hfor [lo Hasc] Hhdr Hch Hlists Hprot Hpend].
  pose proof (Hpend _ Hxp) as (x' & Hx' & Hxa & Hxu).
  assert (x' = x) as -> by (symmetry; by apply Hinj).
  rewrite Forall_forall in Hhdr. rewrite Forall_forall in Hch.
  split; simpl; try done.
  - by exists lo.
  - apply Forall_forall. intros l Hl.
    destruct (decide (l_addr l = l_addr x)) as [Heq|Hne].
    + assert (l = x) as -> by (symmetry; by apply Hinj).
      eapply (header_set_in_use _ _ _ _ _ _ true) in Hh as (? & ? & ? & ?); [|lia].
      unfold hdr_ok. split_and!; [done..|]. intros _. congruence.
    + destruct (Hhdr _ Hl) as (Hs & Hlr & Hinh & Hu).
      pose proof (same_at_set_flag (heap s) (l_addr x) 4 true (l_addr l)) as Hsame.
      unfold hdr_ok, item_set_in_use.
      unfold item_get_size, item_get_lr_bit, item_get_inh_bit, item_is_in_use in *.
      rewrite Hsame by done. split_and!; [done..|]. intros ?. apply Hu. set_solver.
  - apply Forall_forall. intros ch Hin. destruct (Hch _ Hin) as (? & Huse & ? & Hout).
    split_and!; simpl; [lia|lia| |done..].
    assert (l_addr x ≠ sentinel ch).
    { intros Heq. apply (Hout x Hx). rewrite <-Heq.
      pose proof (l_end_gt x). apply asc_Forall in Hasc. rewrite Forall_forall in Hasc.
      apply Hasc in Hx. lia. }
    pose proof (same_at_set_flag (heap s) (l_addr x) 4 true (sentinel ch)) as Hsame.
    unfold item_set_in_use, item_is_in_use in *. by rewrite Hsame.
  - intros p [Hp| ->%elem_of_singleton]%elem_of_union.
    + destruct (Hprot _ Hp) as (l & Hl & ? & ? & ?).
      exists l. split_and!; [done..|]. set_solver.
    + exists x. unfold item_from_area, item_get_area.
      split_and!; [done|lia|done|set_solver].
  - intros b [Hb Hne]%elem_of_difference. by apply Hpend.
Qed.

Lemma free_at_app3 A M B a j :
  free_at (A ++ M ++ B) a j ↔ free_at (A ++ B) a j ∨ free_at M a j.
Proof.
  unfold free_at. setoid_rewrite elem_of_app. setoid_rewrite elem_of_app. naive_solver.
Qed.

Lemma free_at_used M a j : Forall (λ l, l_used l = true) M → ¬ free_at M a j.
Proof.
  rewrite Forall_forall. intros H (l & Hl & _ & _ & Hu). apply H in Hl. congruence.
Qed.

(** Blocks beside [x] in an ascending list lie outside of [x]. *)
Lemma asc_outside lo A x B hi l w :
  asc lo (A ++ x :: B) hi → l ∈ A ++ B → l_addr x ≤ w < l_end x →
  l_addr l ≠ w ∧ ¬ (l_addr l ≤ w < l_end l).
Proof.
  intros Hasc Hl Hw. apply asc_mid in Hasc as (HA & ? & HB).
  apply asc_Forall in HA, HB. rewrite Forall_forall in HA, HB.
  pose proof (l_end_gt l).
  apply elem_of_app in Hl as [Hl|Hl]; [apply HA in Hl|apply HB in Hl]; lia.
Qed.

Lemma children_geometry x u1 u2 :
  4 < l_idx x →
  l_addr (left_child x u1) = l_addr x ∧
  l_end (left_child x u1) = l_addr (right_child x u2) ∧
  l_end (right_child x u2) = l_end x ∧
  l_addr x < l_addr (right_child x u2) < l_end x.
Proof.
  intros Hi. unfold l_end, left_child, right_child, BLOCK_SIZE.
  cbn [l_addr l_idx]. rewrite (ladder_rec (l_idx x)) by lia.
  assert (3 ≤ ladder (l_idx x - 4)) by (apply ladder_ge; lia).
  assert (3 ≤ ladder (l_idx x - 1)) by (apply ladder_ge; lia). lia.
Qed.

Lemma asc_split lo A x B hi u1 u2 :
  asc lo (A ++ x :: B) hi → 4 < l_idx x →
  asc lo (A ++ left_child x u1 :: right_child x u2 :: B) hi.
Proof.
  intros (HA & ? & HB)%asc_mid Hi.
  destruct (children_geometry x u1 u2 Hi) as (Ha & He & He' & ?).
  apply asc_mid_2; [by rewrite Ha|simpl; lia|].
  cbn [asc]. rewrite He, He'. split_and!; [lia|simpl; lia|done].
Qed.

Lemma parent_geometry x y :
  0 ≤ l_idx x → l_addr y = l_end x → l_idx y = l_idx x + 3 →
  l_addr (parent x y) = l_addr x ∧ l_end (parent x y) = l_end y.
Proof.
  intros Hi Ha Hy. unfold l_end, parent, BLOCK_SIZE in *. cbn [l_addr l_idx].
  rewrite (ladder_rec (l_idx x + 4)) by lia.
  replace (l_idx x + 4 - 1) with (l_idx y) by lia.
  replace (l_idx x + 4 - 4) with (l_idx x) by lia. lia.
Qed.

Lemma asc_merge lo A x y B hi u :
  asc lo (A ++ x :: y :: B) hi → l_addr y = l_end x → l_idx y = l_idx x + 3 →
  asc lo (A ++ set_used (parent x y) u :: B) hi.
Proof.
  intros (HA & ? & Hy)%asc_mid Ha Hi. simpl in Hy. destruct Hy as (_ & _ & HB).
  destruct (parent_geometry x y) as [Hpa Hpe]; [lia|done..|].
  apply asc_mid_2; simpl; [done|lia|].
  unfold l_end in *. simpl in *. by rewrite Hpe.
Qed.

(** The eight header writes of one split. *)
Lemma split_headers h left right szl szr inh_l inh_r :
  left ≠ right → 0 ≤ szl < 2 ^ 61 → 0 ≤ szr < 2 ^ 61 →
  let h1 := item_set_size h left szl in
  let h2 := item_set_size h1 right szr in
  let h3 := item_set_lr_bit h2 left LEFT in
  let h4 := item_set_lr_bit h3 right RIGHT in
  let h5 := item_set_in_use h4 left false in
  let h6 := item_set_in_use h5 right false in
  let h7 := item_set_inh_bit h6 left inh_l in
  let h8 := item_set_inh_bit h7 right inh_r in
  header h8 left szl false LEFT inh_l ∧
  header h8 right szr false RIGHT inh_r ∧
  ∀ b, b ≠ left → b ≠ right → same_at h h8 b.
Proof.
  intros Hne Hl Hr h1 h2 h3 h4 h5 h6 h7 h8.
  assert (∀ h a k v b, a ≠ b → ∀ sz u lr inh,
            header h b sz u lr inh → header (set_flag h a k v) b sz u lr inh) as Hfl.
  { intros. eapply same_at_header; [|done]. by apply same_at_set_flag. }
  assert (∀ h a s b, a ≠ b → ∀ sz u lr inh,
            header h b sz u lr inh → header (item_set_size h a s) b sz u lr inh) as Hfs.
  { intros. eapply same_at_header; [|done]. by apply same_at_set_size. }
  split_and!.
  - pose proof (header_set_size h left szl Hl) as H.
    apply (Hfs _ right szr) in H; [|done].
    apply (header_set_lr_bit _ _ _ _ _ _ LEFT) in H; [|done].
    apply (Hfl _ right 2 RIGHT) in H; [|done].
    apply (header_set_in_use _ _ _ _ _ _ false) in H; [|done].
    apply (Hfl _ right 4 false) in H; [|done].
    apply (header_set_inh_bit _ _ _ _ _ _ inh_l) in H; [|done].
    apply (Hfl _ right 1 inh_r) in H; [|done]. done.
  - pose proof (header_set_size h1 right szr Hr) as H.
    apply (Hfl _ left 2 LEFT) in H; [|done].
    apply (header_set_lr_bit _ _ _ _ _ _ RIGHT) in H; [|done].
    apply (Hfl _ left 4 false) in H; [|done].
    apply (header_set_in_use _ _ _ _ _ _ false) in H; [|done].
    apply (Hfl _ left 1 inh_l) in H; [|done].
    apply (header_set_inh_bit _ _ _ _ _ _ inh_r) in H; [|done]. done.
  - intros b Hbl Hbr. subst h1 h2 h3 h4 h5 h6 h7 h8.
    unfold item_set_lr_bit, item_set_in_use, item_set_inh_bit.
    repeat (eapply same_at_trans;
            [|first [by apply same_at_set_flag|by apply same_at_set_size]]).
    apply same_at_refl.
Qed.

Lemma hdr_ok_same h h' pend l :
  same_at h h' (l_addr l) → hdr_ok h pend l → hdr_ok h' pend l.
Proof.
  unfold same_at, hdr_ok, item_get_size, item_is_in_use, item_get_lr_bit, item_get_inh_bit.
  by intros ->.
Qed.

Lemma in_use_same h h' a :
  same_at h h' a → item_is_in_use h' a = item_is_in_use h a.
Proof. unfold same_at, item_is_in_use. by intros ->. Qed.

(** A pending block is split in two pending blocks. *)
Lemma inv_split s pend P cs A x B :
  inv s pend P cs (A ++ x :: B) → l_addr x ∈ pend → 4 < l_idx x →
  let left := l_addr x in
  let right := l_addr x + ladder (l_idx x - 4) * BLOCK_SIZE in
  let h' := split_writes (heap s) left right (ladder (l_idx x - 4)) (ladder (l_idx x - 1))
              (l_lr x) (l_inh x) in
  inv (set_heap s h') (pend ∪ {[right]}) P cs
      (A ++ left_child x true :: right_child x true :: B) ∧
  item_is_in_use h' left = false ∧ item_is_in_use h' right = false.
Proof.
  intros HI Hxp Hi left right h'.
  assert (x ∈ A ++ x :: B) as Hx by (apply elem_of_mid; by left).
  pose proof (inv_leaf_idx _ _ _ _ _ _ HI Hx) as Hidx.
  destruct HI as [Hcells Hcap Hfor [lo Hasc] Hhdr Hch Hlists Hprot Hpend].
  destruct (children_geometry x true true Hi) as (Ga & Ge & Ge' & Gr).
  change (l_addr (right_child x true)) with right in *.
  assert (Z.of_nat (length (cells (arr s))) ≤ MAX_CELLS) by (by destruct Hcells as [[_ ?] _]).
  assert (ladder (l_idx x - 4) < 2 ^ 29 ∧ ladder (l_idx x - 1) < 2 ^ 29) as [??].
  { unfold array_size in *. split; apply ladder_small; lia. }
  assert (3 ≤ ladder (l_idx x - 4)) by (apply ladder_ge; lia).
  assert (3 ≤ ladder (l_idx x - 1)) by (apply ladder_ge; lia).
  destruct (split_headers (heap s) left right (ladder (l_idx x - 4)) (ladder (l_idx x - 1))
              (l_lr x) (l_inh x)) as (Hl & Hr & Hsame); [lia..|].
  fold (split_writes (heap s) left right (ladder (l_idx x - 4)) (ladder (l_idx x - 1))
          (l_lr x) (l_inh x)) in Hl, Hr, Hsame. fold h' in Hl, Hr, Hsame.
  assert (∀ l, l ∈ A ++ B → same_at (heap s) h' (l_addr l)) as Hother.
  { intros l Hl'. apply Hsame.
    - by eapply asc_not_elem.
    - eapply asc_outside; [done..|]. lia. }
  rewrite Forall_forall in Hhdr. rewrite Forall_forall in Hch.
  split; [split|split]; simpl.
  - done.
  - done.
  - by apply forest_split.
  - exists lo. by apply asc_split.
  - apply Forall_forall. intros l Hl'.
    change (l ∈ A ++ [left_child x true; right_child x true] ++ B) in Hl'.
    rewrite app_assoc, elem_of_app, elem_of_app in Hl'.
    destruct Hl' as [[Hl'|Hl']|Hl'].
    + eapply hdr_ok_same; [apply Hother; set_solver|].
      eapply hdr_ok_mono; [|apply Hhdr; set_solver]. set_solver.
    + apply elem_of_cons in Hl' as [->|Hl'];
        [|apply elem_of_cons in Hl' as [->|Hl']; [|by apply elem_of_nil in Hl']].
      * destruct Hl as (? & ? & ? & ?). unfold hdr_ok, left_child. simpl.
        split_and!; [done..|set_solver].
      * destruct Hr as (? & ? & ? & ?). unfold hdr_ok, right_child. simpl.
        split_and!; [done..|]. fold right. set_solver.
    + eapply hdr_ok_same; [apply Hother; set_solver|].
      eapply hdr_ok_mono; [|apply Hhdr; set_solver]. set_solver.
  - apply Forall_forall. intros ch Hin. destruct (Hch _ Hin) as (? & Huse & ? & Hout).
    pose proof (Hout x Hx) as Houtx.
    unfold chunk_ok. simpl. split_and!; [lia|lia| |done|].
    + rewrite (in_use_same (heap s)); [done|]. apply Hsame; unfold left; lia.
    + intros l Hl'.
      change (l ∈ A ++ [left_child x true; right_child x true] ++ B) in Hl'.
      rewrite app_assoc, elem_of_app, elem_of_app in Hl'.
      destruct Hl' as [[Hl'|Hl']|Hl']; [apply Hout; set_solver| |apply Hout; set_solver].
      apply elem_of_cons in Hl' as [->|Hl'];
        [|apply elem_of_cons in Hl' as [->|Hl']; [|by apply elem_of_nil in Hl']].
      * rewrite Ge, Ga. lia.
      * rewrite Ge'. change (l_addr (right_child x true)) with right. lia.
  - intros j c Hj. destruct (Hlists _ _ Hj) as [Hnd Hiff]. split; [done|].
    intros a. rewrite Hiff.
    change (A ++ x :: B) with (A ++ [x] ++ B).
    change (A ++ left_child x true :: right_child x true :: B)
      with (A ++ [left_child x true; right_child x true] ++ B).
    rewrite !free_at_app3.
    destruct (Hpend _ Hxp) as (x' & Hx' & Hxa & Hxu).
    assert (x' = x) as -> by (by eapply asc_addr_inj).
    pose proof (free_at_used [x] a (Z.of_nat j)) as F1.
    pose proof (free_at_used [left_child x true; right_child x true] a (Z.of_nat j)) as F2.
    split; (intros [?|?]; [by left|exfalso]); [apply F1|apply F2]; try done;
      repeat constructor; done.
  - intros p Hp. destruct (Hprot _ Hp) as (l & Hl' & ? & ? & Hnp).
    apply elem_of_mid in Hl' as [->|Hl']; [done|].
    exists l. split_and!; [set_solver|done..|].
    destruct (asc_outside lo A x B _ l right Hasc Hl') as [? _]; [lia|]. set_solver.
  - intros b [Hb| ->%elem_of_singleton]%elem_of_union.
    + destruct (Hpend _ Hb) as (l & Hl' & ? & ?).
      apply elem_of_mid in Hl' as [->|Hl'].
      * exists (left_child x true). split; [set_solver|done].
      * exists l. split; [set_solver|done].
    + exists (right_child x true). split; [set_solver|done].
  - by destruct Hl as (_ & ? & _).
  - by destruct Hr as (_ & ? & _).
Qed.

Lemma merge_headers h a sz0 u lr inh lr_bit inh_bit sz :
  header h a sz0 u lr inh → 0 ≤ sz0 < 2 ^ 61 → 0 ≤ sz < 2 ^ 61 →
  header (merge_writes h a lr_bit inh_bit sz) a sz false lr_bit inh_bit ∧
  ∀ b, b ≠ a → same_at h (merge_writes h a lr_bit inh_bit sz) b.
Proof.
  intros H H0 Hsz. split.
  - apply (header_set_lr_bit _ _ _ _ _ _ lr_bit) in H; [|done].
    apply (header_set_inh_bit _ _ _ _ _ _ inh_bit) in H; [|done].
    destruct H as (_ & Hu & Hl & Hi).
    pose proof (header_set_size (item_set_inh_bit (item_set_lr_bit h a lr_bit) a inh_bit)
                  a sz Hsz) as H.
    rewrite Hu, Hl, Hi in H.
    by apply (header_set_in_use _ _ _ _ _ _ false) in H.
  - intros b Hb. unfold merge_writes, item_set_lr_bit, item_set_in_use, item_set_inh_bit.
    repeat (eapply same_at_trans;
            [|first [by apply same_at_set_flag|by apply same_at_set_size]]).
    apply same_at_refl.
Qed.

(** Two pending buddies become their pending parent. *)
Lemma inv_merge s pend P cs A x y B :
  inv s pend P cs (A ++ x :: y :: B) → l_addr x ∈ pend → l_addr y ∈ pend →
  l_addr y = l_end x → l_idx y = l_idx x + 3 →
  forest cs (A ++ parent x y :: B) →
  let h' := merge_writes (heap s) (l_addr x) (l_inh x) (l_inh y) (ladder (l_idx x + 4)) in
  inv (set_heap s h') (pend ∖ {[l_addr y]}) P cs (A ++ set_used (parent x y) true :: B) ∧
  item_is_in_use h' (l_addr x) = false ∧
  l_idx x + 4 < array_size (arr s).
Proof.
  intros HI Hxp Hyp Hya Hyi Hfor' h'.
  assert (x ∈ A ++ x :: y :: B) as Hx by (apply elem_of_mid; by left).
  assert (y ∈ A ++ x :: y :: B) as Hy by mem.
  pose proof (inv_leaf_idx _ _ _ _ _ _ HI Hx) as Hidx.
  pose proof (inv_leaf_size _ _ _ _ _ _ HI Hx) as Hxsz.
  pose proof (inv_leaf_header _ _ _ _ _ _ HI Hx) as Hxh.
  destruct HI as [Hcells Hcap Hfor [lo Hasc] Hhdr Hch Hlists Hprot Hpend].
  rewrite Forall_forall in Hhdr. pose proof Hch as Hch'. rewrite Forall_forall in Hch.
  assert (l_idx x + 4 < array_size (arr s)) as Hpi.
  { assert (Forall (λ c : Z * Z, 1 ≤ c.2) cs) as Hcs.
    { eapply Forall_impl; [apply Hch'|]. intros c (? & _). lia. }
    destruct (forest_chunk _ _ (parent x y) Hfor' Hcs) as (b & i & Hc & ? & _);
      [mem|].
    destruct (Hch _ Hc) as (? & _). simpl in *. lia. }
  assert (Z.of_nat (length (cells (arr s))) ≤ MAX_CELLS) by (by destruct Hcells as [[_ ?] _]).
  assert (3 ≤ ladder (l_idx x + 4) < 2 ^ 29) as Hzsz.
  { unfold array_size in *. split; [apply ladder_ge|apply ladder_small]; lia. }
  destruct (merge_headers (heap s) (l_addr x) _ _ _ _ (l_inh x) (l_inh y)
              (ladder (l_idx x + 4)) Hxh) as [Hz Hsame]; [lia..|]. fold h' in Hz, Hsame.
  destruct (parent_geometry x y) as [Gpa Gpe]; [lia|done..|].
  pose proof (l_end_gt x). pose proof (l_end_gt y).
  assert (asc lo ((A ++ [x]) ++ y :: B) (brk s)) as Hasc' by (by rewrite <-app_assoc).
  assert (∀ l, l ∈ A ++ B → l_addr l ≠ l_addr x ∧ l_addr l ≠ l_addr y ∧
                             l ≠ x ∧ l ≠ y) as Hne.
  { intros l Hl.
    destruct (asc_not_elem _ _ _ _ _ l Hasc) as [??]; [mem|].
    destruct (asc_not_elem _ _ _ _ _ l Hasc') as [??]; [mem|]. done. }
  destruct (Hpend _ Hxp) as (x' & Hx' & Hxa & Hxu).
  assert (x' = x) as -> by apply (asc_addr_inj _ _ _ _ _ Hasc Hx' Hx Hxa).
  destruct (Hpend _ Hyp) as (y' & Hy' & Hyaa & Hyu).
  assert (y' = y) as -> by apply (asc_addr_inj _ _ _ _ _ Hasc Hy' Hy Hyaa).
  split; [split|split]; simpl; try done.
  - by apply forest_set_used.
  - exists lo. by apply asc_merge.
  - apply Forall_forall. intros l [->|Hl]%elem_of_mid.
    + destruct Hz as (? & ? & ? & ?). unfold hdr_ok. simpl. split_and!; [done..|].
      intros Hn. exfalso. apply Hn. apply elem_of_difference. split; [done|].
      rewrite elem_of_singleton. lia.
    + destruct (Hne _ Hl) as (? & ? & _).
      eapply hdr_ok_same; [by apply Hsame|].
      destruct (Hhdr l) as (? & ? & ? & Hu); [mem|].
      split_and!; [done..|]. intros Hn. apply Hu. intros Hp. apply Hn.
      apply elem_of_difference. split; [done|]. by rewrite elem_of_singleton.
  - apply Forall_forall. intros ch Hin. destruct (Hch _ Hin) as (? & Huse & ? & Hout).
    pose proof (Hout x Hx). pose proof (Hout y Hy).
    unfold chunk_ok. simpl. split_and!; [lia|lia| |done|].
    + rewrite (in_use_same (heap s)); [done|]. apply Hsame. lia.
    + intros l [->|Hl]%elem_of_mid; [|apply Hout; mem].
      change (l_addr (set_used (parent x y) true)) with (l_addr (parent x y)).
      change (l_end (set_used (parent x y) true)) with (l_end (parent x y)).
      rewrite Gpa, Gpe. lia.
  - intros j c Hj. destruct (Hlists _ _ Hj) as [Hnd Hiff]. split; [done|].
    intros a. rewrite Hiff.
    change (A ++ x :: y :: B) with (A ++ [x; y] ++ B).
    change (A ++ set_used (parent x y) true :: B)
      with (A ++ [set_used (parent x y) true] ++ B).
    rewrite !free_at_app3.
    pose proof (free_at_used [x; y] a (Z.of_nat j)) as F1.
    pose proof (free_at_used [set_used (parent x y) true] a (Z.of_nat j)) as F2.
    split; (intros [?|?]; [by left|exfalso]); [apply F1|apply F2]; try done;
      repeat constructor; done.
  - intros p Hp. destruct (Hprot _ Hp) as (l & Hl & ? & ? & Hnp).
    apply elem_of_mid in Hl as [->|Hl]; [done|].
    apply elem_of_mid in Hl as [->|Hl]; [done|].
    exists l. split_and!; [mem|done..|].
    intros [? _]%elem_of_difference. done.
  - intros b [Hb Hby]%elem_of_difference.
    destruct (Hpend _ Hb) as (l & Hl & ? & ?).
    apply elem_of_mid in Hl as [->|Hl].
    + exists (set_used (parent x y) true). split; [mem|done].
    + apply elem_of_mid in Hl as [->|Hl]; [by rewrite elem_of_singleton in Hby|].
      exists l. split; [mem|done].
  - by destruct Hz as (_ & ? & _).
Qed.

(** A block that was handed out comes back: its in_use bit is cleared. *)
Lemma inv_release s pend P cs L x :
  inv s pend P cs L → x ∈ L → l_used x = true → item_get_area (l_addr x) ∉ P →
  let h' := item_set_in_use (heap s) (l_addr x) false in
  inv (set_heap s h') (pend ∪ {[l_addr x]}) P cs L ∧
  item_is_in_use h' (l_addr x) = false.
Proof.
  intros HI Hx Hxu HxP h'.
  pose proof (inv_leaf_size _ _ _ _ _ _ HI Hx) as Hsz.
  pose proof (inv_leaf_header _ _ _ _ _ _ HI Hx) as Hh.
  pose proof (λ l2, inv_addr_inj _ _ _ _ _ x l2 HI Hx) as Hinj.
  destruct HI as [Hcells Hcap Hfor [lo Hasc] Hhdr Hch Hlists Hprot Hpend].
  rewrite Forall_forall in Hhdr. rewrite Forall_forall in Hch.
  eapply (header_set_in_use _ _ _ _ _ _ false) in Hh as (? & ? & ? & ?); [|lia].
  assert (∀ b, b ≠ l_addr x → same_at (heap s) h' b) as Hsame.
  { intros b Hb. by apply same_at_set_flag. }
  split; [split|]; simpl; try done.
  - by exists lo.
  - apply Forall_forall. intros l Hl.
    destruct (decide (l_addr l = l_addr x)) as [Heq|Hne].
    + assert (l = x) as -> by (symmetry; by apply Hinj).
      unfold hdr_ok. split_and!; [done..|].
      intros Hn. exfalso. apply Hn. apply elem_of_union. right. by apply elem_of_singleton.
    + eapply hdr_ok_same; [by apply Hsame|].
      eapply hdr_ok_mono; [|by apply Hhdr]. apply union_subseteq_l.
  - apply Forall_forall. intros ch Hin. destruct (Hch _ Hin) as (? & Huse & ? & Hout).
    unfold chunk_ok. simpl. split_and!; [lia|lia| |done..].
    rewrite (in_use_same (heap s)); [done|]. apply Hsame.
    intros Heq. apply (Hout x Hx). rewrite Heq.
    pose proof (l_end_gt x). apply asc_Forall in Hasc. rewrite Forall_forall in Hasc.
    apply Hasc in Hx. lia.
  - intros p Hp. destruct (Hprot _ Hp) as (l & Hl & Hla & ? & ?).
    exists l. split_and!; [done..|].
    intros [?| Heq%elem_of_singleton]%elem_of_union; [done|].
    apply HxP. rewrite <-Heq, Hla. unfold item_get_area, item_from_area.
    by replace (p - POINTER_SIZE + POINTER_SIZE) with p by lia.
  - intros b [Hb| ->%elem_of_singleton]%elem_of_union; [by apply Hpend|].
    by exists x.
Qed.

(** *** A new chunk *)

Lemma uint_small z : 0 ≤ z < 2 ^ 32 → uint z = z.
Proof. intros. unfold uint. by apply Z.mod_small. Qed.

Lemma alloc_new_item_eq s n :
  0 ≤ n < 2 ^ 29 →
  let tmp := brk s in
  let item := tmp + POINTER_SIZE in
  let fake_right := tmp + BLOCK_SIZE * n + POINTER_SIZE in
  let h := store (heap s) tmp (mem_list s) in
  let h := item_set_size h fake_right 0 in
  let h := item_set_lr_bit h fake_right RIGHT in
  let h := item_set_in_use h fake_right true in
  let h := item_set_size h item n in
  let h := item_set_lr_bit h item LEFT in
  alloc_new_item s n =
    (State h (arr s) tmp (brk s + (BLOCK_SIZE * n + POINTER_SIZE * 2)), item).
Proof.
  intros Hn. unfold alloc_new_item, malloc. simpl.
  rewrite uint_small by (unfold BLOCK_SIZE; lia). done.
Qed.

Lemma new_chunk_headers h tmp w n :
  3 ≤ n < 2 ^ 29 →
  let item := tmp + POINTER_SIZE in
  let fake_right := tmp + BLOCK_SIZE * n + POINTER_SIZE in
  let h0 := store h tmp w in
  let h1 := item_set_size h0 fake_right 0 in
  let h2 := item_set_lr_bit h1 fake_right RIGHT in
  let h3 := item_set_in_use h2 fake_right true in
  let h4 := item_set_size h3 item n in
  let h5 := item_set_lr_bit h4 item LEFT in
  header h5 item n (item_is_in_use h item) LEFT (item_get_inh_bit h item) ∧
  header h5 fake_right 0 true RIGHT (item_get_inh_bit h fake_right) ∧
  load h5 tmp = w ∧
  ∀ b, b < tmp → same_at h h5 b.
Proof.
  intros Hn item fake_right h0 h1 h2 h3 h4 h5.
  assert (item ≠ fake_right ∧ tmp ≠ item ∧ tmp ≠ fake_right) as (Hif & Hti & Htf).
  { unfold item, fake_right, BLOCK_SIZE, POINTER_SIZE. lia. }
  assert (∀ h a k v b, a ≠ b → ∀ sz u lr inh,
            header h b sz u lr inh → header (set_flag h a k v) b sz u lr inh) as Hfl.
  { intros. eapply same_at_header; [|done]. by apply same_at_set_flag. }
  assert (∀ h a s b, a ≠ b → ∀ sz u lr inh,
            header h b sz u lr inh → header (item_set_size h a s) b sz u lr inh) as Hfs.
  { intros. eapply same_at_header; [|done]. by apply same_at_set_size. }
  assert (∀ b, b ≠ tmp → b ≠ item → b ≠ fake_right → same_at h h5 b) as Hsame.
  { intros b ? ? ?. subst h0 h1 h2 h3 h4 h5.
    unfold item_set_lr_bit, item_set_in_use, item_set_inh_bit.
    repeat (eapply same_at_trans;
            [|first [by apply same_at_set_flag|by apply same_at_set_size
                    |by apply same_at_store]]).
    apply same_at_refl. }
  split_and!.
  - assert (same_at h h3 item) as Hs3.
    { subst h0 h1 h2 h3. unfold item_set_lr_bit, item_set_in_use.
      repeat (eapply same_at_trans;
              [|first [by apply same_at_set_flag|by apply same_at_set_size
                      |by apply same_at_store]]).
      apply same_at_refl. }
    pose proof (header_set_size h3 item n ltac:(lia)) as H.
    unfold item_is_in_use, item_get_inh_bit, item_get_lr_bit in H |- *.
    rewrite Hs3 in H.
    apply (header_set_lr_bit _ _ _ _ _ _ LEFT) in H; [done|lia].
  - assert (same_at h h0 fake_right) as Hs0 by (by apply same_at_store).
    pose proof (header_set_size h0 fake_right 0 ltac:(lia)) as H.
    unfold item_is_in_use, item_get_inh_bit, item_get_lr_bit in H |- *.
    rewrite Hs0 in H.
    apply (header_set_lr_bit _ _ _ _ _ _ RIGHT) in H; [|lia].
    apply (header_set_in_use _ _ _ _ _ _ true) in H; [|lia].
    apply (Hfs _ item n) in H; [|done].
    apply (Hfl _ item 2 LEFT) in H; [|done]. done.
  - subst h0 h1 h2 h3 h4 h5.
    unfold item_set_lr_bit, item_set_in_use, item_set_size, set_flag.
    rewrite !load_store_ne by done. apply load_store_eq.
  - intros b Hb. apply Hsame; unfold item, fake_right, BLOCK_SIZE, POINTER_SIZE; lia.
Qed.

(** alloc_new_item adds a chunk whose block is pending. *)
Lemma inv_new_chunk s pend P cs L i :
  inv s pend P cs L → 1 ≤ i < array_size (arr s) →
  ∃ s' inh,
    alloc_new_item s (ladder i) = (s', brk s + POINTER_SIZE) ∧
    arr s' = arr s ∧
    inv s' (pend ∪ {[brk s + POINTER_SIZE]}) P (cs ++ [(brk s + POINTER_SIZE, i)])
        (L ++ [Leaf (brk s + POINTER_SIZE) i LEFT inh true]).
Proof.
  intros HI Hi.
  destruct HI as [Hcells Hcap Hfor [lo Hasc] Hhdr Hch Hlists Hprot Hpend].
  assert (Z.of_nat (length (cells (arr s))) ≤ MAX_CELLS) by (by destruct Hcells as [[_ ?] _]).
  assert (3 ≤ ladder i < 2 ^ 29) as Hn.
  { unfold array_size in *. split; [apply ladder_ge|apply ladder_small]; lia. }
  rewrite alloc_new_item_eq by lia.
  destruct (new_chunk_headers (heap s) (brk s) (mem_list s) (ladder i) Hn)
    as (Hitem & Hfake & _ & Hsame).
  set (item := brk s + POINTER_SIZE) in *.
  set (fake_right := brk s + BLOCK_SIZE * ladder i + POINTER_SIZE) in *.
  eexists _, (item_get_inh_bit (heap s) item). split; [done|]. split; [done|].
  pose proof (asc_Forall _ _ _ Hasc) as Hbnd. rewrite Forall_forall in Hbnd.
  assert (∀ l, l ∈ L → l_addr l < brk s) as Hlt.
  { intros l Hl. apply Hbnd in Hl. pose proof (l_end_gt l). lia. }
  rewrite Forall_forall in Hhdr. rewrite Forall_forall in Hch.
  assert (item = brk s + 8 ∧ fake_right = item + ladder i * BLOCK_SIZE) as [Hie Hfe].
  { unfold item, fake_right, BLOCK_SIZE, POINTER_SIZE. lia. }
  split; simpl; try done.
  - eapply forest_snoc; [done|]. apply covers_leaf.
  - exists lo. apply asc_app. exists (brk s). split; [done|]. simpl.
    unfold l_end. simpl. unfold BLOCK_SIZE, POINTER_SIZE in *. lia.
  - apply Forall_app. split.
    + apply Forall_forall. intros l Hl.
      eapply hdr_ok_same; [apply Hsame; by apply Hlt|].
      eapply hdr_ok_mono; [|by apply Hhdr]. apply union_subseteq_l.
    + apply Forall_singleton. destruct Hitem as (? & ? & ? & ?).
      unfold hdr_ok. simpl. split_and!; [done..|].
      intros Hn'. exfalso. apply Hn'. apply elem_of_union. right. by apply elem_of_singleton.
  - apply Forall_app. split.
    + apply Forall_forall. intros ch Hin. destruct (Hch _ Hin) as (? & Huse & ? & Hout).
      unfold chunk_ok. simpl. split_and!; [lia|lia| | |].
      * rewrite (in_use_same (heap s)); [done|]. by apply Hsame.
      * unfold BLOCK_SIZE, POINTER_SIZE. lia.
      * intros l [Hl| ->%list_elem_of_singleton]%elem_of_app; [by apply Hout|].
        simpl. lia.
    + apply Forall_singleton. unfold chunk_ok, sentinel. simpl. rewrite <-Hfe.
      split_and!; [lia|lia|by destruct Hfake as (_ & ? & _)| |].
      * unfold fake_right, BLOCK_SIZE, POINTER_SIZE. lia.
      * intros l [Hl| ->%list_elem_of_singleton]%elem_of_app.
        -- apply Hbnd in Hl. unfold BLOCK_SIZE in *. lia.
        -- unfold l_end. simpl. lia.
  - intros j c Hj. destruct (Hlists _ _ Hj) as [Hnd Hiff]. split; [done|].
    intros a. rewrite Hiff. unfold free_at. split.
    + intros (l & ? & ?). exists l. split; [mem|done].
    + intros (l & [?| ->%list_elem_of_singleton]%elem_of_app & ? & ? & ?);
        [by exists l|done].
  - intros p Hp. destruct (Hprot _ Hp) as (l & Hl & Hla & ? & ?).
    exists l. split_and!; [mem|done..|].
    intros [?| Heq%elem_of_singleton]%elem_of_union; [done|].
    apply Hlt in Hl. lia.
  - intros b [Hb| ->%elem_of_singleton]%elem_of_union.
    + destruct (Hpend _ Hb) as (l & ? & ?). exists l. split; [mem|done].
    + eexists. split; [apply elem_of_app; right; apply list_elem_of_singleton; done|done].
Qed.

(** *** One more cell *)

Lemma inv_append_cell s pend P cs L d cap :
  inv s pend P cs L → array_size (arr s) + 1 ≤ MAX_CELLS → array_size (arr s) + 1 < cap →
  inv (set_arr s (Array d (cells (arr s) ++ [Cell (ladder (array_size (arr s))) []]) cap))
      pend P cs L.
Proof.
  intros HI Hmax Hcap'.
  pose proof (λ l, inv_leaf_idx _ _ _ _ _ l HI) as Hidx.
  destruct HI as [Hcells Hcap Hfor Hasc Hhdr Hch Hlists Hprot Hpend].
  rewrite Forall_forall in Hch.
  assert (array_size (Array d (cells (arr s) ++ [Cell (ladder (array_size (arr s))) []]) cap)
          = array_size (arr s) + 1) as Hsz.
  { unfold array_size. simpl. rewrite length_app. simpl. lia. }
  split; simpl; try done.
  - destruct Hcells as [[??] Hc]. split.
    + rewrite length_app. simpl. unfold array_size in *. lia.
    + intros j c [Hj|[Hlen Hj]]%lookup_app_Some; [by apply Hc|].
      apply list_lookup_singleton_Some in Hj as [Hj <-]. simpl. f_equal.
      unfold array_size. lia.
  - rewrite Hsz. done.
  - apply Forall_forall. intros ch Hin. destruct (Hch _ Hin) as (? & ? & ? & ?).
    unfold chunk_ok. simpl. rewrite Hsz. split_and!; [lia|lia|done..].
  - intros j c [Hj|[Hlen Hj]]%lookup_app_Some; [by apply Hlists|].
    apply list_lookup_singleton_Some in Hj as [Hj <-]. simpl.
    split; [constructor|]. intros a. split; [by intros ?%elem_of_nil|].
    intros (l & Hl & _ & Hli & _). apply Hidx in Hl. unfold array_size in *. lia.
Qed.

(** ** The splitter keeps the invariant *)

Lemma hdr_ok_bits s pend P cs L x :
  inv s pend P cs L → x ∈ L →
  item_get_size (heap s) (l_addr x) = ladder (l_idx x) ∧
  item_get_lr_bit (heap s) (l_addr x) = l_lr x ∧
  item_get_inh_bit (heap s) (l_addr x) = l_inh x.
Proof.
  intros HI Hx. pose proof (inv_hdr _ _ _ _ _ HI) as H. rewrite Forall_forall in H.
  destruct (H _ Hx) as (? & ? & ? & _). done.
Qed.

Lemma inv_pend_eq s pend pend' P cs L : pend = pend' → inv s pend P cs L → inv s pend' P cs L.
Proof. by intros ->. Qed.

Lemma same_frame_refl s : same_frame s s.
Proof. done. Qed.

Lemma same_frame_trans s1 s2 s3 : same_frame s1 s2 → same_frame s2 s3 → same_frame s1 s3.
Proof. unfold same_frame. intros (-> & -> & -> & -> & ->) (-> & -> & -> & -> & ->). done. Qed.

Lemma same_frame_size s s' : same_frame s s' → array_size (arr s') = array_size (arr s).
Proof.
  intros (_ & _ & _ & _ & H). unfold array_size.
  by rewrite <-(length_fmap cell_size (cells (arr s'))), H, length_fmap.
Qed.

Lemma same_frame_with_items s i c l :
  cell_at (arr s) i = Some c → same_frame s (with_items s i c l).
Proof.
  intros [? Hc]%cell_at_Some. split_and!; try done. simpl.
  apply list_eq. intros j. rewrite !list_lookup_fmap.
  destruct (decide (j = Z.to_nat i)) as [->|].
  - rewrite Hc. rewrite list_lookup_insert_eq; [done|]. by eapply lookup_lt_Some.
  - by rewrite list_lookup_insert_ne.
Qed.


Lemma split_step_inv s P cs L x (n : Z) :
  inv s {[l_addr x]} P cs L → x ∈ L → 4 < l_idx x → n ≤ ladder (l_idx x - 1) →
  ∃ s' L' x',
    split_step s (l_idx x) (l_addr x) n = Some (s', l_idx x', l_addr x') ∧
    inv s' {[l_addr x']} P cs L' ∧ x' ∈ L' ∧ l_idx x' < l_idx x ∧ n ≤ ladder (l_idx x') ∧
    same_frame s s'.
Proof.
  intros HI Hx Hi Hn.
  pose proof (inv_leaf_idx _ _ _ _ _ _ HI Hx) as Hidx.
  destruct (hdr_ok_bits _ _ _ _ _ _ HI Hx) as (_ & Hlr & Hinh).
  destruct (cell_at_lookup (arr s) (l_idx x - 4)) as [c4 Hc4]; [lia|].
  destruct (cell_at_lookup (arr s) (l_idx x - 1)) as [c1 Hc1]; [lia|].
  pose proof (cells_ok_at _ _ _ (inv_cells _ _ _ _ _ HI) Hc4) as Hs4.
  pose proof (cells_ok_at _ _ _ (inv_cells _ _ _ _ _ HI) Hc1) as Hs1.
  apply list_elem_of_split in Hx as (A & B & ->).
  destruct (inv_split _ _ _ _ _ _ _ HI) as (HI' & Hul & Hur); [by apply elem_of_singleton|done|].
  destruct (children_geometry x true true Hi) as (Ga & Ge & Ge' & Gr).
  unfold split_step. rewrite Hc4, Hc1. simpl. rewrite Hlr, Hinh, Hs4, Hs1.
  set (right := l_addr x + ladder (l_idx x - 4) * BLOCK_SIZE) in *.
  set (h' := split_writes (heap s) (l_addr x) right (ladder (l_idx x - 4))
               (ladder (l_idx x - 1)) (l_lr x) (l_inh x)) in *.
  change (item_set_inh_bit _ right (l_inh x)) with h'.
  change (l_addr (right_child x true)) with right in Gr.
  destruct (Z.geb_spec (ladder (l_idx x - 4)) n) as [Hge|Hlt].
  - rewrite (insert_item_eq _ _ c1) by done. simpl.
    change (A ++ left_child x true :: right_child x true :: B)
      with (A ++ [left_child x true] ++ right_child x true :: B) in HI'.
    rewrite app_assoc in HI'.
    apply (inv_list _ _ _ _ _ _ _ c1) in HI'; simpl; [|done|mem_set|done|done].
    eexists _, _, (left_child x true). split; [done|]. split_and!.
    + eapply inv_pend_eq; [|exact HI']. simpl. fold right.
      apply set_eq. intros a. rewrite elem_of_difference, elem_of_union, !elem_of_singleton.
      lia.
    + mem.
    + simpl. lia.
    + simpl. lia.
    + by apply (same_frame_with_items (set_heap s h')).
  - rewrite (insert_item_eq _ _ c4) by done. simpl.
    apply (inv_list _ _ _ _ _ _ _ c4) in HI'; simpl; [|done|mem_set|done|done].
    eexists _, _, (right_child x true). split; [done|]. split_and!.
    + eapply inv_pend_eq; [|exact HI']. simpl. fold right.
      apply set_eq. intros a. rewrite elem_of_difference, elem_of_union, !elem_of_singleton.
      lia.
    + mem.
    + simpl. lia.
    + simpl. lia.
    + by apply (same_frame_with_items (set_heap s h')).
Qed.

Lemma split_loop_inv fuel s P cs L x (n : Z) :
  inv s {[l_addr x]} P cs L → x ∈ L → n ≤ ladder (l_idx x) →
  (Z.to_nat (l_idx x) ≤ fuel)%nat →
  ∃ s' L' x',
    split_loop fuel s (l_idx x) (l_addr x) n = Some (s', l_idx x', l_addr x') ∧
    inv s' {[l_addr x']} P cs L' ∧ x' ∈ L' ∧ n ≤ ladder (l_idx x') ∧
    (l_idx x' ≤ 4 ∨ ladder (l_idx x' - 1) < n) ∧
    same_frame s s'.
Proof.
  revert s L x. induction fuel as [|fuel IH]; intros s L x HI Hx Hn Hfuel.
  - pose proof (inv_leaf_idx _ _ _ _ _ _ HI Hx). lia.
  - pose proof (inv_leaf_idx _ _ _ _ _ _ HI Hx) as Hidx.
    destruct (cell_at_lookup (arr s) (l_idx x - 1)) as [c1 Hc1]; [lia|].
    pose proof (cells_ok_at _ _ _ (inv_cells _ _ _ _ _ HI) Hc1) as Hs1.
    simpl. rewrite Hc1. simpl. rewrite Hs1.
    destruct (Z.geb_spec (ladder (l_idx x - 1)) n) as [Hge|Hlt];
      destruct (Z.gtb_spec (l_idx x) 4) as [Hi|Hi]; simpl.
    + destruct (split_step_inv _ _ _ _ _ n HI Hx Hi Hge)
        as (s1 & L1 & x1 & -> & HI1 & Hx1 & Hlt1 & Hn1 & Hfr1).
      simpl. destruct (IH _ _ _ HI1 Hx1 Hn1) as (s' & L' & x' & -> & ? & ? & ? & ? & Hfr');
        [lia|].
      exists s', L', x'. split_and!; [done..|]. by eapply same_frame_trans.
    + exists s, L, x. split_and!; [done..|by left|done].
    + exists s, L, x. split_and!; [done..|by right|done].
    + exists s, L, x. split_and!; [done..|by left|done].
Qed.

(** ** The coalescer keeps the invariant *)

Lemma item_get_buddy_frame s s' item i :
  heap s' = heap s → same_frame s s' →
  item_get_buddy s' item i = item_get_buddy s item i.
Proof.
  intros Hh Hfr. pose proof (same_frame_size _ _ Hfr) as Hsz.
  destruct Hfr as (_ & _ & _ & _ & Hc).
  unfold item_get_buddy. rewrite Hh. destruct (negb _); [done|].
  unfold cell_at. rewrite Hsz.
  destruct (_ && _); [|done].
  assert (cell_size <$> (cells (arr s') !! Z.to_nat (i - 3))
          = cell_size <$> (cells (arr s) !! Z.to_nat (i - 3))) as Heq.
  { by rewrite <-!list_lookup_fmap, Hc. }
  destruct (cells (arr s') !! _), (cells (arr s) !! _); simpl in *; congruence.
Qed.

(** What the loop test of coalesce finds at a free block: whether it
    may run, and if it does, the buddy that will be merged. *)
Lemma buddy_analysis s P cs L x :
  inv s ∅ P cs L → x ∈ L → l_used x = false →
  ∃ buddy ibuddy go,
    item_get_buddy s (l_addr x) (l_idx x) = Some (buddy, ibuddy) ∧
    coalesce_test s buddy ibuddy = Some go ∧
    (go = true →
     ∃ A y B, l_addr y = buddy ∧ l_idx y = ibuddy ∧ l_used y = false ∧
       ((l_lr x = LEFT ∧ L = A ++ x :: y :: B ∧ l_addr y = l_end x ∧
         l_idx y = l_idx x + 3 ∧ forest cs (A ++ parent x y :: B)) ∨
        (l_lr x = RIGHT ∧ L = A ++ y :: x :: B ∧ l_addr x = l_end y ∧
         l_idx x = l_idx y + 3 ∧ forest cs (A ++ parent y x :: B)))).
Proof.
  intros HI Hx Hxu.
  pose proof (inv_leaf_idx _ _ _ _ _ _ HI Hx) as Hidx.
  destruct (hdr_ok_bits _ _ _ _ _ _ HI Hx) as (Hsz & Hlr & _).
  pose proof (inv_hdr _ _ _ _ _ HI) as Hhdr. rewrite Forall_forall in Hhdr.
  pose proof (inv_chunks _ _ _ _ _ HI) as Hch. rewrite Forall_forall in Hch.
  pose proof (inv_cells _ _ _ _ _ HI) as Hcells.
  pose proof (inv_forest _ _ _ _ _ HI) as Hfor.
  apply list_elem_of_split in Hx as (A & B & ->).
  unfold item_get_buddy. rewrite Hlr, Hsz.
  destruct (l_lr x) eqn:Hxlr; simpl.
  - (* a right block *)
    destruct (forest_buddy_right _ _ _ _ Hfor Hxlr)
      as (A0 & y & K & -> & Hya & Hi4 & Hyi & Hm).
    destruct (cell_at_lookup (arr s) (l_idx x - 3)) as [c Hc]; [lia|].
    pose proof (cells_ok_at _ _ _ Hcells Hc) as Hcs.
    rewrite Hc. simpl. rewrite Hcs, <-Hya.
    assert (y ∈ (A0 ++ y :: K) ++ x :: B) as Hy by mem.
    destruct (Hhdr _ Hy) as (Hys & _ & _ & Hyu).
    pose proof (inv_leaf_idx _ _ _ _ _ _ HI Hy) as Hyidx.
    exists (l_addr y), (l_idx x - 3).
    unfold coalesce_test. rewrite Hyu by set_solver.
    destruct (l_used y) eqn:Hu.
    { exists false. split_and!; done. }
    rewrite Hc. simpl. rewrite Hcs, Hys.
    destruct (Z.eqb_spec (ladder (l_idx x - 3)) (ladder (l_idx y))) as [Heq|Hne].
    + apply ladder_inj in Heq; [|lia..].
      destruct Hm as (-> & Hye & Hf); [lia|].
      exists true. split_and!; [done..|]. intros _.
      exists A0, y, B. split_and!; [done..|lia|done|]. right.
      rewrite <-app_assoc. split_and!; [done..|lia|done].
    + exists false. split_and!; done.
  - (* a left block *)
    assert (l_addr x + ladder (l_idx x) * BLOCK_SIZE = l_end x) as -> by done.
    exists (l_end x), (l_idx x + 3).
    unfold coalesce_test.
    destruct (forest_buddy_left _ _ _ _ Hfor Hxlr)
      as [Hroot|(y & B' & ch & -> & Hya & Hyi & Hch' & Hbound & Hm)].
    + destruct (Hch _ Hroot) as (_ & Huse & _).
      unfold sentinel in Huse. simpl in Huse. fold (l_end x) in Huse. rewrite Huse.
      exists false. split_and!; done.
    + assert (y ∈ A ++ x :: y :: B') as Hy by mem.
      destruct (Hhdr _ Hy) as (Hys & _ & _ & Hyu).
      pose proof (inv_leaf_idx _ _ _ _ _ _ HI Hy) as Hyidx.
      rewrite <-Hya, Hyu by set_solver.
      destruct (l_used y) eqn:Hu.
      { exists false. split_and!; done. }
      destruct (Hch _ Hch') as (Hchi & _).
      destruct (cell_at_lookup (arr s) (l_idx x + 3)) as [c Hc]; [lia|].
      pose proof (cells_ok_at _ _ _ Hcells Hc) as Hcs.
      rewrite Hc. simpl. rewrite Hcs, Hys.
      destruct (Z.eqb_spec (ladder (l_idx x + 3)) (ladder (l_idx y))) as [Heq|Hne].
      * apply ladder_inj in Heq; [|lia..].
        exists true. split_and!; [done..|]. intros _.
        exists A, y, B'. split_and!; [done..|lia|done|]. left.
        split_and!; [done..|lia|]. apply Hm. lia.
      * exists false. split_and!; done.
Qed.

(** Two buddies that left their lists are merged and the parent is
    put on the list of its cell. *)
Lemma merge_tail s P cs A xl xr B c :
  inv s {[l_addr xl; l_addr xr]} P cs (A ++ xl :: xr :: B) →
  l_addr xr = l_end xl → l_idx xr = l_idx xl + 3 →
  forest cs (A ++ parent xl xr :: B) →
  cell_at (arr s) (l_idx xl + 4) = Some c →
  let h' := merge_writes (heap s) (l_addr xl) (l_inh xl) (l_inh xr) (ladder (l_idx xl + 4)) in
  inv (with_items (set_heap s h') (l_idx xl + 4) c (l_addr xl :: cell_items c))
      ∅ P cs (A ++ parent xl xr :: B).
Proof.
  intros HI Ha Hi Hf Hc h'.
  assert (xl ∈ A ++ xl :: xr :: B) as Hxl by mem.
  pose proof (inv_leaf_idx _ _ _ _ _ _ HI Hxl) as Hidx.
  pose proof (l_end_gt xl ltac:(lia)) as Hgt.
  destruct (inv_merge _ _ _ _ _ _ _ _ HI) as (HI' & Hu & _); [mem_set|mem_set|done..|].
  fold h' in HI', Hu.
  apply (inv_list _ _ _ _ _ _ _ c) in HI'; simpl; [|done|mem_set|done|done].
  eapply inv_pend_eq; [|exact HI']. simpl.
  apply set_eq. intros a. rewrite !elem_of_difference, elem_of_union, !elem_of_singleton.
  split; [|by intros ?%elem_of_empty]. lia.
Qed.

Lemma coalesce_step_inv s P cs L x buddy ibuddy :
  inv s ∅ P cs L → x ∈ L → l_used x = false →
  item_get_buddy s (l_addr x) (l_idx x) = Some (buddy, ibuddy) →
  coalesce_test s buddy ibuddy = Some true →
  ∃ s' L' x' i' item' buddy' ibuddy',
    coalesce_step s (l_idx x) (l_addr x) buddy ibuddy
      = Some (s', i', item', buddy', ibuddy') ∧
    i' = l_idx x' ∧ item' = l_addr x' ∧
    inv s' ∅ P cs L' ∧ x' ∈ L' ∧ l_used x' = false ∧ l_idx x < l_idx x' ∧
    item_get_buddy s' (l_addr x') (l_idx x') = Some (buddy', ibuddy') ∧
    same_frame s s' ∧ l_addr x' ≤ l_addr x ∧ l_end x ≤ l_end x' ∧
    (∃ c, cell_at (arr s') (l_idx x') = Some c ∧ head (cell_items c) = Some (l_addr x')).
Proof.
  intros HI Hx Hxu Hb Ht.
  destruct (buddy_analysis _ _ _ _ _ HI Hx Hxu) as (b0 & ib0 & go & Hb0 & Ht0 & Hgo).
  rewrite Hb in Hb0. injection Hb0 as <- <-. rewrite Ht in Ht0. injection Ht0 as <-.
  destruct (Hgo eq_refl) as (A & y & B & Hya & Hyi & Hyu & Hcase). clear Hgo.
  pose proof (inv_leaf_idx _ _ _ _ _ _ HI Hx) as Hidx.
  destruct (hdr_ok_bits _ _ _ _ _ _ HI Hx) as (_ & Hlr & Hinh).
  destruct (cell_at_lookup (arr s) (l_idx x)) as [ci Hci]; [lia|].
  assert (y ∈ L) as Hy by (destruct Hcase as [(_ & -> & _)|(_ & -> & _)]; mem).
  pose proof (inv_leaf_idx _ _ _ _ _ _ HI Hy) as Hyidx.
  destruct (hdr_ok_bits _ _ _ _ _ _ HI Hy) as (_ & _ & Hyinh).
  destruct (cell_at_lookup (arr s) (l_idx y)) as [cb Hcb]; [lia|].
  pose proof (l_end_gt x ltac:(lia)). pose proof (l_end_gt y ltac:(lia)).
  unfold coalesce_step.
  rewrite (delete_item_eq _ _ ci) by done. cbn [mbind option_bind].
  set (s1 := with_items s (l_idx x) ci (remove_first (l_addr x) (cell_items ci))).
  assert (cell_at (arr s1) ibuddy = Some cb) as Hcb1.
  { unfold s1. rewrite with_items_cell_at by done. rewrite <-Hyi.
    case_decide; [|done]. destruct Hcase as [(_ & _ & _ & ? & _)|(_ & _ & _ & ? & _)]; lia. }
  rewrite (delete_item_eq _ _ cb) by done. cbn [mbind option_bind].
  set (s2 := with_items s1 ibuddy cb (remove_first buddy (cell_items cb))).
  change (heap s2) with (heap s). rewrite Hlr.
  assert (same_frame s s2) as Hfr2.
  { apply (same_frame_trans _ s1); [by apply same_frame_with_items|].
    apply same_frame_with_items. exact Hcb1. }
  destruct Hcase as [(Hxlr & -> & Hadj & Hidx3 & Hf)|(Hxlr & -> & Hadj & Hidx3 & Hf)];
    rewrite Hxlr; unfold LEFT, RIGHT; cbn [negb].
  - (* the item is the left buddy *)
    pose proof HI as HI1. apply (inv_unlist_at _ _ _ _ _ _ _ ci) in HI1; [|done..].
    fold s1 in HI1.
    change (A ++ set_used x true :: y :: B)
      with (A ++ [set_used x true] ++ y :: B) in HI1. rewrite app_assoc in HI1.
    apply (inv_unlist_at _ _ _ _ _ _ _ cb) in HI1; [|done|by rewrite Hyi].
    rewrite Hyi, Hya in HI1. fold s2 in HI1. rewrite <-app_assoc in HI1.
    destruct (inv_merge _ _ _ _ _ _ _ _ HI1) as (_ & _ & Hbound);
      [simpl; mem_set|simpl; mem_set|done..|]. cbn [l_idx set_used] in Hbound.
    destruct (cell_at_lookup (arr s2) (l_idx x + 4)) as [c Hc]; [lia|].
    pose proof (cells_ok_at _ _ _ (inv_cells _ _ _ _ _ HI1) Hc) as Hcs.
    rewrite Hc. cbn [mbind option_bind]. rewrite Hcs, Hinh, <-Hya, Hyinh.
    apply (inv_pend_eq _ _ {[l_addr x; l_addr y]}) in HI1;
      [|apply set_eq; intros a; mem_set].
    pose proof (merge_tail s2 P cs A (set_used x true) (set_used y true) B c HI1
                  Hadj Hidx3 Hf Hc) as HI4.
    cbn [l_addr l_idx l_inh set_used] in HI4. change (heap s2) with (heap s) in HI4.
    set (h' := merge_writes (heap s) (l_addr x) (l_inh x) (l_inh y) (ladder (l_idx x + 4)))
      in *.
    change (item_set_in_use _ (l_addr x) false) with h'.
    set (s4 := with_items (set_heap s2 h') (l_idx x + 4) c (l_addr x :: cell_items c)) in *.
    assert (parent x y ∈ A ++ parent x y :: B) as Hz by mem.
    destruct (buddy_analysis _ _ _ _ _ HI4 Hz eq_refl) as (b' & ib' & _ & Hb' & _).
    unfold parent in Hb'. cbn [l_addr l_idx] in Hb'.
    rewrite <-(item_get_buddy_frame (set_heap s2 h') s4), Hb';
      [|done|by apply (same_frame_with_items (set_heap s2 h'))].
    cbn [mbind option_bind]. rewrite (insert_item_eq _ _ c) by done. fold s4.
    cbn [mbind option_bind].
    exists s4, (A ++ parent x y :: B), (parent x y). eexists _, _, _, _.
    split; [done|]. split_and!; try done.
    + simpl. lia.
    + eapply same_frame_trans; [exact Hfr2|].
      by apply (same_frame_with_items (set_heap s2 h')).
    + destruct (parent_geometry x y) as [_ ->]; [lia|done..|]. lia.
    + exists (Cell (cell_size c) (l_addr x :: cell_items c)). split; [|done].
      unfold s4. by rewrite with_items_cell_at, decide_True.
  - (* the item is the right buddy *)
    pose proof HI as HI1.
    change (A ++ y :: x :: B) with (A ++ [y] ++ x :: B) in HI1. rewrite app_assoc in HI1.
    apply (inv_unlist_at _ _ _ _ _ _ _ ci) in HI1; [|done..].
    fold s1 in HI1. rewrite <-app_assoc in HI1. simpl in HI1.
    apply (inv_unlist_at _ _ _ _ _ _ _ cb) in HI1; [|done|by rewrite Hyi].
    rewrite Hyi, Hya in HI1. fold s2 in HI1.
    destruct (inv_merge _ _ _ _ _ _ _ _ HI1) as (_ & _ & Hbound);
      [simpl; mem_set|simpl; mem_set|done|simpl; lia|done|]. cbn [l_idx set_used] in Hbound.
    replace (l_idx x + 1) with (l_idx y + 4) by lia.
    destruct (cell_at_lookup (arr s2) (l_idx y + 4)) as [c Hc]; [lia|].
    pose proof (cells_ok_at _ _ _ (inv_cells _ _ _ _ _ HI1) Hc) as Hcs.
    rewrite Hc. cbn [mbind option_bind]. rewrite Hcs, Hinh, <-Hya, Hyinh.
    apply (inv_pend_eq _ _ {[l_addr y; l_addr x]}) in HI1;
      [|apply set_eq; intros a; mem_set].
    pose proof (merge_tail s2 P cs A (set_used y true) (set_used x true) B c HI1
                  Hadj ltac:(simpl; lia) Hf Hc) as HI4.
    cbn [l_addr l_idx l_inh set_used] in HI4. change (heap s2) with (heap s) in HI4.
    set (h' := merge_writes (heap s) (l_addr y) (l_inh y) (l_inh x) (ladder (l_idx y + 4)))
      in *.
    change (item_set_in_use _ (l_addr y) false) with h'.
    set (s4 := with_items (set_heap s2 h') (l_idx y + 4) c (l_addr y :: cell_items c)) in *.
    assert (parent y x ∈ A ++ parent y x :: B) as Hz by mem.
    destruct (buddy_analysis _ _ _ _ _ HI4 Hz eq_refl) as (b' & ib' & _ & Hb' & _).
    unfold parent in Hb'. cbn [l_addr l_idx] in Hb'.
    rewrite <-(item_get_buddy_frame (set_heap s2 h') s4), Hb';
      [|done|by apply (same_frame_with_items (set_heap s2 h'))].
    cbn [mbind option_bind]. rewrite (insert_item_eq _ _ c) by done. fold s4.
    cbn [mbind option_bind].
    exists s4, (A ++ parent y x :: B), (parent y x). eexists _, _, _, _.
    split; [done|]. split_and!; try done.
    + simpl. lia.
    + eapply same_frame_trans; [exact Hfr2|].
      by apply (same_frame_with_items (set_heap s2 h')).
    + simpl. lia.
    + destruct (parent_geometry y x) as [_ ->]; [lia|done|lia|]. lia.
    + exists (Cell (cell_size c) (l_addr y :: cell_items c)). split; [|done].
      unfold s4. by rewrite with_items_cell_at, decide_True.
Qed.

Lemma coalesce_loop_inv fuel s P cs L x buddy ibuddy :
  inv s ∅ P cs L → x ∈ L → l_used x = false →
  item_get_buddy s (l_addr x) (l_idx x) = Some (buddy, ibuddy) →
  (Z.to_nat (array_size (arr s) - l_idx x) ≤ fuel)%nat →
  ∃ s' L' x' i' item',
    coalesce_loop fuel s (l_idx x) (l_addr x) buddy ibuddy = Some (s', i', item') ∧
    i' = l_idx x' ∧ item' = l_addr x' ∧
    inv s' ∅ P cs L' ∧ x' ∈ L' ∧ l_used x' = false ∧ same_frame s s' ∧
    l_addr x' ≤ l_addr x ∧ l_end x ≤ l_end x' ∧ l_idx x ≤ l_idx x' ∧
    (∃ b ib, item_get_buddy s' (l_addr x') (l_idx x') = Some (b, ib) ∧
             coalesce_test s' b ib = Some false).
Proof.
  revert s L x buddy ibuddy.
  induction fuel as [|fuel IH]; intros s L x buddy ibuddy HI Hx Hxu Hb Hfuel.
  - pose proof (inv_leaf_idx _ _ _ _ _ _ HI Hx). lia.
  - destruct (buddy_analysis _ _ _ _ _ HI Hx Hxu) as (b0 & ib0 & go & Hb0 & Ht & _).
    rewrite Hb in Hb0. injection Hb0 as <- <-.
    cbn [coalesce_loop]. rewrite Ht. cbn [mbind option_bind].
    destruct go.
    + destruct (coalesce_step_inv _ _ _ _ _ _ _ HI Hx Hxu Hb Ht)
        as (s1 & L1 & x1 & i1 & item1 & b1 & ib1 & -> & -> & -> & HI1 & Hx1 & Hxu1 & Hlt
            & Hb1 & Hfr1 & Ha1 & He1 & _).
      cbn [mbind option_bind].
      pose proof (same_frame_size _ _ Hfr1) as Hsz.
      destruct (IH _ _ _ _ _ HI1 Hx1 Hxu1 Hb1)
        as (s' & L' & x' & i' & item' & -> & -> & -> & ? & ? & ? & Hfr' & ? & ? & ? & ?);
        [lia|].
      exists s', L', x'. eexists _, _. split; [done|].
      split_and!; [done..|by eapply same_frame_trans|lia|lia|lia|done].
    + exists s, L, x. eexists _, _. split; [done|].
      split_and!; [done..|lia|lia|lia|]. by exists buddy, ibuddy.
Qed.

(** ** mem_free keeps the invariant *)

Lemma find_size_spec cs sz i0 k c :
  (∀ j c, cs !! j = Some c → cell_size c = ladder (i0 + Z.of_nat j)) →
  0 ≤ i0 → cs !! k = Some c → sz = ladder (i0 + Z.of_nat k) →
  find_size cs sz i0 = Some (i0 + Z.of_nat k).
Proof.
  revert i0 k. induction cs as [|c0 cs IH]; intros i0 k Hcs Hi0 Hk Hsz; [done|].
  simpl. pose proof (Hcs 0%nat c0 eq_refl) as H0. rewrite H0, Hsz.
  destruct (Z.eqb_spec (ladder (i0 + Z.of_nat 0)) (ladder (i0 + Z.of_nat k))) as [Heq|Hne].
  - apply ladder_inj in Heq; [|lia..]. f_equal. lia.
  - destruct k as [|k]; [done|]. simpl in Hk. rewrite <-Hsz.
    rewrite (IH (i0 + 1) k); [f_equal; lia| |lia|done|rewrite Hsz; f_equal; lia].
    intros j c' Hj. rewrite (Hcs (S j) c' Hj). f_equal. lia.
Qed.

Lemma mem_free_insert_inv s P cs L area :
  inv s ∅ P cs L → freeable L P area →
  ∃ s' L' x,
    mem_free_insert s area = Some (s', l_idx x) ∧
    l_addr x = item_from_area area ∧
    inv s' ∅ P cs L' ∧ x ∈ L' ∧ l_used x = false ∧ same_frame s s' ∧
    (∃ c, cell_at (arr s') (l_idx x) = Some c ∧ head (cell_items c) = Some (l_addr x)).
Proof.
  intros HI (HP & x & Hx & Hxa & Hxu).
  pose proof (inv_leaf_idx _ _ _ _ _ _ HI Hx) as Hidx.
  destruct (hdr_ok_bits _ _ _ _ _ _ HI Hx) as (Hsz & _ & _).
  destruct (cell_at_lookup (arr s) (l_idx x)) as [c Hc]; [lia|].
  pose proof Hc as [_ Hc']%cell_at_Some.
  assert (find_size (cells (arr s)) (ladder (l_idx x)) 0 = Some (l_idx x)) as Hfind.
  { rewrite (find_size_spec _ _ 0 (Z.to_nat (l_idx x)) c); [f_equal; lia| |lia|done|].
    - intros j c' Hj. destruct (inv_cells _ _ _ _ _ HI) as [_ H]. rewrite (H _ _ Hj).
      f_equal; lia.
    - f_equal; lia. }
  unfold mem_free_insert. rewrite <-Hxa, Hsz, Hfind.
  cbn [mbind option_bind].
  destruct (inv_release _ _ _ _ _ _ HI Hx Hxu) as [HI1 Hu].
  { rewrite Hxa. unfold item_get_area, item_from_area.
    by replace (area - POINTER_SIZE + POINTER_SIZE) with area by lia. }
  apply list_elem_of_split in Hx as (A & B & ->).
  apply (inv_list _ _ _ _ _ _ _ c) in HI1; [|done|mem_set|done|done].
  rewrite (insert_item_eq _ _ c) by done. cbn [mbind option_bind].
  eexists _, _, (set_used x false). split; [done|]. split_and!; try done.
  - eapply inv_pend_eq; [|exact HI1]. apply set_eq. intros a. mem_set.
  - mem.
  - by apply (same_frame_with_items (set_heap s _)).
  - exists (Cell (cell_size c) (l_addr x :: cell_items c)). split; [|done].
    cbn [l_idx set_used]. by rewrite with_items_cell_at, decide_True.
Qed.

Lemma coalesce_end_inv s P cs L x c :
  inv s ∅ P cs L → x ∈ L → l_used x = false →
  cell_at (arr s) (l_idx x) = Some c → head (cell_items c) = Some (l_addr x) →
  ∃ s' L' x',
    coalesce_end s (l_idx x) = Some (s', l_idx x', l_addr x') ∧
    inv s' ∅ P cs L' ∧ x' ∈ L' ∧ l_used x' = false ∧ same_frame s s' ∧
    l_addr x' ≤ l_addr x ∧ l_end x ≤ l_end x' ∧ l_idx x ≤ l_idx x' ∧
    (∃ b ib, item_get_buddy s' (l_addr x') (l_idx x') = Some (b, ib) ∧
             coalesce_test s' b ib = Some false).
Proof.
  intros HI Hx Hxu Hc Hhead.
  pose proof (inv_leaf_idx _ _ _ _ _ _ HI Hx) as Hidx.
  destruct (buddy_analysis _ _ _ _ _ HI Hx Hxu) as (buddy & ibuddy & _ & Hb & _).
  unfold coalesce_end. rewrite Hc. cbn [mbind option_bind]. rewrite Hhead.
  cbn [mbind option_bind]. rewrite Hb. cbn [mbind option_bind].
  destruct (coalesce_loop_inv (length (cells (arr s))) _ _ _ _ _ _ _ HI Hx Hxu Hb)
    as (s' & L' & x' & i' & item' & -> & -> & -> & ? & ? & ? & ? & ? & ? & ? & ?).
  { unfold array_size in *. lia. }
  exists s', L', x'. split_and!; done.
Qed.

Lemma mem_free_end_eq s area :
  mem_free s area = (λ r : state * Z * Z, r.1.1) <$> mem_free_end s area.
Proof.
  unfold mem_free, mem_free_end, coalesce.
  destruct (mem_free_insert s area) as [[s1 i]|]; [|done]. simpl.
  by destruct (coalesce_end s1 i) as [[[??]?]|].
Qed.

Lemma mem_free_end_inv s P cs L area :
  inv s ∅ P cs L → freeable L P area →
  ∃ s' L' x',
    mem_free_end s area = Some (s', l_idx x', l_addr x') ∧
    inv s' ∅ P cs L' ∧ x' ∈ L' ∧ l_used x' = false ∧ same_frame s s' ∧
    l_addr x' ≤ item_from_area area < l_end x' ∧
    (∃ b ib, item_get_buddy s' (l_addr x') (l_idx x') = Some (b, ib) ∧
             coalesce_test s' b ib = Some false).
Proof.
  intros HI Hfree.
  destruct (mem_free_insert_inv _ _ _ _ _ HI Hfree)
    as (s1 & L1 & x & Hins & Hxa & HI1 & Hx & Hxu & Hfr1 & c & Hc & Hhead).
  destruct (coalesce_end_inv _ _ _ _ _ _ HI1 Hx Hxu Hc Hhead)
    as (s' & L' & x' & Hend & HI' & Hx' & Hxu' & Hfr' & ? & ? & _ & ?).
  pose proof (inv_leaf_idx _ _ _ _ _ _ HI1 Hx) as Hidx.
  pose proof (l_end_gt x ltac:(lia)).
  exists s', L', x'. unfold mem_free_end. rewrite Hins. cbn [mbind option_bind].
  split_and!; [done..|by eapply same_frame_trans|lia|lia|done].
Qed.

Lemma mem_free_inv s P cs L area :
  inv s ∅ P cs L → freeable L P area →
  ∃ s' L', mem_free s area = Some s' ∧ inv s' ∅ P cs L' ∧ same_frame s s'.
Proof.
  intros HI Hfree.
  destruct (mem_free_end_inv _ _ _ _ _ HI Hfree) as (s' & L' & x' & He & ? & _ & _ & ? & _).
  exists s', L'. rewrite mem_free_end_eq, He. done.
Qed.

(** ** mem_alloc keeps the invariant *)

Lemma inv_set_data s pend P cs L d :
  inv s pend P cs L →
  inv (set_arr s (Array d (cells (arr s)) (capacity (arr s)))) pend P cs L.
Proof. intros [????????]. by split. Qed.

Lemma inv_prot_mono s pend P P' cs L :
  P' ⊆ P → inv s pend P cs L → inv s pend P' cs L.
Proof.
  intros Hsub [????????]. split; try done. intros p Hp. apply inv_prot0. by apply Hsub.
Qed.

Lemma find_cell_spec cs n i0 :
  let i := find_cell cs n i0 in
  i0 ≤ i ≤ i0 + Z.of_nat (length cs) ∧
  (∀ j c, cs !! j = Some c → i0 + Z.of_nat j < i → cell_size c < n ∨ cell_items c = []) ∧
  (i < i0 + Z.of_nat (length cs) →
   ∃ c, cs !! Z.to_nat (i - i0) = Some c ∧ n ≤ cell_size c ∧ cell_items c ≠ []).
Proof.
  revert i0. induction cs as [|c cs IH]; intros i0; simpl.
  - split_and!; [lia..| |lia]. intros j c Hj. done.
  - destruct (Z.ltb_spec (cell_size c) n) as [Hlt|Hge]; simpl.
    + destruct (IH (i0 + 1)) as ((? & ?) & Hbelow & Hat).
      split_and!; [lia..| |].
      * intros [|j] c' Hj ?; simplify_eq/=; [by left|].
        apply (Hbelow j); [done|lia].
      * intros Hi. destruct Hat as (c' & Hc' & ?); [lia|]. exists c'. split; [|done].
        replace (Z.to_nat (find_cell cs n (i0 + 1) - i0))
          with (S (Z.to_nat (find_cell cs n (i0 + 1) - (i0 + 1)))) by lia. done.
    + case_bool_decide as Hnil.
      * destruct (IH (i0 + 1)) as ((? & ?) & Hbelow & Hat).
        split_and!; [lia..| |].
        -- intros [|j] c' Hj ?; simplify_eq/=; [by right|].
           apply (Hbelow j); [done|lia].
        -- intros Hi. destruct Hat as (c' & Hc' & ?); [lia|]. exists c'. split; [|done].
           replace (Z.to_nat (find_cell cs n (i0 + 1) - i0))
             with (S (Z.to_nat (find_cell cs n (i0 + 1) - (i0 + 1)))) by lia. done.
      * split_and!; [lia..| |].
        -- intros j c' Hj ?. lia.
        -- intros _. exists c. rewrite Z.sub_diag. done.
Qed.

Lemma ladder_lin k : 11 ≤ k → 4 * k + 1 ≤ ladder k.
Proof.
  intros Hk. replace k with (11 + Z.of_nat (Z.to_nat (k - 11))) by lia.
  induction (Z.to_nat (k - 11)) as [|m IH]; [by vm_compute|].
  rewrite Nat2Z.inj_succ.
  rewrite (ladder_rec (11 + Z.succ (Z.of_nat m))) by lia.
  replace (11 + Z.succ (Z.of_nat m) - 1) with (11 + Z.of_nat m) by lia.
  pose proof (ladder_lt 1 (11 + Z.succ (Z.of_nat m) - 4) ltac:(lia)) as H.
  change (ladder 1) with 4 in H. lia.
Qed.

Lemma inv_prot_leaf s pend P cs L p :
  inv s pend P cs L → p ∈ P →
  ∃ l, l ∈ L ∧ l_addr l = item_from_area p ∧ l_used l = true ∧ l_addr l ∉ pend.
Proof. intros HI. apply (inv_prot _ _ _ _ _ HI). Qed.

Lemma mem_free_tinv s U p :
  tinv s U → p ∈ U →
  ∃ s', mem_free s p = Some s' ∧ tinv s' (U ∖ {[p]}) ∧ same_frame s s'.
Proof.
  intros (Hd & cs & L & HI) Hp.
  destruct (inv_prot_leaf _ _ _ _ _ p HI) as (l & Hl & Hla & Hlu & _); [mem_set_in|].
  apply (inv_prot_mono _ _ _ (U ∖ {[p]} ∪ {[data (arr s)]})) in HI.
  2:{ intros a. repeat first [rewrite elem_of_union | rewrite elem_of_difference]. tauto. }
  destruct (mem_free_inv _ _ _ _ p HI) as (s' & L' & Hfree & HI' & Hfr).
  { split; [|by exists l].
    repeat first [rewrite elem_of_union | rewrite elem_of_difference
                 | rewrite elem_of_singleton].
    intros [[_ ?]| ->]; done. }
  exists s'. split; [done|]. split; [|done]. destruct Hfr as (Hdata & _).
  split; [rewrite Hdata; mem_set_in|]. exists cs, L'. by rewrite Hdata.
Qed.

(** From a pending block to the area mem_alloc returns. *)
Lemma alloc_finish s P cs L x (n : Z) :
  inv s {[l_addr x]} P cs L → x ∈ L → n ≤ ladder (l_idx x) →
  ∃ s1 L' x',
    split_item s (l_idx x) (l_addr x) n = Some (s1, l_addr x') ∧
    let s' := set_heap s1 (item_set_in_use (heap s1) (l_addr x') true) in
    inv s' ∅ (P ∪ {[item_get_area (l_addr x')]}) cs L' ∧ x' ∈ L' ∧
    n ≤ ladder (l_idx x') ∧ same_frame s s' ∧
    (l_idx x' ≤ 4 ∨ ladder (l_idx x' - 1) < n) ∧
    (item_get_area (l_addr x') ∉ P) ∧
    item_get_size (heap s') (l_addr x') = ladder (l_idx x').
Proof.
  intros HI Hx Hn.
  destruct (split_loop_inv (Z.to_nat (l_idx x)) _ _ _ _ _ n HI Hx Hn)
    as (s1 & L' & x' & Hsplit & HI1 & Hx' & Hn' & Hstop & Hfr); [lia|].
  exists s1, L', x'. unfold split_item. rewrite Hsplit. cbn [mbind option_bind].
  split; [done|]. cbv zeta.
  set (s' := set_heap s1 (item_set_in_use (heap s1) (l_addr x') true)).
  assert (item_get_area (l_addr x') ∉ P) as HnP.
  { intros Hp. destruct (inv_prot_leaf _ _ _ _ _ _ HI1 Hp) as (l & Hl & Hla & _ & Hlp).
    apply Hlp. rewrite Hla. unfold item_from_area, item_get_area.
    apply elem_of_singleton. lia. }
  pose proof (inv_claim _ _ _ _ _ _ HI1 Hx') as HI2.
  apply (inv_pend_eq _ _ ∅) in HI2; [|apply set_eq; intros a; mem_set|mem_set].
  split_and!; try done.
  by destruct (hdr_ok_bits _ _ _ _ _ _ HI2 Hx') as (? & _).
Qed.

(** *** The array never shrinks *)

Lemma set_items_len a i l a' :
  set_items a i l = Some a' → length (cells a') = length (cells a).
Proof.
  unfold set_items. intros (c & _ & [= <-])%bind_Some. simpl. apply length_insert.
Qed.

Lemma insert_item_len s i item s' : insert_item s i item = Some s' → alen s' = alen s.
Proof.
  unfold insert_item. intros (c & _ & (a & Ha & [= <-])%bind_Some)%bind_Some.
  by apply set_items_len in Ha.
Qed.

Lemma delete_item_len s i item s' : delete_item s i item = Some s' → alen s' = alen s.
Proof.
  unfold delete_item. intros (c & _ & (a & Ha & [= <-])%bind_Some)%bind_Some.
  by apply set_items_len in Ha.
Qed.

Lemma take_item_len s i s' item : take_item s i = Some (s', item) → alen s' = alen s.
Proof.
  unfold take_item. intros (c & _ & H)%bind_Some.
  destruct (cell_items c); [done|].
  apply bind_Some in H as (a & Ha & [= <- _]). by apply set_items_len in Ha.
Qed.

Lemma split_step_len s i curr n s' i' curr' :
  split_step s i curr n = Some (s', i', curr') → alen s' = alen s.
Proof.
  unfold split_step. intros (c4 & _ & (c1 & _ & H)%bind_Some)%bind_Some.
  destruct (_ >=? _); apply bind_Some in H as (s1 & Hs1 & [= <- _ _]);
    by apply insert_item_len in Hs1.
Qed.

Lemma split_loop_len fuel s i curr n s' i' curr' :
  split_loop fuel s i curr n = Some (s', i', curr') → alen s' = alen s.
Proof.
  revert s i curr. induction fuel as [|fuel IH]; intros s i curr; [done|]. simpl.
  intros (c1 & _ & H)%bind_Some. destruct (_ && _); [|by injection H as <- _ _].
  apply bind_Some in H as ([[s1 i1] curr1] & Hstep & H).
  apply split_step_len in Hstep. apply IH in H. congruence.
Qed.

Lemma split_item_len s i item n s' curr :
  split_item s i item n = Some (s', curr) → alen s' = alen s.
Proof.
  unfold split_item. intros ([[s1 i1] curr1] & H & [= <- _])%bind_Some.
  by apply split_loop_len in H.
Qed.

Lemma coalesce_step_len s i item buddy ibuddy r :
  coalesce_step s i item buddy ibuddy = Some r → alen r.1.1.1.1 = alen s.
Proof.
  unfold coalesce_step.
  intros (s1 & H1 & (s2 & H2 & (c & _ & ([b ib] & _ & (s3 & H3 & [= <-])%bind_Some)
    %bind_Some)%bind_Some)%bind_Some)%bind_Some.
  apply delete_item_len in H1, H2. apply insert_item_len in H3. simpl.
  unfold alen in *. simpl in *. congruence.
Qed.

Lemma coalesce_loop_len fuel s i item buddy ibuddy r :
  coalesce_loop fuel s i item buddy ibuddy = Some r → alen r.1.1 = alen s.
Proof.
  revert s i item buddy ibuddy.
  induction fuel as [|fuel IH]; intros s i item buddy ibuddy; [done|]. simpl.
  intros (go & _ & H)%bind_Some. destruct go; [|by injection H as <-].
  apply bind_Some in H as ([[[[s1 i1] item1] b1] ib1] & Hstep & H).
  apply coalesce_step_len in Hstep. apply IH in H. simpl in *. congruence.
Qed.

Lemma mem_free_len s area s' : mem_free s area = Some s' → alen s' = alen s.
Proof.
  unfold mem_free, mem_free_insert, coalesce, coalesce_end.
  intros ([s1 i] & (i0 & _ & (s2 & H2 & [= <- <-])%bind_Some)%bind_Some & H)%bind_Some.
  apply bind_Some in H as ([[s3 i3] it3] & H & [= <-]).
  apply bind_Some in H as (c & _ & (item & _ & ([b ib] & _ & H)%bind_Some)%bind_Some).
  apply coalesce_loop_len in H. apply insert_item_len in H2. simpl in *.
  unfold alen in *. simpl in *. congruence.
Qed.

Lemma alloc_new_item_arr s n : arr (alloc_new_item s n).1 = arr s.
Proof. done. Qed.

Lemma array_inc_size_len alloc s s' :
  alloc_mono alloc → array_inc_size alloc s = Some s' → (alen s < alen s')%nat.
Proof.
  intros Hmono. unfold array_inc_size.
  intros (c1 & _ & (c4 & _ & H)%bind_Some)%bind_Some.
  destruct (_ =? _).
  - apply bind_Some in H as ([s1 new_data] & Halloc & Hfree).
    apply Hmono in Halloc. apply mem_free_len in Hfree.
    unfold alen in *. simpl in *. rewrite length_app in Halloc. simpl in *. lia.
  - injection H as <-. unfold alen. simpl. rewrite length_app. simpl. lia.
Qed.

Lemma grow_loop_len alloc fuel s i n s' i' :
  alloc_mono alloc → grow_loop alloc fuel s i n = Some (s', i') → (alen s < alen s')%nat.
Proof.
  intros Hmono. revert s i. induction fuel as [|fuel IH]; intros s i; [done|]. simpl.
  intros (s1 & H1 & (c & _ & H)%bind_Some)%bind_Some.
  apply array_inc_size_len in H1; [|done].
  destruct (_ <? _); [apply IH in H; lia|]. injection H as <- _. done.
Qed.

Lemma mem_alloc_body_len alloc fuel s x s' p :
  alloc_mono alloc → mem_alloc_body alloc fuel s x = Some (s', p) → (alen s ≤ alen s')%nat.
Proof.
  intros Hmono. unfold mem_alloc_body, mem_alloc_pick.
  intros ([[s1 i1] item] & H1 & ([s2 item2] & H2 & [= <- _])%bind_Some)%bind_Some.
  apply split_item_len in H2. unfold alen at 2. simpl. fold (alen s2). rewrite H2.
  destruct (_ =? _).
  - apply bind_Some in H1 as ([s3 i3] & Hg & (c & _ & H)%bind_Some).
    apply grow_loop_len in Hg; [|done].
    destruct (alloc_new_item s3 _) as [s4 item4] eqn:Hnew. injection H as <- _ _.
    pose proof (alloc_new_item_arr s3 (uint (cell_size c))) as Harr.
    rewrite Hnew in Harr. unfold alen in *. simpl in Harr. rewrite Harr. lia.
  - apply bind_Some in H1 as ([s3 item3] & Ht & [= <- _ _]).
    apply take_item_len in Ht. lia.
Qed.

Lemma mem_alloc_len fuel : alloc_mono (mem_alloc fuel).
Proof.
  induction fuel as [|fuel IH]; intros s x s' p; [done|].
  simpl. by apply mem_alloc_body_len.
Qed.

Lemma tinv_size s U : tinv s U → ARRAY_INIT_SIZE ≤ array_size (arr s) ≤ MAX_CELLS.
Proof. intros (_ & cs & L & HI). by destruct (inv_cells _ _ _ _ _ HI) as [? _]. Qed.

Lemma tinv_cap s U : tinv s U → array_size (arr s) < capacity (arr s).
Proof. intros (_ & cs & L & HI). apply (inv_cap _ _ _ _ _ HI). Qed.

Lemma tinv_cell_at s U i c : tinv s U → cell_at (arr s) i = Some c → cell_size c = ladder i.
Proof. intros (_ & cs & L & HI). apply cells_ok_at, (inv_cells _ _ _ _ _ HI). Qed.

Lemma alen_size s : array_size (arr s) = Z.of_nat (alen s).
Proof. done. Qed.

Lemma uintptr_small z : 0 ≤ z < 2 ^ 64 → uintptr z = z.
Proof. intros. unfold uintptr. by apply Z.mod_small. Qed.

Lemma tinv_eq s U U' : U = U' → tinv s U → tinv s U'.
Proof. by intros ->. Qed.

Lemma array_inc_size_spec alloc s U s' :
  alloc_ok alloc → alloc_mono alloc → tinv s U →
  array_inc_size alloc s = Some s' → array_size (arr s') ≤ MAX_CELLS →
  tinv s' U ∧ brk s ≤ brk s' ∧
  (array_size (arr s) + 1 < capacity (arr s) →
   data (arr s') = data (arr s) ∧ capacity (arr s') = capacity (arr s) ∧
   array_size (arr s') = array_size (arr s) + 1).
Proof.
  intros Hok Hmono HT Hinc Hmax.
  pose proof (array_inc_size_len _ _ _ Hmono Hinc) as Hlen.
  pose proof (tinv_size _ _ HT) as Hsize. pose proof (tinv_cap _ _ HT) as Hcap.
  rewrite !alen_size in *. unfold ARRAY_INIT_SIZE, MAX_CELLS in *.
  unfold array_inc_size in Hinc. cbv zeta in Hinc. rewrite !alen_size in Hinc.
  replace (Z.of_nat (alen s) + 1 - 1 - 1) with (Z.of_nat (alen s) - 1) in Hinc by lia.
  replace (Z.of_nat (alen s) + 1 - 1 - 4) with (Z.of_nat (alen s) - 4) in Hinc by lia.
  destruct (cell_at_lookup (arr s) (Z.of_nat (alen s) - 1)) as [c1 Hc1];
    [rewrite alen_size; lia|].
  destruct (cell_at_lookup (arr s) (Z.of_nat (alen s) - 4)) as [c4 Hc4];
    [rewrite alen_size; lia|].
  rewrite Hc1, Hc4 in Hinc. cbn [mbind option_bind] in Hinc.
  rewrite (tinv_cell_at _ _ _ _ HT Hc1), (tinv_cell_at _ _ _ _ HT Hc4) in Hinc.
  rewrite <-ladder_rec in Hinc by lia.
  assert (ladder (Z.of_nat (alen s)) < 2 ^ 29) as Hsmall
    by (apply ladder_small; unfold MAX_CELLS; lia).
  pose proof (ladder_ge (Z.of_nat (alen s)) ltac:(lia)).
  rewrite uintptr_small in Hinc by lia.
  destruct HT as (Hd & cs & L & HI).
  assert (∀ d cap, array_size (Array d (cells (arr s) ++ [Cell (ladder (Z.of_nat (alen s))) []])
                                 cap) = Z.of_nat (alen s) + 1) as Hsz1.
  { intros. unfold array_size, alen. simpl. rewrite length_app. simpl. lia. }
  unfold set_cells in Hinc. cbn [capacity data cells arr set_arr] in Hinc.
  rewrite Hsz1 in Hinc.
  destruct (Z.eqb_spec (Z.of_nat (alen s) + 1) (capacity (arr s))) as [Heq|Hne].
  - (* the array moves *)
    rewrite (uint_small (capacity (arr s) * 2)) in Hinc by lia.
    rewrite (uint_small (capacity (arr s) * 2 * SIZEOF_CELL)) in Hinc
      by (unfold SIZEOF_CELL; lia).
    apply bind_Some in Hinc as ([s3 new_data] & Halloc & Hfree).
    pose proof (mem_free_len _ _ _ Hfree) as Hlen4.
    match type of Halloc with alloc ?st _ = _ => set (s2 := st) in * end.
    assert (tinv s2 U) as HT2.
    { split; [done|]. exists cs, L.
      apply (inv_append_cell _ _ _ _ _ (data (arr s)) (capacity (arr s) * 2)) in HI;
        [|rewrite alen_size; unfold MAX_CELLS; lia|rewrite alen_size; lia].
      rewrite alen_size in HI. exact HI. }
    assert (array_size (arr s2) = Z.of_nat (alen s) + 1) as Hsz2 by apply Hsz1.
    assert (0 ≤ capacity (arr s) * 2 * SIZEOF_CELL) as Hx0 by (unfold SIZEOF_CELL; lia).
    destruct (Hok _ _ _ _ _ HT2 Hx0 Halloc) as (HT3 & HnU & Hbrk & _ & HQ).
    { rewrite alen_size. unfold MAX_CELLS.
      assert (alen s' = alen s3) as <- by (by rewrite Hlen4). lia. }
    destruct HQ as (Hdata3 & Hcap3 & Hsize3).
    { rewrite Hsz2. unfold BLOCKS, HEADER_SIZE, POINTER_SIZE, BLOCK_SIZE, SIZEOF_CELL.
      rewrite <-Heq.
      replace ((Z.of_nat (alen s) + 1) * 2 * 16 + 8 + 8 - 1)
        with (7 + (4 * (Z.of_nat (alen s) + 1) + 1) * 8) by lia.
      rewrite Z.div_add by lia. change (7 / 8) with 0.
      pose proof (ladder_lin (Z.of_nat (alen s) + 1) ltac:(lia)). lia. }
    { rewrite Hsz2. simpl. lia. }
    simpl in Hdata3, Hcap3.
    destruct HT3 as (Hd3 & cs3 & L3 & HI3). rewrite Hdata3 in Hd3, HI3.
    match type of Hfree with mem_free ?st _ = _ => set (s4 := st) in * end.
    assert (tinv s4 (U ∪ {[data (arr s)]})) as HT4.
    { split; [simpl; mem_set_in|]. exists cs3, L3. simpl.
      apply (inv_set_data _ _ _ _ _ new_data) in HI3.
      eapply inv_prot_mono; [|exact HI3].
      intros a. repeat first [rewrite elem_of_union | rewrite elem_of_singleton]. tauto. }
    destruct (mem_free_tinv _ _ (data (arr s)) HT4) as (s5 & Hfree5 & HT5 & Hfr5);
      [mem_set_in|].
    change (data (arr s2)) with (data (arr s)) in Hfree.
    rewrite Hfree in Hfree5. injection Hfree5 as <-.
    split_and!.
    + eapply tinv_eq; [|exact HT5]. apply set_eq. intros a.
      repeat first [rewrite elem_of_union | rewrite elem_of_difference
                   | rewrite elem_of_singleton].
      split; [intros [[?|?] ?]; [done|done]|]. intros ?. split; [by left|]. by intros ->.
    + destruct Hfr5 as (_ & _ & -> & _). simpl. simpl in Hbrk. done.
    + lia.
  - injection Hinc as <-. split_and!.
    + split; [done|]. exists cs, L.
      apply (inv_append_cell _ _ _ _ _ (data (arr s)) (capacity (arr s))) in HI;
        [|rewrite alen_size; unfold MAX_CELLS; lia|rewrite alen_size; lia].
      rewrite alen_size in HI. exact HI.
    + done.
    + intros _. simpl. split_and!; [done..|]. apply Hsz1.
Qed.

Lemma grow_loop_spec alloc fuel s U i n s' i' :
  alloc_ok alloc → alloc_mono alloc → tinv s U → -1 ≤ i < array_size (arr s) →
  grow_loop alloc fuel s i n = Some (s', i') → array_size (arr s') ≤ MAX_CELLS →
  tinv s' U ∧ brk s ≤ brk s' ∧ i < i' < array_size (arr s') ∧ n ≤ ladder i' ∧
  (∀ j, i < j < i' → ladder j < n) ∧
  (n ≤ ladder (i + 1) → array_size (arr s) + 1 < capacity (arr s) →
   data (arr s') = data (arr s) ∧ capacity (arr s') = capacity (arr s) ∧
   array_size (arr s') = array_size (arr s) + 1 ∧ i' = i + 1).
Proof.
  intros Hok Hmono. revert s i.
  induction fuel as [|fuel IH]; intros s i HT Hi Hgrow Hmax; [done|].
  simpl in Hgrow. apply bind_Some in Hgrow as (s1 & Hinc & Hgrow).
  apply bind_Some in Hgrow as (c & Hc & Hgrow).
  pose proof (array_inc_size_len _ _ _ Hmono Hinc) as Hlen1.
  assert (array_size (arr s1) ≤ MAX_CELLS) as Hmax1.
  { destruct (cell_size c <? n).
    - apply grow_loop_len in Hgrow; [|done]. rewrite !alen_size in *. lia.
    - by injection Hgrow as <- _. }
  destruct (array_inc_size_spec _ _ _ _ Hok Hmono HT Hinc Hmax1) as (HT1 & Hbrk1 & HQ1).
  rewrite (tinv_cell_at _ _ _ _ HT1 Hc) in Hgrow.
  apply cell_at_Some in Hc as [Hi1 _].
  destruct (Z.ltb_spec (ladder (i + 1)) n) as [Hlt|Hge].
  - destruct (IH s1 (i + 1) HT1 ltac:(lia) Hgrow Hmax) as (HT' & Hbrk' & Hi' & Hn' & Hbelow & _).
    split_and!; [done|lia|lia|lia|done| |lia].
    intros j Hj. destruct (decide (j = i + 1)) as [->|]; [done|]. apply Hbelow. lia.
  - injection Hgrow as <- <-. split_and!; [done..|lia|lia|done| |].
    + intros j Hj. lia.
    + intros _ Hcap. destruct (HQ1 Hcap) as (? & ? & ?). done.
Qed.

Lemma blocks_area (x sz : Z) :
  0 ≤ x → BLOCKS (x + HEADER_SIZE) ≤ sz → x ≤ sz * BLOCK_SIZE - HEADER_SIZE.
Proof.
  unfold BLOCKS, HEADER_SIZE, POINTER_SIZE, BLOCK_SIZE. intros Hx Hsz.
  pose proof (Z.div_mod (x + 8 + 8 - 1) 8 ltac:(lia)).
  pose proof (Z.mod_pos_bound (x + 8 + 8 - 1) 8 ltac:(lia)). lia.
Qed.

(** The item mem_alloc starts from is a pending block of the invariant;
    when no cell fitted, it is the block of a new chunk, drawn after the
    array grew, at the first new index whose term covers the request. *)
Lemma mem_alloc_pick_spec alloc fuel s U n s2 i2 item :
  alloc_ok alloc → alloc_mono alloc → tinv s U →
  mem_alloc_pick alloc fuel s n = Some (s2, i2, item) →
  array_size (arr s2) ≤ MAX_CELLS →
  (∃ cs L x0, inv s2 {[l_addr x0]} (U ∪ {[data (arr s2)]}) cs L ∧ x0 ∈ L ∧
     l_addr x0 = item ∧ l_idx x0 = i2 ∧ n ≤ ladder i2 ∧ (data (arr s2) ∉ U) ∧
     brk s ≤ brk s2 ∧
     (n ≤ ladder (array_size (arr s)) → array_size (arr s) + 1 < capacity (arr s) →
      data (arr s2) = data (arr s) ∧ capacity (arr s2) = capacity (arr s) ∧
      array_size (arr s2) ≤ array_size (arr s) + 1)) ∧
  (find_cell (cells (arr s)) n 0 = array_size (arr s) →
   array_size (arr s) ≤ i2 < array_size (arr s2) ∧
   (∀ j, array_size (arr s) ≤ j < i2 → ladder j < n) ∧
   ∃ s1, grow_loop alloc fuel s (array_size (arr s) - 1) n = Some (s1, i2) ∧
         arr s2 = arr s1 ∧ alloc_new_item s1 (ladder i2) = (s2, item) ∧
         item = brk s1 + POINTER_SIZE ∧ mem_list s2 = brk s1 ∧
         item_get_size (heap s2) item = ladder i2).
Proof.
  intros Hok Hmono HT Hget Hmax2. unfold mem_alloc_pick in Hget. cbv zeta in Hget.
  destruct (find_cell_spec (cells (arr s)) n 0) as (Hrange & Hbelow & Hat).
  fold (array_size (arr s)) in *.
  destruct (Z.eqb_spec (find_cell (cells (arr s)) n 0) (array_size (arr s))) as [Heq|Hne].
  - (* no cell fits: grow the array and draw a chunk *)
    apply bind_Some in Hget as ([s1 i1] & Hgrow & Hget).
    apply bind_Some in Hget as (c & Hc & Hget).
    destruct (alloc_new_item s1 (uint (cell_size c))) as [s2' item'] eqn:Hnew.
    injection Hget as -> -> ->.
    pose proof (tinv_size _ _ HT) as Hsize.
    assert (arr s2 = arr s1) as Harr.
    { pose proof (alloc_new_item_arr s1 (uint (cell_size c))) as H. by rewrite Hnew in H. }
    rewrite Harr in *.
    assert (-1 ≤ find_cell (cells (arr s)) n 0 - 1 < array_size (arr s)) as Hi0
      by (unfold ARRAY_INIT_SIZE in *; lia).
    destruct (grow_loop_spec _ _ _ _ _ _ _ _ Hok Hmono HT Hi0 Hgrow Hmax2)
      as (HT1 & Hbrk1 & Hi1 & Hn1 & Hbelow1 & HQ1).
    rewrite (tinv_cell_at _ _ _ _ HT1 Hc) in Hnew.
    pose proof (tinv_size _ _ HT1) as Hsize1.
    assert (0 ≤ ladder i2 < 2 ^ 29) as Hsmall.
    { split; [pose proof (ladder_ge i2); unfold ARRAY_INIT_SIZE in *; lia|].
      apply ladder_small. unfold ARRAY_INIT_SIZE in *. lia. }
    rewrite uint_small in Hnew by lia.
    destruct HT1 as (Hd1 & cs & L & HI1).
    destruct (inv_new_chunk _ _ _ _ _ i2 HI1) as (s2' & inh & Hnew' & _ & HI2);
      [unfold ARRAY_INIT_SIZE in *; lia|].
    rewrite Hnew in Hnew'. injection Hnew' as <- ->.
    assert (Leaf (brk s1 + POINTER_SIZE) i2 LEFT inh true
              ∈ L ++ [Leaf (brk s1 + POINTER_SIZE) i2 LEFT inh true]) as Hx0 by mem.
    pose proof (alloc_new_item_eq s1 (ladder i2) ltac:(lia)) as He. simpl in He.
    rewrite Hnew in He.
    split.
    + eexists _, _, (Leaf (brk s1 + POINTER_SIZE) i2 LEFT inh true).
      split_and!; try done.
      * eapply inv_pend_eq; [|exact HI2]. simpl. apply set_eq. intros a. mem_set.
      * injection He as ->. simpl. unfold BLOCK_SIZE, POINTER_SIZE. lia.
      * intros Hn Hcap. destruct HQ1 as (? & ? & ? & ?); [|done|].
        -- match goal with
           | |- _ ≤ ladder ?e => replace e with (array_size (arr s)) by lia
           end. done.
        -- split_and!; [done..|lia].
    + intros _. split_and!; [lia|lia| |].
      * intros j Hj. apply Hbelow1. lia.
      * exists s1. rewrite <-Heq. split_and!; try done.
        -- by injection He as ->.
        -- by destruct (hdr_ok_bits _ _ _ _ _ _ HI2 Hx0) as (? & _).
  - (* a cell fits: take its first item *)
    apply bind_Some in Hget as ([s1 item1] & Htake & [= -> <- ->]).
    set (i2 := find_cell (cells (arr s)) n 0) in *.
    destruct Hat as (c & Hc & Hcn & Hne'); [lia|].
    rewrite Z.sub_0_r in Hc.
    assert (cell_at (arr s) i2 = Some c) as Hcell by (apply cell_at_Some; split; [lia|done]).
    destruct (cell_items c) as [|a next] eqn:Hitems; [done|].
    rewrite (take_item_eq _ _ c a next) in Htake by done. injection Htake as <- <-.
    destruct HT as (Hd & cs & L & HI).
    destruct (inv_unlist _ _ _ _ _ _ _ a HI Hcell) as (A & x0 & B & -> & Hxa & Hxi & _ & HI1);
      [rewrite Hitems; left|].
    split; [|done].
    exists cs, (A ++ set_used x0 true :: B), (set_used x0 true).
    split_and!; try done.
    + eapply inv_pend_eq; [|exact HI1]. simpl. rewrite Hxa. apply set_eq. intros b. mem_set.
    + mem.
    + rewrite <-(cells_ok_at _ _ _ (inv_cells _ _ _ _ _ HI) Hcell). simpl. lia.
    + intros _ _. rewrite with_items_size. split_and!; [done..|lia].
Qed.

Lemma mem_alloc_body_spec alloc fuel s U x s' p :
  alloc_ok alloc → alloc_mono alloc → tinv s U → 0 ≤ x →
  mem_alloc_body alloc fuel s x = Some (s', p) → array_size (arr s') ≤ MAX_CELLS →
  tinv s' (U ∪ {[p]}) ∧ (p ∉ U) ∧ brk s ≤ brk s' ∧
  BLOCKS (x + HEADER_SIZE) ≤ item_get_size (heap s') (item_from_area p) ∧
  (BLOCKS (x + HEADER_SIZE) ≤ ladder (array_size (arr s)) →
   array_size (arr s) + 1 < capacity (arr s) →
   data (arr s') = data (arr s) ∧ capacity (arr s') = capacity (arr s) ∧
   array_size (arr s') ≤ array_size (arr s) + 1).
Proof.
  intros Hok Hmono HT Hx Halloc Hmax.
  unfold mem_alloc_body in Halloc. cbv zeta in Halloc.
  set (n := BLOCKS (x + HEADER_SIZE)) in *.
  apply bind_Some in Halloc as ([[s2 i2] item] & Hget & Hrest).
  apply bind_Some in Hrest as ([s3 curr] & Hsplit & [= <- <-]).
  pose proof (split_item_len _ _ _ _ _ _ Hsplit) as Hlen3.
  assert (array_size (arr s2) ≤ MAX_CELLS) as Hmax2.
  { rewrite !alen_size in *. unfold alen in Hmax. simpl in Hmax. fold (alen s3) in Hmax. lia. }
  (* the block to start from *)
  destruct (mem_alloc_pick_spec _ _ _ _ _ _ _ _ Hok Hmono HT Hget Hmax2)
    as ((cs & L & x0 & HI2 & Hx0 & <- & <- & Hn0 & Hd2 & Hbrk2 & HQ) & _).
  (* split it and hand it out *)
  destruct (alloc_finish _ _ _ _ _ n HI2 Hx0 Hn0)
    as (s3' & L' & x' & Hsplit' & HI3 & Hx' & Hn' & Hfr & _ & HnP & Hsz).
  rewrite Hsplit in Hsplit'. injection Hsplit' as <- ->.
  destruct Hfr as (Hdata & Hcap & Hbrk & _ & Hsizes).
  set (s' := set_heap s3 (item_set_in_use (heap s3) (l_addr x') true)) in *.
  assert (array_size (arr s') = array_size (arr s2)) as Hsize'.
  { unfold array_size.
    by rewrite <-(length_fmap cell_size (cells (arr s'))), Hsizes, length_fmap. }
  assert (item_from_area (item_get_area (l_addr x')) = l_addr x') as Hfrom.
  { unfold item_from_area, item_get_area. lia. }
  split_and!.
  - split.
    + change (data (arr s')) with (data (arr s3)).
      change (data (arr s')) with (data (arr s3)) in Hdata. rewrite Hdata.
      intros [?| Heq%elem_of_singleton]%elem_of_union; [done|].
      apply HnP. rewrite Heq. mem_set_in.
    + exists cs, L'. eapply inv_prot_mono; [|exact HI3].
      change (data (arr s')) with (data (arr s3)) in *. rewrite Hdata.
      intros a. repeat first [rewrite elem_of_union | rewrite elem_of_singleton]. tauto.
  - intros Hp. apply HnP. mem_set_in.
  - change (brk s') with (brk s3) in *. lia.
  - rewrite Hfrom. change (heap (set_heap s3 (item_set_in_use (heap s3) (l_addr x') true)))
      with (heap s') . rewrite Hsz. done.
  - intros Hn Hcap'. destruct (HQ Hn Hcap') as (? & ? & ?).
    change (data (arr s')) with (data (arr s3)) in *.
    change (capacity (arr s')) with (capacity (arr s3)) in *.
    split_and!; [congruence..|lia].
Qed.

Lemma mem_alloc_ok fuel : alloc_ok (mem_alloc fuel).
Proof.
  induction fuel as [|fuel IH]; intros s U x s' p HT Hx Halloc Hmax; [done|].
  simpl in Halloc.
  by apply (mem_alloc_body_spec (mem_alloc fuel) (S fuel) s U x s' p IH (mem_alloc_len fuel)).
Qed.

(** ** mem_init sets up the invariant *)

Lemma array_init_eq s :
  array_init s =
    let r := alloc_new_item s DATA_INIT_BLOCKS in
    Some (set_arr (set_heap r.1 (item_set_in_use (heap r.1) r.2 true))
            (Array (item_get_area r.2) init_cells ARRAY_INIT_CAPACITY)).
Proof. unfold array_init. by destruct (alloc_new_item s DATA_INIT_BLOCKS). Qed.

Lemma init_cells_ok : cells_ok init_cells.
Proof.
  split; [by vm_compute|]. intros j c Hj.
  do 11 (destruct j as [|j]; [injection Hj as <-; by vm_compute|]). done.
Qed.

Lemma mem_init_tinv s0 :
  ∃ s, mem_init s0 = Some s ∧ tinv s ∅ ∧
       cells (arr s) = init_cells ∧ capacity (arr s) = ARRAY_INIT_CAPACITY ∧
       data (arr s) = brk s0 + 2 * POINTER_SIZE.
Proof.
  unfold mem_init. rewrite array_init_eq. cbv zeta.
  set (s := State (heap s0) (arr s0) NULL (brk s0)).
  set (pre := set_arr s (Array 0 init_cells ARRAY_INIT_CAPACITY)).
  assert (inv pre ∅ ∅ [] []) as HI.
  { split; simpl;
      [apply init_cells_ok|done|constructor|exists (brk s0); simpl; lia
      |constructor|constructor| | |].
    - intros j c Hj. split.
      + do 11 (destruct j as [|j]; [injection Hj as <-; constructor|]). done.
      + intros a. split.
        * do 11 (destruct j as [|j]; [injection Hj as <-; by intros ?%elem_of_nil|]). done.
        * intros (l & ?%elem_of_nil & _). done.
    - intros p ?%elem_of_empty. done.
    - intros a ?%elem_of_empty. done. }
  destruct (inv_new_chunk _ _ _ _ _ 10 HI) as (s1 & inh & Hnew & Harr & HI1);
    [by vm_compute|].
  change (ladder 10) with DATA_INIT_BLOCKS in Hnew.
  assert (alloc_new_item s DATA_INIT_BLOCKS = (set_arr s1 (arr s), brk s0 + POINTER_SIZE))
    as Hnew'.
  { unfold alloc_new_item, malloc in *. simpl in *. injection Hnew as <-. done. }
  rewrite Hnew'. cbn [fst snd].
  eexists. split; [done|].
  assert (Leaf (brk pre + POINTER_SIZE) 10 LEFT inh true
            ∈ [] ++ [Leaf (brk pre + POINTER_SIZE) 10 LEFT inh true]) as Hx by mem.
  pose proof (inv_claim _ _ _ _ _ _ HI1 Hx ltac:(simpl; mem_set)) as HI2.
  apply (inv_set_data _ _ _ _ _ (item_get_area (brk s0 + POINTER_SIZE))) in HI2.
  unfold set_arr, set_heap in HI2. cbn [arr heap mem_list brk] in HI2.
  rewrite Harr in HI2. cbn [arr cells capacity pre set_arr] in HI2.
  split_and!; [|done|done|simpl; unfold item_get_area, POINTER_SIZE; lia].
  split; [by intros ?%elem_of_empty|].
  eexists _, _. simpl.
  eapply inv_pend_eq; [|exact HI2]. apply set_eq. intros a. mem_set.
Qed.

(** ** Reachable states *)

Lemma run_tinv fuel ops s U s' U' :
  tinv s U → run fuel ops s U = Some (s', U') → tinv s' U'.
Proof.
  revert s U. induction ops as [|[x|area] ops IH]; intros s U HT Hrun; simpl in Hrun.
  - by injection Hrun as <- <-.
  - destruct (Z.leb_spec 0 x); [|done]. destruct (x <? 2 ^ 32); [|done]. simpl in Hrun.
    apply bind_Some in Hrun as ([s1 p] & Halloc & Hrun).
    destruct (fits s1) eqn:Hfits; [|done].
    apply Z.leb_le in Hfits.
    destruct (mem_alloc_ok fuel _ _ _ _ _ HT ltac:(done) Halloc Hfits) as (HT1 & _).
    by apply (IH _ _ HT1).
  - case_decide as Hin; [|done].
    apply bind_Some in Hrun as (s1 & Hfree & Hrun).
    destruct (mem_free_tinv _ _ _ HT Hin) as (s1' & Hfree' & HT1 & _).
    rewrite Hfree in Hfree'. injection Hfree' as <-.
    by apply (IH _ _ HT1).
Qed.

Lemma reachable_tinv s U : reachable s U → tinv s U.
Proof.
  intros (s0 & s1 & fuel & ops & Hinit & Hrun).
  destruct (mem_init_tinv s0) as (s1' & Hinit' & HT & _).
  rewrite Hinit in Hinit'. injection Hinit' as <-.
  by eapply run_tinv.
Qed.

Lemma mem_init_boot : mem_init boot = Some s_init.
Proof. by vm_compute. Qed.

Lemma reachable_init : reachable s_init ∅.
Proof. exists boot, s_init, 0%nat, []. split; [apply mem_init_boot|done]. Qed.

Lemma run_ab : run 2 ops_ab s_init ∅ = Some s_ab.
Proof. by vm_compute. Qed.

Lemma reachable_ab : reachable s_ab.1 s_ab.2.
Proof.
  exists boot, s_init, 2%nat, ops_ab. split; [apply mem_init_boot|].
  rewrite run_ab. by destruct s_ab.
Qed.

Lemma tinv_live_block s U p :
  tinv s U → p ∈ U →
  ∃ i, 1 ≤ i < array_size (arr s) ∧
       item_get_size (heap s) (item_from_area p) = ladder i ∧
       item_is_in_use (heap s) (item_from_area p) = true.
Proof.
  intros (_ & cs & L & HI) Hp.
  destruct (inv_prot_leaf _ _ _ _ _ p HI) as (l & Hl & <- & Hu & _); [mem_set_in|].
  exists (l_idx l). split; [by eapply inv_leaf_idx|].
  pose proof (inv_hdr _ _ _ _ _ HI) as Hh. rewrite Forall_forall in Hh.
  destruct (Hh _ Hl) as (? & _ & _ & Hin). split; [done|]. rewrite Hin; [done|].
  by intros ?%elem_of_empty.
Qed.

Lemma tinv_listed s U i c a :
  tinv s U → cell_at (arr s) i = Some c → a ∈ cell_items c →
  1 ≤ i ∧ item_get_size (heap s) a = ladder i ∧ item_is_in_use (heap s) a = false.
Proof.
  intros (_ & cs & L & HI) [Hi Hc]%cell_at_Some Ha.
  apply (lists_ok_lookup _ _ _ _ a (inv_lists _ _ _ _ _ HI) (proj1 Hi) Hc) in Ha
    as (l & Hl & <- & <- & Hu).
  pose proof (inv_leaf_idx _ _ _ _ _ _ HI Hl).
  pose proof (inv_hdr _ _ _ _ _ HI) as Hh. rewrite Forall_forall in Hh.
  destruct (Hh _ Hl) as (? & _ & _ & Hin). split_and!; [lia|done|].
  rewrite Hin; [done|]. by intros ?%elem_of_empty.
Qed.

(** ** mem_alloc returns *)

(** array_inc_size gets through: without a move of the array when there
    is room for two more cells, and with a move when the mem_alloc it
    calls serves the request for the new array. *)
Lemma array_inc_size_total alloc s U :
  alloc_ok alloc → alloc_mono alloc → tinv s U →
  (array_size (arr s) + 1 < capacity (arr s) ∧ array_size (arr s) + 1 ≤ MAX_CELLS) ∨
  (alloc_nested alloc ∧ array_size (arr s) + 2 ≤ MAX_CELLS) →
  ∃ s', array_inc_size alloc s = Some s' ∧ tinv s' U ∧
    array_size (arr s) < array_size (arr s') ≤ array_size (arr s) + 2 ∧
    (array_size (arr s) + 1 < capacity (arr s) →
     array_size (arr s') = array_size (arr s) + 1 ∧ capacity (arr s') = capacity (arr s)).
Proof.
  intros Hok Hmono HT Hroom.
  assert (∃ s', array_inc_size alloc s = Some s' ∧
                array_size (arr s') ≤ array_size (arr s) + 2 ∧
                (array_size (arr s) + 1 < capacity (arr s) →
                 array_size (arr s') ≤ array_size (arr s) + 1)) as (s' & Hinc & Hle & Hle1).
  { pose proof (tinv_size _ _ HT) as Hsize. pose proof (tinv_cap _ _ HT) as Hcap.
    rewrite !alen_size in *. unfold ARRAY_INIT_SIZE, MAX_CELLS in *.
    unfold array_inc_size. cbv zeta. rewrite !alen_size.
    replace (Z.of_nat (alen s) + 1 - 1 - 1) with (Z.of_nat (alen s) - 1) by lia.
    replace (Z.of_nat (alen s) + 1 - 1 - 4) with (Z.of_nat (alen s) - 4) by lia.
    destruct (cell_at_lookup (arr s) (Z.of_nat (alen s) - 1)) as [c1 Hc1];
      [rewrite alen_size; lia|].
    destruct (cell_at_lookup (arr s) (Z.of_nat (alen s) - 4)) as [c4 Hc4];
      [rewrite alen_size; lia|].
    rewrite Hc1, Hc4. cbn [mbind option_bind].
    rewrite (tinv_cell_at _ _ _ _ HT Hc1), (tinv_cell_at _ _ _ _ HT Hc4).
    rewrite <-ladder_rec by lia.
    assert (ladder (Z.of_nat (alen s)) < 2 ^ 29) as Hsmall
      by (apply ladder_small; unfold MAX_CELLS; lia).
    pose proof (ladder_ge (Z.of_nat (alen s)) ltac:(lia)).
    rewrite uintptr_small by lia.
    assert (∀ d cap, array_size (Array d (cells (arr s) ++ [Cell (ladder (Z.of_nat (alen s))) []])
                                   cap) = Z.of_nat (alen s) + 1) as Hsz1.
    { intros. unfold array_size, alen. simpl. rewrite length_app. simpl. lia. }
    unfold set_cells. cbn [capacity data cells arr set_arr].
    rewrite (Hsz1 (data (arr s)) (capacity (arr s))).
    destruct (Z.eqb_spec (Z.of_nat (alen s) + 1) (capacity (arr s))) as [Heq|Hne].
    - (* the array moves *)
      destruct Hroom as [[? _]|[Hnest Hmax]]; [lia|].
      rewrite (uint_small (capacity (arr s) * 2)) by lia.
      rewrite (uint_small (capacity (arr s) * 2 * SIZEOF_CELL)) by (unfold SIZEOF_CELL; lia).
      match goal with |- context [alloc ?st _] => set (s2 := st) end.
      destruct HT as (Hd & cs & L & HI).
      assert (tinv s2 U) as HT2.
      { split; [done|]. exists cs, L.
        apply (inv_append_cell _ _ _ _ _ (data (arr s)) (capacity (arr s) * 2)) in HI;
          [|rewrite alen_size; unfold MAX_CELLS; lia|rewrite alen_size; lia].
        rewrite alen_size in HI. exact HI. }
      assert (array_size (arr s2) = Z.of_nat (alen s) + 1) as Hsz2 by apply Hsz1.
      assert (0 ≤ capacity (arr s) * 2 * SIZEOF_CELL) as Hx0 by (unfold SIZEOF_CELL; lia).
      assert (BLOCKS (capacity (arr s) * 2 * SIZEOF_CELL + HEADER_SIZE)
              ≤ ladder (array_size (arr s2))) as Hn2.
      { rewrite Hsz2. unfold BLOCKS, HEADER_SIZE, POINTER_SIZE, BLOCK_SIZE, SIZEOF_CELL.
        rewrite <-Heq.
        replace ((Z.of_nat (alen s) + 1) * 2 * 16 + 8 + 8 - 1)
          with (7 + (4 * (Z.of_nat (alen s) + 1) + 1) * 8) by lia.
        rewrite Z.div_add by lia. change (7 / 8) with 0.
        pose proof (ladder_lin (Z.of_nat (alen s) + 1) ltac:(lia)). lia. }
      assert (array_size (arr s2) + 1 < capacity (arr s2)) as Hcap2.
      { rewrite Hsz2. simpl. lia. }
      destruct (Hnest s2 U _ HT2 Hx0 Hn2 Hcap2) as (s3 & new_data & Halloc & Hsz3);
        [rewrite Hsz2; unfold MAX_CELLS; lia|].
      rewrite Halloc. cbn [mbind option_bind].
      destruct (Hok _ _ _ _ _ HT2 Hx0 Halloc) as (HT3 & HnU & Hbrk & _ & HQ);
        [unfold MAX_CELLS; lia|].
      destruct (HQ Hn2 Hcap2) as (Hdata3 & Hcap3 & _).
      simpl in Hdata3, Hcap3.
      destruct HT3 as (Hd3 & cs3 & L3 & HI3). rewrite Hdata3 in Hd3, HI3.
      match goal with |- context [mem_free ?st _] => set (s4 := st) end.
      assert (tinv s4 (U ∪ {[data (arr s)]})) as HT4.
      { split; [simpl; mem_set_in|]. exists cs3, L3. simpl.
        apply (inv_set_data _ _ _ _ _ new_data) in HI3.
        eapply inv_prot_mono; [|exact HI3].
        intros a. repeat first [rewrite elem_of_union | rewrite elem_of_singleton]. tauto. }
      destruct (mem_free_tinv _ _ (data (arr s)) HT4) as (s5 & Hfree5 & _ & Hfr5);
        [mem_set_in|].
      change (data (arr s2)) with (data (arr s)). rewrite Hfree5.
      exists s5. split; [done|]. rewrite (same_frame_size _ _ Hfr5).
      change (array_size (arr s4)) with (Z.of_nat (length (cells (arr s3)))).
      fold (array_size (arr s3)). lia.
    - eexists. split; [done|]. cbn [arr set_arr]. rewrite !Hsz1. lia. }
  pose proof (array_inc_size_len _ _ _ Hmono Hinc) as Hlen. rewrite !alen_size in *.
  assert (Z.of_nat (alen s') ≤ MAX_CELLS) as Hmax by (destruct Hroom as [[??]|[??]]; lia).
  rewrite <-alen_size in Hmax.
  destruct (array_inc_size_spec _ _ _ _ Hok Hmono HT Hinc Hmax) as (HT' & _ & HQ).
  exists s'. pose proof (alen_size s). pose proof (alen_size s').
  split_and!; [done|done|lia|lia|].
  intros Hcap. destruct (HQ Hcap) as (_ & ? & ?). split; [lia|done].
Qed.

(** The [do ... while] of mem_alloc gets through within [d + 1] passes
    when the term [d] places behind the next index covers [n]. *)
Lemma grow_loop_total alloc (d : nat) fuel s U i n :
  alloc_ok alloc → alloc_mono alloc → tinv s U → -1 ≤ i < array_size (arr s) →
  n ≤ ladder (i + 1 + Z.of_nat d) → (d < fuel)%nat →
  (array_size (arr s) + 1 + Z.of_nat d < capacity (arr s) ∧
   array_size (arr s) + 1 + Z.of_nat d ≤ MAX_CELLS) ∨
  (alloc_nested alloc ∧ array_size (arr s) + 2 * (Z.of_nat d + 1) ≤ MAX_CELLS) →
  ∃ s' i', grow_loop alloc fuel s i n = Some (s', i') ∧ array_size (arr s') ≤ MAX_CELLS.
Proof.
  intros Hok Hmono. revert fuel s i.
  induction d as [|d IH]; intros fuel s i HT Hi Hn Hfuel Hroom;
    (destruct fuel as [|fuel]; [lia|]); cbn [grow_loop].
  - destruct (array_inc_size_total alloc s U Hok Hmono HT) as (s1 & Hinc & HT1 & Hsz1 & _);
      [destruct Hroom as [[??]|[??]]; [left|right]; split; (done || lia)|].
    rewrite Hinc. cbn [mbind option_bind].
    destruct (cell_at_lookup (arr s1) (i + 1)) as [c Hc]; [lia|].
    rewrite Hc. cbn [mbind option_bind]. rewrite (tinv_cell_at _ _ _ _ HT1 Hc).
    replace (i + 1 + Z.of_nat 0) with (i + 1) in Hn by lia.
    destruct (Z.ltb_spec (ladder (i + 1)) n); [lia|].
    eexists _, _. split; [done|]. by destruct (tinv_size _ _ HT1).
  - destruct (array_inc_size_total alloc s U Hok Hmono HT)
      as (s1 & Hinc & HT1 & Hsz1 & Hstay);
      [destruct Hroom as [[??]|[??]]; [left|right]; split; (done || lia)|].
    rewrite Hinc. cbn [mbind option_bind].
    destruct (cell_at_lookup (arr s1) (i + 1)) as [c Hc]; [lia|].
    rewrite Hc. cbn [mbind option_bind]. rewrite (tinv_cell_at _ _ _ _ HT1 Hc).
    destruct (Z.ltb_spec (ladder (i + 1)) n).
    + apply (IH fuel s1 (i + 1) HT1); [lia| |lia|].
      * replace (i + 1 + 1 + Z.of_nat d) with (i + 1 + Z.of_nat (S d)) by lia. done.
      * destruct Hroom as [[Hcap ?]|[? ?]]; [left|right; split; [done|lia]].
        destruct Hstay as [-> ->]; lia.
    + eexists _, _. split; [done|]. by destruct (tinv_size _ _ HT1).
Qed.

(** The first half of mem_alloc gets through. *)
Lemma mem_alloc_pick_total alloc (d : nat) fuel s U n :
  alloc_ok alloc → alloc_mono alloc → tinv s U →
  n ≤ ladder (array_size (arr s) + Z.of_nat d) → (d < fuel)%nat →
  (array_size (arr s) + 1 + Z.of_nat d < capacity (arr s) ∧
   array_size (arr s) + 1 + Z.of_nat d ≤ MAX_CELLS) ∨
  (alloc_nested alloc ∧ array_size (arr s) + 2 * (Z.of_nat d + 1) ≤ MAX_CELLS) →
  ∃ s2 i item, mem_alloc_pick alloc fuel s n = Some (s2, i, item) ∧
               array_size (arr s2) ≤ MAX_CELLS.
Proof.
  intros Hok Hmono HT Hn Hfuel Hroom. unfold mem_alloc_pick. cbv zeta.
  pose proof (tinv_size _ _ HT) as Hsize. unfold ARRAY_INIT_SIZE in Hsize.
  destruct (find_cell_spec (cells (arr s)) n 0) as (Hrange & _ & Hat).
  fold (array_size (arr s)) in *.
  destruct (Z.eqb_spec (find_cell (cells (arr s)) n 0) (array_size (arr s))) as [Heq|Hne].
  - rewrite Heq.
    assert (-1 ≤ array_size (arr s) - 1 < array_size (arr s)) as Hi0 by lia.
    destruct (grow_loop_total alloc d fuel s U (array_size (arr s) - 1) n Hok Hmono HT Hi0)
      as (s1 & i1 & Hgrow & Hmax1); [|done|done|].
    { replace (array_size (arr s) - 1 + 1 + Z.of_nat d)
        with (array_size (arr s) + Z.of_nat d) by lia. done. }
    rewrite Hgrow. cbn [mbind option_bind].
    destruct (grow_loop_spec _ _ _ _ _ _ _ _ Hok Hmono HT Hi0 Hgrow Hmax1)
      as (HT1 & _ & Hi1 & _).
    destruct (cell_at_lookup (arr s1) i1) as [c Hc]; [lia|].
    rewrite Hc. cbn [mbind option_bind].
    destruct (alloc_new_item s1 (uint (cell_size c))) as [s2 item] eqn:Hnew.
    exists s2, i1, item. split; [done|].
    pose proof (alloc_new_item_arr s1 (uint (cell_size c))) as Harr.
    rewrite Hnew in Harr. simpl in Harr. by rewrite Harr.
  - destruct Hat as (c & Hc & _ & Hne'); [lia|].
    rewrite Z.sub_0_r in Hc.
    assert (cell_at (arr s) (find_cell (cells (arr s)) n 0) = Some c) as Hcell
      by (apply cell_at_Some; split; [lia|done]).
    destruct (cell_items c) as [|a next] eqn:Hitems; [done|].
    rewrite (take_item_eq _ _ c a next) by done. cbn [mbind option_bind].
    eexists _, _, _. split; [done|]. rewrite with_items_size. lia.
Qed.

Lemma mem_alloc_body_total alloc (d : nat) fuel s U x :
  alloc_ok alloc → alloc_mono alloc → tinv s U → 0 ≤ x →
  BLOCKS (x + HEADER_SIZE) ≤ ladder (array_size (arr s) + Z.of_nat d) → (d < fuel)%nat →
  (array_size (arr s) + 1 + Z.of_nat d < capacity (arr s) ∧
   array_size (arr s) + 1 + Z.of_nat d ≤ MAX_CELLS) ∨
  (alloc_nested alloc ∧ array_size (arr s) + 2 * (Z.of_nat d + 1) ≤ MAX_CELLS) →
  ∃ s' p, mem_alloc_body alloc fuel s x = Some (s', p) ∧ array_size (arr s') ≤ MAX_CELLS.
Proof.
  intros Hok Hmono HT Hx Hn Hfuel Hroom.
  destruct (mem_alloc_pick_total alloc d fuel s U _ Hok Hmono HT Hn Hfuel Hroom)
    as (s2 & i2 & item & Hpick & Hmax2).
  destruct (mem_alloc_pick_spec _ _ _ _ _ _ _ _ Hok Hmono HT Hpick Hmax2)
    as ((cs & L & x0 & HI2 & Hx0 & <- & <- & Hn0 & _) & _).
  destruct (alloc_finish _ _ _ _ _ _ HI2 Hx0 Hn0) as (s3 & L' & x' & Hsplit & _).
  unfold mem_alloc_body. cbv zeta. rewrite Hpick. cbn [mbind option_bind].
  rewrite Hsplit. cbn [mbind option_bind]. eexists _, _. split; [done|].
  pose proof (split_item_len _ _ _ _ _ _ Hsplit) as Hlen.
  rewrite alen_size in *. unfold alen in *. simpl. lia.
Qed.

Lemma mem_alloc_nested fuel : alloc_nested (mem_alloc (S fuel)).
Proof.
  intros s U x HT Hx Hn Hcap Hmax. cbn [mem_alloc].
  destruct (mem_alloc_body_total (mem_alloc fuel) 0 (S fuel) s U x
              (mem_alloc_ok fuel) (mem_alloc_len fuel) HT Hx) as (s' & p & Halloc & Hmax');
    [by rewrite Z.add_0_r|lia|left; lia|].
  exists s', p. split; [done|].
  destruct (mem_alloc_body_spec _ _ _ _ _ _ _ (mem_alloc_ok fuel) (mem_alloc_len fuel)
              HT Hx Halloc Hmax') as (_ & _ & _ & _ & HQ).
  by destruct (HQ Hn Hcap) as (_ & _ & ?).
Qed.

(** mem_alloc returns when the term [d] places behind the end of the
    array covers the request and the array has room for the cells the
    growth may add. *)
Lemma mem_alloc_total (d : nat) fuel s U x :
  tinv s U → 0 ≤ x →
  BLOCKS (x + HEADER_SIZE) ≤ ladder (array_size (arr s) + Z.of_nat d) → (d ≤ S fuel)%nat →
  array_size (arr s) + 2 * (Z.of_nat d + 1) ≤ MAX_CELLS →
  ∃ s' p, mem_alloc (S (S fuel)) s x = Some (s', p) ∧ fits s' = true.
Proof.
  intros HT Hx Hn Hfuel Hroom. cbn [mem_alloc].
  destruct (mem_alloc_body_total (mem_alloc (S fuel)) d (S (S fuel)) s U x
              (mem_alloc_ok _) (mem_alloc_len _) HT Hx Hn) as (s' & p & Halloc & Hmax');
    [lia|right; split; [apply mem_alloc_nested|done]|].
  exists s', p. split; [done|]. by apply Z.leb_le.
Qed.

(** ** The statements of the specification *)

(** Coverage while the array stays within MAX_CELLS cells: on a
    reachable state, when mem_alloc(x) returns, the block of the returned
    area has a header size of at least [n = BLOCKS (x + HEADER_SIZE)]
    blocks, so the area (its blocks less the one-word header) holds at
    least [x] bytes. *)
Lemma mem_alloc_coverage s U fuel x s' p :
  reachable s U → 1 ≤ x → mem_alloc fuel s x = Some (s', p) → fits s' = true →
  BLOCKS (x + HEADER_SIZE) ≤ item_get_size (heap s') (item_from_area p) ∧
  x ≤ item_get_size (heap s') (item_from_area p) * BLOCK_SIZE - HEADER_SIZE.
Proof.
  intros HT%reachable_tinv Hx Halloc Hfits%Z.leb_le.
  assert (0 ≤ x) as Hx0 by lia.
  destruct (mem_alloc_ok fuel _ _ _ _ _ HT Hx0 Halloc Hfits) as (_ & _ & _ & Hn & _).
  split; [done|]. apply blocks_area; [lia|done].
Qed.

Lemma mem_alloc_coverage_witness :
  let r := default (boot, 0) (mem_alloc 2 s_init 100) in
  BLOCKS (100 + HEADER_SIZE) ≤ item_get_size (heap r.1) (item_from_area r.2) ∧
  100 ≤ item_get_size (heap r.1) (item_from_area r.2) * BLOCK_SIZE - HEADER_SIZE.
Proof.
  intros r. apply (mem_alloc_coverage s_init ∅ 2 100 r.1 r.2).
  - apply reachable_init.
  - lia.
  - by vm_compute.
  - by vm_compute.
Defined.

Lemma mem_free_end_tinv s U p :
  tinv s U → p ∈ U →
  ∃ s' i item c,
    mem_free_end s p = Some (s', i, item) ∧ mem_free s p = Some s' ∧
    tinv s' (U ∖ {[p]}) ∧ same_frame s s' ∧
    cell_at (arr s') i = Some c ∧ item ∈ cell_items c ∧
    item ≤ item_from_area p < item + cell_size c * BLOCK_SIZE ∧
    ∃ b ib, item_get_buddy s' item i = Some (b, ib) ∧ coalesce_test s' b ib = Some false.
Proof.
  intros (Hd & cs & L & HI) Hp.
  destruct (inv_prot_leaf _ _ _ _ _ p HI) as (l & Hl & Hla & Hlu & _); [mem_set_in|].
  apply (inv_prot_mono _ _ _ (U ∖ {[p]} ∪ {[data (arr s)]})) in HI.
  2:{ intros a. repeat first [rewrite elem_of_union | rewrite elem_of_difference]. tauto. }
  destruct (mem_free_end_inv _ _ _ _ p HI)
    as (s' & L' & x' & He & HI' & Hx' & Hxu' & Hfr & Hin & Hb).
  { split; [|by exists l].
    repeat first [rewrite elem_of_union | rewrite elem_of_difference
                 | rewrite elem_of_singleton].
    intros [[_ ?]| ->]; done. }
  pose proof (inv_leaf_idx _ _ _ _ _ _ HI' Hx') as Hidx.
  destruct (cell_at_lookup (arr s') (l_idx x')) as [c Hc]; [lia|].
  pose proof Hc as [_ Hc']%cell_at_Some.
  exists s', (l_idx x'), (l_addr x'), c.
  split_and!; [done|by rewrite mem_free_end_eq, He| |done|done| | | |done].
  - destruct Hfr as (Hdata & _).
    split; [rewrite Hdata; mem_set_in|]. exists cs, L'. by rewrite Hdata.
  - assert (0 ≤ l_idx x') as H0 by lia.
    apply (lists_ok_lookup _ _ _ _ (l_addr x') (inv_lists _ _ _ _ _ HI') H0 Hc').
    by exists x'.
  - lia.
  - rewrite (cells_ok_at _ _ _ (inv_cells _ _ _ _ _ HI') Hc). unfold l_end in Hin. lia.
Qed.




(** The index split_item stops on: the block handed out is of a cell
    [i ≥ 1], and either [i ≤ 4] or the next smaller cell is too small. *)
Lemma mem_alloc_body_index alloc fuel s U x s' p :
  alloc_ok alloc → alloc_mono alloc → tinv s U → 0 ≤ x →
  mem_alloc_body alloc fuel s x = Some (s', p) → array_size (arr s') ≤ MAX_CELLS →
  ∃ i, 1 ≤ i < array_size (arr s') ∧
       item_get_size (heap s') (item_from_area p) = ladder i ∧
       (i ≤ 4 ∨ ladder (i - 1) < BLOCKS (x + HEADER_SIZE)).
Proof.
  intros Hok Hmono HT Hx Halloc Hmax.
  unfold mem_alloc_body in Halloc. cbv zeta in Halloc.
  set (n := BLOCKS (x + HEADER_SIZE)) in *.
  apply bind_Some in Halloc as ([[s2 i2] item] & Hget & Hrest).
  apply bind_Some in Hrest as ([s3 curr] & Hsplit & [= <- <-]).
  pose proof (split_item_len _ _ _ _ _ _ Hsplit) as Hlen3.
  assert (array_size (arr s2) ≤ MAX_CELLS) as Hmax2.
  { rewrite !alen_size in *. unfold alen in Hmax. simpl in Hmax. fold (alen s3) in Hmax. lia. }
  destruct (mem_alloc_pick_spec _ _ _ _ _ _ _ _ Hok Hmono HT Hget Hmax2)
    as ((cs & L & x0 & HI2 & Hx0 & <- & <- & Hn0 & _) & _).
  destruct (alloc_finish _ _ _ _ _ n HI2 Hx0 Hn0)
    as (s3' & L' & x' & Hsplit' & HI3 & Hx' & _ & _ & Hstop & _ & Hsz).
  rewrite Hsplit in Hsplit'. injection Hsplit' as <- ->.
  pose proof (inv_leaf_idx _ _ _ _ _ _ HI3 Hx') as Hidx.
  exists (l_idx x'). split; [done|]. split; [|done].
  replace (item_from_area (item_get_area (l_addr x'))) with (l_addr x')
    by (unfold item_from_area, item_get_area; lia).
  exact Hsz.
Qed.

Lemma mem_alloc_index fuel s U x s' p :
  tinv s U → 0 ≤ x → mem_alloc fuel s x = Some (s', p) →
  array_size (arr s') ≤ MAX_CELLS →
  ∃ i, 1 ≤ i < array_size (arr s') ∧
       item_get_size (heap s') (item_from_area p) = ladder i ∧
       (i ≤ 4 ∨ ladder (i - 1) < BLOCKS (x + HEADER_SIZE)).
Proof.
  destruct fuel as [|fuel]; [done|]. intros HT Hx Halloc Hmax. simpl in Halloc.
  by apply (mem_alloc_body_index (mem_alloc fuel) (S fuel) s U x s' p
              (mem_alloc_ok fuel) (mem_alloc_len fuel)).
Qed.

(** C2, as the code has it: on every state reached with the array at
    most [MAX_CELLS] cells long, when mem_alloc(1), mem_alloc(10) or
    any request of at most 16 bytes returns with the array still within
    [MAX_CELLS] cells, the block returned has the header size of a cell
    of index 1 to 4, that is 4, 5, 7 or 10 blocks, and so never
    MIN_SIZE: split_item stops at index 4 or below and never reaches
    index 0.  The call returns whenever the array has room for two more
    cells. *)
Theorem small_alloc_size s U x :
  reachable s U → 1 ≤ x ≤ 16 →
  (array_size (arr s) + 2 ≤ MAX_CELLS →
   ∃ s' p, mem_alloc 2 s x = Some (s', p) ∧ fits s' = true) ∧
  ∀ fuel s' p, mem_alloc fuel s x = Some (s', p) → fits s' = true →
    ∃ i, 1 ≤ i ≤ 4 ∧ item_get_size (heap s') (item_from_area p) = ladder i ∧
         MIN_SIZE < item_get_size (heap s') (item_from_area p) ≤ 10.
Proof.
  intros HT%reachable_tinv Hx.
  assert (0 ≤ x) as Hx0 by lia.
  assert (BLOCKS (x + HEADER_SIZE) ≤ 3) as Hn.
  { unfold BLOCKS, HEADER_SIZE, POINTER_SIZE, BLOCK_SIZE.
    apply Z.lt_succ_r, Z.div_lt_upper_bound; lia. }
  pose proof (tinv_size _ _ HT) as Hsize. unfold ARRAY_INIT_SIZE in Hsize.
  split.
  - intros Hroom. apply (mem_alloc_total 0 0 s U x HT Hx0); [|lia|simpl; lia].
    pose proof (ladder_ge (array_size (arr s) + Z.of_nat 0) ltac:(lia)). lia.
  - intros fuel s' p Halloc Hfits%Z.leb_le.
    destruct (mem_alloc_index _ _ _ _ _ _ HT Hx0 Halloc Hfits) as (i & Hi & Hsz & Hstop).
    assert (i ≤ 4) as Hi4.
    { destruct Hstop as [?|Hlt]; [done|].
      pose proof (ladder_ge (i - 1) ltac:(lia)). lia. }
    exists i. split; [lia|]. split; [done|]. rewrite Hsz.
    pose proof (ladder_lt 0 i ltac:(lia)) as H0. change (ladder 0) with 3 in H0.
    pose proof (ladder_le i 4 ltac:(lia)) as H4. change (ladder 4) with 10 in H4.
    unfold MIN_SIZE. lia.
Qed.

Lemma small_alloc_size_witness :
  (∃ s' p, mem_alloc 2 s_init 10 = Some (s', p) ∧ fits s' = true) ∧
  ∀ fuel s' p, mem_alloc fuel s_init 10 = Some (s', p) → fits s' = true →
    ∃ i, 1 ≤ i ≤ 4 ∧ item_get_size (heap s') (item_from_area p) = ladder i ∧
         MIN_SIZE < item_get_size (heap s') (item_from_area p) ≤ 10.
Proof.
  destruct (small_alloc_size s_init ∅ 10) as [H1 H2].
  - apply reachable_init.
  - lia.
  - split; [|exact H2]. apply H1. by vm_compute.
Defined.

(** In the freshly initialised state mem_alloc(1) returns a block of 7
    blocks, not of MIN_SIZE = 3, and so does mem_alloc(10); called after
    mem_alloc(1), mem_alloc(10) returns a block of 5 blocks. *)
Lemma fresh_alloc_size_counterexample :
  mem_init boot = Some s_init ∧
  (∃ s1 p, mem_alloc 2 s_init 1 = Some (s1, p) ∧
     item_get_size (heap s1) (item_from_area p) = 7 ∧
     item_get_size (heap s1) (item_from_area p) ≠ MIN_SIZE ∧
     ∃ s2 q, mem_alloc 2 s1 10 = Some (s2, q) ∧
       item_get_size (heap s2) (item_from_area q) = 5 ∧
       item_get_size (heap s2) (item_from_area q) ≠ MIN_SIZE) ∧
  (∃ s1 p, mem_alloc 2 s_init 10 = Some (s1, p) ∧
     item_get_size (heap s1) (item_from_area p) = 7 ∧
     item_get_size (heap s1) (item_from_area p) ≠ MIN_SIZE).
Proof.
  split; [by vm_compute|]. split.
  - destruct (mem_alloc 2 s_init 1) as [[s1 p]|] eqn:H1; [|by vm_compute in H1].
    exists s1, p. split; [done|].
    assert (Some (s1, p) = mem_alloc 2 s_init 1) as E by done. clear H1.
    vm_compute in E. injection E as -> ->.
    split; [by vm_compute|]. split; [by vm_compute|].
    eexists _, _. split; [by vm_compute|]. split; by vm_compute.
  - eexists _, _. split; [by vm_compute|]. split; by vm_compute.
Qed.

(** One pass of split_item in closed form: the heap gets the eight
    header writes, the child of no use goes on the list of its cell. *)
Lemma split_step_eq s i curr n c4 c1 :
  cell_at (arr s) (i - 4) = Some c4 → cell_at (arr s) (i - 1) = Some c1 →
  let right := curr + cell_size c4 * BLOCK_SIZE in
  let s1 := set_heap s (split_writes (heap s) curr right (cell_size c4) (cell_size c1)
                          (item_get_lr_bit (heap s) curr) (item_get_inh_bit (heap s) curr)) in
  split_step s i curr n =
    if cell_size c4 >=? n
    then Some (with_items s1 (i - 1) c1 (right :: cell_items c1), i - 4, curr)
    else Some (with_items s1 (i - 4) c4 (curr :: cell_items c4), i - 1, right).
Proof.
  intros H4 H1 right s1. unfold split_step. rewrite H4, H1. cbn [mbind option_bind].
  change (set_heap s _) with s1.
  destruct (cell_size c4 >=? n).
  - by rewrite (insert_item_eq s1 _ c1).
  - by rewrite (insert_item_eq s1 _ c4).
Qed.

(** C8, as the code has it: at every pass of split_item the left child
    gets lr = LEFT and the parent's lr as its inh, the right child gets
    lr = RIGHT and the parent's inh as its inh; both get the sizes of
    the cells [i - 4] and [i - 1] and in_use = 0. *)
Theorem split_flags s i curr n c4 c1 :
  cell_at (arr s) (i - 4) = Some c4 → cell_at (arr s) (i - 1) = Some c1 →
  0 < cell_size c4 < 2 ^ 61 → 0 ≤ cell_size c1 < 2 ^ 61 →
  ∃ s' i' curr', split_step s i curr n = Some (s', i', curr') ∧
    header (heap s') curr (cell_size c4) false LEFT (item_get_lr_bit (heap s) curr) ∧
    header (heap s') (curr + cell_size c4 * BLOCK_SIZE) (cell_size c1) false RIGHT
      (item_get_inh_bit (heap s) curr).
Proof.
  intros H4 H1 Hs4 Hs1.
  destruct (split_headers (heap s) curr (curr + cell_size c4 * BLOCK_SIZE)
              (cell_size c4) (cell_size c1)
              (item_get_lr_bit (heap s) curr) (item_get_inh_bit (heap s) curr))
    as (Hl & Hr & _); [unfold BLOCK_SIZE; lia|lia|lia|].
  rewrite (split_step_eq s i curr n c4 c1 H4 H1).
  destruct (cell_size c4 >=? n); eexists _, _, _; (split; [done|]); by split.
Qed.

Lemma split_flags_witness :
  ∃ s' i' curr', split_step s_t 6 4728 3 = Some (s', i', curr') ∧
    header (heap s') 4728 5 false LEFT (item_get_lr_bit (heap s_t) 4728) ∧
    header (heap s') (4728 + 5 * BLOCK_SIZE) 14 false RIGHT
      (item_get_inh_bit (heap s_t) 4728).
Proof.
  apply (split_flags s_t 6 4728 3 (Cell 5 []) (Cell 14 [])).
  - by vm_compute.
  - by vm_compute.
  - simpl. lia.
  - simpl. lia.
Defined.

(** After mem_init and mem_alloc(1) the list of cell 6 holds the block
    at 4728, a right child (lr = RIGHT, inh = LEFT).  The pass of
    split_item on it gives the left child lr = LEFT, which is not the
    parent's lr, and inh = RIGHT, which is not the parent's inh; the
    right child gets inh = LEFT, which is not the parent's lr. *)
Lemma split_flags_counterexample :
  mem_alloc 2 s_init 1 = Some (s_a1, 4680) ∧ take_item s_a1 6 = Some (s_t, 4728) ∧
  ∃ s' i' curr', split_step s_t 6 4728 3 = Some (s', i', curr') ∧
    item_get_lr_bit (heap s_t) 4728 = RIGHT ∧ item_get_inh_bit (heap s_t) 4728 = LEFT ∧
    item_get_lr_bit (heap s') 4728 ≠ item_get_lr_bit (heap s_t) 4728 ∧
    item_get_inh_bit (heap s') 4728 ≠ item_get_inh_bit (heap s_t) 4728 ∧
    item_get_inh_bit (heap s') (4728 + 5 * BLOCK_SIZE) ≠ item_get_lr_bit (heap s_t) 4728.
Proof.
  split; [by vm_compute|]. split; [by vm_compute|].
  eexists _, _, _. split; [by vm_compute|]. split_and!; by vm_compute.
Qed.

(** C7, as the code has it: for every term [n] below 2^29 (so that
    the 32-bit product [BLOCK_SIZE * n] does not wrap),
    alloc_new_item(n) puts the previous head of the chunk list in the
    first word and makes the chunk the new head; the block one word in
    gets size [n] and lr = LEFT, the sentinel behind it size 0,
    lr = RIGHT and in_use = 1; the in_use and inh bits of the block and
    the inh bit of the sentinel are not written and keep what the memory
    held, so that the layout is {n, LEFT, 0, LEFT} and {0, RIGHT, 1, LEFT}
    when malloc hands out zeroed words. *)
Theorem alloc_new_item_layout s n s' item :
  3 ≤ n < 2 ^ 29 → alloc_new_item s n = (s', item) →
  let tmp := brk s in
  let fake_right := tmp + POINTER_SIZE + n * BLOCK_SIZE in
  item = tmp + POINTER_SIZE ∧ mem_list s' = tmp ∧ load (heap s') tmp = mem_list s ∧
  header (heap s') item n (item_is_in_use (heap s) item) LEFT
    (item_get_inh_bit (heap s) item) ∧
  header (heap s') fake_right 0 true RIGHT (item_get_inh_bit (heap s) fake_right) ∧
  (load (heap s) item = 0 → load (heap s) fake_right = 0 →
   header (heap s') item n false LEFT LEFT ∧ header (heap s') fake_right 0 true RIGHT LEFT).
Proof.
  intros Hn Halloc tmp fake_right.
  rewrite alloc_new_item_eq in Halloc by lia. cbv zeta in Halloc.
  injection Halloc as <- <-. cbn [heap mem_list].
  destruct (new_chunk_headers (heap s) (brk s) (mem_list s) n Hn) as (Hi & Hf & Hw & _).
  cbv zeta in Hi, Hf, Hw.
  replace (brk s + BLOCK_SIZE * n + POINTER_SIZE) with fake_right in *
    by (unfold fake_right, tmp; lia).
  fold tmp in Hi, Hf, Hw |- *.
  split_and!; [done..|].
  intros Hi0 Hf0.
  assert (item_is_in_use (heap s) (tmp + POINTER_SIZE) = false) as Hu.
  { unfold item_is_in_use. by rewrite Hi0. }
  assert (item_get_inh_bit (heap s) (tmp + POINTER_SIZE) = LEFT) as Hinh.
  { unfold item_get_inh_bit. by rewrite Hi0. }
  assert (item_get_inh_bit (heap s) fake_right = LEFT) as Hinh'.
  { unfold item_get_inh_bit. by rewrite Hf0. }
  rewrite Hu, Hinh in Hi. rewrite Hinh' in Hf. done.
Qed.

Lemma alloc_new_item_layout_witness :
  let r := alloc_new_item boot 95 in
  r.2 = 4096 + POINTER_SIZE ∧ mem_list r.1 = 4096 ∧ load (heap r.1) 4096 = 0 ∧
  header (heap r.1) r.2 95 (item_is_in_use (heap boot) r.2) LEFT
    (item_get_inh_bit (heap boot) r.2) ∧
  header (heap r.1) (4096 + POINTER_SIZE + 95 * BLOCK_SIZE) 0 true RIGHT
    (item_get_inh_bit (heap boot) (4096 + POINTER_SIZE + 95 * BLOCK_SIZE)) ∧
  (load (heap boot) r.2 = 0 → load (heap boot) (4096 + POINTER_SIZE + 95 * BLOCK_SIZE) = 0 →
   header (heap r.1) r.2 95 false LEFT LEFT ∧
   header (heap r.1) (4096 + POINTER_SIZE + 95 * BLOCK_SIZE) 0 true RIGHT LEFT).
Proof.
  intros r. apply (alloc_new_item_layout boot 95 r.1 r.2).
  - lia.
  - by vm_compute.
Defined.

(** On memory that holds old data, alloc_new_item(3) leaves the block
    at 4104 with in_use = 1 and inh = RIGHT and the sentinel at 4128
    with inh = RIGHT. *)
Lemma alloc_new_item_counterexample :
  ∃ s' item, alloc_new_item junk 3 = (s', item) ∧ item = 4104 ∧
    header (heap s') item 3 true LEFT RIGHT ∧
    header (heap s') (item + 3 * BLOCK_SIZE) 0 true RIGHT RIGHT ∧
    ¬ header (heap s') item 3 false LEFT LEFT ∧
    ¬ header (heap s') (item + 3 * BLOCK_SIZE) 0 true RIGHT LEFT.
Proof.
  eexists _, _. split; [by vm_compute|]. split; [by vm_compute|].
  split_and!; [by vm_compute|by vm_compute| |]; intros (_ & ? & _ & ?); by vm_compute in *.
Qed.

(** C9, as the code has it: on every state reached with the array at
    most [MAX_CELLS] cells long, when the search of mem_alloc ends at
    [array.size] (no cell has both a size of at least [n] and a list
    that is not empty) and the first half of mem_alloc gets through with
    the array still within [MAX_CELLS] cells, the [do ... while] has
    appended at least one cell, also when an old cell is already of size
    [n] or more, and has gone on until a new cell has a size of at least
    [n]; the chunk drawn is of the size of cell [i], the first index
    from the old [array.size] on with [ladder i ≥ n]; the cells are
    appended before the chunk is drawn, so [i] is inside the array then.
    This first half of mem_alloc gets through when the term [d] places
    behind the end of the array covers [n] and the array has room for
    the growth. *)
Theorem grow_then_draw s U x :
  reachable s U → 0 ≤ x →
  find_cell (cells (arr s)) (BLOCKS (x + HEADER_SIZE)) 0 = array_size (arr s) →
  (∀ d : nat,
     BLOCKS (x + HEADER_SIZE) ≤ ladder (array_size (arr s) + Z.of_nat d) →
     array_size (arr s) + 2 * (Z.of_nat d + 1) ≤ MAX_CELLS →
     ∃ s2 i item,
       mem_alloc_pick (mem_alloc (S d)) (S (S d)) s (BLOCKS (x + HEADER_SIZE))
         = Some (s2, i, item) ∧ fits s2 = true) ∧
  ∀ fuel s2 i item,
    mem_alloc_pick (mem_alloc fuel) (S fuel) s (BLOCKS (x + HEADER_SIZE))
      = Some (s2, i, item) →
    fits s2 = true →
    array_size (arr s) ≤ i < array_size (arr s2) ∧
    BLOCKS (x + HEADER_SIZE) ≤ ladder i ∧
    (∀ j, array_size (arr s) ≤ j < i → ladder j < BLOCKS (x + HEADER_SIZE)) ∧
    ∃ s1 c,
      grow_loop (mem_alloc fuel) (S fuel) s (array_size (arr s) - 1)
        (BLOCKS (x + HEADER_SIZE)) = Some (s1, i) ∧
      cell_at (arr s1) i = Some c ∧ cell_size c = ladder i ∧
      alloc_new_item s1 (cell_size c) = (s2, item) ∧ arr s2 = arr s1 ∧
      item_get_size (heap s2) item = cell_size c.
Proof.
  intros HT%reachable_tinv Hx Hfind. split.
  - intros d Hd Hroom.
    destruct (mem_alloc_pick_total (mem_alloc (S d)) d (S (S d)) s U
                (BLOCKS (x + HEADER_SIZE)) (mem_alloc_ok _) (mem_alloc_len _) HT Hd)
      as (s2 & i & item & Hpick & Hmax); [lia|right; split; [apply mem_alloc_nested|done]|].
    exists s2, i, item. split; [done|]. by apply Z.leb_le.
  - intros fuel s2 i item Hpick Hfits%Z.leb_le.
    destruct (mem_alloc_pick_spec _ _ _ _ _ _ _ _ (mem_alloc_ok fuel) (mem_alloc_len fuel)
                HT Hpick Hfits) as ((cs & L & x0 & _ & _ & _ & _ & Hn & _) & Hgrow).
    destruct (Hgrow Hfind) as (Hi & Hlow & s1 & Hloop & Harr & Hnew & _ & _ & Hsz).
    split; [done|]. split; [done|]. split; [done|].
    pose proof (tinv_size _ _ HT) as Hsize. unfold ARRAY_INIT_SIZE in Hsize.
    destruct (cell_at_lookup (arr s1) i) as [c Hc]; [rewrite <-Harr; lia|].
    assert (cell_size c = ladder i) as Hc'.
    { assert (-1 ≤ array_size (arr s) - 1 < array_size (arr s)) as Hi0 by lia.
      destruct (grow_loop_spec _ _ _ _ _ _ _ _ (mem_alloc_ok fuel) (mem_alloc_len fuel) HT
                  Hi0 Hloop) as (HT1 & _); [by rewrite <-Harr|].
      by apply (tinv_cell_at _ _ _ _ HT1). }
    exists s1, c. rewrite Hc'. done.
Qed.

Lemma grow_then_draw_witness :
  (∃ s2 i item,
     mem_alloc_pick (mem_alloc 1) 2 s_init (BLOCKS (1 + HEADER_SIZE))
       = Some (s2, i, item) ∧ fits s2 = true) ∧
  ∀ fuel s2 i item,
    mem_alloc_pick (mem_alloc fuel) (S fuel) s_init (BLOCKS (1 + HEADER_SIZE))
      = Some (s2, i, item) →
    fits s2 = true →
    array_size (arr s_init) ≤ i < array_size (arr s2) ∧
    BLOCKS (1 + HEADER_SIZE) ≤ ladder i ∧
    (∀ j, array_size (arr s_init) ≤ j < i → ladder j < BLOCKS (1 + HEADER_SIZE)) ∧
    ∃ s1 c,
      grow_loop (mem_alloc fuel) (S fuel) s_init (array_size (arr s_init) - 1)
        (BLOCKS (1 + HEADER_SIZE)) = Some (s1, i) ∧
      cell_at (arr s1) i = Some c ∧ cell_size c = ladder i ∧
      alloc_new_item s1 (cell_size c) = (s2, item) ∧ arr s2 = arr s1 ∧
      item_get_size (heap s2) item = cell_size c.
Proof.
  destruct (grow_then_draw s_init ∅ 1) as [H1 H2].
  - apply reachable_init.
  - lia.
  - by vm_compute.
  - split; [|exact H2]. apply (H1 0%nat); by vm_compute.
Defined.

(** In the fresh state mem_alloc(1) needs [n = 2] blocks.  All lists are
    empty, so the search ends at [array.size = 11].  Cell 0, of size 3,
    is the smallest cell of size [n] or more and the last cell, of size
    69, is larger than [n]; still the array grows to 12 cells and the
    chunk drawn is of 95 blocks, the size of the new cell 11. *)
Lemma grow_then_draw_counterexample :
  find_cell (cells (arr s_init)) 2 0 = array_size (arr s_init) ∧
  array_size (arr s_init) = 11 ∧
  cell_at (arr s_init) 0 = Some (Cell 3 []) ∧ cell_at (arr s_init) 10 = Some (Cell 69 []) ∧
  BLOCKS (1 + HEADER_SIZE) = 2 ∧
  ∃ s2 item,
    mem_alloc_pick (mem_alloc 1) 2 s_init 2 = Some (s2, 11, item) ∧
    array_size (arr s2) = 12 ∧ item_get_size (heap s2) item = 95 ∧
    cell_at (arr s2) 11 = Some (Cell 95 []).
Proof.
  split_and!; [by vm_compute..|].
  eexists _, _. split; [by vm_compute|]. split_and!; by vm_compute.
Qed.

Lemma like_cell_at s h s' j c :
  like s h s' → cell_at (arr s) j = Some c →
  ∃ c', cell_at (arr s') j = Some c' ∧ cell_size c' = cell_size c.
Proof.
  intros [_ Hfr] [Hj Hc]%cell_at_Some.
  pose proof (same_frame_size _ _ Hfr) as Hsz. destruct Hfr as (_ & _ & _ & _ & Hcs).
  assert (cell_size <$> (cells (arr s') !! Z.to_nat j) = Some (cell_size c)) as Hl.
  { by rewrite <-list_lookup_fmap, Hcs, list_lookup_fmap, Hc. }
  destruct (cells (arr s') !! Z.to_nat j) as [c'|] eqn:Hc'; [|done].
  exists c'. split; [|by injection Hl]. apply cell_at_Some. split; [lia|done].
Qed.

Lemma like_set_heap s h s' h' : like s h s' → like s h' (set_heap s' h').
Proof. intros [_ Hfr]. split; [done|]. eapply same_frame_trans; [exact Hfr|done]. Qed.

Lemma insert_item_like s h s1 j c a :
  like s h s1 → cell_at (arr s) j = Some c →
  ∃ s2, insert_item s1 j a = Some s2 ∧ like s h s2.
Proof.
  intros Hl Hc. destruct (like_cell_at _ _ _ _ _ Hl Hc) as (c' & Hc' & _).
  rewrite (insert_item_eq _ _ c') by done. eexists. split; [done|].
  destruct Hl as [Hh Hfr]. split; [done|].
  eapply same_frame_trans; [exact Hfr|by apply same_frame_with_items].
Qed.

Lemma delete_item_like s h s1 j c a :
  like s h s1 → cell_at (arr s) j = Some c →
  ∃ s2, delete_item s1 j a = Some s2 ∧ like s h s2.
Proof.
  intros Hl Hc. destruct (like_cell_at _ _ _ _ _ Hl Hc) as (c' & Hc' & _).
  rewrite (delete_item_eq _ _ c') by done. eexists. split; [done|].
  destruct Hl as [Hh Hfr]. split; [done|].
  eapply same_frame_trans; [exact Hfr|by apply same_frame_with_items].
Qed.

Lemma item_get_buddy_total s item i c :
  cell_at (arr s) (i - 3) = Some c → ∃ b ib, item_get_buddy s item i = Some (b, ib).
Proof.
  intros Hc. unfold item_get_buddy. destruct (negb _); [by eexists _, _|].
  rewrite Hc. by eexists _, _.
Qed.

(** One pass of coalesce in closed form, up to the free lists. *)
Lemma coalesce_step_like s h s2 i1 item buddy ib c1 cb ci c3 :
  like s h s2 → cell_at (arr s) i1 = Some c1 → cell_at (arr s) ib = Some cb →
  let is_left := negb (item_get_lr_bit h item) in
  let left := if is_left then item else buddy in
  let right := if is_left then buddy else item in
  let i := if is_left then i1 + 4 else i1 + 1 in
  cell_at (arr s) i = Some ci → cell_at (arr s) (i - 3) = Some c3 →
  ∃ s3 b' ib',
    coalesce_step s2 i1 item buddy ib = Some (s3, i, left, b', ib') ∧
    like s (merge_writes h left (item_get_inh_bit h left) (item_get_inh_bit h right)
              (cell_size ci)) s3.
Proof.
  intros Hl H1 Hb is_left left right i Hi H3.
  destruct (delete_item_like _ _ _ _ _ item Hl H1) as (sa & Hda & Hla).
  destruct (delete_item_like _ _ _ _ _ buddy Hla Hb) as (sb & Hdb & Hlb).
  destruct (like_cell_at _ _ _ _ _ Hlb Hi) as (ci' & Hci' & Hsz).
  unfold coalesce_step. rewrite Hda. cbn [mbind option_bind].
  rewrite Hdb. cbn [mbind option_bind]. rewrite (proj1 Hlb).
  fold is_left. fold left. fold right. fold i. rewrite Hci'. cbn [mbind option_bind].
  rewrite Hsz.
  set (hm := merge_writes h left (item_get_inh_bit h left) (item_get_inh_bit h right)
               (cell_size ci)).
  change (item_set_in_use _ left false) with hm.
  pose proof (like_set_heap _ _ _ hm Hlb) as Hlm.
  destruct (like_cell_at _ _ _ _ _ Hlm H3) as (c3' & Hc3' & _).
  destruct (item_get_buddy_total _ left _ _ Hc3') as (b' & ib' & Hbud).
  rewrite Hbud. cbn [mbind option_bind].
  destruct (insert_item_like _ _ _ _ _ left Hlm Hi) as (s3 & Hins & Hl3).
  rewrite Hins. cbn [mbind option_bind]. by exists s3, b', ib'.
Qed.

Lemma like_with_items s h s1 j c l :
  like s h s1 → cell_at (arr s1) j = Some c → like s h (with_items s1 j c l).
Proof.
  intros [Hh Hfr] Hc. split; [done|].
  eapply same_frame_trans; [exact Hfr|by apply same_frame_with_items].
Qed.

Lemma coalesce_test_like s h s2 b ib cb :
  like s h s2 → cell_at (arr s) ib = Some cb →
  item_is_in_use h b = false → item_get_size h b = cell_size cb →
  coalesce_test s2 b ib = Some true.
Proof.
  intros Hl Hcb Hu Hsz. destruct (like_cell_at _ _ _ _ _ Hl Hcb) as (c' & Hc' & Hsz').
  unfold coalesce_test. rewrite (proj1 Hl), Hu, Hc'. cbn [mbind option_bind].
  by rewrite Hsz, Hsz', Z.eqb_refl.
Qed.

(** C5: for a free block at an index [i > 4] whose header is
    (size of cell [i], lr, inh, in_use = 0), one pass of split_item
    followed by one pass of coalesce on the two children gives back a
    block at the parent's address and index with the parent's size, lr
    and inh: the parent's lr is kept in the left child's inh and the
    parent's inh in the right child's inh, and the loop test of
    coalesce finds the buddy free and whole. *)
Theorem split_merge_identity s i curr n ci lr0 inh0 :
  4 < i → cell_at (arr s) i = Some ci →
  Forall (λ c, 0 < cell_size c < 2 ^ 61) (cells (arr s)) →
  header (heap s) curr (cell_size ci) false lr0 inh0 →
  ∃ c4 s1 i1 curr1 s2 b ib s3 b' ib',
    cell_at (arr s) (i - 4) = Some c4 ∧
    split_step s i curr n = Some (s1, i1, curr1) ∧
    insert_item s1 i1 curr1 = Some s2 ∧
    item_get_inh_bit (heap s2) curr = lr0 ∧
    item_get_inh_bit (heap s2) (curr + cell_size c4 * BLOCK_SIZE) = inh0 ∧
    item_get_buddy s2 curr1 i1 = Some (b, ib) ∧
    coalesce_test s2 b ib = Some true ∧
    coalesce_step s2 i1 curr1 b ib = Some (s3, i, curr, b', ib') ∧
    header (heap s3) curr (cell_size ci) false lr0 inh0.
Proof.
  intros Hi Hci Hall (Hsz0 & Hu0 & Hlr0 & Hinh0).
  assert (∀ j c, cell_at (arr s) j = Some c → 0 < cell_size c < 2 ^ 61) as Hsizes.
  { intros j c [_ Hc]%cell_at_Some. rewrite Forall_lookup in Hall. exact (Hall _ _ Hc). }
  pose proof Hci as [Hrange _]%cell_at_Some.
  destruct (cell_at_lookup (arr s) (i - 4)) as [c4 Hc4]; [lia|].
  destruct (cell_at_lookup (arr s) (i - 1)) as [c1 Hc1]; [lia|].
  destruct (cell_at_lookup (arr s) (i - 3)) as [c3 Hc3]; [lia|].
  pose proof (Hsizes _ _ Hc4) as Hs4. pose proof (Hsizes _ _ Hc1) as Hs1.
  pose proof (Hsizes _ _ Hci) as Hsi.
  set (right := curr + cell_size c4 * BLOCK_SIZE).
  set (h1 := split_writes (heap s) curr right (cell_size c4) (cell_size c1) lr0 inh0).
  destruct (split_headers (heap s) curr right (cell_size c4) (cell_size c1) lr0 inh0)
    as (Hl & Hr & _); [unfold right, BLOCK_SIZE; lia|lia|lia|].
  fold (split_writes (heap s) curr right (cell_size c4) (cell_size c1) lr0 inh0) in Hl, Hr.
  fold h1 in Hl, Hr.
  assert (like s h1 (set_heap s h1)) as Hl0 by (by apply like_set_heap with (h := heap s)).
  pose proof (split_step_eq s i curr n c4 c1 Hc4 Hc1) as Hsplit. cbv zeta in Hsplit.
  rewrite Hlr0, Hinh0 in Hsplit. fold right in Hsplit. fold h1 in Hsplit.
  destruct (like_cell_at _ _ _ _ _ Hl0 Hc4) as (c4' & Hc4' & _).
  destruct (like_cell_at _ _ _ _ _ Hl0 Hc1) as (c1' & Hc1' & _).
  pose proof Hl as (Hlsz & Hlu & Hllr & Hlinh). pose proof Hr as (Hrsz & Hru & Hrlr & Hrinh).
  exists c4. destruct (cell_size c4 >=? n).
  - (* the left child is kept *)
    set (s1 := with_items (set_heap s h1) (i - 1) c1 (right :: cell_items c1)) in *.
    assert (like s h1 s1) as Hl1.
    { split; [done|]. by apply (same_frame_with_items s). }
    destruct (insert_item_like _ _ _ _ _ curr Hl1 Hc4) as (s2 & Hins & Hl2).
    assert (item_get_buddy s2 curr (i - 4) = Some (right, i - 1)) as Hbud.
    { unfold item_get_buddy. rewrite (proj1 Hl2), Hllr, Hlsz. unfold LEFT. cbn [negb].
      cbv zeta. f_equal. f_equal. lia. }
    pose proof (coalesce_step_like s h1 s2 (i - 4) curr right (i - 1) c4 c1 ci c3
                  Hl2 Hc4 Hc1) as Hstep.
    cbv zeta in Hstep. rewrite Hllr in Hstep. unfold LEFT in Hstep. cbn [negb] in Hstep.
    cbv iota in Hstep. replace (i - 4 + 4) with i in Hstep by lia.
    destruct (Hstep Hci Hc3) as (s3 & b' & ib' & Hco & Hl3).
    exists s1, (i - 4), curr, s2, right, (i - 1), s3, b', ib'.
    rewrite (proj1 Hl2), (proj1 Hl3), Hlinh, Hrinh.
    split_and!; [done..| |done|].
    + by apply (coalesce_test_like s h1 s2 right (i - 1) c1).
    + by apply (merge_headers _ _ _ _ _ _ _ _ _ Hl); lia.
  - (* the right child is kept *)
    set (s1 := with_items (set_heap s h1) (i - 4) c4 (curr :: cell_items c4)) in *.
    assert (like s h1 s1) as Hl1.
    { split; [done|]. by apply (same_frame_with_items s). }
    destruct (insert_item_like _ _ _ _ _ right Hl1 Hc1) as (s2 & Hins & Hl2).
    destruct (like_cell_at _ _ _ _ _ Hl2 Hc4) as (c4'' & Hc4'' & Hsz4'').
    assert (item_get_buddy s2 right (i - 1) = Some (curr, i - 4)) as Hbud.
    { unfold item_get_buddy. rewrite (proj1 Hl2), Hrlr. unfold RIGHT. cbn [negb].
      cbv zeta. replace (i - 1 - 3) with (i - 4) by lia. rewrite Hc4''.
      cbn [mbind option_bind]. rewrite Hsz4''. f_equal. f_equal. unfold right. lia. }
    pose proof (coalesce_step_like s h1 s2 (i - 1) right curr (i - 4) c1 c4 ci c3
                  Hl2 Hc1 Hc4) as Hstep.
    cbv zeta in Hstep. rewrite Hrlr in Hstep. unfold RIGHT in Hstep. cbn [negb] in Hstep.
    cbv iota in Hstep. replace (i - 1 + 1) with i in Hstep by lia.
    destruct (Hstep Hci Hc3) as (s3 & b' & ib' & Hco & Hl3).
    exists s1, (i - 1), right, s2, curr, (i - 4), s3, b', ib'.
    rewrite (proj1 Hl2), (proj1 Hl3), Hlinh, Hrinh.
    split_and!; [done..| |done|].
    + by apply (coalesce_test_like s h1 s2 curr (i - 4) c4).
    + by apply (merge_headers _ _ _ _ _ _ _ _ _ Hl); lia.
Qed.

Lemma split_merge_identity_witness :
  ∃ c4 s1 i1 curr1 s2 b ib s3 b' ib',
    cell_at (arr s_t) (6 - 4) = Some c4 ∧
    split_step s_t 6 4728 3 = Some (s1, i1, curr1) ∧
    insert_item s1 i1 curr1 = Some s2 ∧
    item_get_inh_bit (heap s2) 4728 = RIGHT ∧
    item_get_inh_bit (heap s2) (4728 + cell_size c4 * BLOCK_SIZE) = LEFT ∧
    item_get_buddy s2 curr1 i1 = Some (b, ib) ∧
    coalesce_test s2 b ib = Some true ∧
    coalesce_step s2 i1 curr1 b ib = Some (s3, 6, 4728, b', ib') ∧
    header (heap s3) 4728 19 false RIGHT LEFT.
Proof.
  apply (split_merge_identity s_t 6 4728 3 (Cell 19 []) RIGHT LEFT).
  - lia.
  - by vm_compute.
  - apply (bool_decide_unpack _ (dec := Forall_dec _ _)). by vm_compute.
  - by vm_compute.
Defined.

(** C1 at mem_alloc(4000000000) in the fresh state: [n] is 500000001
    blocks, the array grows until cell 60 of 685792227 blocks, and
    alloc_new_item takes [BLOCK_SIZE * n] in 32 bits, which wraps to
    1191370520; the chunk drawn from the host has 1191370536 bytes.  The
    block returned has the header size 685792227, but the area of
    4000000000 bytes asked for ends far behind the end of the chunk. *)
Theorem mem_alloc_chunk_wraps :
  BLOCKS (4000000000 + HEADER_SIZE) = 500000001 ∧
  uint (BLOCK_SIZE * ladder 60) = 1191370520 ∧
  ∃ s' p, mem_alloc 60 s_init 4000000000 = Some (s', p) ∧
    item_get_size (heap s') (item_from_area p) = ladder 60 ∧ ladder 60 = 685792227 ∧
    mem_list s' + POINTER_SIZE = item_from_area p ∧
    brk s' - mem_list s' = 1191370536 ∧
    brk s' < p + 4000000000.
Proof.
  split; [by vm_compute|]. split; [by vm_compute|].
  eexists _, _. split; [by vm_compute|]. split_and!; by vm_compute.
Qed.

(** ** Further properties of the code *)

(** X1: item_set_size followed by item_get_size gives the size back,
    cut to the 61 bits the size field has; the three flag bits of the
    item and every other word of the heap stay as they were. *)
Theorem item_size_round_trip h a sz :
  0 ≤ sz →
  item_get_size (item_set_size h a sz) a = sz mod 2 ^ 61 ∧
  item_is_in_use (item_set_size h a sz) a = item_is_in_use h a ∧
  item_get_lr_bit (item_set_size h a sz) a = item_get_lr_bit h a ∧
  item_get_inh_bit (item_set_size h a sz) a = item_get_inh_bit h a ∧
  ∀ b, b ≠ a → load (item_set_size h a sz) b = load h b.
Proof.
  intros Hsz. split_and!.
  - unfold item_get_size, item_set_size. cbv zeta. rewrite load_store_eq.
    apply Z.bits_inj'. intros n Hn.
    rewrite Z.shiftr_spec, set_size_word, Z.testbit_mod_pow2 by lia.
    destruct (Z.ltb_spec (n + 3) 3); [lia|].
    replace (n + 3 - 3) with n by lia.
    destruct (Z.ltb_spec (n + 3) 64), (Z.ltb_spec n 61); try lia;
      by rewrite ?andb_true_r, ?andb_false_r.
  - rewrite !in_use_testbit. unfold item_set_size. cbv zeta.
    rewrite load_store_eq, set_size_word by lia. done.
  - rewrite !lr_testbit. unfold item_set_size. cbv zeta.
    rewrite load_store_eq, set_size_word by lia. done.
  - rewrite !inh_testbit. unfold item_set_size. cbv zeta.
    rewrite load_store_eq, set_size_word by lia. done.
  - intros b Hb. unfold item_set_size. cbv zeta. by apply load_store_ne.
Qed.

Lemma item_size_round_trip_witness :
  item_get_size (item_set_size (heap junk) 4104 95) 4104 = 95 mod 2 ^ 61 ∧
  item_is_in_use (item_set_size (heap junk) 4104 95) 4104 = item_is_in_use (heap junk) 4104 ∧
  item_get_lr_bit (item_set_size (heap junk) 4104 95) 4104
    = item_get_lr_bit (heap junk) 4104 ∧
  item_get_inh_bit (item_set_size (heap junk) 4104 95) 4104
    = item_get_inh_bit (heap junk) 4104 ∧
  ∀ b, b ≠ 4104 → load (item_set_size (heap junk) 4104 95) b = load (heap junk) b.
Proof. apply (item_size_round_trip (heap junk) 4104 95). lia. Defined.

(** X2: on a 64-bit header word each of item_set_in_use,
    item_set_lr_bit and item_set_inh_bit sets its own flag to the value
    given and leaves the size and the two other flags as they were. *)
Theorem item_flags_round_trip h a v :
  0 ≤ load h a < 2 ^ 64 →
  header (item_set_in_use h a v) a
    (item_get_size h a) v (item_get_lr_bit h a) (item_get_inh_bit h a) ∧
  header (item_set_lr_bit h a v) a
    (item_get_size h a) (item_is_in_use h a) v (item_get_inh_bit h a) ∧
  header (item_set_inh_bit h a v) a
    (item_get_size h a) (item_is_in_use h a) (item_get_lr_bit h a) v.
Proof.
  intros Hw.
  assert (0 ≤ item_get_size h a < 2 ^ 61) as Hsz.
  { unfold item_get_size. rewrite Z.shiftr_div_pow2 by lia. split.
    - apply Z.div_pos; lia.
    - apply Z.div_lt_upper_bound; lia. }
  assert (header h a (item_get_size h a) (item_is_in_use h a) (item_get_lr_bit h a)
            (item_get_inh_bit h a)) as Hh by done.
  split_and!.
  - by apply (header_set_in_use _ _ _ _ _ _ v Hsz Hh).
  - by apply (header_set_lr_bit _ _ _ _ _ _ v Hsz Hh).
  - by apply (header_set_inh_bit _ _ _ _ _ _ v Hsz Hh).
Qed.

Lemma item_flags_round_trip_witness :
  header (item_set_in_use (heap junk) 4104 false) 4104
    (item_get_size (heap junk) 4104) false (item_get_lr_bit (heap junk) 4104)
    (item_get_inh_bit (heap junk) 4104) ∧
  header (item_set_lr_bit (heap junk) 4104 false) 4104
    (item_get_size (heap junk) 4104) (item_is_in_use (heap junk) 4104) false
    (item_get_inh_bit (heap junk) 4104) ∧
  header (item_set_inh_bit (heap junk) 4104 false) 4104
    (item_get_size (heap junk) 4104) (item_is_in_use (heap junk) 4104)
    (item_get_lr_bit (heap junk) 4104) false.
Proof. apply (item_flags_round_trip (heap junk) 4104 false). by vm_compute. Defined.

Lemma with_items_id s i c :
  cell_at (arr s) i = Some c → with_items s i c (cell_items c) = s.
Proof.
  intros [_ Hc]%cell_at_Some. unfold with_items, set_arr, set_cells.
  destruct s as [h [d cs cap] ml b], c as [sz l]. simpl in *.
  by rewrite list_insert_id.
Qed.

Lemma remove_first_absent a l : a ∉ l → remove_first a l = l.
Proof.
  induction l as [|b l IH]; [done|]. intros [Hne Hl]%not_elem_of_cons. simpl.
  destruct (Z.eqb_spec b a); [congruence|]. by rewrite IH.
Qed.

Lemma remove_first_app a l1 l2 : a ∉ l1 → remove_first a (l1 ++ a :: l2) = l1 ++ l2.
Proof.
  induction l1 as [|b l1 IH]; simpl.
  - intros _. by rewrite Z.eqb_refl.
  - intros [Hne Hl]%not_elem_of_cons. destruct (Z.eqb_spec b a); [congruence|].
    by rewrite IH.
Qed.

(** X3: from any state mem_init returns: the chunk list holds one new
    chunk whose first word is NULL (chunks of an earlier mem_init are
    dropped from the list, not freed); the chunk has a block of 69
    blocks, in use, that holds the array, and behind it the sentinel of
    size 0, in use; the array has the 11 cells of sizes 3, 4, 5, 7, 10,
    14, 19, 26, 36, 50, 69 with empty lists and the capacity 16, and no
    area is handed out. *)
Theorem mem_init_state s0 :
  ∃ s, mem_init s0 = Some s ∧ reachable s ∅ ∧
    cells (arr s) = init_cells ∧ capacity (arr s) = ARRAY_INIT_CAPACITY ∧
    mem_list s = brk s0 ∧ load (heap s) (brk s0) = NULL ∧
    brk s = brk s0 + (BLOCK_SIZE * DATA_INIT_BLOCKS + POINTER_SIZE * 2) ∧
    data (arr s) = item_get_area (brk s0 + POINTER_SIZE) ∧
    item_get_size (heap s) (brk s0 + POINTER_SIZE) = DATA_INIT_BLOCKS ∧
    item_is_in_use (heap s) (brk s0 + POINTER_SIZE) = true ∧
    item_get_lr_bit (heap s) (brk s0 + POINTER_SIZE) = LEFT ∧
    item_get_size (heap s) (brk s0 + POINTER_SIZE + DATA_INIT_BLOCKS * BLOCK_SIZE) = 0 ∧
    item_is_in_use (heap s) (brk s0 + POINTER_SIZE + DATA_INIT_BLOCKS * BLOCK_SIZE) = true.
Proof.
  destruct (mem_init_tinv s0) as (s & Hinit & _ & Hcells & Hcap & Hdata).
  exists s. split; [done|]. split; [by exists s0, s, 0%nat, []|].
  split; [done|]. split; [done|].
  unfold mem_init in Hinit. rewrite array_init_eq in Hinit. cbv zeta in Hinit.
  set (s00 := State (heap s0) (arr s0) NULL (brk s0)) in *.
  pose proof (alloc_new_item_eq s00 DATA_INIT_BLOCKS ltac:(by vm_compute)) as Heq.
  cbv zeta in Heq. rewrite Heq in Hinit. cbn [fst snd] in Hinit.
  injection Hinit as <-. cbn [mem_list brk heap arr data set_arr set_heap s00].
  destruct (new_chunk_headers (heap s0) (brk s0) NULL DATA_INIT_BLOCKS ltac:(by vm_compute))
    as (Hi & Hf & Hw & _).
  cbv zeta in Hi, Hf, Hw.
  set (h5 := item_set_lr_bit _ (brk s0 + POINTER_SIZE) LEFT) in *.
  assert (brk s0 + POINTER_SIZE ≠ brk s0) as Hne1 by (unfold POINTER_SIZE; lia).
  assert (brk s0 + POINTER_SIZE
          ≠ brk s0 + BLOCK_SIZE * DATA_INIT_BLOCKS + POINTER_SIZE) as Hne2
    by (unfold BLOCK_SIZE, DATA_INIT_BLOCKS; lia).
  apply (header_set_in_use _ _ _ _ _ _ true) in Hi as (? & ? & ? & ?); [|by vm_compute].
  replace (brk s0 + POINTER_SIZE + DATA_INIT_BLOCKS * BLOCK_SIZE)
    with (brk s0 + BLOCK_SIZE * DATA_INIT_BLOCKS + POINTER_SIZE) by lia.
  apply (same_at_header _ (item_set_in_use h5 (brk s0 + POINTER_SIZE) true)) in Hf
    as (? & ? & _); [|by apply same_at_set_flag].
  split_and!; try done.
  unfold item_set_in_use, set_flag. cbv zeta. rewrite load_store_ne by done. exact Hw.
Qed.

(** X4: the search loop of mem_alloc is a first fit: it stops at the
    first cell that has both a size of at least [n] and a list that is
    not empty, and runs to the end of the array when there is none. *)
Theorem find_cell_first_fit cs n :
  0 ≤ find_cell cs n 0 ≤ Z.of_nat (length cs) ∧
  (∀ j c, cs !! j = Some c → Z.of_nat j < find_cell cs n 0 →
          cell_size c < n ∨ cell_items c = []) ∧
  (find_cell cs n 0 < Z.of_nat (length cs) →
   ∃ c, cs !! Z.to_nat (find_cell cs n 0) = Some c ∧ n ≤ cell_size c ∧ cell_items c ≠ []).
Proof.
  destruct (find_cell_spec cs n 0) as (Hr & Hbelow & Hat). cbv zeta in *.
  split; [lia|]. split.
  - intros j c Hj Hlt. apply (Hbelow j c Hj). lia.
  - intros Hlt. destruct Hat as (c & Hc & ?); [lia|]. rewrite Z.sub_0_r in Hc. by exists c.
Qed.

Lemma asc_disjoint lo L hi l1 l2 :
  asc lo L hi → l1 ∈ L → l2 ∈ L → l1 ≠ l2 →
  l_end l1 ≤ l_addr l2 ∨ l_end l2 ≤ l_addr l1.
Proof.
  intros Hasc H1 H2 Hne.
  pose proof (asc_Forall _ _ _ Hasc) as Hall. rewrite Forall_forall in Hall.
  pose proof (Hall _ H1) as (_ & _ & ?). pose proof (Hall _ H2) as (_ & _ & ?).
  pose proof (l_end_gt l1 ltac:(lia)). pose proof (l_end_gt l2 ltac:(lia)).
  destruct (decide (l_end l1 ≤ l_addr l2)); [by left|].
  destruct (decide (l_end l2 ≤ l_addr l1)); [by right|].
  exfalso. apply Hne.
  apply (asc_inside lo L hi l1 l2 (Z.max (l_addr l1) (l_addr l2)) Hasc H1 H2); lia.
Qed.

(** The block of a handed-out area in the splitting tree. *)
Lemma inv_held_block s P cs L p :
  inv s ∅ P cs L → p ∈ P →
  ∃ l, l ∈ L ∧ l_addr l = item_from_area p ∧ l_used l = true ∧
       item_get_size (heap s) (item_from_area p) = ladder (l_idx l) ∧
       item_is_in_use (heap s) (item_from_area p) = true ∧
       l_end l = item_from_area p + item_get_size (heap s) (item_from_area p) * BLOCK_SIZE.
Proof.
  intros HI Hp. destruct (inv_prot_leaf _ _ _ _ _ p HI Hp) as (l & Hl & Ha & Hu & _).
  pose proof (inv_hdr _ _ _ _ _ HI) as Hh. rewrite Forall_forall in Hh.
  destruct (Hh _ Hl) as (Hsz & _ & _ & Hin).
  exists l. rewrite <-Ha, Hsz. split_and!; try done.
  rewrite Hin; [done|]. by intros ?%elem_of_empty.
Qed.

(** X5: on every state reached by mem_init, mem_alloc and mem_free
    with the array at most [MAX_CELLS] cells long, the blocks of two
    different areas that are handed out (to callers, or to the allocator
    for its array) do not overlap; each is marked in use and ends below
    the end of the memory obtained from the host.  (With more cells a
    chunk has 4 GiB or more and its byte count wraps in
    alloc_new_item.) *)
Theorem held_areas_disjoint s U p q :
  reachable s U → p ∈ U ∪ {[data (arr s)]} → q ∈ U ∪ {[data (arr s)]} → p ≠ q →
  let size_of a := item_get_size (heap s) (item_from_area a) in
  (item_from_area p + size_of p * BLOCK_SIZE ≤ item_from_area q ∨
   item_from_area q + size_of q * BLOCK_SIZE ≤ item_from_area p) ∧
  item_is_in_use (heap s) (item_from_area p) = true ∧
  0 < size_of p ∧
  item_from_area p + size_of p * BLOCK_SIZE < brk s.
Proof.
  intros (_ & cs & L & HI)%reachable_tinv Hp Hq Hne size_of. unfold size_of.
  destruct (inv_held_block _ _ _ _ _ HI Hp) as (lp & Hlp & Hap & _ & Hsp & Hup & Hep).
  destruct (inv_held_block _ _ _ _ _ HI Hq) as (lq & Hlq & Haq & _ & Hsq & Huq & Heq).
  destruct (inv_asc _ _ _ _ _ HI) as [lo Hasc].
  assert (lp ≠ lq) as Hll.
  { intros ->. apply Hne. unfold item_from_area in *. lia. }
  split; [destruct (asc_disjoint _ _ _ _ _ Hasc Hlp Hlq Hll); [left|right]; lia|].
  split; [done|].
  pose proof (inv_leaf_size _ _ _ _ _ _ HI Hlp). split; [lia|].
  assert (Forall (λ c : Z * Z, 1 ≤ c.2) cs) as Hcs.
  { eapply Forall_impl; [apply (inv_chunks _ _ _ _ _ HI)|]. intros c (? & _). lia. }
  destruct (forest_chunk _ _ _ (inv_forest _ _ _ _ _ HI) Hcs Hlp) as (b & i & Hc & _ & _ & He).
  pose proof (inv_chunks _ _ _ _ _ HI) as Hch. rewrite Forall_forall in Hch.
  destruct (Hch _ Hc) as (_ & _ & Hbrk & _). unfold sentinel in Hbrk. simpl in Hbrk. lia.
Qed.

Lemma held_areas_disjoint_witness :
  let size_of a := item_get_size (heap s_ab.1) (item_from_area a) in
  (item_from_area 4776 + size_of 4776 * BLOCK_SIZE ≤ item_from_area 4680 ∨
   item_from_area 4680 + size_of 4680 * BLOCK_SIZE ≤ item_from_area 4776) ∧
  item_is_in_use (heap s_ab.1) (item_from_area 4776) = true ∧
  0 < size_of 4776 ∧
  item_from_area 4776 + size_of 4776 * BLOCK_SIZE < brk s_ab.1.
Proof.
  apply (held_areas_disjoint s_ab.1 s_ab.2 4776 4680).
  - apply reachable_ab.
  - by vm_compute.
  - by vm_compute.
  - lia.
Defined.

(** X6: on every state reached by mem_init, mem_alloc and mem_free
    with the array at most [MAX_CELLS] cells long, the free lists are
    typed: an item on the list of cell [i] is a block whose header has
    the size of cell [i] and in_use = 0; it is on that list once and on
    no other list, and its area is not one that is handed out. *)
Theorem free_lists_typed s U i c a :
  reachable s U → cell_at (arr s) i = Some c → a ∈ cell_items c →
  NoDup (cell_items c) ∧
  item_get_size (heap s) a = cell_size c ∧ item_is_in_use (heap s) a = false ∧
  (item_get_area a ∉ U ∪ {[data (arr s)]}) ∧
  ∀ j c', cell_at (arr s) j = Some c' → a ∈ cell_items c' → j = i.
Proof.
  intros HT%reachable_tinv Hc Ha.
  destruct (tinv_listed _ _ _ _ _ HT Hc Ha) as (Hi & Hsz & Hu).
  pose proof (tinv_cell_at _ _ _ _ HT Hc) as Hcs.
  destruct HT as (_ & cs & L & HI).
  pose proof Hc as [Hir Hci]%cell_at_Some.
  destruct (inv_lists _ _ _ _ _ HI _ _ Hci) as [Hnd _].
  split; [done|]. split; [congruence|]. split; [done|]. split.
  - intros Hheld. destruct (inv_held_block _ _ _ _ _ HI Hheld) as (l & _ & _ & _ & _ & Hin & _).
    replace (item_from_area (item_get_area a)) with a in Hin
      by (unfold item_from_area, item_get_area; lia).
    congruence.
  - intros j c' Hc' Ha'. pose proof Hc' as [Hjr Hcj]%cell_at_Some.
    apply (lists_ok_lookup _ _ _ _ a (inv_lists _ _ _ _ _ HI) (proj1 Hir) Hci) in Ha
      as (l & Hl & Hla & Hli & _).
    apply (lists_ok_lookup _ _ _ _ a (inv_lists _ _ _ _ _ HI) (proj1 Hjr) Hcj) in Ha'
      as (l' & Hl' & Hla' & Hli' & _).
    assert (l = l') as -> by (eapply inv_addr_inj; [done..|congruence]).
    congruence.
Qed.

Lemma free_lists_typed_witness :
  NoDup (cell_items (Cell 69 [4880])) ∧
  item_get_size (heap s_ab.1) 4880 = cell_size (Cell 69 [4880]) ∧
  item_is_in_use (heap s_ab.1) 4880 = false ∧
  (item_get_area 4880 ∉ s_ab.2 ∪ {[data (arr s_ab.1)]}) ∧
  ∀ j c', cell_at (arr s_ab.1) j = Some c' → 4880 ∈ cell_items c' → j = 10.
Proof.
  apply (free_lists_typed s_ab.1 s_ab.2 10 (Cell 69 [4880]) 4880).
  - apply reachable_ab.
  - by vm_compute.
  - by left.
Defined.

(** *** More fuel changes no result *)

Lemma array_inc_size_ext alloc alloc' s s' :
  (∀ s x r, alloc s x = Some r → alloc' s x = Some r) →
  array_inc_size alloc s = Some s' → array_inc_size alloc' s = Some s'.
Proof.
  intros Hext. unfold array_inc_size. cbv zeta.
  intros (c1 & -> & (c4 & -> & H)%bind_Some)%bind_Some. cbn [mbind option_bind].
  destruct (_ =? _); [|done].
  apply bind_Some in H as ([s1 nd] & Ha & Hf).
  by rewrite (Hext _ _ _ Ha).
Qed.

Lemma grow_loop_ext alloc alloc' fuel fuel' s i n r :
  (∀ s x r, alloc s x = Some r → alloc' s x = Some r) → (fuel ≤ fuel')%nat →
  grow_loop alloc fuel s i n = Some r → grow_loop alloc' fuel' s i n = Some r.
Proof.
  intros Hext. revert fuel' s i.
  induction fuel as [|fuel IH]; intros fuel' s i Hle; [done|].
  destruct fuel' as [|fuel']; [lia|]. cbn [grow_loop].
  intros (s1 & Hinc & (c & Hc & H)%bind_Some)%bind_Some.
  rewrite (array_inc_size_ext _ _ _ _ Hext Hinc). cbn [mbind option_bind].
  rewrite Hc. cbn [mbind option_bind].
  destruct (_ <? _); [|done]. apply IH; [lia|done].
Qed.

Lemma mem_alloc_body_ext alloc alloc' fuel fuel' s x r :
  (∀ s x r, alloc s x = Some r → alloc' s x = Some r) → (fuel ≤ fuel')%nat →
  mem_alloc_body alloc fuel s x = Some r → mem_alloc_body alloc' fuel' s x = Some r.
Proof.
  intros Hext Hle. unfold mem_alloc_body, mem_alloc_pick. cbv zeta.
  intros ([[s1 i1] item] & Hpick & H)%bind_Some.
  destruct (_ =? _).
  - apply bind_Some in Hpick as ([s2 i2] & Hgrow & Hpick).
    rewrite (grow_loop_ext _ _ _ _ _ _ _ _ Hext Hle Hgrow). cbn [mbind option_bind].
    by rewrite Hpick.
  - by rewrite Hpick.
Qed.

Lemma mem_alloc_fuel_S fuel : ∀ s x r,
  mem_alloc fuel s x = Some r → mem_alloc (S fuel) s x = Some r.
Proof.
  induction fuel as [|fuel IH]; intros s x r H; [done|].
  cbn [mem_alloc] in *.
  apply (mem_alloc_body_ext (mem_alloc fuel) (mem_alloc (S fuel)) (S fuel) (S (S fuel)));
    [exact IH|lia|done].
Qed.

Lemma mem_alloc_fuel_le fuel fuel' s x r :
  (fuel ≤ fuel')%nat → mem_alloc fuel s x = Some r → mem_alloc fuel' s x = Some r.
Proof.
  induction 1 as [|fuel' _ IH]; [done|]. intros Ha. by apply mem_alloc_fuel_S, IH.
Qed.

Lemma run_fuel_le fuel fuel' ops s U r :
  (fuel ≤ fuel')%nat → run fuel ops s U = Some r → run fuel' ops s U = Some r.
Proof.
  intros Hle. revert s U. induction ops as [|[x|area] ops IH]; intros s U; simpl; [done| |].
  - destruct (_ && _); [|done].
    intros ([s1 p] & Ha & H)%bind_Some.
    rewrite (mem_alloc_fuel_le _ _ _ _ _ Hle Ha). cbn [mbind option_bind].
    destruct (fits s1); [by apply IH|done].
  - case_decide; [|done]. intros (s1 & -> & Hr)%bind_Some. cbn [mbind option_bind].
    by apply IH.
Qed.

Lemma run_app fuel ops1 ops2 s U s1 U1 :
  run fuel ops1 s U = Some (s1, U1) →
  run fuel (ops1 ++ ops2) s U = run fuel ops2 s1 U1.
Proof.
  revert s U. induction ops1 as [|[x|area] ops1 IH]; intros s U; simpl.
  - by intros [= -> ->].
  - destruct (_ && _); [|done].
    intros ([s2 p] & -> & H)%bind_Some. cbn [mbind option_bind].
    destruct (fits s2); [by apply IH|done].
  - case_decide; [|done]. intros (s2 & -> & Hr)%bind_Some. cbn [mbind option_bind].
    by apply IH.
Qed.

(** The reachable states are closed under the two calls. *)
Lemma reachable_alloc s U fuel x s' p :
  reachable s U → 0 ≤ x < 2 ^ 32 → mem_alloc fuel s x = Some (s', p) → fits s' = true →
  reachable s' (U ∪ {[p]}).
Proof.
  intros (s0 & s1 & fuel0 & ops & Hinit & Hrun) Hx Halloc Hfits.
  exists s0, s1, (fuel0 `max` fuel)%nat, (ops ++ [Alloc x]). split; [done|].
  assert (fuel0 ≤ fuel0 `max` fuel)%nat as Hle0 by lia.
  assert (fuel ≤ fuel0 `max` fuel)%nat as Hle by lia.
  rewrite (run_app _ _ _ _ _ s U) by (by apply (run_fuel_le fuel0)).
  simpl. destruct (Z.leb_spec 0 x), (Z.ltb_spec x (2 ^ 32)); try lia. simpl.
  rewrite (mem_alloc_fuel_le fuel _ _ _ _ Hle Halloc). cbn [mbind option_bind].
  by rewrite Hfits.
Qed.

Lemma reachable_free s U p s' :
  reachable s U → p ∈ U → mem_free s p = Some s' → reachable s' (U ∖ {[p]}).
Proof.
  intros (s0 & s1 & fuel0 & ops & Hinit & Hrun) Hp Hfree.
  exists s0, s1, fuel0, (ops ++ [Free p]). split; [done|].
  rewrite (run_app _ _ _ _ _ s U) by done.
  simpl. rewrite decide_True by done. by rewrite Hfree.
Qed.

(** X7: when mem_alloc(x) returns on a reachable state with the array
    within MAX_CELLS cells, the state it leaves is reachable with the
    new area added to the areas handed out; the area is none of those
    handed out before and not the area of the array; its block holds at
    least [x] bytes behind the header; the break of the host never
    falls and the array never loses cells. *)
Theorem mem_alloc_result s U fuel x s' p :
  reachable s U → 0 ≤ x < 2 ^ 32 → mem_alloc fuel s x = Some (s', p) → fits s' = true →
  reachable s' (U ∪ {[p]}) ∧ (p ∉ U) ∧ p ≠ data (arr s') ∧
  brk s ≤ brk s' ∧ array_size (arr s) ≤ array_size (arr s') ∧
  x ≤ item_get_size (heap s') (item_from_area p) * BLOCK_SIZE - HEADER_SIZE.
Proof.
  intros Hreach Hx Halloc Hfits.
  pose proof (reachable_alloc _ _ _ _ _ _ Hreach Hx Halloc Hfits) as Hreach'.
  pose proof (reachable_tinv _ _ Hreach) as HT.
  assert (0 ≤ x) as Hx0 by lia.
  destruct (mem_alloc_ok fuel _ _ _ _ _ HT Hx0 Halloc ltac:(by apply Z.leb_le))
    as ((Hd & _) & HpU & Hbrk & Hn & _).
  pose proof (mem_alloc_len fuel _ _ _ _ Halloc) as Hlen.
  split_and!; [done|done| |done| |by apply blocks_area].
  - intros ->. apply Hd. mem_set_in.
  - rewrite !alen_size. lia.
Qed.

Lemma mem_alloc_result_witness :
  let r := default (boot, 0) (mem_alloc 2 s_ab.1 300) in
  reachable r.1 (s_ab.2 ∪ {[r.2]}) ∧ (r.2 ∉ s_ab.2) ∧ r.2 ≠ data (arr r.1) ∧
  brk s_ab.1 ≤ brk r.1 ∧ array_size (arr s_ab.1) ≤ array_size (arr r.1) ∧
  300 ≤ item_get_size (heap r.1) (item_from_area r.2) * BLOCK_SIZE - HEADER_SIZE.
Proof.
  intros r. apply (mem_alloc_result s_ab.1 s_ab.2 2 300 r.1 r.2).
  - apply reachable_ab.
  - lia.
  - by vm_compute.
  - by vm_compute.
Defined.

(** X8: on a state reached by mem_init, mem_alloc and mem_free with
    the array at most [MAX_CELLS] cells long, mem_free of an area that
    is handed out returns, and the state it leaves is such a state with
    that area taken out of those handed out.  mem_free never calls the
    host and never touches the shape of the array: the break, the chunk
    list, the place, the capacity and the cell sizes of the array stay
    as they were. *)
Theorem mem_free_result s U p :
  reachable s U → p ∈ U →
  ∃ s', mem_free s p = Some s' ∧ reachable s' (U ∖ {[p]}) ∧
    brk s' = brk s ∧ mem_list s' = mem_list s ∧
    data (arr s') = data (arr s) ∧ capacity (arr s') = capacity (arr s) ∧
    cell_size <$> cells (arr s') = cell_size <$> cells (arr s).
Proof.
  intros Hreach Hp.
  destruct (mem_free_tinv _ _ _ (reachable_tinv _ _ Hreach) Hp)
    as (s' & Hfree & _ & (? & ? & ? & ? & ?)).
  exists s'. split; [done|]. split; [by eapply reachable_free|]. done.
Qed.

Lemma mem_free_result_witness :
  ∃ s', mem_free s_ab.1 4776 = Some s' ∧ reachable s' (s_ab.2 ∖ {[4776]}) ∧
    brk s' = brk s_ab.1 ∧ mem_list s' = mem_list s_ab.1 ∧
    data (arr s') = data (arr s_ab.1) ∧ capacity (arr s') = capacity (arr s_ab.1) ∧
    cell_size <$> cells (arr s') = cell_size <$> cells (arr s_ab.1).
Proof.
  apply (mem_free_result s_ab.1 s_ab.2 4776).
  - apply reachable_ab.
  - by vm_compute.
Defined.

(** X9: on a state reached by mem_init, mem_alloc and mem_free with
    the array at most [MAX_CELLS] cells long, when some cell has both a
    size of at least [n] and a list that is not empty, mem_alloc serves
    the request from the free lists: it returns (one unit of fuel is
    enough), and it neither calls the host nor grows or moves the
    array. *)
Theorem alloc_from_free_list s U fuel x :
  reachable s U → 0 ≤ x →
  find_cell (cells (arr s)) (BLOCKS (x + HEADER_SIZE)) 0 < array_size (arr s) →
  ∃ s' p, mem_alloc (S fuel) s x = Some (s', p) ∧ fits s' = true ∧
    brk s' = brk s ∧ mem_list s' = mem_list s ∧
    data (arr s') = data (arr s) ∧ capacity (arr s') = capacity (arr s) ∧
    cell_size <$> cells (arr s') = cell_size <$> cells (arr s).
Proof.
  intros HT%reachable_tinv Hx Hfind. cbn [mem_alloc].
  set (n := BLOCKS (x + HEADER_SIZE)) in *.
  pose proof (tinv_size _ _ HT) as Hsize.
  destruct (find_cell_spec (cells (arr s)) n 0) as (Hrange & _ & Hat). cbv zeta in *.
  fold (array_size (arr s)) in *.
  destruct Hat as (c & Hc & Hcn & Hne); [lia|]. rewrite Z.sub_0_r in Hc.
  set (i := find_cell (cells (arr s)) n 0) in *.
  assert (cell_at (arr s) i = Some c) as Hcell by (apply cell_at_Some; split; [lia|done]).
  destruct (cell_items c) as [|a next] eqn:Hitems; [done|].
  set (s1 := with_items s i c (remove_first a (cell_items c))).
  assert (mem_alloc_pick (mem_alloc fuel) (S fuel) s n = Some (s1, i, a)) as Hpick.
  { unfold mem_alloc_pick. cbv zeta. fold i.
    destruct (Z.eqb_spec i (array_size (arr s))); [lia|].
    by rewrite (take_item_eq _ _ c a next). }
  assert (array_size (arr s1) ≤ MAX_CELLS) as Hmax1.
  { unfold s1. rewrite with_items_size. lia. }
  destruct (mem_alloc_pick_spec _ _ _ _ _ _ _ _ (mem_alloc_ok fuel) (mem_alloc_len fuel)
              HT Hpick Hmax1) as ((cs & L & x0 & HI2 & Hx0 & Ha0 & Hi0 & Hn0 & _) & _).
  rewrite <-Hi0 in Hn0.
  destruct (alloc_finish _ _ _ _ _ n HI2 Hx0 Hn0)
    as (s3 & L' & x' & Hsplit & _ & _ & _ & Hfr & _).
  rewrite Ha0, Hi0 in Hsplit.
  unfold mem_alloc_body. cbv zeta. fold n. rewrite Hpick. cbn [mbind option_bind].
  rewrite Hsplit. cbn [mbind option_bind]. eexists _, _. split; [done|].
  pose proof (same_frame_trans _ _ _ (same_frame_with_items s i c _ Hcell) Hfr) as Hfr'.
  split.
  - apply Z.leb_le. rewrite (same_frame_size _ _ Hfr'). lia.
  - by destruct Hfr' as (? & ? & ? & ? & ?).
Qed.

Lemma alloc_from_free_list_witness :
  ∃ s' p, mem_alloc 1 s_ab.1 24 = Some (s', p) ∧ fits s' = true ∧
    brk s' = brk s_ab.1 ∧ mem_list s' = mem_list s_ab.1 ∧
    data (arr s') = data (arr s_ab.1) ∧ capacity (arr s') = capacity (arr s_ab.1) ∧
    cell_size <$> cells (arr s') = cell_size <$> cells (arr s_ab.1).
Proof.
  apply (alloc_from_free_list s_ab.1 s_ab.2 0 24).
  - apply reachable_ab.
  - by vm_compute.
  - by vm_compute.
Defined.

(** X10: when mem_alloc returns on a state reached by mem_init,
    mem_alloc and mem_free, with the array at most [MAX_CELLS] cells
    long before and after the call, the block it hands out is tight: its
    size is at least the [n] blocks needed, and it is either one of the
    sizes up to 10 blocks that split_item does not split, or less than
    twice [n]. *)
Theorem mem_alloc_tight s U fuel x s' p :
  reachable s U → 0 ≤ x → mem_alloc fuel s x = Some (s', p) → fits s' = true →
  BLOCKS (x + HEADER_SIZE) ≤ item_get_size (heap s') (item_from_area p) ∧
  (item_get_size (heap s') (item_from_area p) ≤ 10 ∨
   item_get_size (heap s') (item_from_area p) < 2 * BLOCKS (x + HEADER_SIZE)).
Proof.
  intros HT%reachable_tinv Hx Halloc Hfits%Z.leb_le.
  destruct (mem_alloc_ok fuel _ _ _ _ _ HT Hx Halloc Hfits) as (_ & _ & _ & Hn & _).
  split; [done|].
  destruct (mem_alloc_index _ _ _ _ _ _ HT Hx Halloc Hfits) as (i & Hi & Hsz & Hstop).
  rewrite Hsz. destruct (decide (i ≤ 4)) as [Hi4|Hi4].
  - left. pose proof (ladder_le i 4 ltac:(lia)) as H4. by change (ladder 4) with 10 in H4.
  - right. destruct Hstop as [?|Hlt]; [lia|].
    rewrite (ladder_rec i) by lia.
    pose proof (ladder_le (i - 4) (i - 1) ltac:(lia)). lia.
Qed.

Lemma mem_alloc_tight_witness :
  let r := default (boot, 0) (mem_alloc 2 s_init 100) in
  BLOCKS (100 + HEADER_SIZE) ≤ item_get_size (heap r.1) (item_from_area r.2) ∧
  (item_get_size (heap r.1) (item_from_area r.2) ≤ 10 ∨
   item_get_size (heap r.1) (item_from_area r.2) < 2 * BLOCKS (100 + HEADER_SIZE)).
Proof.
  intros r. apply (mem_alloc_tight s_init ∅ 2 100 r.1 r.2).
  - apply reachable_init.
  - lia.
  - by vm_compute.
  - by vm_compute.
Defined.

(** *** The blocks handed out are left alone *)

Lemma guarded_mono s P P' a : (∀ q, q ∈ P → q ∈ P') → guarded s P a → guarded s P' a.
Proof. intros HP (q & Hq & Ha). exists q. split; [by apply HP|done]. Qed.

Lemma keeps_mono s s' P P' : (∀ q, q ∈ P → q ∈ P') → keeps s s' P' → keeps s s' P.
Proof. intros HP Hk a Ha. apply Hk. by eapply guarded_mono. Qed.

Lemma keeps_same_heap s s' P : heap s' = heap s → keeps s s' P.
Proof. intros Hh a _. by rewrite Hh. Qed.

(** A guarded address lies in a block of the tree that is in use and
    not pending. *)
Lemma guarded_leaf s pend P cs L a :
  inv s pend P cs L → guarded s P a →
  ∃ l, l ∈ L ∧ l_used l = true ∧ (l_addr l ∉ pend) ∧ l_addr l ≤ a < l_end l.
Proof.
  intros HI (q & Hq & Ha).
  destruct (inv_prot_leaf _ _ _ _ _ q HI Hq) as (l & Hl & Hla & Hu & Hp).
  destruct (hdr_ok_bits _ _ _ _ _ _ HI Hl) as (Hsz & _).
  exists l. split; [done|]. split; [done|]. split; [done|].
  unfold l_end. rewrite <-Hsz, Hla. lia.
Qed.

Lemma guarded_not_unused s pend P cs L a x :
  inv s pend P cs L → guarded s P a → x ∈ L →
  l_used x = false ∨ l_addr x ∈ pend → ¬ (l_addr x ≤ a < l_end x).
Proof.
  intros HI Ha Hx Hun Hin.
  destruct (guarded_leaf _ _ _ _ _ _ HI Ha) as (l & Hl & Hu & Hp & Hla).
  destruct (inv_asc _ _ _ _ _ HI) as [lo Hasc].
  assert (l = x) as -> by (by eapply (asc_inside lo L _ _ _ a)).
  destruct Hun; [congruence|done].
Qed.

Lemma guarded_below_brk s pend P cs L a :
  inv s pend P cs L → guarded s P a → a < brk s.
Proof.
  intros HI Ha. destruct (guarded_leaf _ _ _ _ _ _ HI Ha) as (l & Hl & _ & _ & Hla).
  assert (Forall (λ c : Z * Z, 1 ≤ c.2) cs) as Hcs.
  { eapply Forall_impl; [apply (inv_chunks _ _ _ _ _ HI)|]. intros c (? & _). lia. }
  destruct (forest_chunk _ _ _ (inv_forest _ _ _ _ _ HI) Hcs Hl) as (b & i & Hc & _ & _ & He).
  pose proof (inv_chunks _ _ _ _ _ HI) as Hch. rewrite Forall_forall in Hch.
  destruct (Hch _ Hc) as (_ & _ & Hbrk & _). unfold sentinel in Hbrk. simpl in Hbrk. lia.
Qed.

(** The header of a guarded block is itself guarded, so the blocks keep
    their extent. *)
Lemma keeps_guarded s s' pend P cs L a :
  inv s pend P cs L → keeps s s' P → guarded s P a → guarded s' P a.
Proof.
  intros HI Hk (q & Hq & Ha). exists q. split; [done|].
  destruct (inv_prot_leaf _ _ _ _ _ q HI Hq) as (l & Hl & Hla & _).
  destruct (hdr_ok_bits _ _ _ _ _ _ HI Hl) as (Hsz & _).
  pose proof (inv_leaf_size _ _ _ _ _ _ HI Hl) as Hpos.
  assert (load (heap s') (item_from_area q) = load (heap s) (item_from_area q)) as Hw.
  { apply Hk. exists q. split; [done|]. rewrite <-Hla, Hsz. unfold BLOCK_SIZE. lia. }
  unfold item_get_size in *. by rewrite Hw.
Qed.

Lemma keeps_trans s1 s2 s3 pend P cs L :
  inv s1 pend P cs L → keeps s1 s2 P → keeps s2 s3 P → keeps s1 s3 P.
Proof.
  intros HI H12 H23 a Ha. rewrite <-(H12 a Ha). apply H23. by eapply keeps_guarded.
Qed.

Lemma insert_item_heap s i item s' : insert_item s i item = Some s' → heap s' = heap s.
Proof.
  unfold insert_item. by intros (c & _ & (a & _ & [= <-])%bind_Some)%bind_Some.
Qed.

Lemma delete_item_heap s i item s' : delete_item s i item = Some s' → heap s' = heap s.
Proof.
  unfold delete_item. by intros (c & _ & (a & _ & [= <-])%bind_Some)%bind_Some.
Qed.

Lemma split_step_keeps s P cs L x (n : Z) s' i' c' :
  inv s {[l_addr x]} P cs L → x ∈ L → 4 < l_idx x →
  split_step s (l_idx x) (l_addr x) n = Some (s', i', c') → keeps s s' P.
Proof.
  intros HI Hx Hi Hstep a Ha.
  pose proof (inv_leaf_idx _ _ _ _ _ _ HI Hx) as Hidx.
  destruct (cell_at_lookup (arr s) (l_idx x - 4)) as [c4 Hc4]; [lia|].
  destruct (cell_at_lookup (arr s) (l_idx x - 1)) as [c1 Hc1]; [lia|].
  pose proof (cells_ok_at _ _ _ (inv_cells _ _ _ _ _ HI) Hc4) as Hs4.
  pose proof (cells_ok_at _ _ _ (inv_cells _ _ _ _ _ HI) Hc1) as Hs1.
  destruct (children_geometry x true true Hi) as (_ & _ & _ & Gr).
  cbn [right_child l_addr] in Gr.
  assert (3 ≤ ladder (l_idx x - 4) < 2 ^ 29 ∧ 3 ≤ ladder (l_idx x - 1) < 2 ^ 29)
    as [Hr4 Hr1].
  { destruct (inv_cells _ _ _ _ _ HI) as [[_ Hmax] _]. unfold array_size in Hidx.
    split; (split; [apply ladder_ge|apply ladder_small]); unfold MAX_CELLS in *; lia. }
  assert (heap s' = split_writes (heap s) (l_addr x)
                      (l_addr x + ladder (l_idx x - 4) * BLOCK_SIZE)
                      (ladder (l_idx x - 4)) (ladder (l_idx x - 1))
                      (item_get_lr_bit (heap s) (l_addr x))
                      (item_get_inh_bit (heap s) (l_addr x))) as ->.
  { rewrite (split_step_eq s _ _ n c4 c1 Hc4 Hc1) in Hstep. cbv zeta in Hstep.
    rewrite Hs4, Hs1 in Hstep. destruct (_ >=? _); by injection Hstep as <- _ _. }
  assert (x ∈ L → ¬ (l_addr x ≤ a < l_end x)) as Hout.
  { intros _. eapply guarded_not_unused; [done..|]. right. by apply elem_of_singleton. }
  specialize (Hout Hx).
  destruct (split_headers (heap s) (l_addr x) (l_addr x + ladder (l_idx x - 4) * BLOCK_SIZE)
              (ladder (l_idx x - 4)) (ladder (l_idx x - 1))
              (item_get_lr_bit (heap s) (l_addr x)) (item_get_inh_bit (heap s) (l_addr x)))
    as (_ & _ & Hsame); [lia|lia|lia|].
  apply Hsame; lia.
Qed.

Lemma split_loop_keeps fuel s P cs L x (n : Z) s' i' c' :
  inv s {[l_addr x]} P cs L → x ∈ L → n ≤ ladder (l_idx x) →
  split_loop fuel s (l_idx x) (l_addr x) n = Some (s', i', c') → keeps s s' P.
Proof.
  revert s L x. induction fuel as [|fuel IH]; intros s L x HI Hx Hn Hloop; [done|].
  pose proof (inv_leaf_idx _ _ _ _ _ _ HI Hx) as Hidx.
  destruct (cell_at_lookup (arr s) (l_idx x - 1)) as [c1 Hc1]; [lia|].
  pose proof (cells_ok_at _ _ _ (inv_cells _ _ _ _ _ HI) Hc1) as Hs1.
  cbn [split_loop] in Hloop. rewrite Hc1 in Hloop. cbn [mbind option_bind] in Hloop.
  rewrite Hs1 in Hloop.
  destruct (Z.geb_spec (ladder (l_idx x - 1)) n) as [Hge|Hlt];
    destruct (Z.gtb_spec (l_idx x) 4) as [Hi|Hi]; cbn [andb] in Hloop;
    try (injection Hloop as <- _ _; by apply keeps_same_heap).
  destruct (split_step_inv _ _ _ _ _ n HI Hx Hi Hge)
    as (s1 & L1 & x1 & Hstep & HI1 & Hx1 & _ & Hn1 & _).
  rewrite Hstep in Hloop. cbn [mbind option_bind] in Hloop.
  eapply keeps_trans; [exact HI|by eapply split_step_keeps|by eapply IH].
Qed.

(** split_item and the marking of the block it ends on. *)
Lemma alloc_finish_keeps s P cs L x (n : Z) s1 curr :
  inv s {[l_addr x]} P cs L → x ∈ L → n ≤ ladder (l_idx x) →
  split_item s (l_idx x) (l_addr x) n = Some (s1, curr) →
  keeps s (set_heap s1 (item_set_in_use (heap s1) curr true)) P.
Proof.
  intros HI Hx Hn Hsplit.
  destruct (split_loop_inv (Z.to_nat (l_idx x)) _ _ _ _ _ n HI Hx Hn)
    as (s1' & L' & x' & Hloop & HI1 & Hx' & _); [lia|].
  unfold split_item in Hsplit. rewrite Hloop in Hsplit. cbn [mbind option_bind] in Hsplit.
  injection Hsplit as <- <-.
  pose proof (split_loop_keeps _ _ _ _ _ _ _ _ _ _ HI Hx Hn Hloop) as Hk.
  eapply keeps_trans; [exact HI|exact Hk|].
  intros a Ha. cbn [heap set_heap]. apply same_at_set_flag.
  intros Heq. subst a. eapply (guarded_not_unused _ _ _ _ _ _ x' HI1 Ha Hx').
  - right. by apply elem_of_singleton.
  - pose proof (inv_leaf_idx _ _ _ _ _ _ HI1 Hx'). pose proof (l_end_gt x' ltac:(lia)). lia.
Qed.

Lemma coalesce_step_footprint s i item buddy ib s' i' item' b' ib' :
  coalesce_step s i item buddy ib = Some (s', i', item', b', ib') →
  ∀ a, a ≠ item → a ≠ buddy → load (heap s') a = load (heap s) a.
Proof.
  unfold coalesce_step. intros (sa & Hda & H)%bind_Some a Hai Hab.
  apply bind_Some in H as (sb & Hdb & H). cbv zeta in H.
  apply bind_Some in H as (c & _ & H).
  apply bind_Some in H as ([b1 ib1] & _ & H).
  apply bind_Some in H as (s3 & Hins & [= <- _ _ _ _]).
  rewrite (insert_item_heap _ _ _ _ Hins). cbn [heap set_heap].
  rewrite (delete_item_heap _ _ _ _ Hdb), (delete_item_heap _ _ _ _ Hda).
  set (left := if negb (item_get_lr_bit (heap s) item) then item else buddy).
  assert (left ≠ a) as Hl.
  { clear Hins. subst left.
    destruct (negb (item_get_lr_bit (heap s) item)); intros Heq; subst a;
      [by apply Hai|by apply Hab]. }
  unfold item_set_in_use, item_set_lr_bit, item_set_inh_bit.
  rewrite same_at_set_flag, same_at_set_size, !same_at_set_flag by done. done.
Qed.

Lemma guarded_leaf_area s pend P cs L a :
  inv s pend P cs L → guarded s P a →
  ∃ q l, q ∈ P ∧ l ∈ L ∧ l_addr l = item_from_area q ∧ l_addr l ≤ a < l_end l.
Proof.
  intros HI (q & Hq & Ha).
  destruct (inv_prot_leaf _ _ _ _ _ q HI Hq) as (l & Hl & Hla & Hu & Hp).
  destruct (hdr_ok_bits _ _ _ _ _ _ HI Hl) as (Hsz & _).
  exists q, l. split; [done|]. split; [done|]. split; [done|].
  unfold l_end. rewrite <-Hsz, Hla. lia.
Qed.

Lemma coalesce_loop_keeps fuel s P cs L x buddy ibuddy s' i' item' :
  inv s ∅ P cs L → x ∈ L → l_used x = false →
  item_get_buddy s (l_addr x) (l_idx x) = Some (buddy, ibuddy) →
  coalesce_loop fuel s (l_idx x) (l_addr x) buddy ibuddy = Some (s', i', item') →
  keeps s s' P.
Proof.
  revert s L x buddy ibuddy.
  induction fuel as [|fuel IH]; intros s L x buddy ibuddy HI Hx Hxu Hb Hloop; [done|].
  destruct (buddy_analysis _ _ _ _ _ HI Hx Hxu) as (b0 & ib0 & go & Hb0 & Ht & Hgo).
  rewrite Hb in Hb0. injection Hb0 as <- <-.
  cbn [coalesce_loop] in Hloop. rewrite Ht in Hloop. cbn [mbind option_bind] in Hloop.
  destruct go; [|injection Hloop as <- _ _; by apply keeps_same_heap].
  destruct (coalesce_step_inv _ _ _ _ _ _ _ HI Hx Hxu Hb Ht)
    as (s1 & L1 & x1 & i1 & item1 & b1 & ib1 & Hstep & -> & -> & HI1 & Hx1 & Hxu1 & _
        & Hb1 & _).
  rewrite Hstep in Hloop. cbn [mbind option_bind] in Hloop.
  eapply keeps_trans; [exact HI| |by eapply IH].
  intros a Ha.
  pose proof (inv_leaf_idx _ _ _ _ _ _ HI Hx) as Hidx.
  apply (coalesce_step_footprint _ _ _ _ _ _ _ _ _ _ Hstep).
  - intros ->. eapply (guarded_not_unused _ _ _ _ _ _ x HI Ha Hx); [by left|].
    pose proof (l_end_gt x ltac:(lia)). lia.
  - intros ->. destruct (Hgo eq_refl) as (A & y & B & Hya & _ & Hyu & Hshape).
    assert (y ∈ L) as Hy by (destruct Hshape as [(_ & -> & _)|(_ & -> & _)]; mem).
    pose proof (inv_leaf_idx _ _ _ _ _ _ HI Hy) as Hyidx.
    eapply (guarded_not_unused _ _ _ _ _ _ y HI Ha Hy); [by left|].
    pose proof (l_end_gt y ltac:(lia)). lia.
Qed.

Lemma mem_free_keeps s P cs L area s' :
  inv s ∅ P cs L → freeable L P area → mem_free s area = Some s' → keeps s s' P.
Proof.
  intros HI Hfree Hmf.
  destruct (mem_free_insert_inv _ _ _ _ _ HI Hfree)
    as (s1 & L1 & x & Hins & Hxa & HI1 & Hx & Hxu & _ & c & Hc & Hhead).
  assert (keeps s s1 P) as Hk1.
  { assert (heap s1 = item_set_in_use (heap s) (item_from_area area) false) as Hh.
    { unfold mem_free_insert in Hins. cbv zeta in Hins.
      apply bind_Some in Hins as (i & _ & (s2 & Hi & [= <- _])%bind_Some).
      by rewrite (insert_item_heap _ _ _ _ Hi). }
    intros a Ha. rewrite Hh. apply same_at_set_flag. intros Heq. subst a.
    destruct Hfree as (HnP & x0 & Hx0 & Hx0a & _).
    destruct (guarded_leaf_area _ _ _ _ _ _ HI Ha) as (q & l & Hq & Hl & Hla & Hin).
    destruct (inv_asc _ _ _ _ _ HI) as [lo Hasc].
    pose proof (inv_leaf_idx _ _ _ _ _ _ HI Hx0) as Hidx0.
    pose proof (l_end_gt x0 ltac:(lia)).
    assert (l = x0) as ->.
    { apply (asc_inside lo L _ _ _ (item_from_area area) Hasc Hl Hx0); [done|lia]. }
    apply HnP. replace area with q; [done|]. unfold item_from_area in *. lia. }
  unfold mem_free in Hmf. rewrite Hins in Hmf. cbn [mbind option_bind] in Hmf.
  unfold coalesce, coalesce_end in Hmf. rewrite Hc in Hmf. cbn [mbind option_bind] in Hmf.
  rewrite Hhead in Hmf. cbn [mbind option_bind] in Hmf.
  destruct (buddy_analysis _ _ _ _ _ HI1 Hx Hxu) as (buddy & ibuddy & _ & Hb & _).
  rewrite Hb in Hmf. cbn [mbind option_bind] in Hmf.
  destruct (coalesce_loop _ _ _ _ _ _) as [[[s2 i2] item2]|] eqn:Hloop; [|done].
  injection Hmf as <-.
  eapply keeps_trans; [exact HI|exact Hk1|].
  by eapply coalesce_loop_keeps.
Qed.

Lemma tinv_inv_callers s U :
  tinv s U → ∃ cs L, inv s ∅ (U ∪ {[data (arr s)]}) cs L ∧ inv s ∅ U cs L.
Proof.
  intros (_ & cs & L & HI). exists cs, L. split; [done|].
  eapply inv_prot_mono; [|exact HI]. intros a Ha. by apply elem_of_union_l.
Qed.

Lemma steps_kept s s' U :
  capacity (arr s') = capacity (arr s) → data (arr s') = data (arr s) →
  keeps s s' (U ∪ {[data (arr s)]}) → steps s s' U.
Proof.
  intros Hc Hd Hk. split.
  - eapply keeps_mono; [|exact Hk]. intros q Hq. by apply elem_of_union_l.
  - by left.
Qed.

Lemma fitcap_kept s s' U :
  tinv s U → capacity (arr s') = capacity (arr s) → data (arr s') = data (arr s) →
  keeps s s' (U ∪ {[data (arr s)]}) → fitcap s → fitcap s'.
Proof.
  intros (_ & cs & L & HI) Hc Hd Hk Hfit. unfold fitcap in *. rewrite Hc, Hd.
  destruct (inv_held_block _ _ _ _ (data (arr s)) HI) as (l & Hl & _ & _ & Hsz & _);
    [mem_set_in|].
  pose proof (inv_leaf_size _ _ _ _ _ _ HI Hl) as Hpos.
  assert (load (heap s') (item_from_area (data (arr s)))
          = load (heap s) (item_from_area (data (arr s)))) as Hw.
  { apply Hk. exists (data (arr s)). split; [mem_set_in|]. rewrite Hsz.
    unfold BLOCK_SIZE. lia. }
  unfold item_get_size in *. by rewrite Hw.
Qed.

Lemma steps_trans s s1 s' U :
  tinv s U → tinv s1 U → steps s s1 U → steps s1 s' U → steps s s' U.
Proof.
  intros HT HT1 [Hk1 Hd1] [Hk2 Hd2].
  destruct (tinv_inv_callers _ _ HT) as (cs & L & HI & HIU).
  split; [by eapply keeps_trans|].
  destruct Hd1 as [(Hc1 & Hda1 & Hkd1)|[Hlt1 Hfit1]], Hd2 as [(Hc2 & Hda2 & Hkd2)|[Hlt2 Hfit2]].
  - left. split; [congruence|]. split; [congruence|].
    rewrite Hda1 in Hkd2. by eapply keeps_trans.
  - right. split; [lia|done].
  - right. split; [lia|]. by eapply fitcap_kept.
  - right. split; [lia|done].
Qed.

Lemma mem_free_tinv_keeps s U p s' :
  tinv s U → p ∈ U → mem_free s p = Some s' →
  keeps s s' (U ∖ {[p]} ∪ {[data (arr s)]}).
Proof.
  intros (Hd & cs & L & HI) Hp Hfree.
  destruct (inv_prot_leaf _ _ _ _ _ p HI) as (l & Hl & Hla & Hlu & _); [mem_set_in|].
  apply (inv_prot_mono _ _ _ (U ∖ {[p]} ∪ {[data (arr s)]})) in HI.
  2:{ intros a. repeat first [rewrite elem_of_union | rewrite elem_of_difference]. tauto. }
  eapply mem_free_keeps; [exact HI| |done].
  split; [|by exists l].
  repeat first [rewrite elem_of_union | rewrite elem_of_difference
               | rewrite elem_of_singleton].
  intros [[_ ?]| ->]; done.
Qed.

Lemma array_inc_size_steps alloc s U s' :
  alloc_ok alloc → alloc_mono alloc → alloc_steps alloc → tinv s U →
  array_inc_size alloc s = Some s' → array_size (arr s') ≤ MAX_CELLS →
  steps s s' U.
Proof.
  intros Hok Hmono Hst HT Hinc Hmax.
  pose proof (array_inc_size_len _ _ _ Hmono Hinc) as Hlen.
  pose proof (tinv_size _ _ HT) as Hsize. pose proof (tinv_cap _ _ HT) as Hcap.
  rewrite !alen_size in *. unfold ARRAY_INIT_SIZE, MAX_CELLS in *.
  unfold array_inc_size in Hinc. cbv zeta in Hinc. rewrite !alen_size in Hinc.
  replace (Z.of_nat (alen s) + 1 - 1 - 1) with (Z.of_nat (alen s) - 1) in Hinc by lia.
  replace (Z.of_nat (alen s) + 1 - 1 - 4) with (Z.of_nat (alen s) - 4) in Hinc by lia.
  destruct (cell_at_lookup (arr s) (Z.of_nat (alen s) - 1)) as [c1 Hc1];
    [rewrite alen_size; lia|].
  destruct (cell_at_lookup (arr s) (Z.of_nat (alen s) - 4)) as [c4 Hc4];
    [rewrite alen_size; lia|].
  rewrite Hc1, Hc4 in Hinc. cbn [mbind option_bind] in Hinc.
  rewrite (tinv_cell_at _ _ _ _ HT Hc1), (tinv_cell_at _ _ _ _ HT Hc4) in Hinc.
  rewrite <-ladder_rec in Hinc by lia.
  assert (ladder (Z.of_nat (alen s)) < 2 ^ 29) as Hsmall
    by (apply ladder_small; unfold MAX_CELLS; lia).
  pose proof (ladder_ge (Z.of_nat (alen s)) ltac:(lia)).
  rewrite uintptr_small in Hinc by lia.
  assert (∀ d cap, array_size (Array d (cells (arr s) ++ [Cell (ladder (Z.of_nat (alen s))) []])
                                 cap) = Z.of_nat (alen s) + 1) as Hsz1.
  { intros. unfold array_size, alen. simpl. rewrite length_app. simpl. lia. }
  unfold set_cells in Hinc. cbn [capacity data cells arr set_arr] in Hinc.
  rewrite Hsz1 in Hinc.
  destruct (Z.eqb_spec (Z.of_nat (alen s) + 1) (capacity (arr s))) as [Heq|Hne].
  - (* the array moves *)
    rewrite (uint_small (capacity (arr s) * 2)) in Hinc by lia.
    rewrite (uint_small (capacity (arr s) * 2 * SIZEOF_CELL)) in Hinc
      by (unfold SIZEOF_CELL; lia).
    apply bind_Some in Hinc as ([s3 new_data] & Halloc & Hfree).
    pose proof (mem_free_len _ _ _ Hfree) as Hlen4.
    match type of Halloc with alloc ?st _ = _ => set (s2 := st) in * end.
    pose proof HT as (Hd & cs & L & HI).
    assert (tinv s2 U) as HT2.
    { split; [done|]. exists cs, L.
      apply (inv_append_cell _ _ _ _ _ (data (arr s)) (capacity (arr s) * 2)) in HI;
        [|rewrite alen_size; unfold MAX_CELLS; lia|rewrite alen_size; lia].
      rewrite alen_size in HI. exact HI. }
    assert (array_size (arr s2) = Z.of_nat (alen s) + 1) as Hsz2 by apply Hsz1.
    assert (0 ≤ capacity (arr s) * 2 * SIZEOF_CELL) as Hx0 by (unfold SIZEOF_CELL; lia).
    assert (array_size (arr s3) ≤ MAX_CELLS) as Hmax3.
    { rewrite alen_size. unfold MAX_CELLS.
      assert (alen s' = alen s3) as <- by (by rewrite Hlen4). lia. }
    destruct (Hok _ _ _ _ _ HT2 Hx0 Halloc Hmax3) as (HT3 & HnU & Hbrk & Hn3 & HQ).
    destruct (Hst _ _ _ _ _ HT2 Hx0 Halloc Hmax3) as [Hk23 _].
    destruct HQ as (Hdata3 & Hcap3 & Hsize3).
    { rewrite Hsz2. unfold BLOCKS, HEADER_SIZE, POINTER_SIZE, BLOCK_SIZE, SIZEOF_CELL.
      rewrite <-Heq.
      replace ((Z.of_nat (alen s) + 1) * 2 * 16 + 8 + 8 - 1)
        with (7 + (4 * (Z.of_nat (alen s) + 1) + 1) * 8) by lia.
      rewrite Z.div_add by lia. change (7 / 8) with 0.
      pose proof (ladder_lin (Z.of_nat (alen s) + 1) ltac:(lia)). lia. }
    { rewrite Hsz2. simpl. lia. }
    simpl in Hdata3, Hcap3.
    pose proof HT3 as (Hd3 & cs3 & L3 & HI3). rewrite Hdata3 in Hd3, HI3.
    match type of Hfree with mem_free ?st _ = _ => set (s4 := st) in * end.
    assert (tinv s4 (U ∪ {[data (arr s)]})) as HT4.
    { split; [simpl; mem_set_in|]. exists cs3, L3. simpl.
      apply (inv_set_data _ _ _ _ _ new_data) in HI3.
      eapply inv_prot_mono; [|exact HI3].
      intros a. repeat first [rewrite elem_of_union | rewrite elem_of_singleton]. tauto. }
    change (data (arr s2)) with (data (arr s)) in Hfree.
    assert (data (arr s) ∈ U ∪ {[data (arr s)]}) as Hold by mem_set_in.
    pose proof (mem_free_tinv_keeps _ _ _ _ HT4 Hold Hfree) as Hk45.
    change (data (arr s4)) with new_data in Hk45.
    destruct (mem_free_tinv _ _ _ HT4 Hold) as (s5 & Hfree5 & _ & Hfr5).
    rewrite Hfree in Hfree5. injection Hfree5 as <-.
    destruct Hfr5 as (Hdata5 & Hcap5 & _).
    assert (keeps s3 s' (U ∪ {[new_data]})) as Hk35.
    { eapply keeps_mono; [|exact Hk45]. intros q.
      repeat first [rewrite elem_of_union | rewrite elem_of_difference
                   | rewrite elem_of_singleton].
      intros [Hq| ->]; [|by right]. left. split; [by left|]. by intros ->. }
    split.
    + (* the callers' blocks *)
      destruct (tinv_inv_callers _ _ HT) as (cs0 & L0 & _ & HIU).
      assert (keeps s s3 U) as Hk03 by exact Hk23.
      eapply keeps_trans; [exact HIU|exact Hk03|].
      eapply keeps_mono; [|exact Hk35]. intros q Hq. by apply elem_of_union_l.
    + right. simpl in Hcap5. split; [simpl in *; lia|].
      unfold fitcap. rewrite Hdata5, Hcap5. cbn [data capacity arr s4 set_arr].
      rewrite Hcap3. cbn [capacity arr s2 set_arr].
      destruct (inv_held_block _ _ _ _ new_data HI3) as (l & Hl & _ & _ & Hsz & _);
        [mem_set_in|].
      pose proof (inv_leaf_size _ _ _ _ _ _ HI3 Hl) as Hpos.
      assert (load (heap s') (item_from_area new_data)
              = load (heap s3) (item_from_area new_data)) as Hw.
      { apply Hk35. exists new_data. split; [mem_set_in|]. rewrite Hsz.
        unfold BLOCK_SIZE. lia. }
      unfold item_get_size in *. rewrite Hw.
      by apply blocks_area.
  - injection Hinc as <-. apply steps_kept; [done..|]. by apply keeps_same_heap.
Qed.

Lemma grow_loop_steps alloc fuel s U i n s' i' :
  alloc_ok alloc → alloc_mono alloc → alloc_steps alloc → tinv s U →
  -1 ≤ i < array_size (arr s) →
  grow_loop alloc fuel s i n = Some (s', i') → array_size (arr s') ≤ MAX_CELLS →
  steps s s' U.
Proof.
  intros Hok Hmono Hst. revert s i.
  induction fuel as [|fuel IH]; intros s i HT Hi Hgrow Hmax; [done|].
  simpl in Hgrow. apply bind_Some in Hgrow as (s1 & Hinc & Hgrow).
  apply bind_Some in Hgrow as (c & Hc & Hgrow).
  pose proof (array_inc_size_len _ _ _ Hmono Hinc) as Hlen1.
  assert (array_size (arr s1) ≤ MAX_CELLS) as Hmax1.
  { destruct (cell_size c <? n).
    - apply grow_loop_len in Hgrow; [|done]. rewrite !alen_size in *. lia.
    - by injection Hgrow as <- _. }
  destruct (array_inc_size_spec _ _ _ _ Hok Hmono HT Hinc Hmax1) as (HT1 & _).
  pose proof (array_inc_size_steps _ _ _ _ Hok Hmono Hst HT Hinc Hmax1) as Hs1.
  apply cell_at_Some in Hc as [Hi1 _].
  destruct (cell_size c <? n).
  - eapply steps_trans; [exact HT|exact HT1|exact Hs1|].
    apply (IH s1 (i + 1) HT1); [lia|done..].
  - by injection Hgrow as <- _.
Qed.

Lemma mem_alloc_body_steps alloc fuel s U x s' p :
  alloc_ok alloc → alloc_mono alloc → alloc_steps alloc → tinv s U → 0 ≤ x →
  mem_alloc_body alloc fuel s x = Some (s', p) → array_size (arr s') ≤ MAX_CELLS →
  steps s s' U.
Proof.
  intros Hok Hmono Hst HT Hx Halloc Hmax.
  unfold mem_alloc_body in Halloc. cbv zeta in Halloc.
  set (n := BLOCKS (x + HEADER_SIZE)) in *.
  apply bind_Some in Halloc as ([[s2 i2] item] & Hget & Hrest).
  apply bind_Some in Hrest as ([s3 curr] & Hsplit & [= <- <-]).
  pose proof (split_item_len _ _ _ _ _ _ Hsplit) as Hlen3.
  assert (array_size (arr s2) ≤ MAX_CELLS) as Hmax2.
  { rewrite !alen_size in *. unfold alen in Hmax. simpl in Hmax. fold (alen s3) in Hmax. lia. }
  destruct (mem_alloc_pick_spec _ _ _ _ _ _ _ _ Hok Hmono HT Hget Hmax2)
    as ((cs & L & x0 & HI2 & Hx0 & Ha0 & Hi0 & Hn0 & _) & Hgrown).
  rewrite <-Hi0 in Hn0. rewrite <-Ha0, <-Hi0 in Hsplit.
  pose proof (alloc_finish_keeps _ _ _ _ _ _ _ _ HI2 Hx0 Hn0 Hsplit) as Hk23.
  destruct (alloc_finish _ _ _ _ _ n HI2 Hx0 Hn0) as (s3' & L' & x' & Hsplit' & _ & _ & _ & Hfr & _).
  rewrite Hsplit in Hsplit'. injection Hsplit' as <- ->.
  destruct Hfr as (Hdata & Hcap & _).
  pose proof (tinv_size _ _ HT) as Hsize. unfold ARRAY_INIT_SIZE in Hsize.
  unfold mem_alloc_pick in Hget. cbv zeta in Hget. fold n in Hget.
  destruct (Z.eqb_spec (find_cell (cells (arr s)) n 0) (array_size (arr s))) as [Heq|Hne].
  - (* after the growth: a new chunk, then split_item *)
    destruct (Hgrown Heq) as (_ & _ & s1 & Hloop & Harr & Hnew & _).
    assert (-1 ≤ array_size (arr s) - 1 < array_size (arr s)) as Hir by lia.
    assert (array_size (arr s1) ≤ MAX_CELLS) as Hmax1 by (by rewrite <-Harr).
    destruct (grow_loop_spec _ _ _ _ _ _ _ _ Hok Hmono HT Hir Hloop Hmax1)
      as (HT1 & _ & Hi2 & _).
    pose proof (grow_loop_steps _ _ _ _ _ _ _ _ Hok Hmono Hst HT Hir Hloop Hmax1) as Hs01.
    eapply steps_trans; [exact HT|exact HT1|exact Hs01|].
    rewrite Harr in Hk23, Hdata, Hcap.
    apply steps_kept; [done..|].
    destruct HT1 as (_ & cs1 & L1 & HI1).
    eapply keeps_trans; [exact HI1| |exact Hk23].
    intros a Ha. pose proof (guarded_below_brk _ _ _ _ _ _ HI1 Ha) as Hlt.
    assert (0 ≤ ladder i2 < 2 ^ 29) as Hsmall.
    { pose proof (tinv_size s1 U). split; [pose proof (ladder_ge i2); lia|].
      apply ladder_small. unfold MAX_CELLS in *. lia. }
    pose proof (alloc_new_item_eq s1 (ladder i2) Hsmall) as He. cbv zeta in He.
    rewrite Hnew in He. injection He as -> _. cbn [heap].
    destruct (new_chunk_headers (heap s1) (brk s1) (mem_list s1) (ladder i2)) as (_ & _ & _ & Hsame);
      [pose proof (ladder_ge i2); lia|].
    by apply Hsame.
  - (* a block of the free lists, then split_item *)
    apply bind_Some in Hget as ([s1 item1] & Htake & [= Hs12 _ _]). subst s2.
    assert (heap s1 = heap s ∧ data (arr s1) = data (arr s) ∧
            capacity (arr s1) = capacity (arr s)) as (Hh & Hd1 & Hc1).
    { unfold take_item in Htake. apply bind_Some in Htake as (c & _ & Htake).
      destruct (cell_items c); [done|].
      apply bind_Some in Htake as (a1 & Hset & [= <- _]).
      unfold set_items in Hset. by apply bind_Some in Hset as (? & _ & [= <-]). }
    apply steps_kept; [congruence..|].
    rewrite Hd1 in Hk23.
    intros a Ha. rewrite <-Hh. apply Hk23.
    destruct Ha as (q & Hq & Ha). exists q. rewrite Hh. done.
Qed.

Lemma mem_alloc_steps fuel : alloc_steps (mem_alloc fuel).
Proof.
  induction fuel as [|fuel IH]; intros s U x s' p HT Hx Halloc Hmax; [done|].
  simpl in Halloc.
  by apply (mem_alloc_body_steps (mem_alloc fuel) (S fuel) s U x s' p
              (mem_alloc_ok fuel) (mem_alloc_len fuel) IH).
Qed.

Lemma fitcap_kept_data s s' U :
  tinv s U → capacity (arr s') = capacity (arr s) → data (arr s') = data (arr s) →
  keeps s s' {[data (arr s)]} → fitcap s → fitcap s'.
Proof.
  intros (_ & cs & L & HI) Hc Hd Hk Hfit. unfold fitcap in *. rewrite Hc, Hd.
  destruct (inv_held_block _ _ _ _ (data (arr s)) HI) as (l & Hl & _ & _ & Hsz & _);
    [mem_set_in|].
  pose proof (inv_leaf_size _ _ _ _ _ _ HI Hl) as Hpos.
  assert (load (heap s') (item_from_area (data (arr s)))
          = load (heap s) (item_from_area (data (arr s)))) as Hw.
  { apply Hk. exists (data (arr s)). split; [by apply elem_of_singleton|]. rewrite Hsz.
    unfold BLOCK_SIZE. lia. }
  unfold item_get_size in *. by rewrite Hw.
Qed.

Lemma mem_init_fitcap s0 s : mem_init s0 = Some s → fitcap s.
Proof.
  intros Hinit.
  destruct (mem_init_tinv s0) as (s' & Hinit' & _ & _ & Hcap & Hdata).
  rewrite Hinit in Hinit'. injection Hinit' as <-.
  unfold fitcap. rewrite Hcap, Hdata.
  unfold mem_init in Hinit. rewrite array_init_eq in Hinit. cbv zeta in Hinit.
  set (s00 := State (heap s0) (arr s0) NULL (brk s0)) in *.
  pose proof (alloc_new_item_eq s00 DATA_INIT_BLOCKS ltac:(by vm_compute)) as Heq.
  cbv zeta in Heq. rewrite Heq in Hinit. cbn [fst snd] in Hinit.
  injection Hinit as <-. cbn [mem_list brk heap arr data set_arr set_heap s00].
  destruct (new_chunk_headers (heap s0) (brk s0) NULL DATA_INIT_BLOCKS ltac:(by vm_compute))
    as (Hi & _).
  cbv zeta in Hi.
  apply (header_set_in_use _ _ _ _ _ _ true) in Hi as (Hsz & _); [|by vm_compute].
  replace (item_from_area (brk s0 + 2 * POINTER_SIZE)) with (brk s0 + POINTER_SIZE)
    by (unfold item_from_area, HEADER_SIZE, POINTER_SIZE; lia).
  rewrite Hsz. by vm_compute.
Qed.

Lemma run_fitcap fuel ops s U s' U' :
  tinv s U → fitcap s → run fuel ops s U = Some (s', U') → fitcap s'.
Proof.
  revert s U. induction ops as [|[x|area] ops IH]; intros s U HT Hfit Hrun; simpl in Hrun.
  - by injection Hrun as <- <-.
  - destruct (Z.leb_spec 0 x) as [Hx|]; [|done]. destruct (x <? 2 ^ 32); [|done].
    simpl in Hrun.
    apply bind_Some in Hrun as ([s1 p] & Halloc & Hrun).
    destruct (fits s1) eqn:Hfits; [|done].
    apply Z.leb_le in Hfits.
    destruct (mem_alloc_ok fuel _ _ _ _ _ HT Hx Halloc Hfits) as (HT1 & _).
    apply (IH _ _ HT1); [|done].
    destruct (mem_alloc_steps fuel s U x s1 p HT Hx Halloc Hfits)
      as [_ [(Hc & Hd & Hk)|(_ & Hf)]]; [|done].
    by apply (fitcap_kept s s1 U).
  - case_decide as Hin; [|done].
    apply bind_Some in Hrun as (s1 & Hfree & Hrun).
    destruct (mem_free_tinv _ _ _ HT Hin) as (s1' & Hfree' & HT1 & Hd & Hc & _).
    rewrite Hfree in Hfree'. injection Hfree' as <-.
    apply (IH _ _ HT1); [|done].
    apply (fitcap_kept_data s s1 U); [done..| |done].
    eapply keeps_mono; [|exact (mem_free_tinv_keeps _ _ _ _ HT Hin Hfree)].
    intros q Hq. by apply elem_of_union_r.
Qed.

(** X11: mem_alloc writes no header and no chunk link into a block that
    a caller holds: when it returns on a reachable state, with the array
    within MAX_CELLS cells, every word of the heap inside each block
    handed out before, its header included, is as it was, whether the
    request was served from the free lists, from a new chunk, or after
    the array was moved.  (The links of the free lists are the lists of
    the cells here; the items on them are never held.) *)
Theorem mem_alloc_frame s U fuel x s' p q a :
  reachable s U → 0 ≤ x < 2 ^ 32 → mem_alloc fuel s x = Some (s', p) → fits s' = true →
  q ∈ U →
  item_from_area q ≤ a
    < item_from_area q + item_get_size (heap s) (item_from_area q) * BLOCK_SIZE →
  load (heap s') a = load (heap s) a.
Proof.
  intros Hreach Hx Halloc Hfits Hq Ha.
  pose proof (reachable_tinv _ _ Hreach) as HT.
  assert (0 ≤ x) as Hx0 by lia.
  apply Z.leb_le in Hfits.
  destruct (mem_alloc_steps fuel s U x s' p HT Hx0 Halloc Hfits) as [Hk _].
  apply Hk. by exists q.
Qed.

Lemma mem_alloc_frame_witness :
  let r := default (boot, 0) (mem_alloc 2 s_ab.1 300) in
  load (heap r.1) 4768 = load (heap s_ab.1) 4768.
Proof.
  intros r. apply (mem_alloc_frame s_ab.1 s_ab.2 2 300 r.1 r.2 4776 4768).
  - apply reachable_ab.
  - lia.
  - by vm_compute.
  - by vm_compute.
  - by vm_compute.
  - by vm_compute.
Defined.

(** X12: on a state reached by mem_init, mem_alloc and mem_free with
    the array at most [MAX_CELLS] cells long, mem_free of an area that
    is handed out writes no header into the blocks of the other areas
    handed out: every word of the heap inside them, their header
    included, is as it was; the merges of coalesce stay within blocks
    that are not in use. *)
Theorem mem_free_frame s U p s' q a :
  reachable s U → p ∈ U → mem_free s p = Some s' →
  q ∈ U → q ≠ p →
  item_from_area q ≤ a
    < item_from_area q + item_get_size (heap s) (item_from_area q) * BLOCK_SIZE →
  load (heap s') a = load (heap s) a.
Proof.
  intros Hreach Hp Hfree Hq Hne Ha.
  pose proof (reachable_tinv _ _ Hreach) as HT.
  apply (mem_free_tinv_keeps _ _ _ _ HT Hp Hfree).
  exists q. split; [|done].
  apply elem_of_union_l, elem_of_difference. split; [done|].
  by intros ->%elem_of_singleton.
Qed.

Lemma mem_free_frame_witness :
  load (heap (default boot (mem_free s_ab.1 4776))) 4672 = load (heap s_ab.1) 4672.
Proof.
  apply (mem_free_frame s_ab.1 s_ab.2 4776 (default boot (mem_free s_ab.1 4776)) 4680 4672).
  - apply reachable_ab.
  - by vm_compute.
  - by vm_compute.
  - by vm_compute.
  - lia.
  - by vm_compute.
Defined.

(** X13: on every state reached by mem_init, mem_alloc and mem_free
    with the array at most [MAX_CELLS] cells long, the array of cells
    lies within the block that holds it: the cells in use are fewer than
    the capacity, and the capacity times the size of a cell is at most
    the bytes of that block behind its header, also after
    array_inc_size has moved the array to a block that mem_alloc
    returned. *)
Theorem array_within_block s U :
  reachable s U →
  array_size (arr s) < capacity (arr s) ∧
  capacity (arr s) * SIZEOF_CELL
  ≤ item_get_size (heap s) (item_from_area (data (arr s))) * BLOCK_SIZE - HEADER_SIZE.
Proof.
  intros Hreach. split; [by apply (tinv_cap s U), reachable_tinv|].
  destruct Hreach as (s0 & s1 & fuel & ops & Hinit & Hrun).
  destruct (mem_init_tinv s0) as (s1' & Hinit' & HT & _).
  rewrite Hinit in Hinit'. injection Hinit' as <-.
  apply (run_fitcap fuel ops s1 ∅ s U HT); [|done].
  by apply (mem_init_fitcap s0).
Qed.

Lemma array_within_block_witness :
  array_size (arr s_ab.1) < capacity (arr s_ab.1) ∧
  capacity (arr s_ab.1) * SIZEOF_CELL
  ≤ item_get_size (heap s_ab.1) (item_from_area (data (arr s_ab.1))) * BLOCK_SIZE
    - HEADER_SIZE.
Proof. apply (array_within_block s_ab.1 s_ab.2). apply reachable_ab. Defined.

(** *** The free lists as linked items *)

Lemma dll_frame h h' l : ∀ p hd,
  (∀ x, x ∈ l → same_links h h' x) → dll h p hd l → dll h' p hd l.
Proof.
  induction l as [|x l IH]; intros p hd Hs; simpl; [done|].
  intros (-> & Hx & Hp & Hd).
  destruct (Hs x ltac:(by left)) as [H1 H2].
  unfold Links.item_get_prev, Links.item_get_next in *.
  rewrite H1, H2. split_and!; [done..|].
  apply IH; [|done]. intros y Hy. apply Hs. by right.
Qed.

Lemma dll_nonnull h l : ∀ p hd x, dll h p hd l → x ∈ l → x ≠ NULL.
Proof.
  induction l as [|y l IH]; intros p hd x Hd Hx; [by apply elem_of_nil in Hx|].
  destruct Hd as (_ & Hy & _ & Hd).
  apply elem_of_cons in Hx as [->|Hx]; [done|]. by eapply IH.
Qed.

Lemma all_items_split cs n c :
  cs !! n = Some c →
  all_items cs = all_items (take n cs) ++ cell_items c ++ all_items (drop (S n) cs) ∧
  ∀ c', all_items (<[n := c']> cs)
        = all_items (take n cs) ++ cell_items c' ++ all_items (drop (S n) cs).
Proof.
  intros Hc. pose proof (lookup_lt_Some _ _ _ Hc) as Hlt. split.
  - rewrite <-(take_drop_middle cs n c Hc) at 1.
    unfold all_items. by rewrite bind_app, bind_cons.
  - intros c'. rewrite insert_take_drop by done.
    unfold all_items. by rewrite bind_app, bind_cons.
Qed.

Lemma all_items_elem cs n c x :
  cs !! n = Some c → x ∈ cell_items c → x ∈ all_items cs.
Proof.
  intros Hc Hx. unfold all_items. apply list_elem_of_bind. exists c.
  split; [done|]. by eapply list_elem_of_lookup_2.
Qed.

Lemma all_items_other cs i c j cj x :
  NoDup (all_items cs) → cs !! i = Some c → cs !! j = Some cj → i ≠ j →
  x ∈ cell_items cj → x ∉ cell_items c.
Proof.
  intros Hnd Hc Hcj Hne Hx Hxc.
  destruct (all_items_split cs i c Hc) as [Heq _]. rewrite Heq in Hnd.
  apply NoDup_app in Hnd as (_ & HA & Hnd). apply NoDup_app in Hnd as (_ & HB & _).
  pose proof (lookup_lt_Some _ _ _ Hc) as Hlt.
  destruct (decide (j < i)%nat) as [Hji|Hji].
  - apply (HA x); [|apply elem_of_app; by left].
    apply (all_items_elem _ j cj); [|done]. by rewrite lookup_take_lt.
  - apply (HB x Hxc).
    apply (all_items_elem _ (j - S i) cj); [|done].
    rewrite lookup_drop. rewrite <-Hcj. f_equal. lia.
Qed.

Lemma apart_sublist l l' : l' `sublist_of` l → apart l → apart l'.
Proof.
  intros Hsub [Hnd Hfar]. split; [by eapply sublist_NoDup|].
  intros x y Hx Hy. apply Hfar; by eapply elem_of_sublist.
Qed.

Lemma apart_insert A l B item :
  (∀ y, y ∈ A ++ l ++ B → far item y) → apart (A ++ l ++ B) →
  apart (A ++ (item :: l) ++ B).
Proof.
  intros Hitem [Hnd Hfar].
  assert (∀ y, y ∈ A ++ l ++ B → item ≠ y) as Hne.
  { intros y Hy ->. destruct (Hitem y Hy); unfold POINTER_SIZE in *; lia. }
  assert (∀ y, y ∈ A ++ (item :: l) ++ B ↔ y = item ∨ y ∈ A ++ l ++ B) as Hin.
  { intros y. rewrite !elem_of_app, elem_of_cons. tauto. }
  split.
  - apply NoDup_app in Hnd as (HA & HAl & Hnd).
    apply NoDup_app. split; [done|]. split.
    + intros x Hx Hx'. change ((item :: l) ++ B) with (item :: (l ++ B)) in Hx'.
      apply elem_of_cons in Hx' as [->|Hx']; [|by apply (HAl x)].
      apply (Hne item); [|done]. apply elem_of_app. by left.
    + simpl. apply NoDup_cons. split; [|done].
      intros Hi. apply (Hne item); [|done]. apply elem_of_app. by right.
  - intros x y [->|Hx]%Hin [->|Hy]%Hin Hxy; [done|by apply Hitem| |by apply Hfar].
    destruct (Hitem x Hx); [right|left]; done.
Qed.


Lemma items_at_Some s m i c :
  links_ok s m → cell_at (arr s) i = Some c →
  ∃ hd, Links.items_at m i = Some hd ∧ Links.heads m !! Z.to_nat i = Some hd ∧
        dll (Links.mem m) NULL hd (cell_items c).
Proof.
  intros [HF _] [Hi Hc]%cell_at_Some.
  destruct (Forall2_lookup_l _ _ _ _ _ HF Hc) as (hd & Hhd & Hd).
  exists hd. split; [|done].
  unfold Links.items_at. rewrite <-(Forall2_length _ _ _ HF). fold (array_size (arr s)).
  destruct (Z.leb_spec 0 i); [|lia]. destruct (Z.ltb_spec i (array_size (arr s))); [|lia].
  done.
Qed.

Lemma links_ok_update s m i c l' h' hd' :
  links_ok s m → cell_at (arr s) i = Some c →
  dll h' NULL hd' l' →
  (∀ x, x ∈ all_items (cells (arr s)) → x ∉ cell_items c →
        same_links (Links.mem m) h' x) →
  apart (all_items (cells (arr (with_items s i c l')))) →
  links_ok (with_items s i c l')
           (Links.LState h' (<[Z.to_nat i := hd']> (Links.heads m))).
Proof.
  intros [HF [Hnd _]] [Hi Hc]%cell_at_Some Hd Hsame Hap'. split; [|done].
  simpl. apply Forall2_same_length_lookup in HF as [Hlen HF].
  apply Forall2_same_length_lookup. split; [by rewrite !length_insert|].
  pose proof (lookup_lt_Some _ _ _ Hc) as Hlt.
  intros j cj hj Hcj Hhj.
  destruct (decide (Z.to_nat i = j)) as [<-|Hne].
  - rewrite list_lookup_insert_eq in Hcj by done.
    rewrite list_lookup_insert_eq in Hhj by lia.
    injection Hcj as <-. by injection Hhj as <-.
  - rewrite list_lookup_insert_ne in Hcj by done.
    rewrite list_lookup_insert_ne in Hhj by done.
    apply (dll_frame (Links.mem m)); [|by eapply HF].
    intros x Hx. apply Hsame; [by eapply all_items_elem|].
    by eapply (all_items_other _ _ _ j cj).
Qed.

Lemma with_items_all s i c l' :
  cell_at (arr s) i = Some c →
  ∃ A B, all_items (cells (arr s)) = A ++ cell_items c ++ B ∧
         all_items (cells (arr (with_items s i c l'))) = A ++ l' ++ B.
Proof.
  intros [Hi Hc]%cell_at_Some.
  destruct (all_items_split _ _ _ Hc) as [H1 H2].
  eexists _, _. split; [exact H1|]. apply (H2 (Cell (cell_size c) l')).
Qed.

(** X14: insert_item as mem.c writes it, on the links in memory, does
    what the list model says: when the links spell the lists of the
    cells and the new item is not NULL and clear of every listed item,
    the three stores of insert_item leave links that spell the lists
    with the item put first on the list of cell [i]; they write words 1
    and 2 of the item and of listed items only, so no header and no
    other memory changes. *)
Theorem insert_item_links s m i item s1 :
  links_ok s m → insert_item s i item = Some s1 → item ≠ NULL →
  (∀ y, y ∈ all_items (cells (arr s)) → far item y) →
  ∃ m1, Links.insert_item m i item = Some m1 ∧ links_ok s1 m1 ∧
    ∀ a, ¬ link_word (item :: all_items (cells (arr s))) a →
      load (Links.mem m1) a = load (Links.mem m) a.
Proof.
  intros Hok Hins Hnn Hfar.
  destruct (cell_at (arr s) i) as [c|] eqn:Hc; [|by unfold insert_item in Hins; rewrite Hc in Hins].
  rewrite (insert_item_eq _ _ c) in Hins by done. injection Hins as <-.
  destruct (items_at_Some _ _ _ _ Hok Hc) as (hd & Hat & Hhd & Hd).
  pose proof Hok as [_ Hap].
  destruct (with_items_all s i c (item :: cell_items c) Hc) as (A & B & HA & HA').
  assert (∀ y, y ∈ cell_items c → y ∈ all_items (cells (arr s))) as Hsub.
  { intros y Hy. rewrite HA, !elem_of_app. tauto. }
  unfold Links.insert_item. rewrite Hat. cbn [mbind option_bind].
  destruct (Z.eqb_spec item NULL) as [|_]; [done|].
  eexists. split; [done|]. cbn [Links.mem].
  assert (hd = NULL ∧ cell_items c = [] ∨
          ∃ l, cell_items c = hd :: l ∧ hd ≠ NULL ∧ far item hd ∧
               dll (Links.mem m) hd (Links.item_get_next (Links.mem m) hd) l)
    as Hcase.
  { destruct (cell_items c) as [|x l] eqn:Hl; simpl in Hd; [by left|right].
    destruct Hd as (-> & Hx & _ & Hd). exists l. split_and!; [done..| |done].
    apply Hfar, Hsub. by left. }
  split; [apply links_ok_update; [done..| | |]|].
  - (* the list of cell i *)
    simpl. split_and!; [done|done|links; by rewrite load_store_eq|].
    destruct Hcase as [[-> Hl]|(l & Hl & Hx & Hfx & Hdl)].
    + rewrite Hl. simpl. links. simpl. rewrite load_store_ne by lia.
      by rewrite load_store_eq.
    + rewrite Hl. destruct (Z.eqb_spec hd NULL) as [|_]; [done|].
      assert (Links.item_get_next
                (Links.item_set_prev
                   (Links.item_set_prev (Links.item_set_next (Links.mem m) item hd) hd item)
                   item NULL) item = hd) as ->.
      { links. rewrite !load_store_ne by lia. by rewrite load_store_eq. }
      simpl. split_and!; [done|done| |].
      * links. rewrite load_store_ne by lia. by rewrite load_store_eq.
      * destruct Hap as [Hnd Hap]. rewrite HA, Hl in Hnd, Hap.
        assert (Links.item_get_next
                (Links.item_set_prev
                   (Links.item_set_prev (Links.item_set_next (Links.mem m) item hd) hd item)
                   item NULL) hd = Links.item_get_next (Links.mem m) hd) as ->.
        { links. by rewrite !load_store_ne by lia. }
        apply (dll_frame (Links.mem m)); [|done].
        intros y Hy.
        assert (y ∈ all_items (cells (arr s))) as Hya by (apply Hsub; rewrite Hl; by right).
        assert (y ≠ hd) as Hyh.
        { intros ->. apply NoDup_app in Hnd as (_ & _ & Hnd).
          apply NoDup_app in Hnd as (Hnd & _). apply NoDup_cons in Hnd as [Hnd _]. done. }
        assert (far y hd) as Hf1.
        { apply Hap; [by rewrite <-Hl, <-HA|rewrite !elem_of_app, elem_of_cons; tauto|done]. }
        pose proof (Hfar y Hya) as Hf2.
        links. by rewrite !load_store_ne by lia.
  - (* the other lists *)
    intros y Hy Hny. pose proof (Hfar y Hy) as Hf2.
    destruct Hcase as [[-> Hl]|(l & Hl & Hx & Hfx & Hdl)].
    + simpl. links. simpl. by rewrite !load_store_ne by lia.
    + destruct (Z.eqb_spec hd NULL) as [|_]; [done|].
      assert (far y hd) as Hf1.
      { destruct Hap as [_ Hap]. apply Hap; [done|apply Hsub; rewrite Hl; by left|].
        intros ->. apply Hny. rewrite Hl. by left. }
      links. by rewrite !load_store_ne by lia.
  - rewrite HA'. apply apart_insert; [|by rewrite <-HA].
    intros y Hy. apply Hfar. by rewrite HA.
  - (* only link words are written *)
    intros a Ha.
    assert (a ≠ item + POINTER_SIZE ∧ a ≠ item + 2 * POINTER_SIZE) as [Ha1 Ha2].
    { split; intros ->; apply Ha; exists item; (split; [by left|tauto]). }
    destruct Hcase as [[-> Hl]|(l & Hl & Hx & Hfx & Hdl)].
    + simpl. links. simpl. by rewrite !load_store_ne by lia.
    + destruct (Z.eqb_spec hd NULL) as [|_]; [done|].
      assert (a ≠ hd + POINTER_SIZE) as Ha3.
      { intros ->. apply Ha. exists hd. split; [|tauto]. right. apply Hsub. rewrite Hl. by left. }
      links. by rewrite !load_store_ne by lia.
Qed.

Lemma dll_relink h p q hd l :
  dll h p hd l → apart l → dll (relink h hd q) q hd l.
Proof.
  intros Hd [Hnd Hfar]. unfold relink.
  destruct l as [|x l]; simpl in *; [by rewrite Hd|].
  destruct Hd as (-> & Hx & _ & Hd).
  destruct (Z.eqb_spec x NULL) as [|_]; [done|].
  split_and!; [done|done|links; by rewrite load_store_eq|].
  assert (Links.item_get_next (Links.item_set_prev h x q) x = Links.item_get_next h x) as ->.
  { links. by rewrite load_store_ne by lia. }
  apply (dll_frame h); [|done].
  intros y Hy. apply NoDup_cons in Hnd as [Hnx _].
  assert (far y x) as Hf.
  { apply Hfar; [by right|by left|]. by intros ->. }
  links. by rewrite !load_store_ne by lia.
Qed.

Lemma relink_frame h hd q l a :
  ¬ link_word l a → (hd ≠ NULL → hd ∈ l) → load (relink h hd q) a = load h a.
Proof.
  intros Ha Hhd. unfold relink. destruct (Z.eqb_spec hd NULL) as [|Hne]; [done|].
  links. rewrite load_store_ne; [done|]. intros <-. apply Ha. exists hd.
  split; [by apply Hhd|by left].
Qed.

Lemma dll_head h p hd l : dll h p hd l → hd ≠ NULL → ∃ l', l = hd :: l'.
Proof. destruct l as [|x l]; simpl; [done|]. intros (-> & _) _. by eexists. Qed.

Lemma take_item_None s m i :
  links_ok s m → take_item s i = None → Links.take_item m i = None.
Proof.
  intros Hok Htake. unfold take_item in Htake.
  destruct (cell_at (arr s) i) as [c|] eqn:Hc.
  - destruct (items_at_Some _ _ _ _ Hok Hc) as (hd & Hat & _ & Hd).
    simpl in Htake. destruct (cell_items c) as [|x l] eqn:Hl.
    + simpl in Hd. subst hd. unfold Links.take_item. by rewrite Hat.
    + simpl in Htake. exfalso. unfold set_items in Htake. by rewrite Hc in Htake.
  - unfold Links.take_item, Links.items_at. destruct Hok as [HF _].
    rewrite <-(Forall2_length _ _ _ HF). fold (array_size (arr s)).
    unfold cell_at in Hc.
    destruct ((0 <=? i) && (i <? array_size (arr s))) eqn:Hb; [|done].
    apply andb_true_iff in Hb as [?%Z.leb_le ?%Z.ltb_lt].
    apply lookup_ge_None in Hc. unfold array_size in *. lia.
Qed.

(** X15: take_item on the links in memory does what the list model
    says: it returns the first item of the list of cell [i], makes the
    next item the first one with a previous link of NULL, and leaves
    links that spell the remaining lists; only word 1 of a listed item
    is written.  Where the model has no result (an empty list, reading
    the next link of NULL, or an index outside the array) the code on
    links has none either. *)
Theorem take_item_links s m i :
  links_ok s m →
  (∀ s1 item, take_item s i = Some (s1, item) →
     ∃ m1, Links.take_item m i = Some (m1, item) ∧ links_ok s1 m1 ∧
       ∀ a, ¬ link_word (all_items (cells (arr s))) a →
         load (Links.mem m1) a = load (Links.mem m) a) ∧
  (take_item s i = None → Links.take_item m i = None).
Proof.
  intros Hok. split; [|by apply take_item_None].
  intros s1 item Htake.
  destruct (cell_at (arr s) i) as [c|] eqn:Hc; [|by unfold take_item in Htake; rewrite Hc in Htake].
  destruct (cell_items c) as [|x l] eqn:Hl;
    [by unfold take_item in Htake; rewrite Hc in Htake; simpl in Htake; rewrite Hl in Htake|].
  rewrite (take_item_eq _ _ c x l) in Htake by done. injection Htake as <- <-.
  rewrite Hl. cbn [remove_first]. rewrite Z.eqb_refl.
  destruct (items_at_Some _ _ _ _ Hok Hc) as (hd & Hat & Hhd & Hd).
  rewrite Hl in Hd. destruct Hd as (-> & Hx & _ & Hd).
  pose proof Hok as [_ Hap].
  destruct (with_items_all s i c l Hc) as (A & B & HA & HA').
  rewrite Hl in HA.
  assert (apart (x :: l)) as Hapl.
  { eapply apart_sublist; [|exact Hap]. rewrite HA.
    apply sublist_inserts_l, sublist_inserts_r. done. }
  assert (apart l) as Hapl' by (eapply apart_sublist; [|exact Hapl]; by apply sublist_cons).
  unfold Links.take_item. rewrite Hat. cbn [mbind option_bind].
  destruct (Z.eqb_spec x NULL) as [|_]; [done|].
  eexists. split; [done|]. cbn [Links.mem].
  set (nx := Links.item_get_next (Links.mem m) x) in *.
  change (if nx =? NULL then Links.mem m else Links.item_set_prev (Links.mem m) nx NULL)
    with (relink (Links.mem m) nx NULL).
  assert (nx ≠ NULL → nx ∈ l) as Hnx.
  { intros Hne. destruct (dll_head _ _ _ _ Hd Hne) as (l' & ->). by left. }
  split; [apply links_ok_update; [done..| | |]|].
  - by eapply dll_relink.
  - intros y Hy Hny. rewrite Hl in Hny. unfold relink.
    destruct (Z.eqb_spec nx NULL) as [|Hne]; [done|].
    assert (far y nx) as Hf.
    { destruct Hap as [_ Hap]. apply Hap; [done| |].
      - rewrite HA, !elem_of_app, elem_of_cons. pose proof (Hnx Hne). tauto.
      - intros ->. apply Hny. right. by apply Hnx. }
    links. by rewrite !load_store_ne by lia.
  - rewrite HA'. eapply apart_sublist; [|exact Hap]. rewrite HA.
    apply sublist_app; [done|]. apply sublist_app; [|done]. by apply sublist_cons.
  - intros a Ha. apply (relink_frame _ _ _ (all_items (cells (arr s)))); [done|].
    intros Hne. rewrite HA, !elem_of_app, elem_of_cons. pose proof (Hnx Hne). tauto.
Qed.

Lemma find_item_found h item l1 : ∀ p hd l2 fuel,
  dll h p hd (l1 ++ item :: l2) → item ∉ l1 → (length l1 < fuel)%nat →
  Links.find_item fuel h hd item = Some item.
Proof.
  induction l1 as [|a l1 IH]; intros p hd l2 [|fuel] Hd Hni Hfuel; simpl in *; try lia.
  - destruct Hd as (-> & Hx & _). rewrite Z.eqb_refl.
    by destruct (Z.eqb_spec item NULL).
  - destruct Hd as (-> & Hx & _ & Hd). apply not_elem_of_cons in Hni as [Hne Hni].
    destruct (Z.eqb_spec a NULL) as [|_]; [done|].
    destruct (Z.eqb_spec a item) as [|_]; [congruence|]. simpl.
    apply (IH a _ l2); [done..|lia].
Qed.

Lemma find_item_absent h item l : ∀ p hd fuel,
  dll h p hd l → item ∉ l → (length l < fuel)%nat →
  Links.find_item fuel h hd item = Some NULL.
Proof.
  induction l as [|a l IH]; intros p hd [|fuel] Hd Hni Hfuel; simpl in *; try lia.
  - by rewrite Hd.
  - destruct Hd as (-> & Hx & _ & Hd). apply not_elem_of_cons in Hni as [Hne Hni].
    destruct (Z.eqb_spec a NULL) as [|_]; [done|].
    destruct (Z.eqb_spec a item) as [|_]; [congruence|]. simpl.
    apply (IH a); [done..|lia].
Qed.

(** Taking [x] out from behind the items [a :: l1]. *)
Lemma dll_unlink h x l2 l1 : ∀ p a,
  dll h p a (a :: l1 ++ x :: l2) → apart (a :: l1 ++ x :: l2) →
  let q := Links.item_get_prev h x in
  let nx := Links.item_get_next h x in
  q ∈ a :: l1 ∧ (nx ≠ NULL → nx ∈ l2) ∧
  dll (relink (Links.item_set_next h q nx) nx q) p a (a :: l1 ++ l2).
Proof.
  induction l1 as [|b l1 IH]; intros p a Hd Hap q nx.
  - destruct Hd as (_ & Ha & Hp & Hd). simpl in Hd.
    destruct Hd as (Hnext & Hx & Hq & Hd). fold nx in Hd. subst q. rewrite Hq.
    assert (nx ≠ NULL → nx ∈ l2) as Hnx.
    { intros Hne. destruct (dll_head _ _ _ _ Hd Hne) as (l' & ->). by left. }
    split; [by left|]. split; [done|].
    destruct Hap as [Hnd Hfar]. simpl in Hnd, Hfar.
    apply NoDup_cons in Hnd as [Hna Hnd]. apply NoDup_cons in Hnd as [Hnx2 Hnd].
    assert (∀ y, y ∈ l2 → far y a ∧ far y x) as Hf.
    { intros y Hy. split; apply Hfar.
      - by do 2 right.
      - by left.
      - intros ->. apply Hna. by right.
      - by do 2 right.
      - right. by left.
      - by intros ->. }
    assert (dll (Links.item_set_next h a nx) x nx l2) as Hd1.
    { apply (dll_frame h); [|done]. intros y Hy. destruct (Hf y Hy).
      links. by rewrite !load_store_ne by lia. }
    assert (apart l2) as Hap2.
    { split; [done|]. intros y z Hy Hz. apply Hfar; by do 2 right. }
    pose proof (dll_relink _ _ a _ _ Hd1 Hap2) as Hd2.
    simpl. split_and!; [done|done| |].
    + unfold relink. destruct (Z.eqb_spec nx NULL) as [|Hne].
      * links. by rewrite load_store_ne by lia.
      * destruct (Hf nx (Hnx Hne)). links. by rewrite !load_store_ne by lia.
    + assert (Links.item_get_next (relink (Links.item_set_next h a nx) nx a) a = nx) as ->; [|done].
      unfold relink. destruct (Z.eqb_spec nx NULL) as [|Hne].
      * links. by rewrite load_store_eq.
      * destruct (Hf nx (Hnx Hne)). links. rewrite load_store_ne by lia.
        by rewrite load_store_eq.
  - destruct Hd as (_ & Ha & Hp & Hd).
    change ((b :: l1) ++ x :: l2) with (b :: l1 ++ x :: l2) in *.
    assert (Links.item_get_next h a = b) as Hnb by (by destruct Hd as (-> & _)).
    rewrite Hnb in Hd.
    assert (apart (b :: l1 ++ x :: l2)) as Hap1.
    { eapply apart_sublist; [|exact Hap]. by apply sublist_cons. }
    destruct (IH a b Hd Hap1) as (Hq & Hnx & Hd2). fold q nx in Hq, Hnx, Hd2.
    split; [by right|]. split; [done|].
    destruct Hap as [Hnd Hfar]. apply NoDup_cons in Hnd as [Hna Hnd].
    assert (far a q) as Hfq.
    { apply Hfar; [by left|right|].
      - change (q ∈ (b :: l1) ++ x :: l2). apply elem_of_app. by left.
      - intros Heq. apply Hna. rewrite Heq.
        change (q ∈ (b :: l1) ++ x :: l2). apply elem_of_app. by left. }
    assert (nx ≠ NULL → far a nx) as Hfn.
    { intros Hne. pose proof (Hnx Hne) as Hin.
      assert (nx ∈ b :: l1 ++ x :: l2) as Hin'.
      { change (nx ∈ (b :: l1) ++ x :: l2). apply elem_of_app. right. by right. }
      apply Hfar; [by left|by right|]. by intros Heq; apply Hna; rewrite Heq. }
    change ((b :: l1) ++ l2) with (b :: l1 ++ l2).
    split_and!; [done|done| |].
    + rewrite <-Hp. unfold relink. destruct (Z.eqb_spec nx NULL) as [|Hne].
      * links. by rewrite load_store_ne by lia.
      * pose proof (Hfn Hne). links. by rewrite !load_store_ne by lia.
    + assert (Links.item_get_next (relink (Links.item_set_next h q nx) nx q) a = b) as ->;
        [|done].
      rewrite <-Hnb. unfold relink. destruct (Z.eqb_spec nx NULL) as [|Hne].
      * links. by rewrite load_store_ne by lia.
      * pose proof (Hfn Hne). links. by rewrite !load_store_ne by lia.
Qed.

(** X16: delete_item on the links in memory does what the list model
    says: its search loop ends within one pass per item of the list; an
    item that is on the list is unlinked from its neighbours (the cell
    gets the next item when it was the first one), an item that is not
    on the list changes nothing; the links left spell the lists without
    the item, and only words 1 and 2 of listed items are written. *)
Theorem delete_item_links s m i c item s1 fuel :
  links_ok s m → cell_at (arr s) i = Some c → delete_item s i item = Some s1 →
  (length (cell_items c) < fuel)%nat →
  ∃ m1, Links.delete_item fuel m i item = Some m1 ∧ links_ok s1 m1 ∧
    ∀ a, ¬ link_word (all_items (cells (arr s))) a →
      load (Links.mem m1) a = load (Links.mem m) a.
Proof.
  intros Hok Hc Hdel Hfuel.
  rewrite (delete_item_eq _ _ c) in Hdel by done. injection Hdel as <-.
  destruct (items_at_Some _ _ _ _ Hok Hc) as (hd & Hat & Hhd & Hd).
  pose proof Hok as [_ Hap].
  unfold Links.delete_item. rewrite Hat. cbn [mbind option_bind].
  destruct (decide (item ∈ cell_items c)) as [Hin|Hni].
  2: { rewrite (find_item_absent _ _ _ _ _ _ Hd Hni Hfuel). cbn.
       rewrite remove_first_absent by done. rewrite with_items_id by done.
       by exists m. }
  pose proof (dll_nonnull _ _ _ _ _ Hd Hin) as Hnn.
  apply list_elem_of_split_l in Hin as (l1 & l2 & Hl & Hni).
  rewrite Hl in Hd, Hfuel. rewrite Hl, remove_first_app by done.
  rewrite length_app in Hfuel.
  rewrite (find_item_found _ _ _ _ _ _ _ Hd Hni) by lia. cbn [mbind option_bind].
  destruct (Z.eqb_spec item NULL) as [|_]; [done|].
  destruct (with_items_all s i c (l1 ++ l2) Hc) as (A & B & HA & HA').
  rewrite Hl in HA.
  assert (apart (l1 ++ item :: l2)) as Hapl.
  { eapply apart_sublist; [|exact Hap]. rewrite HA.
    apply sublist_inserts_l, sublist_inserts_r. done. }
  assert (apart (all_items (cells (arr (with_items s i c (l1 ++ l2)))))) as Hap'.
  { rewrite HA'. eapply apart_sublist; [|exact Hap]. rewrite HA.
    apply sublist_app; [done|]. apply sublist_app; [|done].
    apply sublist_app; [done|]. by apply sublist_cons. }
  assert (∀ y, y ∈ l1 ++ item :: l2 → y ∈ all_items (cells (arr s))) as Hsub.
  { intros y Hy. rewrite HA. apply elem_of_app. right. apply elem_of_app. by left. }
  set (q := Links.item_get_prev (Links.mem m) item).
  set (nx := Links.item_get_next (Links.mem m) item).
  assert (∀ y, y ∈ all_items (cells (arr s)) → y ∉ cell_items c →
               ∀ z, z ∈ l1 ++ item :: l2 → far y z) as Hfar.
  { intros y Hy Hny z Hz. destruct Hap as [_ Hap]. apply Hap; [done|by apply Hsub|].
    intros ->. apply Hny. by rewrite Hl. }
  destruct l1 as [|a l1].
  - (* the first item of the list *)
    simpl in Hd. destruct Hd as (-> & _ & Hq & Hd). fold q in Hq. fold nx in Hd.
    rewrite Hq. change (NULL =? NULL) with true. cbv iota. rewrite Z.eqb_refl.
    change (if nx =? NULL then Links.mem m else Links.item_set_prev (Links.mem m) nx NULL)
      with (relink (Links.mem m) nx NULL).
    assert (nx ≠ NULL → nx ∈ l2) as Hnx.
    { intros Hne. destruct (dll_head _ _ _ _ Hd Hne) as (l' & ->). by left. }
    eexists. split; [done|]. cbn [Links.mem].
    split; [apply links_ok_update; [done..| | |done]|].
    + eapply dll_relink; [done|]. eapply apart_sublist; [|exact Hapl]. by apply sublist_cons.
    + intros y Hy Hny. unfold relink.
      destruct (Z.eqb_spec nx NULL) as [|Hne]; [done|].
      assert (far y nx) as Hf by (apply Hfar; [done..|right; by apply Hnx]).
      links. by rewrite !load_store_ne by lia.
    + intros b Hb. apply (relink_frame _ _ _ (all_items (cells (arr s)))); [done|].
      intros Hne. apply Hsub. right. by apply Hnx.
  - (* an item behind the first *)
    change ((a :: l1) ++ item :: l2) with (a :: l1 ++ item :: l2) in *.
    assert (hd = a) as -> by (by destruct Hd as (-> & _)).
    destruct (dll_unlink _ _ _ _ _ _ Hd Hapl) as (Hq & Hnx & Hd2). fold q nx in Hq, Hnx, Hd2.
    assert (q ≠ NULL) as Hqn.
    { apply (dll_nonnull _ _ _ _ _ Hd).
      change (q ∈ (a :: l1) ++ item :: l2). apply elem_of_app. by left. }
    destruct (Z.eqb_spec q NULL) as [|_]; [done|].
    destruct (Z.eqb_spec item a) as [Heq|_]; [exfalso; apply Hni; rewrite Heq; by left|].
    change (if nx =? NULL then Links.item_set_next (Links.mem m) q nx
            else Links.item_set_prev (Links.item_set_next (Links.mem m) q nx) nx q)
      with (relink (Links.item_set_next (Links.mem m) q nx) nx q).
    eexists. split; [done|]. cbn [Links.mem].
    assert (q ∈ a :: l1 ++ item :: l2) as Hq'.
    { change (q ∈ (a :: l1) ++ item :: l2). apply elem_of_app. by left. }
    assert (nx ≠ NULL → nx ∈ a :: l1 ++ item :: l2) as Hnx'.
    { intros Hne. change (nx ∈ (a :: l1) ++ item :: l2). apply elem_of_app. right. right.
      by apply Hnx. }
    split.
    + rewrite <-(list_insert_id (Links.heads m) (Z.to_nat i) a Hhd).
      apply links_ok_update; [done..| |done].
      intros y Hy Hny. pose proof (Hfar y Hy Hny q Hq') as Hf1. unfold relink.
      destruct (Z.eqb_spec nx NULL) as [|Hne].
      * links. by rewrite !load_store_ne by lia.
      * pose proof (Hfar y Hy Hny nx (Hnx' Hne)) as Hf2.
        links. by rewrite !load_store_ne by lia.
    + intros b Hb.
      rewrite (relink_frame _ _ _ (all_items (cells (arr s)))); [|done|].
      * links. rewrite load_store_ne; [done|]. intros <-. apply Hb. exists q.
        split; [by apply Hsub|by right].
      * intros Hne. by apply Hsub, Hnx'.
Qed.

Lemma all_items_NoDup cs :
  (∀ j c, cs !! j = Some c → NoDup (cell_items c)) →
  (∀ j1 j2 c1 c2 x, cs !! j1 = Some c1 → cs !! j2 = Some c2 →
     x ∈ cell_items c1 → x ∈ cell_items c2 → j1 = j2) →
  NoDup (all_items cs).
Proof.
  induction cs as [|c cs IH]; intros Hnd Hone; [constructor|].
  unfold all_items. rewrite bind_cons. apply NoDup_app. split_and!.
  - by apply (Hnd 0%nat).
  - intros x Hx (c' & Hx' & Hc')%list_elem_of_bind.
    apply list_elem_of_lookup_1 in Hc' as (j & Hj).
    by pose proof (Hone 0%nat (S j) c c' x eq_refl Hj Hx Hx').
  - apply IH.
    + intros j c'. apply (Hnd (S j)).
    + intros j1 j2 c1 c2 x H1 H2 Hx1 Hx2.
      by pose proof (Hone (S j1) (S j2) c1 c2 x H1 H2 Hx1 Hx2) as [= ->].
Qed.

Lemma inv_listed_leaf s pend P cs L x :
  inv s pend P cs L → x ∈ all_items (cells (arr s)) →
  ∃ l j c, l ∈ L ∧ l_addr l = x ∧ l_used l = false ∧
    cells (arr s) !! j = Some c ∧ x ∈ cell_items c ∧ l_idx l = Z.of_nat j.
Proof.
  intros HI (c & Hx & Hc)%list_elem_of_bind.
  apply list_elem_of_lookup_1 in Hc as (j & Hj).
  destruct (inv_lists _ _ _ _ _ HI _ _ Hj) as [_ Hiff].
  apply Hiff in Hx as Hf. destruct Hf as (l & Hl & Hla & Hli & Hu).
  by exists l, j, c.
Qed.

Lemma inv_items_apart s pend P cs L :
  inv s pend P cs L → apart (all_items (cells (arr s))).
Proof.
  intros HI. split.
  - apply all_items_NoDup.
    + intros j c Hc. by destruct (inv_lists _ _ _ _ _ HI _ _ Hc).
    + intros j1 j2 c1 c2 x H1 H2 Hx1 Hx2.
      destruct (inv_lists _ _ _ _ _ HI _ _ H1) as [_ Hiff1].
      destruct (inv_lists _ _ _ _ _ HI _ _ H2) as [_ Hiff2].
      apply Hiff1 in Hx1 as (l1 & Hl1 & Ha1 & Hi1 & _).
      apply Hiff2 in Hx2 as (l2 & Hl2 & Ha2 & Hi2 & _).
      assert (l1 = l2) as -> by (eapply inv_addr_inj; [done..|congruence]).
      lia.
  - intros x y Hx Hy Hne.
    destruct (inv_listed_leaf _ _ _ _ _ _ HI Hx) as (lx & _ & _ & Hlx & Hax & _).
    destruct (inv_listed_leaf _ _ _ _ _ _ HI Hy) as (ly & _ & _ & Hly & Hay & _).
    destruct (inv_asc _ _ _ _ _ HI) as [lo Hasc].
    pose proof (inv_leaf_size _ _ _ _ _ _ HI Hlx). pose proof (inv_leaf_size _ _ _ _ _ _ HI Hly).
    assert (lx ≠ ly) as Hl by congruence.
    destruct (asc_disjoint _ _ _ _ _ Hasc Hlx Hly Hl) as [Hd|Hd];
      unfold l_end, far, POINTER_SIZE, BLOCK_SIZE in *; lia.
Qed.

(** X17: on every state reached by mem_init, mem_alloc and mem_free
    with the array at most [MAX_CELLS] cells long, the items on the free
    lists have room for their links: no item is listed twice, two listed
    items are at least three words apart, every listed item is a block
    of at least three words that is not in use, and its block is clear
    of every block handed out and of the block of the array, so the
    words 1 and 2 that the list operations write belong to no caller. *)
Theorem free_items_apart s U :
  reachable s U →
  apart (all_items (cells (arr s))) ∧
  ∀ x, x ∈ all_items (cells (arr s)) →
    item_is_in_use (heap s) x = false ∧
    3 * POINTER_SIZE ≤ item_get_size (heap s) x * BLOCK_SIZE ∧
    ∀ q, q ∈ U ∪ {[data (arr s)]} →
      far (item_from_area q) x ∧
      (item_from_area q + item_get_size (heap s) (item_from_area q) * BLOCK_SIZE ≤ x ∨
       x + item_get_size (heap s) x * BLOCK_SIZE ≤ item_from_area q).
Proof.
  intros (_ & cs & L & HI)%reachable_tinv.
  split; [by eapply inv_items_apart|].
  intros x Hx.
  destruct (inv_listed_leaf _ _ _ _ _ _ HI Hx) as (l & j & c & Hl & Hla & Hu & _).
  destruct (hdr_ok_bits _ _ _ _ _ _ HI Hl) as (Hsz & _). rewrite Hla in Hsz.
  pose proof (inv_leaf_size _ _ _ _ _ _ HI Hl) as Hls.
  pose proof (inv_hdr _ _ _ _ _ HI) as Hh. rewrite Forall_forall in Hh.
  destruct (Hh _ Hl) as (_ & _ & _ & Huse). rewrite Hla, Hu in Huse.
  split; [by apply Huse|]. split; [rewrite Hsz; unfold POINTER_SIZE, BLOCK_SIZE; lia|].
  intros q Hq.
  destruct (inv_held_block _ _ _ _ q HI Hq) as (lq & Hlq & Hlqa & Hlqu & Hqsz & _ & Hend).
  pose proof (inv_leaf_size _ _ _ _ _ _ HI Hlq) as Hlqs.
  destruct (inv_asc _ _ _ _ _ HI) as [lo Hasc].
  assert (lq ≠ l) as Hne by congruence.
  rewrite Hsz, Hqsz.
  destruct (asc_disjoint _ _ _ _ _ Hasc Hlq Hl Hne) as [Hd|Hd];
    unfold l_end, far, POINTER_SIZE, BLOCK_SIZE in *; lia.
Qed.

Lemma links_ok_l : links_ok s_l.1 m_l.
Proof.
  split.
  - set (cs := cells (arr s_l.1)). set (hs := Links.heads m_l).
    vm_compute in cs, hs. subst cs hs.
    repeat constructor; by vm_compute.
  - assert (all_items (cells (arr s_l.1)) = [4800; 5064; 5144]) as -> by (by vm_compute).
    split.
    + apply (bool_decide_unpack _). by vm_compute.
    + intros x y Hx Hy Hne. unfold far, POINTER_SIZE. set_unfold. lia.
Qed.

Lemma reachable_l : reachable s_l.1 s_l.2.
Proof.
  exists boot, s_init, 2%nat, ops_l. split; [apply mem_init_boot|].
  assert (run 2 ops_l s_init ∅ = Some s_l) as -> by (by vm_compute). by destruct s_l.
Qed.

Lemma insert_item_links_witness :
  ∃ m1, Links.insert_item m_l 4 4952 = Some m1 ∧
    links_ok (default boot (insert_item s_l.1 4 4952)) m1 ∧
    ∀ a, ¬ link_word (4952 :: all_items (cells (arr s_l.1))) a →
      load (Links.mem m1) a = load (Links.mem m_l) a.
Proof.
  apply (insert_item_links s_l.1 m_l 4 4952).
  - apply links_ok_l.
  - by vm_compute.
  - by vm_compute.
  - assert (all_items (cells (arr s_l.1)) = [4800; 5064; 5144]) as -> by (by vm_compute).
    intros y Hy. unfold far, POINTER_SIZE. set_unfold. lia.
Defined.

Lemma take_item_links_witness :
  (∀ s1 item, take_item s_l.1 4 = Some (s1, item) →
     ∃ m1, Links.take_item m_l 4 = Some (m1, item) ∧ links_ok s1 m1 ∧
       ∀ a, ¬ link_word (all_items (cells (arr s_l.1))) a →
         load (Links.mem m1) a = load (Links.mem m_l) a) ∧
  (take_item s_l.1 4 = None → Links.take_item m_l 4 = None).
Proof. apply (take_item_links s_l.1 m_l 4). apply links_ok_l. Defined.

Lemma delete_item_links_witness :
  ∃ m1, Links.delete_item 3 m_l 4 5064 = Some m1 ∧
    links_ok (default boot (delete_item s_l.1 4 5064)) m1 ∧
    ∀ a, ¬ link_word (all_items (cells (arr s_l.1))) a →
      load (Links.mem m1) a = load (Links.mem m_l) a.
Proof.
  apply (delete_item_links s_l.1 m_l 4 (Cell 10 [4800; 5064]) 5064).
  - apply links_ok_l.
  - by vm_compute.
  - by vm_compute.
  - simpl. lia.
Defined.

Lemma free_items_apart_witness :
  apart (all_items (cells (arr s_l.1))) ∧
  ∀ x, x ∈ all_items (cells (arr s_l.1)) →
    item_is_in_use (heap s_l.1) x = false ∧
    3 * POINTER_SIZE ≤ item_get_size (heap s_l.1) x * BLOCK_SIZE ∧
    ∀ q, q ∈ s_l.2 ∪ {[data (arr s_l.1)]} →
      far (item_from_area q) x ∧
      (item_from_area q + item_get_size (heap s_l.1) (item_from_area q) * BLOCK_SIZE ≤ x ∨
       x + item_get_size (heap s_l.1) x * BLOCK_SIZE ≤ item_from_area q).
Proof. apply (free_items_apart s_l.1 s_l.2). apply reachable_l. Defined.

(** *** The chunk list and mem_finalize *)

Lemma finv_tinv s U lo : finv s U lo → tinv s U.
Proof. intros (Hd & cs & L & HI & _). split; [done|]. by exists cs, L. Qed.

Lemma inv_chunk_idx s pend P cs L : inv s pend P cs L → Forall (λ c : Z * Z, 1 ≤ c.2) cs.
Proof.
  intros HI. eapply Forall_impl; [apply (inv_chunks _ _ _ _ _ HI)|]. intros c (? & _). lia.
Qed.

Lemma outside_not_leaf s pend P cs L a x :
  inv s pend P cs L → outside cs a → x ∈ L → ¬ (l_addr x ≤ a < l_end x).
Proof.
  intros HI Ha Hx Hin.
  destruct (forest_chunk _ _ _ (inv_forest _ _ _ _ _ HI) (inv_chunk_idx _ _ _ _ _ HI) Hx)
    as (b & i & Hc & _ & Hb & He).
  apply (Ha _ Hc). unfold sentinel. simpl. lia.
Qed.

Lemma kept_out_trans s1 s2 s3 cs : kept_out s1 s2 cs → kept_out s2 s3 cs → kept_out s1 s3 cs.
Proof. intros H12 H23 a Ha. rewrite <-(H12 a Ha). by apply H23. Qed.

Lemma kept_out_same_heap s s' cs : heap s' = heap s → kept_out s s' cs.
Proof. intros Hh a _. by rewrite Hh. Qed.

Lemma split_step_out s P cs L x (n : Z) s' i' c' :
  inv s {[l_addr x]} P cs L → x ∈ L → 4 < l_idx x →
  split_step s (l_idx x) (l_addr x) n = Some (s', i', c') → kept_out s s' cs.
Proof.
  intros HI Hx Hi Hstep a Ha.
  pose proof (inv_leaf_idx _ _ _ _ _ _ HI Hx) as Hidx.
  destruct (cell_at_lookup (arr s) (l_idx x - 4)) as [c4 Hc4]; [lia|].
  destruct (cell_at_lookup (arr s) (l_idx x - 1)) as [c1 Hc1]; [lia|].
  pose proof (cells_ok_at _ _ _ (inv_cells _ _ _ _ _ HI) Hc4) as Hs4.
  pose proof (cells_ok_at _ _ _ (inv_cells _ _ _ _ _ HI) Hc1) as Hs1.
  destruct (children_geometry x true true Hi) as (_ & _ & _ & Gr).
  cbn [right_child l_addr] in Gr.
  assert (3 ≤ ladder (l_idx x - 4) < 2 ^ 29 ∧ 3 ≤ ladder (l_idx x - 1) < 2 ^ 29)
    as [Hr4 Hr1].
  { destruct (inv_cells _ _ _ _ _ HI) as [[_ Hmax] _]. unfold array_size in Hidx.
    split; (split; [apply ladder_ge|apply ladder_small]); unfold MAX_CELLS in *; lia. }
  assert (heap s' = split_writes (heap s) (l_addr x)
                      (l_addr x + ladder (l_idx x - 4) * BLOCK_SIZE)
                      (ladder (l_idx x - 4)) (ladder (l_idx x - 1))
                      (item_get_lr_bit (heap s) (l_addr x))
                      (item_get_inh_bit (heap s) (l_addr x))) as ->.
  { rewrite (split_step_eq s _ _ n c4 c1 Hc4 Hc1) in Hstep. cbv zeta in Hstep.
    rewrite Hs4, Hs1 in Hstep. destruct (_ >=? _); by injection Hstep as <- _ _. }
  pose proof (outside_not_leaf _ _ _ _ _ _ _ HI Ha Hx) as Hout.
  destruct (split_headers (heap s) (l_addr x) (l_addr x + ladder (l_idx x - 4) * BLOCK_SIZE)
              (ladder (l_idx x - 4)) (ladder (l_idx x - 1))
              (item_get_lr_bit (heap s) (l_addr x)) (item_get_inh_bit (heap s) (l_addr x)))
    as (_ & _ & Hsame); [lia|lia|lia|].
  apply Hsame; lia.
Qed.

Lemma split_loop_out fuel s P cs L x (n : Z) s' i' c' :
  inv s {[l_addr x]} P cs L → x ∈ L → n ≤ ladder (l_idx x) →
  split_loop fuel s (l_idx x) (l_addr x) n = Some (s', i', c') → kept_out s s' cs.
Proof.
  revert s L x. induction fuel as [|fuel IH]; intros s L x HI Hx Hn Hloop; [done|].
  pose proof (inv_leaf_idx _ _ _ _ _ _ HI Hx) as Hidx.
  destruct (cell_at_lookup (arr s) (l_idx x - 1)) as [c1 Hc1]; [lia|].
  pose proof (cells_ok_at _ _ _ (inv_cells _ _ _ _ _ HI) Hc1) as Hs1.
  cbn [split_loop] in Hloop. rewrite Hc1 in Hloop. cbn [mbind option_bind] in Hloop.
  rewrite Hs1 in Hloop.
  destruct (Z.geb_spec (ladder (l_idx x - 1)) n) as [Hge|Hlt];
    destruct (Z.gtb_spec (l_idx x) 4) as [Hi|Hi]; cbn [andb] in Hloop;
    try (injection Hloop as <- _ _; by apply kept_out_same_heap).
  destruct (split_step_inv _ _ _ _ _ n HI Hx Hi Hge)
    as (s1 & L1 & x1 & Hstep & HI1 & Hx1 & _ & Hn1 & _).
  rewrite Hstep in Hloop. cbn [mbind option_bind] in Hloop.
  eapply kept_out_trans; [by eapply split_step_out|by eapply IH].
Qed.

Lemma alloc_finish_out s P cs L x (n : Z) s1 curr :
  inv s {[l_addr x]} P cs L → x ∈ L → n ≤ ladder (l_idx x) →
  split_item s (l_idx x) (l_addr x) n = Some (s1, curr) →
  kept_out s (set_heap s1 (item_set_in_use (heap s1) curr true)) cs.
Proof.
  intros HI Hx Hn Hsplit.
  destruct (split_loop_inv (Z.to_nat (l_idx x)) _ _ _ _ _ n HI Hx Hn)
    as (s1' & L' & x' & Hloop & HI1 & Hx' & _); [lia|].
  unfold split_item in Hsplit. rewrite Hloop in Hsplit. cbn [mbind option_bind] in Hsplit.
  injection Hsplit as <- <-.
  pose proof (split_loop_out _ _ _ _ _ _ _ _ _ _ HI Hx Hn Hloop) as Hk.
  eapply kept_out_trans; [exact Hk|].
  intros a Ha. cbn [heap set_heap]. apply same_at_set_flag.
  intros Heq. subst a. apply (outside_not_leaf _ _ _ _ _ _ x' HI1 Ha Hx').
  pose proof (inv_leaf_idx _ _ _ _ _ _ HI1 Hx'). pose proof (l_end_gt x' ltac:(lia)). lia.
Qed.

Lemma coalesce_loop_out fuel s P cs L x buddy ibuddy s' i' item' :
  inv s ∅ P cs L → x ∈ L → l_used x = false →
  item_get_buddy s (l_addr x) (l_idx x) = Some (buddy, ibuddy) →
  coalesce_loop fuel s (l_idx x) (l_addr x) buddy ibuddy = Some (s', i', item') →
  kept_out s s' cs.
Proof.
  revert s L x buddy ibuddy.
  induction fuel as [|fuel IH]; intros s L x buddy ibuddy HI Hx Hxu Hb Hloop; [done|].
  destruct (buddy_analysis _ _ _ _ _ HI Hx Hxu) as (b0 & ib0 & go & Hb0 & Ht & Hgo).
  rewrite Hb in Hb0. injection Hb0 as <- <-.
  cbn [coalesce_loop] in Hloop. rewrite Ht in Hloop. cbn [mbind option_bind] in Hloop.
  destruct go; [|injection Hloop as <- _ _; by apply kept_out_same_heap].
  destruct (coalesce_step_inv _ _ _ _ _ _ _ HI Hx Hxu Hb Ht)
    as (s1 & L1 & x1 & i1 & item1 & b1 & ib1 & Hstep & -> & -> & HI1 & Hx1 & Hxu1 & _
        & Hb1 & _).
  rewrite Hstep in Hloop. cbn [mbind option_bind] in Hloop.
  eapply kept_out_trans; [|by eapply IH].
  intros a Ha.
  pose proof (inv_leaf_idx _ _ _ _ _ _ HI Hx) as Hidx.
  apply (coalesce_step_footprint _ _ _ _ _ _ _ _ _ _ Hstep).
  - intros ->. apply (outside_not_leaf _ _ _ _ _ _ x HI Ha Hx).
    pose proof (l_end_gt x ltac:(lia)). lia.
  - intros ->. destruct (Hgo eq_refl) as (A & y & B & Hya & _ & Hyu & Hshape).
    assert (y ∈ L) as Hy by (destruct Hshape as [(_ & -> & _)|(_ & -> & _)]; mem).
    pose proof (inv_leaf_idx _ _ _ _ _ _ HI Hy) as Hyidx.
    apply (outside_not_leaf _ _ _ _ _ _ y HI Ha Hy).
    pose proof (l_end_gt y ltac:(lia)). lia.
Qed.

Lemma mem_free_out s P cs L area s' :
  inv s ∅ P cs L → freeable L P area → mem_free s area = Some s' → kept_out s s' cs.
Proof.
  intros HI Hfree Hmf.
  destruct (mem_free_insert_inv _ _ _ _ _ HI Hfree)
    as (s1 & L1 & x & Hins & Hxa & HI1 & Hx & Hxu & _ & c & Hc & Hhead).
  assert (kept_out s s1 cs) as Hk1.
  { assert (heap s1 = item_set_in_use (heap s) (item_from_area area) false) as Hh.
    { unfold mem_free_insert in Hins. cbv zeta in Hins.
      apply bind_Some in Hins as (i & _ & (s2 & Hi & [= <- _])%bind_Some).
      by rewrite (insert_item_heap _ _ _ _ Hi). }
    intros a Ha. rewrite Hh. apply same_at_set_flag. intros Heq. subst a.
    destruct Hfree as (HnP & x0 & Hx0 & Hx0a & _).
    pose proof (inv_leaf_idx _ _ _ _ _ _ HI Hx0) as Hidx0.
    pose proof (l_end_gt x0 ltac:(lia)).
    apply (outside_not_leaf _ _ _ _ _ _ x0 HI Ha Hx0). lia. }
  unfold mem_free in Hmf. rewrite Hins in Hmf. cbn [mbind option_bind] in Hmf.
  unfold coalesce, coalesce_end in Hmf. rewrite Hc in Hmf. cbn [mbind option_bind] in Hmf.
  rewrite Hhead in Hmf. cbn [mbind option_bind] in Hmf.
  destruct (buddy_analysis _ _ _ _ _ HI1 Hx Hxu) as (buddy & ibuddy & _ & Hb & _).
  rewrite Hb in Hmf. cbn [mbind option_bind] in Hmf.
  destruct (coalesce_loop _ _ _ _ _ _) as [[[s2 i2] item2]|] eqn:Hloop; [|done].
  injection Hmf as <-.
  eapply kept_out_trans; [exact Hk1|].
  by eapply coalesce_loop_out.
Qed.

Lemma chunk_extent (c : Z * Z) : 0 ≤ c.2 → chunk_base c < c.1 < sentinel c ∧ sentinel c < chunk_end c.
Proof.
  intros Hc. unfold chunk_base, chunk_end, sentinel, POINTER_SIZE, BLOCK_SIZE.
  pose proof (ladder_ge c.2 Hc). lia.
Qed.

Lemma tiles_bounds cs : ∀ lo hi,
  tiles lo cs hi → Forall (λ c : Z * Z, 1 ≤ c.2) cs →
  lo ≤ hi ∧ ∀ c, c ∈ cs → lo ≤ chunk_base c ∧ chunk_end c ≤ hi.
Proof.
  induction cs as [|c0 cs IH]; intros lo hi Ht Hcs; simpl in Ht.
  - split; [lia|]. by intros c ?%elem_of_nil.
  - destruct Ht as [Hb Ht]. apply Forall_cons in Hcs as [Hi Hcs]. simpl in Hi.
    destruct (IH _ _ Ht Hcs) as [Hle Hin].
    pose proof (chunk_extent c0 ltac:(lia)).
    split; [lia|]. intros c [->|Hc]%elem_of_cons; [lia|].
    destruct (Hin c Hc). lia.
Qed.

Lemma tiles_outside cs : ∀ lo hi,
  tiles lo cs hi → Forall (λ c : Z * Z, 1 ≤ c.2) cs →
  ∀ c, c ∈ cs → outside cs (chunk_base c).
Proof.
  induction cs as [|c0 cs IH]; intros lo hi Ht Hcs c Hc; [by apply elem_of_nil in Hc|].
  destruct Ht as [Hb Ht]. apply Forall_cons in Hcs as [Hi Hcs]. simpl in Hi.
  destruct (tiles_bounds _ _ _ Ht Hcs) as [Hle Hin].
  pose proof (chunk_extent c0 ltac:(lia)) as He0.
  intros c' Hc'.
  assert (0 ≤ c'.2) as Hi'.
  { apply elem_of_cons in Hc' as [->|Hc']; [lia|].
    rewrite Forall_forall in Hcs. specialize (Hcs _ Hc'). simpl in Hcs. lia. }
  pose proof (chunk_extent c' Hi') as He'.
  apply elem_of_cons in Hc as [->|Hc], Hc' as [->|Hc'].
  - lia.
  - destruct (Hin c' Hc'). lia.
  - destruct (Hin c Hc). lia.
  - by apply (IH _ _ Ht Hcs c Hc c' Hc').
Qed.

Lemma tiles_snoc cs : ∀ lo hi c,
  tiles lo cs hi → chunk_base c = hi → tiles lo (cs ++ [c]) (chunk_end c).
Proof.
  induction cs as [|c0 cs IH]; intros lo hi c Ht Hc; simpl in *.
  - by subst.
  - destruct Ht as [Hb Ht]. split; [done|]. by eapply IH.
Qed.

Lemma chain_frame h h' bs : ∀ hd,
  (∀ b, b ∈ bs → load h' b = load h b) → chain h hd bs → chain h' hd bs.
Proof.
  induction bs as [|b bs IH]; intros hd Hs; simpl; [done|].
  intros (-> & Hb & Hc). split; [done|]. split; [done|].
  rewrite (Hs b) by (by left). apply IH; [|done]. intros b' Hb'. apply Hs. by right.
Qed.

Lemma chunks_ok_kept s s' pend P cs L lo :
  inv s pend P cs L → chunks_ok s lo cs → kept_out s s' cs →
  brk s' = brk s → mem_list s' = mem_list s → chunks_ok s' lo cs.
Proof.
  intros HI (Hlo & Ht & Hc) Hk Hb Hm. split; [done|]. rewrite Hb, Hm. split; [done|].
  apply (chain_frame (heap s)); [|done].
  intros b Hb'. apply Hk.
  apply elem_of_reverse, list_elem_of_fmap in Hb' as (c & -> & Hc').
  by eapply tiles_outside; [exact Ht|eapply inv_chunk_idx|].
Qed.

Lemma chunks_ok_arr s lo cs a : chunks_ok s lo cs → chunks_ok (set_arr s a) lo cs.
Proof. done. Qed.

(** A new chunk goes to the front of the chunk list. *)
Lemma chunks_ok_new s pend P cs L lo i s' item :
  inv s pend P cs L → chunks_ok s lo cs → 0 ≤ i → ladder i < 2 ^ 29 →
  alloc_new_item s (ladder i) = (s', item) →
  chunks_ok s' lo (cs ++ [(brk s + POINTER_SIZE, i)]).
Proof.
  intros HI (Hlo & Ht & Hc) Hi Hsmall Hnew.
  pose proof (ladder_ge i Hi) as Hge.
  pose proof (alloc_new_item_eq s (ladder i) ltac:(lia)) as He. cbv zeta in He.
  rewrite Hnew in He. injection He as -> _.
  destruct (new_chunk_headers (heap s) (brk s) (mem_list s) (ladder i) ltac:(lia))
    as (_ & _ & Hw & Hsame).
  cbv zeta in Hw, Hsame.
  destruct (tiles_bounds _ _ _ Ht (inv_chunk_idx _ _ _ _ _ HI)) as [Hle Hin].
  split; [done|]. split.
  - cbn [brk].
    replace (brk s + (BLOCK_SIZE * ladder i + POINTER_SIZE * 2))
      with (chunk_end (brk s + POINTER_SIZE, i))
      by (unfold chunk_end, sentinel; simpl; lia).
    eapply tiles_snoc; [done|]. unfold chunk_base. simpl. lia.
  - cbn [heap mem_list]. rewrite fmap_app, reverse_app. simpl.
    replace (chunk_base (brk s + POINTER_SIZE, i)) with (brk s)
      by (unfold chunk_base; simpl; lia).
    split; [done|]. split; [unfold NULL; lia|].
    rewrite Hw. apply (chain_frame (heap s)); [|done].
    intros b Hb. apply Hsame.
    apply elem_of_reverse, list_elem_of_fmap in Hb as (c & -> & Hc').
    destruct (Hin c Hc') as [_ Hend].
    pose proof (inv_chunk_idx _ _ _ _ _ HI) as Hidx. rewrite Forall_forall in Hidx.
    pose proof (chunk_extent c ltac:(specialize (Hidx _ Hc'); simpl in Hidx; lia)). lia.
Qed.

Lemma chain_free h bs : ∀ hd fuel,
  chain h hd bs → (length bs < fuel)%nat → free_chunks fuel h hd = Some bs.
Proof.
  induction bs as [|b bs IH]; intros hd [|fuel] Hc Hf; simpl in *; try lia.
  - by rewrite Hc.
  - destruct Hc as (-> & Hb & Hc). destruct (Z.eqb_spec b NULL) as [|_]; [done|].
    rewrite (IH _ fuel Hc) by lia. done.
Qed.

Lemma mem_free_fin s U lo p s' :
  finv s U lo → p ∈ U → mem_free s p = Some s' → finv s' (U ∖ {[p]}) lo.
Proof.
  intros (Hd & cs & L & HI & Hch) Hp Hfree.
  destruct (inv_prot_leaf _ _ _ _ _ p HI) as (l & Hl & Hla & Hlu & _); [mem_set_in|].
  apply (inv_prot_mono _ _ _ (U ∖ {[p]} ∪ {[data (arr s)]})) in HI.
  2:{ intros a. repeat first [rewrite elem_of_union | rewrite elem_of_difference]. tauto. }
  assert (freeable L (U ∖ {[p]} ∪ {[data (arr s)]}) p) as Hfr.
  { split; [|by exists l].
    repeat first [rewrite elem_of_union | rewrite elem_of_difference
                 | rewrite elem_of_singleton].
    intros [[_ ?]| ->]; done. }
  destruct (mem_free_inv _ _ _ _ p HI Hfr) as (s'' & L' & Hfree' & HI' & Hfr').
  rewrite Hfree in Hfree'. injection Hfree' as <-.
  pose proof (mem_free_out _ _ _ _ _ _ HI Hfr Hfree) as Hk.
  destruct Hfr' as (Hdata & _ & Hbrk & Hml & _).
  split; [rewrite Hdata; mem_set_in|]. exists cs, L'. rewrite Hdata. split; [done|].
  exact (chunks_ok_kept _ _ _ _ _ _ _ HI Hch Hk Hbrk Hml).
Qed.

Lemma array_inc_size_fin alloc s U lo s' :
  alloc_ok alloc → alloc_mono alloc → alloc_fin alloc → finv s U lo →
  array_inc_size alloc s = Some s' → array_size (arr s') ≤ MAX_CELLS →
  finv s' U lo.
Proof.
  intros Hok Hmono Hfin HF Hinc Hmax.
  pose proof (finv_tinv _ _ _ HF) as HT.
  pose proof (array_inc_size_len _ _ _ Hmono Hinc) as Hlen.
  pose proof (tinv_size _ _ HT) as Hsize. pose proof (tinv_cap _ _ HT) as Hcap.
  rewrite !alen_size in *. unfold ARRAY_INIT_SIZE, MAX_CELLS in *.
  unfold array_inc_size in Hinc. cbv zeta in Hinc. rewrite !alen_size in Hinc.
  replace (Z.of_nat (alen s) + 1 - 1 - 1) with (Z.of_nat (alen s) - 1) in Hinc by lia.
  replace (Z.of_nat (alen s) + 1 - 1 - 4) with (Z.of_nat (alen s) - 4) in Hinc by lia.
  destruct (cell_at_lookup (arr s) (Z.of_nat (alen s) - 1)) as [c1 Hc1];
    [rewrite alen_size; lia|].
  destruct (cell_at_lookup (arr s) (Z.of_nat (alen s) - 4)) as [c4 Hc4];
    [rewrite alen_size; lia|].
  rewrite Hc1, Hc4 in Hinc. cbn [mbind option_bind] in Hinc.
  rewrite (tinv_cell_at _ _ _ _ HT Hc1), (tinv_cell_at _ _ _ _ HT Hc4) in Hinc.
  rewrite <-ladder_rec in Hinc by lia.
  assert (ladder (Z.of_nat (alen s)) < 2 ^ 29) as Hsmall
    by (apply ladder_small; unfold MAX_CELLS; lia).
  pose proof (ladder_ge (Z.of_nat (alen s)) ltac:(lia)).
  rewrite uintptr_small in Hinc by lia.
  destruct HF as (Hd & cs & L & HI & Hch).
  assert (∀ d cap, array_size (Array d (cells (arr s) ++ [Cell (ladder (Z.of_nat (alen s))) []])
                                 cap) = Z.of_nat (alen s) + 1) as Hsz1.
  { intros. unfold array_size, alen. simpl. rewrite length_app. simpl. lia. }
  unfold set_cells in Hinc. cbn [capacity data cells arr set_arr] in Hinc.
  rewrite Hsz1 in Hinc.
  destruct (Z.eqb_spec (Z.of_nat (alen s) + 1) (capacity (arr s))) as [Heq|Hne].
  - (* the array moves *)
    rewrite (uint_small (capacity (arr s) * 2)) in Hinc by lia.
    rewrite (uint_small (capacity (arr s) * 2 * SIZEOF_CELL)) in Hinc
      by (unfold SIZEOF_CELL; lia).
    apply bind_Some in Hinc as ([s3 new_data] & Halloc & Hfree).
    pose proof (mem_free_len _ _ _ Hfree) as Hlen4.
    match type of Halloc with alloc ?st _ = _ => set (s2 := st) in * end.
    assert (finv s2 U lo) as HF2.
    { split; [done|]. exists cs, L. split; [|done].
      apply (inv_append_cell _ _ _ _ _ (data (arr s)) (capacity (arr s) * 2)) in HI;
        [|rewrite alen_size; unfold MAX_CELLS; lia|rewrite alen_size; lia].
      rewrite alen_size in HI. exact HI. }
    pose proof (finv_tinv _ _ _ HF2) as HT2.
    assert (array_size (arr s2) = Z.of_nat (alen s) + 1) as Hsz2 by apply Hsz1.
    assert (0 ≤ capacity (arr s) * 2 * SIZEOF_CELL) as Hx0 by (unfold SIZEOF_CELL; lia).
    assert (array_size (arr s3) ≤ MAX_CELLS) as Hmax3.
    { rewrite alen_size. unfold MAX_CELLS.
      assert (alen s' = alen s3) as <- by (by rewrite Hlen4). lia. }
    destruct (Hok _ _ _ _ _ HT2 Hx0 Halloc Hmax3) as (_ & HnU & Hbrk & _ & HQ).
    pose proof (Hfin _ _ _ _ _ _ HF2 Hx0 Halloc Hmax3) as HF3.
    destruct HQ as (Hdata3 & Hcap3 & Hsize3).
    { rewrite Hsz2. unfold BLOCKS, HEADER_SIZE, POINTER_SIZE, BLOCK_SIZE, SIZEOF_CELL.
      rewrite <-Heq.
      replace ((Z.of_nat (alen s) + 1) * 2 * 16 + 8 + 8 - 1)
        with (7 + (4 * (Z.of_nat (alen s) + 1) + 1) * 8) by lia.
      rewrite Z.div_add by lia. change (7 / 8) with 0.
      pose proof (ladder_lin (Z.of_nat (alen s) + 1) ltac:(lia)). lia. }
    { rewrite Hsz2. simpl. lia. }
    simpl in Hdata3, Hcap3.
    destruct HF3 as (Hd3 & cs3 & L3 & HI3 & Hch3). rewrite Hdata3 in Hd3, HI3.
    match type of Hfree with mem_free ?st _ = _ => set (s4 := st) in * end.
    assert (finv s4 (U ∪ {[data (arr s)]}) lo) as HF4.
    { split; [simpl; mem_set_in|]. exists cs3, L3. simpl. split; [|done].
      apply (inv_set_data _ _ _ _ _ new_data) in HI3.
      eapply inv_prot_mono; [|exact HI3].
      intros a. repeat first [rewrite elem_of_union | rewrite elem_of_singleton]. tauto. }
    change (data (arr s2)) with (data (arr s)) in Hfree.
    pose proof (mem_free_fin _ _ _ _ _ HF4 ltac:(mem_set_in) Hfree) as HF5.
    destruct HF5 as (Hd5 & cs5 & L5 & HI5 & Hch5).
    assert ((U ∪ {[data (arr s)]}) ∖ {[data (arr s)]} = U) as HU.
    { apply set_eq. intros a.
      repeat first [rewrite elem_of_union | rewrite elem_of_difference
                   | rewrite elem_of_singleton].
      split; [intros [[?|?] ?]; [done|done]|]. intros ?. split; [by left|]. by intros ->. }
    rewrite HU in Hd5, HI5. split; [done|]. by exists cs5, L5.
  - injection Hinc as <-. split; [done|]. exists cs, L. split; [|done].
    apply (inv_append_cell _ _ _ _ _ (data (arr s)) (capacity (arr s))) in HI;
      [|rewrite alen_size; unfold MAX_CELLS; lia|rewrite alen_size; lia].
    rewrite alen_size in HI. exact HI.
Qed.

Lemma grow_loop_fin alloc fuel s U lo i n s' i' :
  alloc_ok alloc → alloc_mono alloc → alloc_fin alloc → finv s U lo →
  -1 ≤ i < array_size (arr s) →
  grow_loop alloc fuel s i n = Some (s', i') → array_size (arr s') ≤ MAX_CELLS →
  finv s' U lo.
Proof.
  intros Hok Hmono Hfin. revert s i.
  induction fuel as [|fuel IH]; intros s i HF Hi Hgrow Hmax; [done|].
  simpl in Hgrow. apply bind_Some in Hgrow as (s1 & Hinc & Hgrow).
  apply bind_Some in Hgrow as (c & Hc & Hgrow).
  pose proof (array_inc_size_len _ _ _ Hmono Hinc) as Hlen1.
  assert (array_size (arr s1) ≤ MAX_CELLS) as Hmax1.
  { destruct (cell_size c <? n).
    - apply grow_loop_len in Hgrow; [|done]. rewrite !alen_size in *. lia.
    - by injection Hgrow as <- _. }
  pose proof (array_inc_size_fin _ _ _ _ _ Hok Hmono Hfin HF Hinc Hmax1) as HF1.
  apply cell_at_Some in Hc as [Hi1 _].
  destruct (cell_size c <? n).
  - apply (IH s1 (i + 1) HF1); [lia|done..].
  - by injection Hgrow as <- _.
Qed.

Lemma mem_alloc_pick_fin alloc fuel s U lo n s2 i2 item :
  alloc_ok alloc → alloc_mono alloc → alloc_fin alloc → finv s U lo →
  mem_alloc_pick alloc fuel s n = Some (s2, i2, item) →
  array_size (arr s2) ≤ MAX_CELLS →
  ∃ cs L x0, inv s2 {[l_addr x0]} (U ∪ {[data (arr s2)]}) cs L ∧ x0 ∈ L ∧
    l_addr x0 = item ∧ l_idx x0 = i2 ∧ n ≤ ladder i2 ∧ (data (arr s2) ∉ U) ∧
    chunks_ok s2 lo cs.
Proof.
  intros Hok Hmono Hfin HF Hget Hmax2. unfold mem_alloc_pick in Hget. cbv zeta in Hget.
  pose proof (finv_tinv _ _ _ HF) as HT.
  destruct (find_cell_spec (cells (arr s)) n 0) as (Hrange & Hbelow & Hat).
  fold (array_size (arr s)) in *.
  destruct (Z.eqb_spec (find_cell (cells (arr s)) n 0) (array_size (arr s))) as [Heq|Hne].
  - (* no cell fits: grow the array and draw a chunk *)
    apply bind_Some in Hget as ([s1 i1] & Hgrow & Hget).
    apply bind_Some in Hget as (c & Hc & Hget).
    destruct (alloc_new_item s1 (uint (cell_size c))) as [s2' item'] eqn:Hnew.
    injection Hget as -> -> ->.
    pose proof (tinv_size _ _ HT) as Hsize.
    assert (arr s2 = arr s1) as Harr.
    { pose proof (alloc_new_item_arr s1 (uint (cell_size c))) as H. by rewrite Hnew in H. }
    rewrite Harr in *.
    assert (-1 ≤ find_cell (cells (arr s)) n 0 - 1 < array_size (arr s)) as Hi0
      by (unfold ARRAY_INIT_SIZE in *; lia).
    destruct (grow_loop_spec _ _ _ _ _ _ _ _ Hok Hmono HT Hi0 Hgrow Hmax2)
      as (HT1 & Hbrk1 & Hi1 & Hn1 & Hbelow1 & HQ1).
    pose proof (grow_loop_fin _ _ _ _ _ _ _ _ _ Hok Hmono Hfin HF Hi0 Hgrow Hmax2) as HF1.
    rewrite (tinv_cell_at _ _ _ _ HT1 Hc) in Hnew.
    pose proof (tinv_size _ _ HT1) as Hsize1.
    assert (0 ≤ ladder i2 < 2 ^ 29) as Hsmall.
    { split; [pose proof (ladder_ge i2); unfold ARRAY_INIT_SIZE in *; lia|].
      apply ladder_small. unfold ARRAY_INIT_SIZE in *. lia. }
    rewrite uint_small in Hnew by lia.
    destruct HF1 as (Hd1 & cs & L & HI1 & Hch1).
    destruct (inv_new_chunk _ _ _ _ _ i2 HI1) as (s2' & inh & Hnew' & _ & HI2);
      [unfold ARRAY_INIT_SIZE in *; lia|].
    rewrite Hnew in Hnew'. injection Hnew' as <- ->.
    assert (Leaf (brk s1 + POINTER_SIZE) i2 LEFT inh true
              ∈ L ++ [Leaf (brk s1 + POINTER_SIZE) i2 LEFT inh true]) as Hx0 by mem.
    eexists _, _, (Leaf (brk s1 + POINTER_SIZE) i2 LEFT inh true).
    split_and!; try done.
    + eapply inv_pend_eq; [|exact HI2]. simpl. apply set_eq. intros a. mem_set.
    + assert (0 ≤ i2) as Hi20 by (unfold ARRAY_INIT_SIZE in *; lia).
      exact (chunks_ok_new _ _ _ _ _ _ _ _ _ HI1 Hch1 Hi20 (proj2 Hsmall) Hnew).
  - (* a cell fits: take its first item *)
    apply bind_Some in Hget as ([s1 item1] & Htake & [= Hs12 <- ->]). subst s2.
    set (i2 := find_cell (cells (arr s)) n 0) in *.
    destruct Hat as (c & Hc & Hcn & Hne'); [lia|].
    rewrite Z.sub_0_r in Hc.
    assert (cell_at (arr s) i2 = Some c) as Hcell by (apply cell_at_Some; split; [lia|done]).
    destruct (cell_items c) as [|a next] eqn:Hitems; [done|].
    rewrite (take_item_eq _ _ c a next) in Htake by done. injection Htake as <- <-.
    destruct HF as (Hd & cs & L & HI & Hch).
    destruct (inv_unlist _ _ _ _ _ _ _ a HI Hcell) as (A & x0 & B & -> & Hxa & Hxi & _ & HI1);
      [rewrite Hitems; left|].
    exists cs, (A ++ set_used x0 true :: B), (set_used x0 true).
    split_and!; try done.
    + eapply inv_pend_eq; [|exact HI1]. simpl. rewrite Hxa. apply set_eq. intros b. mem_set.
    + mem.
    + rewrite <-(cells_ok_at _ _ _ (inv_cells _ _ _ _ _ HI) Hcell). simpl. lia.
Qed.

Lemma mem_alloc_body_fin alloc fuel s U lo x s' p :
  alloc_ok alloc → alloc_mono alloc → alloc_fin alloc → finv s U lo → 0 ≤ x →
  mem_alloc_body alloc fuel s x = Some (s', p) → array_size (arr s') ≤ MAX_CELLS →
  finv s' (U ∪ {[p]}) lo.
Proof.
  intros Hok Hmono Hfin HF Hx Halloc Hmax.
  unfold mem_alloc_body in Halloc. cbv zeta in Halloc.
  set (n := BLOCKS (x + HEADER_SIZE)) in *.
  apply bind_Some in Halloc as ([[s2 i2] item] & Hget & Hrest).
  apply bind_Some in Hrest as ([s3 curr] & Hsplit & [= <- <-]).
  pose proof (split_item_len _ _ _ _ _ _ Hsplit) as Hlen3.
  assert (array_size (arr s2) ≤ MAX_CELLS) as Hmax2.
  { rewrite !alen_size in *. unfold alen in Hmax. simpl in Hmax. fold (alen s3) in Hmax. lia. }
  destruct (mem_alloc_pick_fin _ _ _ _ _ _ _ _ _ Hok Hmono Hfin HF Hget Hmax2)
    as (cs & L & x0 & HI2 & Hx0 & <- & <- & Hn0 & Hd2 & Hch2).
  destruct (alloc_finish _ _ _ _ _ n HI2 Hx0 Hn0)
    as (s3' & L' & x' & Hsplit' & HI3 & Hx' & Hn' & Hfr & _ & HnP & Hsz).
  rewrite Hsplit in Hsplit'. injection Hsplit' as <- ->.
  pose proof (alloc_finish_out _ _ _ _ _ _ _ _ HI2 Hx0 Hn0 Hsplit) as Hk.
  destruct Hfr as (Hdata & Hcap & Hbrk & Hml & Hsizes).
  set (s' := set_heap s3 (item_set_in_use (heap s3) (l_addr x') true)) in *.
  split.
  - change (data (arr s')) with (data (arr s3)).
    change (data (arr s')) with (data (arr s3)) in Hdata. rewrite Hdata.
    intros [?| Heq%elem_of_singleton]%elem_of_union; [done|].
    apply HnP. rewrite Heq. mem_set_in.
  - exists cs, L'. split.
    + eapply inv_prot_mono; [|exact HI3].
      change (data (arr s')) with (data (arr s3)) in *. rewrite Hdata.
      intros a. repeat first [rewrite elem_of_union | rewrite elem_of_singleton]. tauto.
    + exact (chunks_ok_kept _ _ _ _ _ _ _ HI2 Hch2 Hk Hbrk Hml).
Qed.

Lemma mem_alloc_fin fuel : alloc_fin (mem_alloc fuel).
Proof.
  induction fuel as [|fuel IH]; intros s U lo x s' p HF Hx Halloc Hmax; [done|].
  simpl in Halloc.
  by apply (mem_alloc_body_fin (mem_alloc fuel) (S fuel) s U lo x s' p
              (mem_alloc_ok fuel) (mem_alloc_len fuel) IH).
Qed.

Lemma mem_init_fin s0 s1 :
  0 < brk s0 → mem_init s0 = Some s1 → finv s1 ∅ (brk s0).
Proof.
  intros Hpos. unfold mem_init. rewrite array_init_eq. cbv zeta.
  set (s := State (heap s0) (arr s0) NULL (brk s0)).
  set (pre := set_arr s (Array 0 init_cells ARRAY_INIT_CAPACITY)).
  assert (inv pre ∅ ∅ [] []) as HI.
  { split; simpl;
      [apply init_cells_ok|done|constructor|exists (brk s0); simpl; lia
      |constructor|constructor| | |].
    - intros j c Hj. split.
      + do 11 (destruct j as [|j]; [injection Hj as <-; constructor|]). done.
      + intros a. split.
        * do 11 (destruct j as [|j]; [injection Hj as <-; by intros ?%elem_of_nil|]). done.
        * intros (l & ?%elem_of_nil & _). done.
    - intros p ?%elem_of_empty. done.
    - intros a ?%elem_of_empty. done. }
  assert (chunks_ok pre (brk s0) []) as Hch by done.
  destruct (inv_new_chunk _ _ _ _ _ 10 HI) as (s1' & inh & Hnew & Harr & HI1);
    [by vm_compute|].
  assert (0 ≤ 10) as H10 by lia.
  assert (ladder 10 < 2 ^ 29) as Hl10 by (by vm_compute).
  pose proof (chunks_ok_new _ _ _ _ _ _ 10 _ _ HI Hch H10 Hl10 Hnew) as Hch1.
  change (ladder 10) with DATA_INIT_BLOCKS in Hnew.
  assert (alloc_new_item s DATA_INIT_BLOCKS = (set_arr s1' (arr s), brk s0 + POINTER_SIZE))
    as Hnew'.
  { unfold alloc_new_item, malloc in *. simpl in *. injection Hnew as <-. done. }
  rewrite Hnew'. cbn [fst snd]. intros [= <-].
  assert (Leaf (brk pre + POINTER_SIZE) 10 LEFT inh true
            ∈ [] ++ [Leaf (brk pre + POINTER_SIZE) 10 LEFT inh true]) as Hx by mem.
  pose proof (inv_claim _ _ _ _ _ _ HI1 Hx ltac:(simpl; mem_set)) as HI2.
  apply (inv_set_data _ _ _ _ _ (item_get_area (brk s0 + POINTER_SIZE))) in HI2.
  unfold set_arr, set_heap in HI2. cbn [arr heap mem_list brk] in HI2.
  rewrite Harr in HI2. cbn [arr cells capacity pre set_arr] in HI2.
  split; [by intros ?%elem_of_empty|].
  eexists _, _. simpl. split.
  - eapply inv_pend_eq; [|exact HI2]. apply set_eq. intros a. mem_set.
  - apply (chunks_ok_kept s1' _ _ _ _ _ _ HI1 Hch1); [|done..].
    intros a Ha. cbn [heap]. apply same_at_set_flag. intros <-.
    apply (Ha (brk s0 + POINTER_SIZE, 10)); [by left|].
    pose proof (chunk_extent (brk s0 + POINTER_SIZE, 10) H10). simpl in *. lia.
Qed.

Lemma run_fin fuel ops s U lo s' U' :
  finv s U lo → run fuel ops s U = Some (s', U') → finv s' U' lo.
Proof.
  revert s U. induction ops as [|[x|area] ops IH]; intros s U HF Hrun; simpl in Hrun.
  - by injection Hrun as <- <-.
  - destruct (Z.leb_spec 0 x); [|done]. destruct (x <? 2 ^ 32); [|done]. simpl in Hrun.
    apply bind_Some in Hrun as ([s1 p] & Halloc & Hrun).
    destruct (fits s1) eqn:Hfits; [|done].
    apply Z.leb_le in Hfits.
    pose proof (mem_alloc_fin fuel _ _ _ _ _ _ HF ltac:(done) Halloc Hfits) as HF1.
    by apply (IH _ _ HF1).
  - case_decide as Hin; [|done].
    apply bind_Some in Hrun as (s1 & Hfree & Hrun).
    pose proof (mem_free_fin _ _ _ _ _ HF Hin Hfree) as HF1.
    by apply (IH _ _ HF1).
Qed.

Lemma tiles_NoDup cs : ∀ lo hi,
  tiles lo cs hi → Forall (λ c : Z * Z, 1 ≤ c.2) cs → NoDup (chunk_base <$> cs).
Proof.
  induction cs as [|c0 cs IH]; intros lo hi Ht Hcs; [constructor|].
  destruct Ht as [Hb Ht]. apply Forall_cons in Hcs as [Hi Hcs]. simpl in Hi.
  destruct (tiles_bounds _ _ _ Ht Hcs) as [_ Hin].
  pose proof (chunk_extent c0 ltac:(lia)).
  rewrite fmap_cons. apply NoDup_cons. split; [|by eapply IH].
  intros (c & Heq & Hc)%list_elem_of_fmap. destruct (Hin c Hc). lia.
Qed.

(** X18: after mem_init and any calls of mem_alloc and mem_free that
    leave the array at most [MAX_CELLS] cells long (the host never
    returning NULL), mem_finalize returns, with one pass per chunk: it
    frees the chunks of the chunk list, newest first, each once; these
    chunks lie one behind the other from the break at mem_init to the
    present break, so all the memory obtained from the host is handed
    back; it leaves the chunk list and the array pointer NULL.  Every
    block still handed out lies inside a chunk that is freed. *)
Theorem mem_finalize_frees_all s0 s1 fuel ops s U :
  0 < brk s0 → mem_init s0 = Some s1 → run fuel ops s1 ∅ = Some (s, U) →
  ∃ cs,
    tiles (brk s0) cs (brk s) ∧
    NoDup (chunk_base <$> cs) ∧
    (∀ n, (length cs < n)%nat →
       mem_finalize n s
       = Some (State (heap s) (Array NULL (cells (arr s)) (capacity (arr s))) NULL (brk s),
               reverse (chunk_base <$> cs))) ∧
    ∀ p, p ∈ U ∪ {[data (arr s)]} →
      ∃ c, c ∈ cs ∧ chunk_base c < item_from_area p ∧
           item_from_area p + item_get_size (heap s) (item_from_area p) * BLOCK_SIZE
           < chunk_end c.
Proof.
  intros Hpos Hinit Hrun.
  pose proof (run_fin _ _ _ _ _ _ _ (mem_init_fin _ _ Hpos Hinit) Hrun)
    as (_ & cs & L & HI & _ & Ht & Hc).
  pose proof (inv_chunk_idx _ _ _ _ _ HI) as Hidx.
  exists cs. split; [done|]. split; [by eapply tiles_NoDup|]. split.
  - intros n Hn. unfold mem_finalize. cbv zeta.
    rewrite (chain_free _ _ _ _ Hc); [done|].
    by rewrite length_reverse, length_fmap.
  - intros p Hp.
    destruct (inv_held_block _ _ _ _ p HI Hp) as (l & Hl & Hla & _ & _ & _ & Hend).
    destruct (forest_chunk _ _ _ (inv_forest _ _ _ _ _ HI) Hidx Hl) as (b & i & Hin & _ & Hb & He).
    exists (b, i). split; [done|].
    unfold chunk_base, chunk_end, sentinel, POINTER_SIZE. simpl. lia.
Qed.

Lemma mem_finalize_frees_all_witness :
  ∃ cs,
    tiles (brk boot) cs (brk s_l.1) ∧
    NoDup (chunk_base <$> cs) ∧
    (∀ n, (length cs < n)%nat →
       mem_finalize n s_l.1
       = Some (State (heap s_l.1) (Array NULL (cells (arr s_l.1)) (capacity (arr s_l.1)))
                 NULL (brk s_l.1),
               reverse (chunk_base <$> cs))) ∧
    ∀ p, p ∈ s_l.2 ∪ {[data (arr s_l.1)]} →
      ∃ c, c ∈ cs ∧ chunk_base c < item_from_area p ∧
           item_from_area p + item_get_size (heap s_l.1) (item_from_area p) * BLOCK_SIZE
           < chunk_end c.
Proof.
  apply (mem_finalize_frees_all boot s_init 2 ops_l s_l.1 s_l.2).
  - by vm_compute.
  - by vm_compute.
  - by vm_compute.
Defined.

(** *** Eager coalescing and the blocks of a chunk *)

(** mem_alloc and mem_free keep every property [E] that the steps they
    are made of keep; [M] is what holds of it inside mem_alloc, while
    the block it took is not yet handed out. *)
Section ext.
Variable E : gset Z → state → list (Z * Z) → list leaf → Prop.
Variable M : gset Z → leaf → state → list (Z * Z) → list leaf → Prop.
Hypothesis E_cells : ∀ U s cl cap cs L,
  E U s cs L → E U (set_arr s (Array (data (arr s)) cl cap)) cs L.
Hypothesis E_swap : ∀ U s d cs L,
  E (U ∪ {[d]}) s cs L →
  E (U ∪ {[data (arr s)]}) (set_arr s (Array d (cells (arr s)) (capacity (arr s)))) cs L.
Hypothesis E_unlist : ∀ U s cs A x B,
  E U s cs (A ++ x :: B) → M U (set_used x true) s cs (A ++ set_used x true :: B).
Hypothesis E_new : ∀ U s pend P cs L i s' item inh,
  inv s pend P cs L → E U s cs L → 1 ≤ i < array_size (arr s) →
  alloc_new_item s (ladder i) = (s', item) →
  M U (Leaf (brk s + POINTER_SIZE) i LEFT inh true) s'
    (cs ++ [(brk s + POINTER_SIZE, i)]) (L ++ [Leaf (brk s + POINTER_SIZE) i LEFT inh true]).
Hypothesis E_finish : ∀ U s P cs L x n s1 curr,
  inv s {[l_addr x]} P cs L → M U x s cs L → x ∈ L → n ≤ ladder (l_idx x) →
  split_item s (l_idx x) (l_addr x) n = Some (s1, curr) →
  let s' := set_heap s1 (item_set_in_use (heap s1) curr true) in
  ∃ L', inv s' ∅ (P ∪ {[item_get_area curr]}) cs L' ∧ E (U ∪ {[item_get_area curr]}) s' cs L'.
Hypothesis E_free : ∀ U s P cs L area s',
  inv s ∅ P cs L → E U s cs L → freeable L P area → mem_free s area = Some s' →
  ∃ L', inv s' ∅ P cs L' ∧ E (U ∖ {[area]}) s' cs L'.

Lemma xinv_tinv s U : xinv E s U → tinv s U.
Proof. intros (Hd & cs & L & HI & _). split; [done|]. by exists cs, L. Qed.

Lemma mem_free_x s U p s' :
  xinv E s U → p ∈ U → mem_free s p = Some s' → xinv E s' (U ∖ {[p]}).
Proof.
  intros HF Hp Hfree.
  destruct (mem_free_tinv _ _ _ (xinv_tinv _ _ HF) Hp) as (s'' & Hfree' & _ & Hdata & _).
  rewrite Hfree in Hfree'. injection Hfree' as <-.
  destruct HF as (Hd & cs & L & HI & HE).
  destruct (inv_prot_leaf _ _ _ _ _ p HI) as (l & Hl & Hla & Hlu & _); [mem_set_in|].
  apply (inv_prot_mono _ _ _ (U ∖ {[p]} ∪ {[data (arr s)]})) in HI.
  2:{ intros a. repeat first [rewrite elem_of_union | rewrite elem_of_difference]. tauto. }
  assert (freeable L (U ∖ {[p]} ∪ {[data (arr s)]}) p) as Hfr.
  { split; [|by exists l].
    repeat first [rewrite elem_of_union | rewrite elem_of_difference
                 | rewrite elem_of_singleton].
    intros [[_ ?]| ->]; done. }
  destruct (E_free _ _ _ _ _ _ _ HI HE Hfr Hfree) as (L' & HI' & HE').
  split; [rewrite Hdata; mem_set_in|]. exists cs, L'. by rewrite Hdata.
Qed.

Lemma array_inc_size_x alloc s U s' :
  alloc_ok alloc → alloc_mono alloc → alloc_x E alloc → xinv E s U →
  array_inc_size alloc s = Some s' → array_size (arr s') ≤ MAX_CELLS →
  xinv E s' U.
Proof.
  intros Hok Hmono Hfin HF Hinc Hmax.
  pose proof (xinv_tinv _ _ HF) as HT.
  pose proof (array_inc_size_len _ _ _ Hmono Hinc) as Hlen.
  pose proof (tinv_size _ _ HT) as Hsize. pose proof (tinv_cap _ _ HT) as Hcap.
  rewrite !alen_size in *. unfold ARRAY_INIT_SIZE, MAX_CELLS in *.
  unfold array_inc_size in Hinc. cbv zeta in Hinc. rewrite !alen_size in Hinc.
  replace (Z.of_nat (alen s) + 1 - 1 - 1) with (Z.of_nat (alen s) - 1) in Hinc by lia.
  replace (Z.of_nat (alen s) + 1 - 1 - 4) with (Z.of_nat (alen s) - 4) in Hinc by lia.
  destruct (cell_at_lookup (arr s) (Z.of_nat (alen s) - 1)) as [c1 Hc1];
    [rewrite alen_size; lia|].
  destruct (cell_at_lookup (arr s) (Z.of_nat (alen s) - 4)) as [c4 Hc4];
    [rewrite alen_size; lia|].
  rewrite Hc1, Hc4 in Hinc. cbn [mbind option_bind] in Hinc.
  rewrite (tinv_cell_at _ _ _ _ HT Hc1), (tinv_cell_at _ _ _ _ HT Hc4) in Hinc.
  rewrite <-ladder_rec in Hinc by lia.
  assert (ladder (Z.of_nat (alen s)) < 2 ^ 29) as Hsmall
    by (apply ladder_small; unfold MAX_CELLS; lia).
  pose proof (ladder_ge (Z.of_nat (alen s)) ltac:(lia)).
  rewrite uintptr_small in Hinc by lia.
  destruct HF as (Hd & cs & L & HI & HE).
  assert (∀ d cap, array_size (Array d (cells (arr s) ++ [Cell (ladder (Z.of_nat (alen s))) []])
                                 cap) = Z.of_nat (alen s) + 1) as Hsz1.
  { intros. unfold array_size, alen. simpl. rewrite length_app. simpl. lia. }
  unfold set_cells in Hinc. cbn [capacity data cells arr set_arr] in Hinc.
  rewrite Hsz1 in Hinc.
  destruct (Z.eqb_spec (Z.of_nat (alen s) + 1) (capacity (arr s))) as [Heq|Hne].
  - (* the array moves *)
    rewrite (uint_small (capacity (arr s) * 2)) in Hinc by lia.
    rewrite (uint_small (capacity (arr s) * 2 * SIZEOF_CELL)) in Hinc
      by (unfold SIZEOF_CELL; lia).
    apply bind_Some in Hinc as ([s3 new_data] & Halloc & Hfree).
    pose proof (mem_free_len _ _ _ Hfree) as Hlen4.
    match type of Halloc with alloc ?st _ = _ => set (s2 := st) in * end.
    assert (xinv E s2 U) as HF2.
    { split; [done|]. exists cs, L. split; [|exact (E_cells U s _ _ cs L HE)].
      apply (inv_append_cell _ _ _ _ _ (data (arr s)) (capacity (arr s) * 2)) in HI;
        [|rewrite alen_size; unfold MAX_CELLS; lia|rewrite alen_size; lia].
      rewrite alen_size in HI. exact HI. }
    pose proof (xinv_tinv _ _ HF2) as HT2.
    assert (array_size (arr s2) = Z.of_nat (alen s) + 1) as Hsz2 by apply Hsz1.
    assert (0 ≤ capacity (arr s) * 2 * SIZEOF_CELL) as Hx0 by (unfold SIZEOF_CELL; lia).
    assert (array_size (arr s3) ≤ MAX_CELLS) as Hmax3.
    { rewrite alen_size. unfold MAX_CELLS.
      assert (alen s' = alen s3) as <- by (by rewrite Hlen4). lia. }
    destruct (Hok _ _ _ _ _ HT2 Hx0 Halloc Hmax3) as (_ & HnU & Hbrk & _ & HQ).
    pose proof (Hfin _ _ _ _ _ HF2 Hx0 Halloc Hmax3) as HF3.
    destruct HQ as (Hdata3 & Hcap3 & Hsize3).
    { rewrite Hsz2. unfold BLOCKS, HEADER_SIZE, POINTER_SIZE, BLOCK_SIZE, SIZEOF_CELL.
      rewrite <-Heq.
      replace ((Z.of_nat (alen s) + 1) * 2 * 16 + 8 + 8 - 1)
        with (7 + (4 * (Z.of_nat (alen s) + 1) + 1) * 8) by lia.
      rewrite Z.div_add by lia. change (7 / 8) with 0.
      pose proof (ladder_lin (Z.of_nat (alen s) + 1) ltac:(lia)). lia. }
    { rewrite Hsz2. simpl. lia. }
    simpl in Hdata3, Hcap3.
    destruct HF3 as (Hd3 & cs3 & L3 & HI3 & HE3). rewrite Hdata3 in Hd3, HI3.
    match type of Hfree with mem_free ?st _ = _ => set (s4 := st) in * end.
    assert (xinv E s4 (U ∪ {[data (arr s)]})) as HF4.
    { split; [simpl; mem_set_in|]. exists cs3, L3. simpl.
      split; [|pose proof (E_swap U s3 new_data cs3 L3 HE3) as HE4; rewrite Hdata3 in HE4;
              exact HE4].
      apply (inv_set_data _ _ _ _ _ new_data) in HI3.
      eapply inv_prot_mono; [|exact HI3].
      intros a. repeat first [rewrite elem_of_union | rewrite elem_of_singleton]. tauto. }
    change (data (arr s2)) with (data (arr s)) in Hfree.
    pose proof (mem_free_x _ _ _ _ HF4 ltac:(mem_set_in) Hfree) as HF5.
    destruct HF5 as (Hd5 & cs5 & L5 & HI5 & HE5).
    assert ((U ∪ {[data (arr s)]}) ∖ {[data (arr s)]} = U) as HU.
    { apply set_eq. intros a.
      repeat first [rewrite elem_of_union | rewrite elem_of_difference
                   | rewrite elem_of_singleton].
      split; [intros [[?|?] ?]; [done|done]|]. intros ?. split; [by left|]. by intros ->. }
    rewrite HU in Hd5, HI5, HE5. split; [done|]. by exists cs5, L5.
  - injection Hinc as <-. split; [done|]. exists cs, L.
    split; [|exact (E_cells U s _ _ cs L HE)].
    apply (inv_append_cell _ _ _ _ _ (data (arr s)) (capacity (arr s))) in HI;
      [|rewrite alen_size; unfold MAX_CELLS; lia|rewrite alen_size; lia].
    rewrite alen_size in HI. exact HI.
Qed.

Lemma grow_loop_x alloc fuel s U i n s' i' :
  alloc_ok alloc → alloc_mono alloc → alloc_x E alloc → xinv E s U →
  -1 ≤ i < array_size (arr s) →
  grow_loop alloc fuel s i n = Some (s', i') → array_size (arr s') ≤ MAX_CELLS →
  xinv E s' U.
Proof.
  intros Hok Hmono Hfin. revert s i.
  induction fuel as [|fuel IH]; intros s i HF Hi Hgrow Hmax; [done|].
  simpl in Hgrow. apply bind_Some in Hgrow as (s1 & Hinc & Hgrow).
  apply bind_Some in Hgrow as (c & Hc & Hgrow).
  pose proof (array_inc_size_len _ _ _ Hmono Hinc) as Hlen1.
  assert (array_size (arr s1) ≤ MAX_CELLS) as Hmax1.
  { destruct (cell_size c <? n).
    - apply grow_loop_len in Hgrow; [|done]. rewrite !alen_size in *. lia.
    - by injection Hgrow as <- _. }
  pose proof (array_inc_size_x _ _ _ _ Hok Hmono Hfin HF Hinc Hmax1) as HF1.
  apply cell_at_Some in Hc as [Hi1 _].
  destruct (cell_size c <? n).
  - apply (IH s1 (i + 1) HF1); [lia|done..].
  - by injection Hgrow as <- _.
Qed.

Lemma mem_alloc_pick_x alloc fuel s U n s2 i2 item :
  alloc_ok alloc → alloc_mono alloc → alloc_x E alloc → xinv E s U →
  mem_alloc_pick alloc fuel s n = Some (s2, i2, item) →
  array_size (arr s2) ≤ MAX_CELLS →
  ∃ cs L x0, inv s2 {[l_addr x0]} (U ∪ {[data (arr s2)]}) cs L ∧ x0 ∈ L ∧
    l_addr x0 = item ∧ l_idx x0 = i2 ∧ n ≤ ladder i2 ∧ (data (arr s2) ∉ U) ∧
    M U x0 s2 cs L.
Proof.
  intros Hok Hmono Hfin HF Hget Hmax2. unfold mem_alloc_pick in Hget. cbv zeta in Hget.
  pose proof (xinv_tinv _ _ HF) as HT.
  destruct (find_cell_spec (cells (arr s)) n 0) as (Hrange & Hbelow & Hat).
  fold (array_size (arr s)) in *.
  destruct (Z.eqb_spec (find_cell (cells (arr s)) n 0) (array_size (arr s))) as [Heq|Hne].
  - (* no cell fits: grow the array and draw a chunk *)
    apply bind_Some in Hget as ([s1 i1] & Hgrow & Hget).
    apply bind_Some in Hget as (c & Hc & Hget).
    destruct (alloc_new_item s1 (uint (cell_size c))) as [s2' item'] eqn:Hnew.
    injection Hget as -> -> ->.
    pose proof (tinv_size _ _ HT) as Hsize.
    assert (arr s2 = arr s1) as Harr.
    { pose proof (alloc_new_item_arr s1 (uint (cell_size c))) as H. by rewrite Hnew in H. }
    rewrite Harr in *.
    assert (-1 ≤ find_cell (cells (arr s)) n 0 - 1 < array_size (arr s)) as Hi0
      by (unfold ARRAY_INIT_SIZE in *; lia).
    destruct (grow_loop_spec _ _ _ _ _ _ _ _ Hok Hmono HT Hi0 Hgrow Hmax2)
      as (HT1 & Hbrk1 & Hi1 & Hn1 & Hbelow1 & HQ1).
    pose proof (grow_loop_x _ _ _ _ _ _ _ _ Hok Hmono Hfin HF Hi0 Hgrow Hmax2) as HF1.
    rewrite (tinv_cell_at _ _ _ _ HT1 Hc) in Hnew.
    pose proof (tinv_size _ _ HT1) as Hsize1.
    assert (0 ≤ ladder i2 < 2 ^ 29) as Hsmall.
    { split; [pose proof (ladder_ge i2); unfold ARRAY_INIT_SIZE in *; lia|].
      apply ladder_small. unfold ARRAY_INIT_SIZE in *. lia. }
    rewrite uint_small in Hnew by lia.
    destruct HF1 as (Hd1 & cs & L & HI1 & HE1).
    assert (1 ≤ i2 < array_size (arr s1)) as Hi2r by (unfold ARRAY_INIT_SIZE in *; lia).
    destruct (inv_new_chunk _ _ _ _ _ i2 HI1 Hi2r) as (s2' & inh & Hnew' & _ & HI2).
    rewrite Hnew in Hnew'. injection Hnew' as <- ->.
    assert (Leaf (brk s1 + POINTER_SIZE) i2 LEFT inh true
              ∈ L ++ [Leaf (brk s1 + POINTER_SIZE) i2 LEFT inh true]) as Hx0 by mem.
    eexists _, _, (Leaf (brk s1 + POINTER_SIZE) i2 LEFT inh true).
    split_and!; try done.
    + eapply inv_pend_eq; [|exact HI2]. simpl. apply set_eq. intros a. mem_set.
    + exact (E_new _ _ _ _ _ _ _ _ _ inh HI1 HE1 Hi2r Hnew).
  - (* a cell fits: take its first item *)
    apply bind_Some in Hget as ([s1 item1] & Htake & [= Hs12 <- ->]). subst s2.
    set (i2 := find_cell (cells (arr s)) n 0) in *.
    destruct Hat as (c & Hc & Hcn & Hne'); [lia|].
    rewrite Z.sub_0_r in Hc.
    assert (cell_at (arr s) i2 = Some c) as Hcell by (apply cell_at_Some; split; [lia|done]).
    destruct (cell_items c) as [|a next] eqn:Hitems; [done|].
    rewrite (take_item_eq _ _ c a next) in Htake by done. injection Htake as <- <-.
    destruct HF as (Hd & cs & L & HI & HE).
    destruct (inv_unlist _ _ _ _ _ _ _ a HI Hcell) as (A & x0 & B & -> & Hxa & Hxi & _ & HI1);
      [rewrite Hitems; left|].
    exists cs, (A ++ set_used x0 true :: B), (set_used x0 true).
    split_and!; try done.
    + eapply inv_pend_eq; [|exact HI1]. simpl. rewrite Hxa. apply set_eq. intros b. mem_set.
    + mem.
    + rewrite <-(cells_ok_at _ _ _ (inv_cells _ _ _ _ _ HI) Hcell). simpl. lia.
    + apply E_unlist. exact (E_cells U s _ _ cs _ HE).
Qed.

Lemma mem_alloc_body_x alloc fuel s U x s' p :
  alloc_ok alloc → alloc_mono alloc → alloc_x E alloc → xinv E s U → 0 ≤ x →
  mem_alloc_body alloc fuel s x = Some (s', p) → array_size (arr s') ≤ MAX_CELLS →
  xinv E s' (U ∪ {[p]}).
Proof.
  intros Hok Hmono Hfin HF Hx Halloc Hmax.
  unfold mem_alloc_body in Halloc. cbv zeta in Halloc.
  set (n := BLOCKS (x + HEADER_SIZE)) in *.
  apply bind_Some in Halloc as ([[s2 i2] item] & Hget & Hrest).
  apply bind_Some in Hrest as ([s3 curr] & Hsplit & [= <- <-]).
  pose proof (split_item_len _ _ _ _ _ _ Hsplit) as Hlen3.
  assert (array_size (arr s2) ≤ MAX_CELLS) as Hmax2.
  { rewrite !alen_size in *. unfold alen in Hmax. simpl in Hmax. fold (alen s3) in Hmax. lia. }
  destruct (mem_alloc_pick_x _ _ _ _ _ _ _ _ Hok Hmono Hfin HF Hget Hmax2)
    as (cs & L & x0 & HI2 & Hx0 & <- & <- & Hn0 & Hd2 & HE2).
  destruct (alloc_finish _ _ _ _ _ n HI2 Hx0 Hn0)
    as (s3' & L0 & x' & Hsplit' & _ & _ & _ & Hfr & _ & HnP & _).
  rewrite Hsplit in Hsplit'. injection Hsplit' as <- ->.
  destruct (E_finish _ _ _ _ _ _ _ _ _ HI2 HE2 Hx0 Hn0 Hsplit) as (L' & HI3 & HE3).
  destruct Hfr as (Hdata & _).
  set (s' := set_heap s3 (item_set_in_use (heap s3) (l_addr x') true)) in *.
  split.
  - change (data (arr s')) with (data (arr s3)).
    change (data (arr s')) with (data (arr s3)) in Hdata. rewrite Hdata.
    intros [?| Heq%elem_of_singleton]%elem_of_union; [done|].
    apply HnP. rewrite Heq. mem_set_in.
  - exists cs, L'. split; [|done].
    eapply inv_prot_mono; [|exact HI3].
    change (data (arr s')) with (data (arr s3)) in *. rewrite Hdata.
    intros a. repeat first [rewrite elem_of_union | rewrite elem_of_singleton]. tauto.
Qed.

Lemma mem_alloc_x fuel : alloc_x E (mem_alloc fuel).
Proof.
  induction fuel as [|fuel IH]; intros s U x s' p HF Hx Halloc Hmax; [done|].
  simpl in Halloc.
  by apply (mem_alloc_body_x (mem_alloc fuel) (S fuel) s U x s' p
              (mem_alloc_ok fuel) (mem_alloc_len fuel) IH).
Qed.

Lemma run_x fuel ops s U s' U' :
  xinv E s U → run fuel ops s U = Some (s', U') → xinv E s' U'.
Proof.
  revert s U. induction ops as [|[x|area] ops IH]; intros s U HF Hrun; simpl in Hrun.
  - by injection Hrun as <- <-.
  - destruct (Z.leb_spec 0 x); [|done]. destruct (x <? 2 ^ 32); [|done]. simpl in Hrun.
    apply bind_Some in Hrun as ([s1 p] & Halloc & Hrun).
    destruct (fits s1) eqn:Hfits; [|done].
    apply Z.leb_le in Hfits.
    pose proof (mem_alloc_x fuel _ _ _ _ _ HF ltac:(done) Halloc Hfits) as HF1.
    by apply (IH _ _ HF1).
  - case_decide as Hin; [|done].
    apply bind_Some in Hrun as (s1 & Hfree & Hrun).
    pose proof (mem_free_x _ _ _ _ HF Hin Hfree) as HF1.
    by apply (IH _ _ HF1).
Qed.

End ext.

Lemma packed_cons x y L : packed (x :: y :: L) ↔ unmerged x y ∧ packed (y :: L).
Proof. done. Qed.

Lemma packed_mid A x B : packed (A ++ x :: B) ↔ packed (A ++ [x]) ∧ packed (x :: B).
Proof.
  induction A as [|a A IH]; simpl.
  - destruct B; simpl; tauto.
  - destruct A as [|a' A]; simpl in *.
    + destruct B; simpl; tauto.
    + rewrite IH. tauto.
Qed.

Lemma packed_app A B : packed (A ++ B) → packed A ∧ packed B.
Proof.
  induction A as [|a A IH]; simpl; [done|].
  intros [Hh Ht]. destruct (IH Ht) as [HA HB]. split; [|done]. split; [|done].
  destruct A as [|a' A]; [done|]. exact Hh.
Qed.

Lemma packed_snoc A x x' :
  packed (A ++ [x]) → (∀ a, unmerged a x → unmerged a x') → packed (A ++ [x']).
Proof.
  intros H Hx. induction A as [|a A IH]; simpl; [done|].
  destruct A as [|a' A]; simpl in *.
  - destruct H as [H _]. split; [by apply Hx|done].
  - destruct H as [H Ht]. split; [done|]. by apply IH.
Qed.

Lemma packed_head x x' B :
  packed (x :: B) → (∀ b, unmerged x b → unmerged x' b) → packed (x' :: B).
Proof. destruct B as [|b B]; simpl; [done|]. intros [H Ht] Hx. split; [by apply Hx|done]. Qed.

Lemma packed_join A x B : packed (A ++ [x]) → packed (x :: B) → packed (A ++ x :: B).
Proof. intros. by apply packed_mid. Qed.

Lemma packed_nil_snoc A x : packed A → l_lr x = LEFT → packed (A ++ [x]).
Proof.
  intros H Hx. induction A as [|a A IH]; simpl; [done|].
  destruct A as [|a' A]; simpl in *.
  - split; [|done]. intros _ Hr. rewrite Hx in Hr. done.
  - destruct H as [H Ht]. split; [done|]. by apply IH.
Qed.

Lemma packed_set_used A x B : packed (A ++ x :: B) → packed (A ++ set_used x true :: B).
Proof.
  intros [HA HB]%packed_mid. apply packed_join.
  - eapply packed_snoc; [exact HA|]. intros a H ????. right. done.
  - eapply packed_head; [exact HB|]. intros b H ????. left. done.
Qed.

(** Splitting a block leaves no pair of free halves when one half is
    kept. *)
Lemma packed_split A x B u1 u2 :
  packed (A ++ x :: B) → u1 = true ∨ u2 = true →
  packed (A ++ left_child x u1 :: right_child x u2 :: B).
Proof.
  intros [HA HB]%packed_mid Hu. apply packed_join.
  - eapply packed_snoc; [exact HA|]. intros a _ _ Hr. done.
  - apply packed_cons. split.
    + intros _ _ _ _. simpl. destruct Hu as [->| ->]; [by left|by right].
    + eapply packed_head; [exact HB|]. intros b _ Hl. done.
Qed.

Lemma covers_last a i lr inh L :
  covers a i lr inh L →
  ∃ L' y, L = L' ++ [y] ∧
    ((L' = [] ∧ l_idx y = i ∧ l_lr y = lr) ∨ (L' ≠ [] ∧ l_idx y < i ∧ l_lr y = RIGHT)).
Proof.
  induction 1 as [a i lr inh u|a i lr inh L1 L2 Hi H1 _ _ IH2].
  - exists [], (Leaf a i lr inh u). split; [done|]. by left.
  - destruct IH2 as (L' & y & -> & Hy).
    exists (L1 ++ L'), y. rewrite app_assoc. split; [done|]. right.
    destruct (covers_first _ _ _ _ _ H1) as (y1 & L1' & -> & _).
    split; [done|]. destruct Hy as [(_ & ? & ?)|(_ & ? & ?)]; split; (done || lia).
Qed.

Lemma covers_first_lr a i lr inh L :
  covers a i lr inh L →
  ∃ y L', L = y :: L' ∧
    ((L' = [] ∧ l_idx y = i ∧ l_lr y = lr) ∨ (L' ≠ [] ∧ l_idx y < i ∧ l_lr y = LEFT)).
Proof.
  induction 1 as [a i lr inh u|a i lr inh L1 L2 Hi _ IH1 H2 _].
  - exists (Leaf a i lr inh u), []. split; [done|]. by left.
  - destruct IH1 as (y & L' & -> & Hy).
    exists y, (L' ++ L2). split; [done|]. right.
    destruct (covers_first _ _ _ _ _ H2) as (y2 & L2' & -> & _).
    split; [by destruct L'|]. destruct Hy as [(_ & ? & ?)|(_ & ? & ?)]; split; (done || lia).
Qed.

(** Two blocks that follow each other in a chunk, the first a left
    half: the second is its buddy exactly when its index is three cells
    up, and then it is a right half. *)
Lemma covers_pair a i lr inh A x y B :
  covers a i lr inh (A ++ x :: y :: B) → l_idx y = l_idx x + 3 →
  (l_lr x = LEFT → l_lr y = RIGHT) ∧ (l_lr y = RIGHT → l_lr x = LEFT).
Proof.
  intros H. remember (A ++ x :: y :: B) as L eqn:HL. revert A B HL.
  induction H as [a i lr inh u'|a i lr inh L1 L2 Hi H1 IH1 H2 IH2]; intros A B HL Hidx.
  - destruct A as [|? [|]]; simplify_eq/=.
  - apply app_eq_mid in HL as [(K & -> & HB)|(K & -> & ->)].
    + destruct K as [|k K]; simpl in HB.
      * (* x ends the left half, y begins the right half *)
        subst L2.
        destruct (covers_last _ _ _ _ _ H1) as (L' & x' & Heq & Hx).
        apply app_inj_tail in Heq as [<- <-].
        destruct (covers_first_lr _ _ _ _ _ H2) as (y' & L'' & [= <- <-] & Hy).
        destruct Hx as [(_ & Hxi & Hxl)|(_ & Hxi & Hxl)],
                 Hy as [(_ & Hyi & Hyl)|(_ & Hyi & Hyl)];
          split; intros Hlr; try done; try lia; try congruence.
      * injection HB as <- ->. by apply (IH1 A K).
    + by apply (IH2 K B).
Qed.

Lemma covers_last_end a i lr inh L :
  covers a i lr inh L → ∀ L' y, L = L' ++ [y] → l_end y = a + ladder i * BLOCK_SIZE.
Proof.
  induction 1 as [a i lr inh u|a i lr inh L1 L2 Hi H1 _ H2 IH2]; intros L' y HL.
  - destruct L' as [|? [|]]; simplify_eq/=. done.
  - destruct (covers_last _ _ _ _ _ H2) as (K & y2 & -> & _).
    rewrite app_assoc in HL. apply app_inj_tail in HL as [_ ->].
    rewrite (IH2 K y eq_refl), (ladder_rec i) by lia. lia.
Qed.

(** Two blocks that follow each other in the list of all blocks lie in
    one chunk, or the first one ends at the sentinel of its chunk. *)
Lemma forest_pair cs A x y B :
  forest cs (A ++ x :: y :: B) → l_idx y = l_idx x + 3 →
  ((l_lr x = LEFT → l_lr y = RIGHT) ∧ (l_lr y = RIGHT → l_lr x = LEFT)) ∨
  (∃ c, c ∈ cs ∧ l_end x = sentinel c).
Proof.
  intros H. remember (A ++ x :: y :: B) as L eqn:HL. revert A HL.
  induction H as [|b i inh L cs L' Hc Hf IH]; intros A HL Hidx.
  - by destruct A.
  - apply app_eq_mid in HL as [(K & -> & HB)|(K & -> & ->)].
    + destruct K as [|k K]; simpl in HB.
      * right. exists (b, i). split; [by left|].
        by rewrite (covers_last_end _ _ _ _ _ Hc A x eq_refl).
      * injection HB as <- ->. left. by apply (covers_pair _ _ _ _ _ _ _ _ Hc).
    + destruct (IH K eq_refl Hidx) as [?|(c & ? & ?)]; [by left|right].
      exists c. split; [by right|done].
Qed.

Lemma inv_pair s pend P cs A x y B :
  inv s pend P cs (A ++ x :: y :: B) → l_addr y = l_end x → l_idx y = l_idx x + 3 →
  (l_lr x = LEFT → l_lr y = RIGHT) ∧ (l_lr y = RIGHT → l_lr x = LEFT).
Proof.
  intros HI Ha Hi.
  destruct (forest_pair _ _ _ _ _ (inv_forest _ _ _ _ _ HI) Hi) as [?|(c & Hc & He)]; [done|].
  pose proof (inv_chunks _ _ _ _ _ HI) as Hch. rewrite Forall_forall in Hch.
  destruct (Hch _ Hc) as (_ & _ & _ & Hno).
  assert (y ∈ A ++ x :: y :: B) as Hy by mem.
  pose proof (inv_leaf_idx _ _ _ _ _ _ HI Hy).
  pose proof (l_end_gt y ltac:(lia)).
  destruct (Hno _ Hy). lia.
Qed.

(** The loop test of coalesce at a block of the tree. *)
Lemma coalesce_test_leaf s P cs L y :
  inv s ∅ P cs L → y ∈ L →
  coalesce_test s (l_addr y) (l_idx y) = Some (negb (l_used y)).
Proof.
  intros HI Hy.
  pose proof (inv_leaf_idx _ _ _ _ _ _ HI Hy) as Hidx.
  pose proof (inv_hdr _ _ _ _ _ HI) as Hhdr. rewrite Forall_forall in Hhdr.
  destruct (Hhdr _ Hy) as (Hsz & _ & _ & Hu).
  unfold coalesce_test. rewrite Hu by (by intros ?%elem_of_empty).
  destruct (l_used y); [done|]. simpl.
  destruct (cell_at_lookup (arr s) (l_idx y)) as [c Hc]; [lia|].
  rewrite Hc. simpl. rewrite (cells_ok_at _ _ _ (inv_cells _ _ _ _ _ HI) Hc), Hsz.
  by rewrite Z.eqb_refl.
Qed.

Lemma buddy_of_left s pend P cs L x :
  inv s pend P cs L → x ∈ L → l_lr x = LEFT →
  item_get_buddy s (l_addr x) (l_idx x) = Some (l_end x, l_idx x + 3).
Proof.
  intros HI Hx Hlr. destruct (hdr_ok_bits _ _ _ _ _ _ HI Hx) as (Hsz & Hb & _).
  unfold item_get_buddy. by rewrite Hb, Hlr, Hsz.
Qed.

Lemma buddy_of_right s pend P cs L x y :
  inv s pend P cs L → x ∈ L → y ∈ L → l_lr x = RIGHT →
  l_addr x = l_end y → l_idx x = l_idx y + 3 →
  item_get_buddy s (l_addr x) (l_idx x) = Some (l_addr y, l_idx y).
Proof.
  intros HI Hx Hy Hlr Ha Hi. destruct (hdr_ok_bits _ _ _ _ _ _ HI Hx) as (_ & Hb & _).
  pose proof (inv_leaf_idx _ _ _ _ _ _ HI Hy) as Hidx.
  unfold item_get_buddy. rewrite Hb, Hlr. simpl.
  destruct (cell_at_lookup (arr s) (l_idx x - 3)) as [c Hc]; [lia|].
  rewrite Hc. simpl. rewrite (cells_ok_at _ _ _ (inv_cells _ _ _ _ _ HI) Hc).
  replace (l_idx x - 3) with (l_idx y) by lia. unfold l_end in Ha. f_equal. f_equal; lia.
Qed.

Lemma packed_packed_but A x x' B : packed (A ++ x :: B) → packed_but x' (A ++ x' :: B).
Proof.
  intros [HA HB]%packed_app. exists A, B. split; [done|]. split; [done|].
  by destruct HB.
Qed.

Lemma inv_NoDup s pend P cs L : inv s pend P cs L → NoDup L.
Proof.
  intros HI. destruct (inv_asc _ _ _ _ _ HI) as [lo Hasc]. clear HI. revert lo Hasc.
  induction L as [|l L IH]; intros lo Hasc; [constructor|].
  apply NoDup_cons. split; [|destruct Hasc as (_ & _ & H); by eapply IH].
  intros Hl. change (l :: L) with ([] ++ l :: L) in Hasc.
  by destruct (asc_not_elem _ _ _ _ _ l Hasc Hl).
Qed.

Lemma NoDup_mid_inj {A} (l1 l2 k1 k2 : list A) (x : A) :
  NoDup (l1 ++ x :: l2) → l1 ++ x :: l2 = k1 ++ x :: k2 → l1 = k1 ∧ l2 = k2.
Proof.
  revert k1. induction l1 as [|a l1 IH]; intros k1 Hnd Heq; simpl in *.
  - destruct k1 as [|b k1]; simpl in *; [by injection Heq as ->|].
    injection Heq as <- ->. apply NoDup_cons in Hnd as [Hn _].
    destruct Hn. mem.
  - destruct k1 as [|b k1]; simpl in *.
    + injection Heq as -> <-. apply NoDup_cons in Hnd as [Hn _]. destruct Hn. mem.
    + injection Heq as <- Heq. apply NoDup_cons in Hnd as [_ Hnd].
      destruct (IH _ Hnd Heq) as [-> ->]. done.
Qed.

(** When the loop of coalesce stops at [x], [x] has no free buddy
    either. *)
Lemma packed_close s P cs L x b ib :
  inv s ∅ P cs L → packed_but x L → l_used x = false →
  item_get_buddy s (l_addr x) (l_idx x) = Some (b, ib) →
  coalesce_test s b ib = Some false →
  packed L.
Proof.
  intros HI (A & B & -> & HA & HB) Hxu Hb Ht.
  assert (x ∈ A ++ x :: B) as Hx by mem.
  apply packed_join.
  - destruct (decide (A = [])) as [->|HnA]; [done|].
    destruct (exists_last HnA) as (A' & a & ->).
    rewrite <-app_assoc. simpl. apply packed_join; [done|].
    split; [|done]. intros Hal Hxr Hadj Hidx. left.
    rewrite <-app_assoc in HI, Hx. simpl in HI, Hx.
    assert (a ∈ A' ++ a :: x :: B) as Ha by mem.
    rewrite (buddy_of_right _ _ _ _ _ _ _ HI Hx Ha Hxr Hadj Hidx) in Hb.
    injection Hb as <- <-.
    rewrite (coalesce_test_leaf _ _ _ _ _ HI Ha) in Ht.
    injection Ht as Ht. by destruct (l_used a).
  - destruct B as [|y B]; [done|]. split; [|done].
    intros Hxl Hyr Hadj Hidx. right.
    assert (y ∈ A ++ x :: y :: B) as Hy by mem.
    rewrite (buddy_of_left _ _ _ _ _ _ HI Hx Hxl), <-Hadj, <-Hidx in Hb.
    injection Hb as <- <-.
    rewrite (coalesce_test_leaf _ _ _ _ _ HI Hy) in Ht.
    injection Ht as Ht. by destruct (l_used y).
Qed.

(** In a coalesced state the loop of coalesce has nothing to do at any
    free block. *)
Lemma packed_test_false s P cs L x :
  inv s ∅ P cs L → packed L → x ∈ L → l_used x = false →
  ∃ b ib, item_get_buddy s (l_addr x) (l_idx x) = Some (b, ib) ∧
          coalesce_test s b ib = Some false.
Proof.
  intros HI Hp Hx Hxu.
  destruct (buddy_analysis _ _ _ _ _ HI Hx Hxu) as (b & ib & go & Hb & Ht & Hgo).
  exists b, ib. split; [done|]. destruct go; [|done]. exfalso.
  destruct (Hgo eq_refl) as (A & y & B & _ & _ & Hyu & [(Hlr & -> & Ha & Hi & _)|(Hlr & -> & Ha & Hi & _)]).
  - destruct (inv_pair _ _ _ _ _ _ _ _ HI Ha Hi) as [Hr _].
    apply packed_mid in Hp as [_ [Hu _]].
    destruct (Hu Hlr (Hr Hlr) Ha Hi); congruence.
  - destruct (inv_pair _ _ _ _ _ _ _ _ HI Ha Hi) as [_ Hl].
    apply packed_mid in Hp as [_ [Hu _]].
    destruct (Hu (Hl Hlr) Hlr Ha Hi); congruence.
Qed.


Lemma tight_mono X Y L : (∀ a, a ∈ X → a ∈ Y) → tight X L → tight Y L.
Proof. intros Hsub Ht l Hl Hu. apply Hsub. by apply Ht. Qed.

Lemma item_get_area_inj a b : item_get_area a = item_get_area b → a = b.
Proof. unfold item_get_area. lia. Qed.

(** The blocks around [x] are held whether [x] is or not. *)
Lemma tight_around s pend P cs A x B X l :
  inv s pend P cs (A ++ x :: B) → tight (X ∪ {[item_get_area (l_addr x)]}) (A ++ x :: B) →
  l ∈ A ++ B → l_used l = true → item_get_area (l_addr l) ∈ X.
Proof.
  intros HI Ht Hl Hu. destruct (inv_asc _ _ _ _ _ HI) as [lo Hasc].
  destruct (asc_not_elem _ _ _ _ _ l Hasc Hl) as [Hne _].
  assert (l ∈ A ++ x :: B) as Hl' by mem.
  pose proof (Ht l Hl' Hu) as Hin.
  apply elem_of_union in Hin as [?|Heq%elem_of_singleton]; [done|].
  by apply item_get_area_inj in Heq.
Qed.

Lemma tight_keep_left s pend P cs A x B X :
  inv s pend P cs (A ++ x :: B) → tight (X ∪ {[item_get_area (l_addr x)]}) (A ++ x :: B) →
  tight (X ∪ {[item_get_area (l_addr (left_child x true))]})
        (A ++ left_child x true :: right_child x false :: B).
Proof.
  intros HI Ht l Hl Hu. apply elem_of_union.
  apply elem_of_app in Hl as [Hl|Hl]; [left; eapply tight_around; [done..|mem|done]|].
  apply elem_of_cons in Hl as [->|Hl]; [right; by apply elem_of_singleton|].
  apply elem_of_cons in Hl as [->|Hl]; [done|].
  left. eapply tight_around; [done..|mem|done].
Qed.

Lemma tight_keep_right s pend P cs A x B X :
  inv s pend P cs (A ++ x :: B) → tight (X ∪ {[item_get_area (l_addr x)]}) (A ++ x :: B) →
  tight (X ∪ {[item_get_area (l_addr (right_child x true))]})
        (A ++ left_child x false :: right_child x true :: B).
Proof.
  intros HI Ht l Hl Hu. apply elem_of_union.
  apply elem_of_app in Hl as [Hl|Hl]; [left; eapply tight_around; [done..|mem|done]|].
  apply elem_of_cons in Hl as [->|Hl]; [done|].
  apply elem_of_cons in Hl as [->|Hl]; [right; by apply elem_of_singleton|].
  left. eapply tight_around; [done..|mem|done].
Qed.

Lemma tight_merge A x y B z X :
  l_used z = false → tight X (A ++ x :: y :: B) → tight X (A ++ z :: B).
Proof.
  intros Hz Ht l Hl Hu. apply Ht; [|done].
  apply elem_of_app in Hl as [Hl|Hl]; [mem|].
  apply elem_of_cons in Hl as [->|Hl]; [congruence|mem].
Qed.

Lemma tight_release s pend P cs A x B X :
  inv s pend P cs (A ++ x :: B) → tight X (A ++ x :: B) →
  tight (X ∖ {[item_get_area (l_addr x)]}) (A ++ set_used x false :: B).
Proof.
  intros HI Ht l Hl Hu. destruct (inv_asc _ _ _ _ _ HI) as [lo Hasc].
  assert (l ∈ A ++ B) as Hl'.
  { apply elem_of_app in Hl as [Hl|Hl]; [mem|].
    apply elem_of_cons in Hl as [->|Hl]; [done|mem]. }
  destruct (asc_not_elem _ _ _ _ _ l Hasc Hl') as [Hne _].
  apply elem_of_difference. split; [apply Ht; [mem|done]|].
  intros Heq%elem_of_singleton. by apply item_get_area_inj in Heq.
Qed.

(** *** split_item and coalesce keep the blocks coalesced *)

Lemma split_step_pk s P cs L x (n : Z) X :
  inv s {[l_addr x]} P cs L → packed L → tight (X ∪ {[item_get_area (l_addr x)]}) L →
  x ∈ L → 4 < l_idx x → n ≤ ladder (l_idx x - 1) →
  ∃ s' L' x',
    split_step s (l_idx x) (l_addr x) n = Some (s', l_idx x', l_addr x') ∧
    inv s' {[l_addr x']} P cs L' ∧ packed L' ∧
    tight (X ∪ {[item_get_area (l_addr x')]}) L' ∧ x' ∈ L' ∧ l_idx x' < l_idx x ∧
    n ≤ ladder (l_idx x').
Proof.
  intros HI Hp Htt Hx Hi Hn.
  pose proof (inv_leaf_idx _ _ _ _ _ _ HI Hx) as Hidx.
  destruct (hdr_ok_bits _ _ _ _ _ _ HI Hx) as (_ & Hlr & Hinh).
  destruct (cell_at_lookup (arr s) (l_idx x - 4)) as [c4 Hc4]; [lia|].
  destruct (cell_at_lookup (arr s) (l_idx x - 1)) as [c1 Hc1]; [lia|].
  pose proof (cells_ok_at _ _ _ (inv_cells _ _ _ _ _ HI) Hc4) as Hs4.
  pose proof (cells_ok_at _ _ _ (inv_cells _ _ _ _ _ HI) Hc1) as Hs1.
  apply list_elem_of_split in Hx as (A & B & ->).
  pose proof (tight_keep_left _ _ _ _ _ _ _ _ HI Htt) as Htl.
  pose proof (tight_keep_right _ _ _ _ _ _ _ _ HI Htt) as Htr.
  destruct (inv_split _ _ _ _ _ _ _ HI) as (HI' & Hul & Hur); [by apply elem_of_singleton|done|].
  destruct (children_geometry x true true Hi) as (Ga & Ge & Ge' & Gr).
  unfold split_step. rewrite Hc4, Hc1. simpl. rewrite Hlr, Hinh, Hs4, Hs1.
  set (right := l_addr x + ladder (l_idx x - 4) * BLOCK_SIZE) in *.
  set (h' := split_writes (heap s) (l_addr x) right (ladder (l_idx x - 4))
               (ladder (l_idx x - 1)) (l_lr x) (l_inh x)) in *.
  change (item_set_inh_bit _ right (l_inh x)) with h'.
  change (l_addr (right_child x true)) with right in Gr.
  destruct (Z.geb_spec (ladder (l_idx x - 4)) n) as [Hge|Hlt].
  - rewrite (insert_item_eq _ _ c1) by done. simpl.
    change (A ++ left_child x true :: right_child x true :: B)
      with (A ++ [left_child x true] ++ right_child x true :: B) in HI'.
    rewrite app_assoc in HI'.
    apply (inv_list _ _ _ _ _ _ _ c1) in HI'; simpl; [|done|mem_set|done|done].
    eexists _, _, (left_child x true). split; [done|]. split_and!.
    + eapply inv_pend_eq; [|exact HI']. simpl. fold right.
      apply set_eq. intros a. rewrite elem_of_difference, elem_of_union, !elem_of_singleton.
      lia.
    + rewrite <-app_assoc. apply (packed_split A x B true false); [done|by left].
    + rewrite <-app_assoc. exact Htl.
    + mem.
    + simpl. lia.
    + simpl. lia.
  - rewrite (insert_item_eq _ _ c4) by done. simpl.
    apply (inv_list _ _ _ _ _ _ _ c4) in HI'; simpl; [|done|mem_set|done|done].
    eexists _, _, (right_child x true). split; [done|]. split_and!.
    + eapply inv_pend_eq; [|exact HI']. simpl. fold right.
      apply set_eq. intros a. rewrite elem_of_difference, elem_of_union, !elem_of_singleton.
      lia.
    + apply (packed_split A x B false true); [done|by right].
    + exact Htr.
    + mem.
    + simpl. lia.
    + simpl. lia.
Qed.

Lemma split_loop_pk fuel s P cs L x (n : Z) X :
  inv s {[l_addr x]} P cs L → packed L → tight (X ∪ {[item_get_area (l_addr x)]}) L →
  x ∈ L → n ≤ ladder (l_idx x) →
  (Z.to_nat (l_idx x) ≤ fuel)%nat →
  ∃ s' L' x',
    split_loop fuel s (l_idx x) (l_addr x) n = Some (s', l_idx x', l_addr x') ∧
    inv s' {[l_addr x']} P cs L' ∧ packed L' ∧
    tight (X ∪ {[item_get_area (l_addr x')]}) L' ∧ x' ∈ L'.
Proof.
  revert s L x. induction fuel as [|fuel IH]; intros s L x HI Hp Htt Hx Hn Hfuel.
  - pose proof (inv_leaf_idx _ _ _ _ _ _ HI Hx). lia.
  - pose proof (inv_leaf_idx _ _ _ _ _ _ HI Hx) as Hidx.
    destruct (cell_at_lookup (arr s) (l_idx x - 1)) as [c1 Hc1]; [lia|].
    pose proof (cells_ok_at _ _ _ (inv_cells _ _ _ _ _ HI) Hc1) as Hs1.
    simpl. rewrite Hc1. simpl. rewrite Hs1.
    destruct (Z.geb_spec (ladder (l_idx x - 1)) n) as [Hge|Hlt];
      destruct (Z.gtb_spec (l_idx x) 4) as [Hi|Hi]; simpl.
    + destruct (split_step_pk _ _ _ _ _ n X HI Hp Htt Hx Hi Hge)
        as (s1 & L1 & x1 & -> & HI1 & Hp1 & Ht1 & Hx1 & Hlt1 & Hn1).
      simpl. destruct (IH _ _ _ HI1 Hp1 Ht1 Hx1 Hn1) as (s' & L' & x' & -> & ? & ? & ? & ?);
        [lia|].
      by exists s', L', x'.
    + by exists s, L, x.
    + by exists s, L, x.
    + by exists s, L, x.
Qed.

Lemma packed_finish s P cs L x n s1 curr X :
  inv s {[l_addr x]} P cs L → packed L → tight (X ∪ {[item_get_area (l_addr x)]}) L →
  x ∈ L → n ≤ ladder (l_idx x) →
  split_item s (l_idx x) (l_addr x) n = Some (s1, curr) →
  let s' := set_heap s1 (item_set_in_use (heap s1) curr true) in
  ∃ L', inv s' ∅ (P ∪ {[item_get_area curr]}) cs L' ∧ packed L' ∧
        tight (X ∪ {[item_get_area curr]}) L'.
Proof.
  intros HI Hp Htt Hx Hn Hsplit.
  destruct (split_loop_pk (Z.to_nat (l_idx x)) _ _ _ _ _ n X HI Hp Htt Hx Hn)
    as (s1' & L' & x' & Hloop & HI1 & Hp1 & Ht1 & Hx'); [lia|].
  unfold split_item in Hsplit. rewrite Hloop in Hsplit. cbn [mbind option_bind] in Hsplit.
  injection Hsplit as <- <-. cbv zeta.
  pose proof (inv_claim _ _ _ _ _ _ HI1 Hx') as HI2.
  apply (inv_pend_eq _ _ ∅) in HI2; [|apply set_eq; intros a; mem_set|mem_set].
  by exists L'.
Qed.

Lemma coalesce_step_pk s P cs L x buddy ibuddy X :
  inv s ∅ P cs L → packed_but x L → tight X L → x ∈ L → l_used x = false →
  item_get_buddy s (l_addr x) (l_idx x) = Some (buddy, ibuddy) →
  coalesce_test s buddy ibuddy = Some true →
  ∃ s' L' x' i' item' buddy' ibuddy',
    coalesce_step s (l_idx x) (l_addr x) buddy ibuddy
      = Some (s', i', item', buddy', ibuddy') ∧
    i' = l_idx x' ∧ item' = l_addr x' ∧
    inv s' ∅ P cs L' ∧ packed_but x' L' ∧ tight X L' ∧ x' ∈ L' ∧ l_used x' = false ∧
    l_idx x < l_idx x' ∧
    item_get_buddy s' (l_addr x') (l_idx x') = Some (buddy', ibuddy') ∧
    same_frame s s'.
Proof.
  intros HI Hpb Htt Hx Hxu Hb Ht.
  pose proof (inv_NoDup _ _ _ _ _ HI) as Hnd.
  destruct (buddy_analysis _ _ _ _ _ HI Hx Hxu) as (b0 & ib0 & go & Hb0 & Ht0 & Hgo).
  rewrite Hb in Hb0. injection Hb0 as <- <-. rewrite Ht in Ht0. injection Ht0 as <-.
  destruct (Hgo eq_refl) as (A & y & B & Hya & Hyi & Hyu & Hcase). clear Hgo.
  pose proof (inv_leaf_idx _ _ _ _ _ _ HI Hx) as Hidx.
  destruct (hdr_ok_bits _ _ _ _ _ _ HI Hx) as (_ & Hlr & Hinh).
  destruct (cell_at_lookup (arr s) (l_idx x)) as [ci Hci]; [lia|].
  assert (y ∈ L) as Hy by (destruct Hcase as [(_ & -> & _)|(_ & -> & _)]; mem).
  pose proof (inv_leaf_idx _ _ _ _ _ _ HI Hy) as Hyidx.
  destruct (hdr_ok_bits _ _ _ _ _ _ HI Hy) as (_ & _ & Hyinh).
  destruct (cell_at_lookup (arr s) (l_idx y)) as [cb Hcb]; [lia|].
  pose proof (l_end_gt x ltac:(lia)). pose proof (l_end_gt y ltac:(lia)).
  unfold coalesce_step.
  rewrite (delete_item_eq _ _ ci) by done. cbn [mbind option_bind].
  set (s1 := with_items s (l_idx x) ci (remove_first (l_addr x) (cell_items ci))).
  assert (cell_at (arr s1) ibuddy = Some cb) as Hcb1.
  { unfold s1. rewrite with_items_cell_at by done. rewrite <-Hyi.
    case_decide; [|done]. destruct Hcase as [(_ & _ & _ & ? & _)|(_ & _ & _ & ? & _)]; lia. }
  rewrite (delete_item_eq _ _ cb) by done. cbn [mbind option_bind].
  set (s2 := with_items s1 ibuddy cb (remove_first buddy (cell_items cb))).
  change (heap s2) with (heap s). rewrite Hlr.
  assert (same_frame s s2) as Hfr2.
  { apply (same_frame_trans _ s1); [by apply same_frame_with_items|].
    apply same_frame_with_items. exact Hcb1. }
  destruct Hcase as [(Hxlr & -> & Hadj & Hidx3 & Hf)|(Hxlr & -> & Hadj & Hidx3 & Hf)];
    rewrite Hxlr; unfold LEFT, RIGHT; cbn [negb].
  - (* the item is the left buddy *)
    destruct Hpb as (A0 & B0 & Heq & HA0 & HB0).
    apply NoDup_mid_inj in Heq as [<- <-]; [|done].
    assert (packed B) as HpB by (by destruct HB0).
    pose proof (tight_merge A x y B (parent x y) X eq_refl Htt) as Htm.
    pose proof HI as HI1. apply (inv_unlist_at _ _ _ _ _ _ _ ci) in HI1; [|done..].
    fold s1 in HI1.
    change (A ++ set_used x true :: y :: B)
      with (A ++ [set_used x true] ++ y :: B) in HI1. rewrite app_assoc in HI1.
    apply (inv_unlist_at _ _ _ _ _ _ _ cb) in HI1; [|done|by rewrite Hyi].
    rewrite Hyi, Hya in HI1. fold s2 in HI1. rewrite <-app_assoc in HI1.
    destruct (inv_merge _ _ _ _ _ _ _ _ HI1) as (_ & _ & Hbound);
      [simpl; mem_set|simpl; mem_set|done..|]. cbn [l_idx set_used] in Hbound.
    destruct (cell_at_lookup (arr s2) (l_idx x + 4)) as [c Hc]; [lia|].
    pose proof (cells_ok_at _ _ _ (inv_cells _ _ _ _ _ HI1) Hc) as Hcs.
    rewrite Hc. cbn [mbind option_bind]. rewrite Hcs, Hinh, <-Hya, Hyinh.
    apply (inv_pend_eq _ _ {[l_addr x; l_addr y]}) in HI1;
      [|apply set_eq; intros a; mem_set].
    pose proof (merge_tail s2 P cs A (set_used x true) (set_used y true) B c HI1
                  Hadj Hidx3 Hf Hc) as HI4.
    cbn [l_addr l_idx l_inh set_used] in HI4. change (heap s2) with (heap s) in HI4.
    set (h' := merge_writes (heap s) (l_addr x) (l_inh x) (l_inh y) (ladder (l_idx x + 4)))
      in *.
    change (item_set_in_use _ (l_addr x) false) with h'.
    set (s4 := with_items (set_heap s2 h') (l_idx x + 4) c (l_addr x :: cell_items c)) in *.
    assert (parent x y ∈ A ++ parent x y :: B) as Hz by mem.
    destruct (buddy_analysis _ _ _ _ _ HI4 Hz eq_refl) as (b' & ib' & _ & Hb' & _).
    unfold parent in Hb'. cbn [l_addr l_idx] in Hb'.
    rewrite <-(item_get_buddy_frame (set_heap s2 h') s4), Hb';
      [|done|by apply (same_frame_with_items (set_heap s2 h'))].
    cbn [mbind option_bind]. rewrite (insert_item_eq _ _ c) by done. fold s4.
    cbn [mbind option_bind].
    exists s4, (A ++ parent x y :: B), (parent x y). eexists _, _, _, _.
    split; [done|]. split_and!; try done.
    + by exists A, B.
    + simpl. lia.
    + eapply same_frame_trans; [exact Hfr2|].
      by apply (same_frame_with_items (set_heap s2 h')).
  - (* the item is the right buddy *)
    pose proof (tight_merge A y x B (parent y x) X eq_refl Htt) as Htm.
    destruct Hpb as (A0 & B0 & Heq & HA0 & HB0).
    change (A ++ y :: x :: B) with (A ++ [y] ++ x :: B) in Heq, Hnd.
    rewrite app_assoc in Heq, Hnd.
    apply NoDup_mid_inj in Heq as [<- <-]; [|done].
    apply packed_app in HA0 as [HpA _].
    pose proof HI as HI1.
    change (A ++ y :: x :: B) with (A ++ [y] ++ x :: B) in HI1. rewrite app_assoc in HI1.
    apply (inv_unlist_at _ _ _ _ _ _ _ ci) in HI1; [|done..].
    fold s1 in HI1. rewrite <-app_assoc in HI1. simpl in HI1.
    apply (inv_unlist_at _ _ _ _ _ _ _ cb) in HI1; [|done|by rewrite Hyi].
    rewrite Hyi, Hya in HI1. fold s2 in HI1.
    destruct (inv_merge _ _ _ _ _ _ _ _ HI1) as (_ & _ & Hbound);
      [simpl; mem_set|simpl; mem_set|done|simpl; lia|done|]. cbn [l_idx set_used] in Hbound.
    replace (l_idx x + 1) with (l_idx y + 4) by lia.
    destruct (cell_at_lookup (arr s2) (l_idx y + 4)) as [c Hc]; [lia|].
    pose proof (cells_ok_at _ _ _ (inv_cells _ _ _ _ _ HI1) Hc) as Hcs.
    rewrite Hc. cbn [mbind option_bind]. rewrite Hcs, Hinh, <-Hya, Hyinh.
    apply (inv_pend_eq _ _ {[l_addr y; l_addr x]}) in HI1;
      [|apply set_eq; intros a; mem_set].
    pose proof (merge_tail s2 P cs A (set_used y true) (set_used x true) B c HI1
                  Hadj ltac:(simpl; lia) Hf Hc) as HI4.
    cbn [l_addr l_idx l_inh set_used] in HI4. change (heap s2) with (heap s) in HI4.
    set (h' := merge_writes (heap s) (l_addr y) (l_inh y) (l_inh x) (ladder (l_idx y + 4)))
      in *.
    change (item_set_in_use _ (l_addr y) false) with h'.
    set (s4 := with_items (set_heap s2 h') (l_idx y + 4) c (l_addr y :: cell_items c)) in *.
    assert (parent y x ∈ A ++ parent y x :: B) as Hz by mem.
    destruct (buddy_analysis _ _ _ _ _ HI4 Hz eq_refl) as (b' & ib' & _ & Hb' & _).
    unfold parent in Hb'. cbn [l_addr l_idx] in Hb'.
    rewrite <-(item_get_buddy_frame (set_heap s2 h') s4), Hb';
      [|done|by apply (same_frame_with_items (set_heap s2 h'))].
    cbn [mbind option_bind]. rewrite (insert_item_eq _ _ c) by done. fold s4.
    cbn [mbind option_bind].
    exists s4, (A ++ parent y x :: B), (parent y x). eexists _, _, _, _.
    split; [done|]. split_and!; try done.
    + by exists A, B.
    + simpl. lia.
    + eapply same_frame_trans; [exact Hfr2|].
      by apply (same_frame_with_items (set_heap s2 h')).
Qed.


Lemma coalesce_loop_pk fuel s P cs L x buddy ibuddy X :
  inv s ∅ P cs L → packed_but x L → tight X L → x ∈ L → l_used x = false →
  item_get_buddy s (l_addr x) (l_idx x) = Some (buddy, ibuddy) →
  (Z.to_nat (array_size (arr s) - l_idx x) ≤ fuel)%nat →
  ∃ s' L' r,
    coalesce_loop fuel s (l_idx x) (l_addr x) buddy ibuddy = Some (s', r.1, r.2) ∧
    inv s' ∅ P cs L' ∧ packed L' ∧ tight X L'.
Proof.
  revert s L x buddy ibuddy.
  induction fuel as [|fuel IH]; intros s L x buddy ibuddy HI Hp Htt Hx Hxu Hb Hfuel.
  - pose proof (inv_leaf_idx _ _ _ _ _ _ HI Hx). lia.
  - destruct (buddy_analysis _ _ _ _ _ HI Hx Hxu) as (b0 & ib0 & go & Hb0 & Ht & _).
    rewrite Hb in Hb0. injection Hb0 as <- <-.
    cbn [coalesce_loop]. rewrite Ht. cbn [mbind option_bind].
    destruct go.
    + destruct (coalesce_step_pk _ _ _ _ _ _ _ X HI Hp Htt Hx Hxu Hb Ht)
        as (s1 & L1 & x1 & i1 & item1 & b1 & ib1 & -> & -> & -> & HI1 & Hp1 & Ht1 & Hx1
            & Hxu1 & Hlt & Hb1 & Hfr1).
      cbn [mbind option_bind].
      pose proof (same_frame_size _ _ Hfr1) as Hsz.
      destruct (IH _ _ _ _ _ HI1 Hp1 Ht1 Hx1 Hxu1 Hb1) as (s' & L' & r & -> & ? & ? & ?);
        [lia|].
      by exists s', L', r.
    + exists s, L, (l_idx x, l_addr x). split; [done|]. split; [done|].
      split; [by eapply packed_close|done].
Qed.

Lemma mem_free_insert_pk s P cs L area X :
  inv s ∅ P cs L → packed L → tight X L → freeable L P area →
  ∃ s' L' x,
    mem_free_insert s area = Some (s', l_idx x) ∧
    inv s' ∅ P cs L' ∧ packed_but x L' ∧ tight (X ∖ {[area]}) L' ∧ x ∈ L' ∧
    l_used x = false ∧
    (∃ c, cell_at (arr s') (l_idx x) = Some c ∧ head (cell_items c) = Some (l_addr x)).
Proof.
  intros HI Hp Htt (HP & x & Hx & Hxa & Hxu).
  pose proof (inv_leaf_idx _ _ _ _ _ _ HI Hx) as Hidx.
  destruct (hdr_ok_bits _ _ _ _ _ _ HI Hx) as (Hsz & _ & _).
  destruct (cell_at_lookup (arr s) (l_idx x)) as [c Hc]; [lia|].
  pose proof Hc as [_ Hc']%cell_at_Some.
  assert (find_size (cells (arr s)) (ladder (l_idx x)) 0 = Some (l_idx x)) as Hfind.
  { rewrite (find_size_spec _ _ 0 (Z.to_nat (l_idx x)) c); [f_equal; lia| |lia|done|].
    - intros j c' Hj. destruct (inv_cells _ _ _ _ _ HI) as [_ H]. rewrite (H _ _ Hj).
      f_equal; lia.
    - f_equal; lia. }
  assert (item_get_area (l_addr x) = area) as Harea.
  { rewrite Hxa. unfold item_get_area, item_from_area. lia. }
  unfold mem_free_insert. rewrite <-Hxa, Hsz, Hfind.
  cbn [mbind option_bind].
  destruct (inv_release _ _ _ _ _ _ HI Hx Hxu) as [HI1 Hu].
  { by rewrite Harea. }
  apply list_elem_of_split in Hx as (A & B & ->).
  pose proof (tight_release _ _ _ _ _ _ _ _ HI Htt) as Htr. rewrite Harea in Htr.
  apply (inv_list _ _ _ _ _ _ _ c) in HI1; [|done|mem_set|done|done].
  rewrite (insert_item_eq _ _ c) by done. cbn [mbind option_bind].
  eexists _, _, (set_used x false). split; [done|]. split_and!; try done.
  - eapply inv_pend_eq; [|exact HI1]. apply set_eq. intros a. mem_set.
  - by eapply packed_packed_but.
  - mem.
  - exists (Cell (cell_size c) (l_addr x :: cell_items c)). split; [|done].
    cbn [l_idx set_used]. by rewrite with_items_cell_at, decide_True.
Qed.

Lemma packed_free s P cs L area s' X :
  inv s ∅ P cs L → packed L → tight X L → freeable L P area →
  mem_free s area = Some s' →
  ∃ L', inv s' ∅ P cs L' ∧ packed L' ∧ tight (X ∖ {[area]}) L'.
Proof.
  intros HI Hp Htt Hfr Hfree.
  destruct (mem_free_insert_pk _ _ _ _ _ X HI Hp Htt Hfr)
    as (s1 & L1 & x & Hins & HI1 & Hp1 & Ht1 & Hx & Hxu & c & Hc & Hhead).
  pose proof (inv_leaf_idx _ _ _ _ _ _ HI1 Hx) as Hidx.
  destruct (buddy_analysis _ _ _ _ _ HI1 Hx Hxu) as (buddy & ibuddy & _ & Hb & _).
  destruct (coalesce_loop_pk (length (cells (arr s1))) _ _ _ _ _ _ _ _ HI1 Hp1 Ht1 Hx Hxu Hb)
    as (s2 & L2 & r & Hloop & HI2 & Hp2 & Ht2).
  { unfold array_size in *. lia. }
  unfold mem_free, coalesce, coalesce_end in Hfree. rewrite Hins in Hfree.
  cbn [mbind option_bind] in Hfree. rewrite Hc in Hfree. cbn [mbind option_bind] in Hfree.
  rewrite Hhead in Hfree. cbn [mbind option_bind] in Hfree. rewrite Hb in Hfree.
  cbn [mbind option_bind] in Hfree. rewrite Hloop in Hfree.
  cbn [mbind option_bind] in Hfree. injection Hfree as <-.
  by exists L2.
Qed.

Lemma neat_swap lo U s d cs L :
  neat lo (U ∪ {[d]}) s cs L →
  neat lo (U ∪ {[data (arr s)]})
    (set_arr s (Array d (cells (arr s)) (capacity (arr s)))) cs L.
Proof.
  intros (Hch & Hp & Ht). split; [done|]. split; [done|].
  eapply tight_mono; [|exact Ht]. simpl. intros a. mem_set.
Qed.

Lemma neat_unlist lo U s cs A x B :
  neat lo U s cs (A ++ x :: B) →
  neat_mid lo U (set_used x true) s cs (A ++ set_used x true :: B).
Proof.
  intros (Hch & Hp & Ht). split; [done|]. split; [by apply packed_set_used|].
  intros l Hl Hu. apply elem_of_union.
  apply elem_of_app in Hl as [Hl|Hl]; [left; apply Ht; [mem|done]|].
  apply elem_of_cons in Hl as [->|Hl]; [right; by apply elem_of_singleton|].
  left. apply Ht; [mem|done].
Qed.

Lemma neat_new lo U s pend P cs L i s' item inh :
  inv s pend P cs L → neat lo U s cs L → 1 ≤ i < array_size (arr s) →
  alloc_new_item s (ladder i) = (s', item) →
  neat_mid lo U (Leaf (brk s + POINTER_SIZE) i LEFT inh true) s'
    (cs ++ [(brk s + POINTER_SIZE, i)]) (L ++ [Leaf (brk s + POINTER_SIZE) i LEFT inh true]).
Proof.
  intros HI (Hch & Hp & Ht) Hi Hnew.
  assert (0 ≤ i) as Hi0 by lia.
  assert (ladder i < 2 ^ 29) as Hsmall.
  { apply ladder_small. destruct (inv_cells _ _ _ _ _ HI) as [[_ Hmax] _].
    unfold array_size in Hi. lia. }
  assert (arr s' = arr s) as Harr.
  { pose proof (alloc_new_item_arr s (ladder i)) as H. by rewrite Hnew in H. }
  split; [|split].
  - intros Hlo. exact (chunks_ok_new _ _ _ _ _ _ _ _ _ HI (Hch Hlo) Hi0 Hsmall Hnew).
  - by apply packed_nil_snoc.
  - rewrite Harr. intros l Hl Hu. apply elem_of_union.
    apply elem_of_app in Hl as [Hl|Hl]; [left; by apply Ht|].
    apply list_elem_of_singleton in Hl as ->. right. by apply elem_of_singleton.
Qed.

Lemma neat_finish lo U s P cs L x n s1 curr :
  inv s {[l_addr x]} P cs L → neat_mid lo U x s cs L → x ∈ L → n ≤ ladder (l_idx x) →
  split_item s (l_idx x) (l_addr x) n = Some (s1, curr) →
  let s' := set_heap s1 (item_set_in_use (heap s1) curr true) in
  ∃ L', inv s' ∅ (P ∪ {[item_get_area curr]}) cs L' ∧
        neat lo (U ∪ {[item_get_area curr]}) s' cs L'.
Proof.
  intros HI (Hch & Hp & Ht) Hx Hn Hsplit.
  destruct (alloc_finish _ _ _ _ _ n HI Hx Hn)
    as (s3' & L0 & x' & Hsplit' & _ & _ & _ & Hfr & _).
  rewrite Hsplit in Hsplit'. injection Hsplit' as <- ->.
  pose proof (alloc_finish_out _ _ _ _ _ _ _ _ HI Hx Hn Hsplit) as Hk.
  destruct (packed_finish _ _ _ _ _ _ _ _ _ HI Hp Ht Hx Hn Hsplit) as (L' & HI' & Hp' & Ht').
  destruct Hfr as (Hdata & _ & Hbrk & Hml & _).
  exists L'. split; [done|]. split; [|split; [done|]].
  - intros Hlo. exact (chunks_ok_kept _ _ _ _ _ _ _ HI (Hch Hlo) Hk Hbrk Hml).
  - rewrite Hdata. eapply tight_mono; [|exact Ht']. intros a. mem_set.
Qed.

Lemma neat_free lo U s P cs L area s' :
  inv s ∅ P cs L → neat lo U s cs L → freeable L P area → mem_free s area = Some s' →
  ∃ L', inv s' ∅ P cs L' ∧ neat lo (U ∖ {[area]}) s' cs L'.
Proof.
  intros HI (Hch & Hp & Ht) Hfr Hfree.
  destruct (mem_free_inv _ _ _ _ _ HI Hfr) as (s'' & L0 & Hfree' & _ & Hfr').
  rewrite Hfree in Hfree'. injection Hfree' as <-.
  pose proof (mem_free_out _ _ _ _ _ _ HI Hfr Hfree) as Hk.
  destruct (packed_free _ _ _ _ _ _ _ HI Hp Ht Hfr Hfree) as (L' & HI' & Hp' & Ht').
  destruct Hfr' as (Hdata & _ & Hbrk & Hml & _).
  exists L'. split; [done|]. split; [|split; [done|]].
  - intros Hlo. exact (chunks_ok_kept _ _ _ _ _ _ _ HI (Hch Hlo) Hk Hbrk Hml).
  - rewrite Hdata. eapply tight_mono; [|exact Ht']. intros a. mem_set.
Qed.

Lemma run_neat lo fuel ops s U s' U' :
  xinv (neat lo) s U → run fuel ops s U = Some (s', U') → xinv (neat lo) s' U'.
Proof.
  apply (run_x (neat lo) (neat_mid lo)).
  - by intros.
  - apply neat_swap.
  - apply neat_unlist.
  - apply neat_new.
  - apply neat_finish.
  - apply neat_free.
Qed.

Lemma mem_init_neat s0 s1 : mem_init s0 = Some s1 → xinv (neat (brk s0)) s1 ∅.
Proof.
  unfold mem_init. rewrite array_init_eq. cbv zeta.
  set (s := State (heap s0) (arr s0) NULL (brk s0)).
  set (pre := set_arr s (Array 0 init_cells ARRAY_INIT_CAPACITY)).
  assert (inv pre ∅ ∅ [] []) as HI.
  { split; simpl;
      [apply init_cells_ok|done|constructor|exists (brk s0); simpl; lia
      |constructor|constructor| | |].
    - intros j c Hj. split.
      + do 11 (destruct j as [|j]; [injection Hj as <-; constructor|]). done.
      + intros a. split.
        * do 11 (destruct j as [|j]; [injection Hj as <-; by intros ?%elem_of_nil|]). done.
        * intros (l & ?%elem_of_nil & _). done.
    - intros p ?%elem_of_empty. done.
    - intros a ?%elem_of_empty. done. }
  destruct (inv_new_chunk _ _ _ _ _ 10 HI) as (s1' & inh & Hnew & Harr & HI1);
    [by vm_compute|].
  assert (0 ≤ 10) as H10 by lia.
  assert (ladder 10 < 2 ^ 29) as Hl10 by (by vm_compute).
  assert (0 < brk s0 → chunks_ok s1' (brk s0) ([] ++ [(brk pre + POINTER_SIZE, 10)]))
    as Hch1.
  { intros Hpos. assert (chunks_ok pre (brk s0) []) as Hch by done.
    exact (chunks_ok_new _ _ _ _ _ _ 10 _ _ HI Hch H10 Hl10 Hnew). }
  change (ladder 10) with DATA_INIT_BLOCKS in Hnew.
  assert (alloc_new_item s DATA_INIT_BLOCKS = (set_arr s1' (arr s), brk s0 + POINTER_SIZE))
    as Hnew'.
  { unfold alloc_new_item, malloc in *. simpl in *. injection Hnew as <-. done. }
  rewrite Hnew'. cbn [fst snd]. intros [= <-].
  assert (Leaf (brk pre + POINTER_SIZE) 10 LEFT inh true
            ∈ [] ++ [Leaf (brk pre + POINTER_SIZE) 10 LEFT inh true]) as Hx by mem.
  pose proof (inv_claim _ _ _ _ _ _ HI1 Hx ltac:(simpl; mem_set)) as HI2.
  apply (inv_set_data _ _ _ _ _ (item_get_area (brk s0 + POINTER_SIZE))) in HI2.
  unfold set_arr, set_heap in HI2. cbn [arr heap mem_list brk] in HI2.
  rewrite Harr in HI2. cbn [arr cells capacity pre set_arr] in HI2.
  split; [by intros ?%elem_of_empty|].
  eexists _, _. simpl. split; [|split; [|split]].
  - eapply inv_pend_eq; [|exact HI2]. apply set_eq. intros a. mem_set.
  - intros Hpos. apply (chunks_ok_kept s1' _ _ _ _ _ _ HI1 (Hch1 Hpos)); [|done..].
    intros a Ha. cbn [heap]. apply same_at_set_flag. intros <-.
    apply (Ha (brk s0 + POINTER_SIZE, 10)); [by left|].
    pose proof (chunk_extent (brk s0 + POINTER_SIZE, 10) H10). simpl in *. lia.
  - done.
  - intros l Hl%list_elem_of_singleton Hu. subst l. simpl.
    apply elem_of_union. right. by apply elem_of_singleton.
Qed.

(** The blocks of one chunk within the list of all blocks. *)
Lemma forest_covers cs L c :
  forest cs L → c ∈ cs → ∃ A Lc B inh, L = A ++ Lc ++ B ∧ covers c.1 c.2 LEFT inh Lc.
Proof.
  induction 1 as [|b i inh L cs L' Hc Hf IH]; intros Hin.
  - by apply elem_of_nil in Hin.
  - apply elem_of_cons in Hin as [->|Hin].
    + by exists [], L, L', inh.
    + destruct (IH Hin) as (A & Lc & B & inh' & -> & Hcov).
      exists (L ++ A), Lc, B, inh'. by rewrite <-app_assoc.
Qed.

(** A split block whose parts are all free and coalesced is not split
    at all. *)
Lemma covers_packed_free a i lr inh L :
  covers a i lr inh L → packed L → (∀ l, l ∈ L → l_used l = false) →
  L = [Leaf a i lr inh false].
Proof.
  induction 1 as [a i lr inh u|a i lr inh L1 L2 Hi H1 IH1 H2 IH2]; intros Hp Hfree.
  - rewrite <-(Hfree (Leaf a i lr inh u)); [done|by left].
  - exfalso. destruct (packed_app _ _ Hp) as [Hp1 Hp2].
    rewrite IH1 in Hp; [|done|intros l Hl; apply Hfree; mem].
    rewrite IH2 in Hp; [|done|intros l Hl; apply Hfree; mem].
    destruct Hp as [Hu _].
    destruct Hu as [Hu|Hu]; try done; unfold l_end; simpl; lia.
Qed.

Lemma reachable_neat s0 s1 fuel ops s U :
  mem_init s0 = Some s1 → run fuel ops s1 ∅ = Some (s, U) → xinv (neat (brk s0)) s U.
Proof. intros Hinit Hrun. eapply run_neat; [by apply mem_init_neat|done]. Qed.

(** X19 (coalesce, lines 836-873; mem_free, lines 891-910; split_item,
    lines 579-619; item_get_buddy, lines 752-769): coalescing is eager.
    After mem_init and any run of mem_alloc and mem_free that leaves the
    array at most [MAX_CELLS] cells long, the loop test of coalesce is
    false at every item of every free list: the buddy of a free block
    is in use, or it is split. *)
Theorem free_items_coalesced s U i c item :
  reachable s U → cell_at (arr s) i = Some c → item ∈ cell_items c →
  ∃ buddy ibuddy,
    item_get_buddy s item i = Some (buddy, ibuddy) ∧
    coalesce_test s buddy ibuddy = Some false ∧
    (item_is_in_use (heap s) buddy = true ∨
     ∃ cb, cell_at (arr s) ibuddy = Some cb ∧
           item_get_size (heap s) buddy ≠ cell_size cb).
Proof.
  intros (s0 & s1 & fuel & ops & Hinit & Hrun) Hc Hitem.
  destruct (reachable_neat _ _ _ _ _ _ Hinit Hrun) as (_ & cs & L & HI & _ & Hp & _).
  apply cell_at_Some in Hc as [Hi Hc].
  destruct (inv_lists _ _ _ _ _ HI _ _ Hc) as [_ Hiff].
  apply Hiff in Hitem as (l & Hl & <- & Hli & Hlu).
  replace i with (l_idx l) by lia.
  destruct (packed_test_false _ _ _ _ _ HI Hp Hl Hlu) as (b & ib & Hb & Ht).
  exists b, ib. split; [done|]. split; [done|].
  unfold coalesce_test in Ht.
  destruct (item_is_in_use (heap s) b); [by left|]. right.
  destruct (cell_at (arr s) ib) as [cb|]; [|done]. exists cb. split; [done|].
  cbn [mbind option_bind] in Ht. injection Ht as Hne. apply Z.eqb_neq in Hne. lia.
Qed.

Lemma free_items_coalesced_witness :
  ∃ buddy ibuddy,
    item_get_buddy s_l.1 5064 4 = Some (buddy, ibuddy) ∧
    coalesce_test s_l.1 buddy ibuddy = Some false ∧
    (item_is_in_use (heap s_l.1) buddy = true ∨
     ∃ cb, cell_at (arr s_l.1) ibuddy = Some cb ∧
           item_get_size (heap s_l.1) buddy ≠ cell_size cb).
Proof.
  apply (free_items_coalesced s_l.1 s_l.2 4 (Cell 10 [4800; 5064]) 5064).
  - apply reachable_l.
  - by vm_compute.
  - apply (bool_decide_unpack _). by vm_compute.
Defined.

(** X20 (mem_free, lines 891-910; coalesce, lines 836-873; mem_alloc,
    lines 691-729; alloc_new_item, lines 644-660): after mem_init and
    any run of mem_alloc and mem_free that leaves the array at most
    [MAX_CELLS] cells long (the host never returning NULL), the chunks
    are those of the list of [mem_list], and a chunk in which no area is
    held, neither by the caller nor by the array, is one free block
    again: its first item is on the free list of the chunk's size and
    spans the chunk up to the sentinel. *)
Theorem idle_chunk_one_block s0 s1 fuel ops s U :
  0 < brk s0 → mem_init s0 = Some s1 → run fuel ops s1 ∅ = Some (s, U) →
  ∃ cs,
    tiles (brk s0) cs (brk s) ∧
    chain (heap s) (mem_list s) (reverse (chunk_base <$> cs)) ∧
    ∀ c, c ∈ cs →
      (∀ p, p ∈ U ∪ {[data (arr s)]} → ¬ (chunk_base c ≤ p < chunk_end c)) →
      ∃ cl, cell_at (arr s) c.2 = Some cl ∧
            chunk_base c + POINTER_SIZE ∈ cell_items cl ∧
            item_is_in_use (heap s) (chunk_base c + POINTER_SIZE) = false ∧
            item_get_size (heap s) (chunk_base c + POINTER_SIZE) = cell_size cl ∧
            cell_size cl * BLOCK_SIZE = chunk_end c - chunk_base c - 2 * POINTER_SIZE.
Proof.
  intros Hpos Hinit Hrun.
  destruct (reachable_neat _ _ _ _ _ _ Hinit Hrun) as (_ & cs & L & HI & Hch & Hp & Ht).
  destruct (Hch Hpos) as (_ & Htiles & Hchain).
  exists cs. split; [done|]. split; [done|]. intros c Hc Hidle.
  destruct (forest_covers _ _ _ (inv_forest _ _ _ _ _ HI) Hc)
    as (A & Lc & B & inh & -> & Hcov).
  pose proof (inv_chunks _ _ _ _ _ HI) as Hchunks. rewrite Forall_forall in Hchunks.
  destruct (Hchunks _ Hc) as (Hci & _).
  assert (1 ≤ c.2) as Hc1 by lia.
  pose proof (covers_asc _ _ _ _ _ Hc1 Hcov) as Hasc.
  apply asc_Forall in Hasc. rewrite Forall_forall in Hasc.
  assert (∀ l, l ∈ Lc → l_used l = false) as Hfree.
  { intros l Hl. destruct (l_used l) eqn:Hu; [|done]. exfalso.
    assert (l ∈ A ++ Lc ++ B) as Hl' by mem.
    destruct (Hasc _ Hl) as (Hlo & Hhi & Hidx).
    pose proof (l_end_gt l ltac:(lia)).
    apply (Hidle _ (Ht _ Hl' Hu)).
    unfold chunk_base, chunk_end, sentinel, item_get_area, POINTER_SIZE. lia. }
  apply packed_app in Hp as [_ Hp]. apply packed_app in Hp as [Hp _].
  pose proof (covers_packed_free _ _ _ _ _ Hcov Hp Hfree) as ->.
  set (x := Leaf c.1 c.2 LEFT inh false).
  assert (x ∈ A ++ [x] ++ B) as Hx by mem.
  destruct (cell_at_lookup (arr s) c.2) as [cl Hcl]; [lia|].
  pose proof (cells_ok_at _ _ _ (inv_cells _ _ _ _ _ HI) Hcl) as Hsz.
  pose proof (inv_hdr _ _ _ _ _ HI) as Hhdr. rewrite Forall_forall in Hhdr.
  destruct (Hhdr _ Hx) as (Hxs & _ & _ & Hxu).
  replace (chunk_base c + POINTER_SIZE) with c.1 by (unfold chunk_base; lia).
  exists cl. split; [done|]. split_and!.
  - apply cell_at_Some in Hcl as [_ Hcl].
    destruct (inv_lists _ _ _ _ _ HI _ _ Hcl) as [_ Hiff]. apply Hiff.
    exists x. split_and!; [done..|simpl; lia|done].
  - apply Hxu. by intros ?%elem_of_empty.
  - by rewrite Hsz.
  - rewrite Hsz. unfold chunk_base, chunk_end, sentinel. lia.
Qed.

Lemma idle_chunk_one_block_witness :
  ∃ cs,
    tiles (brk boot) cs (brk s_f.1) ∧
    chain (heap s_f.1) (mem_list s_f.1) (reverse (chunk_base <$> cs)) ∧
    ∀ c, c ∈ cs →
      (∀ p, p ∈ s_f.2 ∪ {[data (arr s_f.1)]} → ¬ (chunk_base c ≤ p < chunk_end c)) →
      ∃ cl, cell_at (arr s_f.1) c.2 = Some cl ∧
            chunk_base c + POINTER_SIZE ∈ cell_items cl ∧
            item_is_in_use (heap s_f.1) (chunk_base c + POINTER_SIZE) = false ∧
            item_get_size (heap s_f.1) (chunk_base c + POINTER_SIZE) = cell_size cl ∧
            cell_size cl * BLOCK_SIZE = chunk_end c - chunk_base c - 2 * POINTER_SIZE.
Proof.
  apply (idle_chunk_one_block boot s_init 2 ops_f s_f.1 s_f.2).
  - by vm_compute.
  - by vm_compute.
  - by vm_compute.
Defined.

(** The parts of a split block leave no gap. *)
Lemma covers_tiled a i lr inh L w :
  covers a i lr inh L → a ≤ w < a + ladder i * BLOCK_SIZE →
  ∃ l, l ∈ L ∧ l_addr l ≤ w < l_end l.
Proof.
  induction 1 as [a i lr inh u|a i lr inh L1 L2 Hi H1 IH1 H2 IH2]; intros Hw.
  - exists (Leaf a i lr inh u). split; [by left|done].
  - rewrite (ladder_rec i) in Hw by lia.
    destruct (Z.lt_ge_cases w (a + ladder (i - 4) * BLOCK_SIZE)) as [Hlt|Hge].
    + destruct IH1 as (l & Hl & Hlw); [lia|]. exists l. split; [mem|done].
    + destruct IH2 as (l & Hl & Hlw); [lia|]. exists l. split; [mem|done].
Qed.

(** X21 (split_item, lines 579-619; coalesce, lines 836-873; mem_alloc,
    lines 691-729; mem_free, lines 891-910): no memory is lost.  After
    mem_init and any run of mem_alloc and mem_free that leaves the array
    at most [MAX_CELLS] cells long (the host never returning NULL),
    every byte of a chunk between its list link and its sentinel lies
    in a block that the caller or the array holds, or in a block of a
    free list. *)
Theorem chunk_bytes_accounted s0 s1 fuel ops s U :
  0 < brk s0 → mem_init s0 = Some s1 → run fuel ops s1 ∅ = Some (s, U) →
  ∃ cs,
    tiles (brk s0) cs (brk s) ∧
    ∀ c a, c ∈ cs → chunk_base c + POINTER_SIZE ≤ a < chunk_end c - POINTER_SIZE →
      (∃ p, p ∈ U ∪ {[data (arr s)]} ∧
            item_from_area p ≤ a
            < item_from_area p + item_get_size (heap s) (item_from_area p) * BLOCK_SIZE) ∨
      (∃ x, x ∈ all_items (cells (arr s)) ∧
            x ≤ a < x + item_get_size (heap s) x * BLOCK_SIZE).
Proof.
  intros Hpos Hinit Hrun.
  destruct (reachable_neat _ _ _ _ _ _ Hinit Hrun) as (_ & cs & L & HI & Hch & Hp & Ht).
  destruct (Hch Hpos) as (_ & Htiles & _).
  exists cs. split; [done|]. intros c a Hc Ha.
  destruct (forest_covers _ _ _ (inv_forest _ _ _ _ _ HI) Hc)
    as (A & Lc & B & inh & -> & Hcov).
  destruct (covers_tiled _ _ _ _ _ a Hcov) as (l & Hl & Hla).
  { unfold chunk_base, chunk_end, sentinel in Ha. lia. }
  assert (l ∈ A ++ Lc ++ B) as Hl' by mem.
  destruct (hdr_ok_bits _ _ _ _ _ _ HI Hl') as (Hsz & _).
  pose proof (inv_leaf_idx _ _ _ _ _ _ HI Hl') as Hidx.
  unfold l_end in Hla.
  destruct (l_used l) eqn:Hu.
  - left. exists (item_get_area (l_addr l)). split; [by apply Ht|].
    replace (item_from_area (item_get_area (l_addr l))) with (l_addr l)
      by (unfold item_from_area, item_get_area; lia).
    by rewrite Hsz.
  - right. exists (l_addr l). rewrite Hsz. split; [|done].
    destruct (cell_at_lookup (arr s) (l_idx l)) as [cl Hcl]; [lia|].
    apply cell_at_Some in Hcl as [_ Hcl].
    apply list_elem_of_bind. exists cl. split; [|by eapply list_elem_of_lookup_2].
    destruct (inv_lists _ _ _ _ _ HI _ _ Hcl) as [_ Hiff]. apply Hiff.
    exists l. split_and!; [done..|lia|done].
Qed.

Lemma chunk_bytes_accounted_witness :
  ∃ cs,
    tiles (brk boot) cs (brk s_l.1) ∧
    ∀ c a, c ∈ cs → chunk_base c + POINTER_SIZE ≤ a < chunk_end c - POINTER_SIZE →
      (∃ p, p ∈ s_l.2 ∪ {[data (arr s_l.1)]} ∧
            item_from_area p ≤ a
            < item_from_area p + item_get_size (heap s_l.1) (item_from_area p) * BLOCK_SIZE) ∨
      (∃ x, x ∈ all_items (cells (arr s_l.1)) ∧
            x ≤ a < x + item_get_size (heap s_l.1) x * BLOCK_SIZE).
Proof.
  apply (chunk_bytes_accounted boot s_init 2 ops_l s_l.1 s_l.2).
  - by vm_compute.
  - by vm_compute.
  - by vm_compute.
Defined.

(** *** Writes of the caller *)

(** Writes of the caller reach no header and no sentinel. *)
Lemma scribbled_inv s U cs L h :
  inv s ∅ (U ∪ {[data (arr s)]}) cs L → scribbled s U h →
  inv (set_heap s h) ∅ (U ∪ {[data (arr s)]}) cs L.
Proof.
  intros HI Hw. destruct (inv_asc _ _ _ _ _ HI) as [lo Hasc].
  pose proof (inv_hdr _ _ _ _ _ HI) as Hhdr. rewrite Forall_forall in Hhdr.
  pose proof (inv_chunks _ _ _ _ _ HI) as Hch. rewrite Forall_forall in Hch.
  apply inv_set_heap; [done| |]; apply Forall_forall.
  - intros l Hl. apply (hdr_ok_same (heap s)); [|by apply Hhdr].
    apply Hw. intros q Hq.
    destruct (inv_held_block _ _ _ _ q HI) as (lq & Hlq & Haq & _ & _ & _ & Heq);
      [mem_set_in|].
    pose proof (inv_leaf_idx _ _ _ _ _ _ HI Hl).
    pose proof (l_end_gt l ltac:(lia)).
    unfold item_from_area, POINTER_SIZE in *.
    destruct (decide (l_addr l = l_addr lq)) as [Heqa|Hnea]; [left; lia|].
    assert (l ≠ lq) as Hne by (by intros ->).
    destruct (asc_disjoint _ _ _ _ _ Hasc Hl Hlq Hne); [left|right]; lia.
  - intros c Hc. destruct (Hch _ Hc) as (_ & Huse & _ & Hno).
    rewrite (in_use_same (heap s)); [done|].
    apply Hw. intros q Hq.
    destruct (inv_held_block _ _ _ _ q HI) as (lq & Hlq & Haq & _ & _ & _ & Heq);
      [mem_set_in|].
    specialize (Hno _ Hlq). unfold item_from_area, POINTER_SIZE in *. lia.
Qed.

Lemma scribbled_tinv s U h : tinv s U → scribbled s U h → tinv (set_heap s h) U.
Proof.
  intros (Hd & cs & L & HI) Hw. split; [done|]. exists cs, L.
  exact (scribbled_inv _ _ _ _ _ HI Hw).
Qed.

Lemma ureach_tinv s U : ureach s U → tinv s U.
Proof.
  induction 1 as [s0 s Hinit|s U fuel x s' p _ IH Hx Halloc Hfits
                 |s U p s' _ IH Hp Hfree|s U h _ IH Hw].
  - destruct (mem_init_tinv s0) as (s1 & Hinit' & HT & _).
    rewrite Hinit in Hinit'. by injection Hinit' as <-.
  - apply Z.leb_le in Hfits. assert (0 ≤ x) as Hx0 by lia.
    by destruct (mem_alloc_ok fuel _ _ _ _ _ IH Hx0 Halloc Hfits) as (? & _).
  - destruct (mem_free_tinv _ _ _ IH Hp) as (s'' & Hfree' & HT & _).
    rewrite Hfree in Hfree'. by injection Hfree' as <-.
  - by apply scribbled_tinv.
Qed.

Lemma run_ureach fuel ops s U s' U' :
  ureach s U → run fuel ops s U = Some (s', U') → ureach s' U'.
Proof.
  revert s U. induction ops as [|[x|area] ops IH]; intros s U HR Hrun; simpl in Hrun.
  - by injection Hrun as <- <-.
  - destruct (Z.leb_spec 0 x); [|done]. destruct (Z.ltb_spec x (2 ^ 32)); [|done].
    simpl in Hrun.
    apply bind_Some in Hrun as ([s1 p] & Halloc & Hrun).
    destruct (fits s1) eqn:Hfits; [|done].
    apply (IH s1 (U ∪ {[p]})); [|done]. by eapply ureach_alloc.
  - case_decide as Hin; [|done].
    apply bind_Some in Hrun as (s1 & Hfree & Hrun).
    apply (IH s1 (U ∖ {[area]})); [|done]. by eapply ureach_free.
Qed.

Lemma reachable_ureach s U : reachable s U → ureach s U.
Proof.
  intros (s0 & s1 & fuel & ops & Hinit & Hrun).
  eapply run_ureach; [|done]. by eapply ureach_init.
Qed.

(** X22 (mem_alloc, lines 691-729; mem_free, lines 891-910; split_item,
    lines 579-619; coalesce, lines 836-873): what the caller writes
    into the areas it holds does no harm.  In a state reached by calls
    of mem_alloc and mem_free with such writes in between, the array at
    most [MAX_CELLS] cells long, mem_free of a held area returns; a
    mem_alloc that returns with the array still within [MAX_CELLS]
    cells gives an area that is not held, with room for the bytes asked
    for, and changes no word of a held block; the blocks held do not
    overlap and are marked in use; and the header and the two link
    words of an item on a free list overlap no held area, so that no
    such write reaches them. *)
Theorem caller_writes_harmless s U :
  ureach s U →
  (∀ p, p ∈ U → ∃ s', mem_free s p = Some s' ∧ ureach s' (U ∖ {[p]})) ∧
  (∀ fuel x s' p,
     0 ≤ x < 2 ^ 32 → mem_alloc fuel s x = Some (s', p) → fits s' = true →
     (p ∉ U) ∧ p ≠ data (arr s') ∧
     x ≤ item_get_size (heap s') (item_from_area p) * BLOCK_SIZE - HEADER_SIZE ∧
     ∀ q a, q ∈ U →
       item_from_area q ≤ a
         < item_from_area q + item_get_size (heap s) (item_from_area q) * BLOCK_SIZE →
       load (heap s') a = load (heap s) a) ∧
  (∀ p q, p ∈ U ∪ {[data (arr s)]} → q ∈ U ∪ {[data (arr s)]} → p ≠ q →
     item_is_in_use (heap s) (item_from_area p) = true ∧
     (item_from_area p + item_get_size (heap s) (item_from_area p) * BLOCK_SIZE
        ≤ item_from_area q ∨
      item_from_area q + item_get_size (heap s) (item_from_area q) * BLOCK_SIZE
        ≤ item_from_area p)) ∧
  (∀ x q, x ∈ all_items (cells (arr s)) → q ∈ U →
     x + 3 * POINTER_SIZE ≤ item_from_area q ∨
     item_from_area q + item_get_size (heap s) (item_from_area q) * BLOCK_SIZE ≤ x).
Proof.
  intros HR. pose proof (ureach_tinv _ _ HR) as HT. split_and!.
  - intros p Hp. destruct (mem_free_tinv _ _ _ HT Hp) as (s' & Hfree & _).
    exists s'. split; [done|]. by eapply ureach_free.
  - intros fuel x s' p Hx Halloc Hfits.
    assert (0 ≤ x) as Hx0 by lia.
    pose proof Hfits as Hmax. apply Z.leb_le in Hmax.
    destruct (mem_alloc_ok fuel _ _ _ _ _ HT Hx0 Halloc Hmax)
      as ((Hd & _) & HpU & _ & Hn & _).
    destruct (mem_alloc_steps fuel s U x s' p HT Hx0 Halloc Hmax) as [Hk _].
    split_and!; [done| |by apply blocks_area|].
    + intros ->. apply Hd. mem_set_in.
    + intros q a Hq Ha. apply Hk. by exists q.
  - intros p q Hp Hq Hne. destruct HT as (_ & cs & L & HI).
    destruct (inv_held_block _ _ _ _ _ HI Hp) as (lp & Hlp & Hap & _ & Hsp & Hup & Hep).
    destruct (inv_held_block _ _ _ _ _ HI Hq) as (lq & Hlq & Haq & _ & Hsq & Huq & Heq).
    destruct (inv_asc _ _ _ _ _ HI) as [lo Hasc].
    assert (lp ≠ lq) as Hll.
    { intros ->. apply Hne. unfold item_from_area in *. lia. }
    split; [done|].
    destruct (asc_disjoint _ _ _ _ _ Hasc Hlp Hlq Hll); [left|right]; lia.
  - intros x q Hx Hq. destruct HT as (_ & cs & L & HI).
    destruct (inv_listed_leaf _ _ _ _ _ _ HI Hx) as (l & j & c & Hl & Hla & Hu & _).
    destruct (inv_held_block _ _ _ _ q HI) as (lq & Hlq & Hlqa & Hlqu & Hqsz & _ & Hend);
      [mem_set_in|].
    pose proof (inv_leaf_size _ _ _ _ _ _ HI Hl) as Hls.
    destruct (inv_asc _ _ _ _ _ HI) as [lo Hasc].
    assert (lq ≠ l) as Hne by congruence.
    destruct (asc_disjoint _ _ _ _ _ Hasc Hlq Hl Hne) as [Hd|Hd];
      unfold l_end, POINTER_SIZE, BLOCK_SIZE in *; [right|left]; lia.
Qed.

Lemma ureach_w : ureach s_w s_ab.2.
Proof.
  apply ureach_write; [apply reachable_ureach, reachable_ab|].
  intros k Hk. apply load_store_ne.
  assert (4680 ∈ s_ab.2) as Hin by (apply (bool_decide_unpack _); by vm_compute).
  specialize (Hk _ Hin).
  assert (item_get_size (heap s_ab.1) (item_from_area 4680) = 7) as Hsz by (by vm_compute).
  rewrite Hsz in Hk. unfold item_from_area, POINTER_SIZE, BLOCK_SIZE in Hk. lia.
Qed.

Lemma caller_writes_harmless_witness :
  (∀ p, p ∈ s_ab.2 → ∃ s', mem_free s_w p = Some s' ∧ ureach s' (s_ab.2 ∖ {[p]})) ∧
  (∀ fuel x s' p,
     0 ≤ x < 2 ^ 32 → mem_alloc fuel s_w x = Some (s', p) → fits s' = true →
     (p ∉ s_ab.2) ∧ p ≠ data (arr s') ∧
     x ≤ item_get_size (heap s') (item_from_area p) * BLOCK_SIZE - HEADER_SIZE ∧
     ∀ q a, q ∈ s_ab.2 →
       item_from_area q ≤ a
         < item_from_area q + item_get_size (heap s_w) (item_from_area q) * BLOCK_SIZE →
       load (heap s') a = load (heap s_w) a) ∧
  (∀ p q, p ∈ s_ab.2 ∪ {[data (arr s_w)]} → q ∈ s_ab.2 ∪ {[data (arr s_w)]} → p ≠ q →
     item_is_in_use (heap s_w) (item_from_area p) = true ∧
     (item_from_area p + item_get_size (heap s_w) (item_from_area p) * BLOCK_SIZE
        ≤ item_from_area q ∨
      item_from_area q + item_get_size (heap s_w) (item_from_area q) * BLOCK_SIZE
        ≤ item_from_area p)) ∧
  (∀ x q, x ∈ all_items (cells (arr s_w)) → q ∈ s_ab.2 →
     x + 3 * POINTER_SIZE ≤ item_from_area q ∨
     item_from_area q + item_get_size (heap s_w) (item_from_area q) * BLOCK_SIZE ≤ x).
Proof. apply (caller_writes_harmless s_w s_ab.2). apply ureach_w. Defined.

(** *** The chunk source of the older revision *)

Lemma calloc_zero s nmemb size k :
  brk s ≤ k < brk s + nmemb * size → load (heap (Old.calloc s nmemb size).1) k = 0.
Proof.
  intros Hk. unfold Old.calloc, malloc, load. simpl.
  rewrite (proj2 (map_lookup_filter_None _ _ k)); [done|].
  destruct (heap s !! k) as [w|] eqn:Hw; [right|by left].
  intros w' [= <-] Hn. simpl in Hn. lia.
Qed.

Lemma calloc_frame s nmemb size k :
  ¬ (brk s ≤ k < brk s + nmemb * size) →
  load (heap (Old.calloc s nmemb size).1) k = load (heap s) k.
Proof.
  intros Hk. unfold Old.calloc, malloc, load. simpl.
  destruct (heap s !! k) as [w|] eqn:Hw.
  - by rewrite (proj2 (map_lookup_filter_Some _ _ k w)).
  - rewrite (proj2 (map_lookup_filter_None _ _ k)); [done|by left].
Qed.

Lemma header_zero h a : load h a = 0 → header h a 0 false LEFT LEFT.
Proof.
  intros H. unfold header, item_get_size, item_is_in_use, item_get_lr_bit, item_get_inh_bit.
  by rewrite H.
Qed.

(** X23 (alloc_new_item of the older revision, part_000 lines 442-458):
    on the zeroed memory of calloc the layout of a new chunk is fixed.
    For [n] from 1 below 2^29 the first word holds the previous head of
    the chunk list and the chunk is the new head; the block one word in
    has the header {n, in_use = 0, LEFT, inh = LEFT}; the sentinel
    behind it has {0, in_use = 1, RIGHT, inh = LEFT}; every other word
    of the chunk is 0 and no word outside the chunk changes. *)
Theorem old_alloc_new_item_layout s n s' item :
  1 ≤ n < 2 ^ 29 → Old.alloc_new_item s n = (s', item) →
  let tmp := brk s in
  let fake_right := tmp + POINTER_SIZE + n * BLOCK_SIZE in
  item = tmp + POINTER_SIZE ∧ mem_list s' = tmp ∧
  brk s' = fake_right + POINTER_SIZE ∧ arr s' = arr s ∧
  load (heap s') tmp = mem_list s ∧
  header (heap s') item n false LEFT LEFT ∧
  header (heap s') fake_right 0 true RIGHT LEFT ∧
  (∀ k, tmp ≤ k < brk s' → k ≠ tmp → k ≠ item → k ≠ fake_right → load (heap s') k = 0) ∧
  (∀ k, ¬ (tmp ≤ k < brk s') → load (heap s') k = load (heap s) k).
Proof.
  intros Hn Halloc tmp fake_right.
  assert (uint (BLOCK_SIZE * n) = n * BLOCK_SIZE) as Hu.
  { unfold uint, BLOCK_SIZE. rewrite Z.mod_small; lia. }
  unfold Old.alloc_new_item in Halloc. rewrite Hu in Halloc.
  pose proof (calloc_zero s (n * BLOCK_SIZE + POINTER_SIZE * 2) 1) as Hz.
  pose proof (calloc_frame s (n * BLOCK_SIZE + POINTER_SIZE * 2) 1) as Hfr.
  destruct (Old.calloc s (n * BLOCK_SIZE + POINTER_SIZE * 2) 1) as [sz tmp'] eqn:Hc.
  assert (tmp' = tmp ∧ brk sz = tmp + (n * BLOCK_SIZE + POINTER_SIZE * 2) ∧
          arr sz = arr s ∧ mem_list sz = mem_list s) as (-> & Hbrk & Harr & Hml).
  { unfold Old.calloc, malloc in Hc. simpl in Hc. injection Hc as <- <-. simpl.
    split_and!; [done| |done..]. unfold tmp. lia. }
  cbn [fst] in Hz, Hfr. fold tmp in Hz, Hfr.
  replace (tmp + n * BLOCK_SIZE + POINTER_SIZE) with fake_right in Halloc
    by (unfold fake_right; lia).
  injection Halloc as <- <-. cbn [heap mem_list brk arr].
  set (h0 := store (heap sz) tmp (mem_list sz)).
  set (h1 := item_set_size h0 fake_right 0).
  set (h2 := item_set_lr_bit h1 fake_right RIGHT).
  set (h3 := item_set_in_use h2 fake_right true).
  set (h4 := item_set_size h3 (tmp + POINTER_SIZE) n).
  assert (tmp ≠ fake_right ∧ tmp ≠ tmp + POINTER_SIZE ∧ fake_right ≠ tmp + POINTER_SIZE)
    as (Hne1 & Hne2 & Hne3) by (unfold fake_right, POINTER_SIZE, BLOCK_SIZE; lia).
  assert (∀ k, k ≠ tmp → k ≠ fake_right → same_at (heap sz) h3 k) as Hs3.
  { intros k Hk1 Hk2.
    apply (same_at_trans _ h0); [by apply same_at_store|].
    apply (same_at_trans _ h1); [by apply same_at_set_size|].
    apply (same_at_trans _ h2); by apply same_at_set_flag. }
  assert (∀ k, k ≠ tmp + POINTER_SIZE → same_at h3 h4 k) as Hs4.
  { intros k Hk. by apply same_at_set_size. }
  assert (header h3 fake_right 0 true RIGHT LEFT) as Hf3.
  { assert (header h0 fake_right 0 false LEFT LEFT) as Hf0.
    { apply header_zero. unfold h0. rewrite load_store_ne by done.
      apply Hz. unfold fake_right, POINTER_SIZE, BLOCK_SIZE. lia. }
    pose proof (header_set_size h0 fake_right 0 ltac:(lia)) as Hf1. fold h1 in Hf1.
    destruct Hf0 as (_ & -> & -> & ->) in Hf1.
    apply (header_set_in_use h2 fake_right 0 false RIGHT LEFT true); [lia|].
    apply (header_set_lr_bit h1 fake_right 0 false LEFT LEFT RIGHT); [lia|done]. }
  split_and!; [done|done|unfold fake_right; lia|done| | | | |].
  - rewrite (Hs4 tmp) by done. unfold h3, h2, h1, item_set_in_use, item_set_lr_bit, set_flag,
      item_set_size. rewrite !load_store_ne by done. unfold h0. by rewrite load_store_eq.
  - pose proof (header_set_size h3 (tmp + POINTER_SIZE) n ltac:(lia)) as Hi. fold h4 in Hi.
    assert (header h3 (tmp + POINTER_SIZE) 0 false LEFT LEFT) as (_ & Hu3 & Hl3 & Hi3).
    { apply header_zero. rewrite (Hs3 (tmp + POINTER_SIZE)) by done.
      apply Hz. unfold POINTER_SIZE, BLOCK_SIZE. lia. }
    by rewrite Hu3, Hl3, Hi3 in Hi.
  - apply (same_at_header h3); [by apply Hs4|done].
  - intros k Hk Hk1 Hk2 Hk3. rewrite (Hs4 k), (Hs3 k) by done. apply Hz. lia.
  - intros k Hk. rewrite (Hs4 k), (Hs3 k); [apply Hfr; lia|..];
      unfold fake_right, POINTER_SIZE, BLOCK_SIZE in *; lia.
Qed.

Lemma old_alloc_new_item_layout_witness :
  let r := Old.alloc_new_item junk 3 in
  let tmp := brk junk in
  let fake_right := tmp + POINTER_SIZE + 3 * BLOCK_SIZE in
  r.2 = tmp + POINTER_SIZE ∧ mem_list r.1 = tmp ∧
  brk r.1 = fake_right + POINTER_SIZE ∧ arr r.1 = arr junk ∧
  load (heap r.1) tmp = mem_list junk ∧
  header (heap r.1) r.2 3 false LEFT LEFT ∧
  header (heap r.1) fake_right 0 true RIGHT LEFT ∧
  (∀ k, tmp ≤ k < brk r.1 → k ≠ tmp → k ≠ r.2 → k ≠ fake_right → load (heap r.1) k = 0) ∧
  (∀ k, ¬ (tmp ≤ k < brk r.1) → load (heap r.1) k = load (heap junk) k).
Proof.
  intros r. apply (old_alloc_new_item_layout junk 3 r.1 r.2).
  - lia.
  - by vm_compute.
Defined.

(** *** The whole of mem_alloc *)

(** X24 (mem_alloc, lines 691-729; array_inc_size, lines 332-355;
    alloc_new_item, lines 644-660; split_item, lines 579-619):
    mem_alloc returns.  On a state reached by calls of mem_alloc and
    mem_free, a request of [x] bytes that the term [d] places behind the
    end of the array covers is served while the array has room for the
    cells the growth may add: the search, the growth of the array with
    its nested mem_alloc and mem_free, the draw of a chunk and the
    splitting all end, none reads a cell outside the array or takes
    from an empty list, and the result is the same for every larger
    bound on the nesting. *)
Theorem mem_alloc_returns s U x (d : nat) :
  reachable s U → 0 ≤ x < 2 ^ 32 →
  BLOCKS (x + HEADER_SIZE) ≤ ladder (array_size (arr s) + Z.of_nat d) →
  array_size (arr s) + 2 * (Z.of_nat d + 1) ≤ MAX_CELLS →
  ∃ s' p,
    mem_alloc (S (S d)) s x = Some (s', p) ∧ fits s' = true ∧
    reachable s' (U ∪ {[p]}) ∧
    ∀ fuel, (S (S d) ≤ fuel)%nat → mem_alloc fuel s x = Some (s', p).
Proof.
  intros Hreach Hx Hn Hroom.
  pose proof (reachable_tinv _ _ Hreach) as HT.
  assert (0 ≤ x) as Hx0 by lia.
  destruct (mem_alloc_total d d s U x HT Hx0 Hn ltac:(lia) Hroom) as (s' & p & Halloc & Hfits).
  exists s', p. split_and!; [done|done|by eapply reachable_alloc|].
  intros fuel Hfuel. by eapply mem_alloc_fuel_le.
Qed.

Lemma mem_alloc_returns_witness :
  ∃ s' p,
    mem_alloc 7 s_init 3000 = Some (s', p) ∧ fits s' = true ∧
    reachable s' (∅ ∪ {[p]}) ∧
    ∀ fuel, (7 ≤ fuel)%nat → mem_alloc fuel s_init 3000 = Some (s', p).
Proof.
  apply (mem_alloc_returns s_init ∅ 3000 5).
  - apply reachable_init.
  - lia.
  - by vm_compute.
  - by vm_compute.
Defined.

(** ** Every sequence of calls *)

(** *** The cells under every sequence of calls *)














Lemma grown_refl s : grown s s.
Proof. split_and!; [done|lia|lia]. Qed.















(** The next terms do not fit. *)
Lemma ladder_past : 2 ^ 61 ≤ ladder HDR_CELLS ∧ 2 ^ 64 ≤ ladder WORD_CELLS.
Proof. by vm_compute. Qed.

Lemma run_calls s0 fuel ops s U s' U' :
  calls s0 s U → run fuel ops s U = Some (s', U') → calls s0 s' U'.
Proof.
  revert s U. induction ops as [|[x|area] ops IH]; intros s U Hc; simpl.
  - by intros [= <- <-].
  - destruct (Z.leb_spec 0 x), (Z.ltb_spec x (2 ^ 32)); simpl; try done.
    intros ([s1 p] & Ha & Hr)%bind_Some. destruct (fits s1); [|done].
    assert (0 ≤ x < 2 ^ 32) as Hx by lia.
    apply (IH _ _ (calls_alloc s0 _ _ _ _ _ _ Hc Hx Ha) Hr).
  - case_decide as Hin; [|done]. intros (s1 & Hf & H0)%bind_Some.
    apply (IH _ _ (calls_free s0 _ _ _ _ Hc Hin Hf) H0).
Qed.

Lemma reachable_calls s U : reachable s U → ∃ s0, calls s0 s U.
Proof.
  intros (s0 & s1 & fuel & ops & Hinit & Hrun). exists s0.
  eapply run_calls; [|exact Hrun]. by constructor.
Qed.


(** *** No block of MIN_SIZE *)

Lemma fld_bits h a m :
  0 ≤ m → Z.testbit (fld h a) m = (m <? 61) && Z.testbit (load h a) (m + 3).
Proof.
  intros Hm. unfold fld, item_get_size.
  rewrite Z.testbit_mod_pow2 by lia. by rewrite Z.shiftr_spec by lia.
Qed.


Lemma fld_set_flag h a k v b : 0 ≤ k < 3 → fld (set_flag h a (2 ^ k) v) b = fld h b.
Proof.
  intros Hk. destruct (decide (a = b)) as [->|Hab].
  - apply Z.bits_inj'. intros m Hm. rewrite !fld_bits by done.
    unfold set_flag. rewrite load_store_eq, set_flag_bits by lia.
    destruct (Z.eqb_spec (m + 3) k); [lia|].
    destruct (Z.ltb_spec m 61), (Z.ltb_spec (m + 3) 64); try lia; simpl; try done.
    by rewrite andb_true_r.
  - unfold fld, item_get_size, set_flag. by rewrite load_store_ne.
Qed.

Lemma fld_set_in_use h a v b : fld (item_set_in_use h a v) b = fld h b.
Proof. apply (fld_set_flag h a 2). lia. Qed.

Lemma fld_set_lr_bit h a v b : fld (item_set_lr_bit h a v) b = fld h b.
Proof. apply (fld_set_flag h a 1). lia. Qed.

Lemma fld_set_inh_bit h a v b : fld (item_set_inh_bit h a v) b = fld h b.
Proof. apply (fld_set_flag h a 0). lia. Qed.

Lemma fld_set_size h a sz b :
  fld (item_set_size h a sz) b = if decide (a = b) then sz mod 2 ^ 61 else fld h b.
Proof.
  case_decide as Hab.
  - subst. apply Z.bits_inj'. intros m Hm. rewrite fld_bits by done.
    unfold item_set_size. rewrite load_store_eq, Z.lor_spec, Z.land_spec.
    assert (Z.testbit 7 (m + 3) = false) as ->.
    { apply Z.bits_above_log2; [lia|]. change (Z.log2 7) with 2. lia. }
    rewrite andb_false_r, orb_false_l. unfold uintptr.
    rewrite !Z.testbit_mod_pow2 by lia. rewrite Z.shiftl_spec by lia.
    replace (m + 3 - 3) with m by lia.
    by destruct (Z.ltb_spec m 61), (Z.ltb_spec (m + 3) 64); try lia.
  - unfold fld, item_get_size, item_set_size. by rewrite load_store_ne.
Qed.



Lemma no_new_min_same h h' : (∀ a, fld h' a = fld h a) → no_new_min h h'.
Proof. intros H a. by rewrite H. Qed.



Lemma no_new_min_set_inh_bit h a v : no_new_min h (item_set_inh_bit h a v).
Proof. apply no_new_min_same. intros b. apply fld_set_inh_bit. Qed.














Lemma merge_writes_fld h item lr inh sz a :
  fld (merge_writes h item lr inh sz) a =
    if decide (item = a) then sz mod 2 ^ 61 else fld h a.
Proof.
  unfold merge_writes.
  rewrite fld_set_in_use, fld_set_size. case_decide; [done|].
  by rewrite fld_set_inh_bit, fld_set_lr_bit.
Qed.





















(** *** The exit of coalesce on any state *)

Lemma coalesce_step_exit s i item b ib s1 i1 item1 b1 ib1 :
  coalesce_step s i item b ib = Some (s1, i1, item1, b1, ib1) →
  i < i1 ∧ item_get_buddy s1 item1 i1 = Some (b1, ib1) ∧
  ∃ c, cell_at (arr s1) i1 = Some c ∧ head (cell_items c) = Some item1.
Proof.
  unfold coalesce_step.
  intros (sa & H1 & (sb & H2 & (c & Hc & H3)%bind_Some)%bind_Some)%bind_Some.
  cbv zeta in H3. apply bind_Some in H3 as ([b' ib'] & Hb & H3).
  apply bind_Some in H3 as (s3 & H3 & [= <- <- <- <- <-]).
  match type of H3 with
  | insert_item ?s0 ?i0 ?it0 = _ => set (sh := s0) in *; set (i' := i0) in *;
                                     set (it := it0) in *
  end.
  assert (cell_at (arr sh) i' = Some c) as Hc' by done.
  rewrite (insert_item_eq _ _ _ _ Hc') in H3. injection H3 as <-.
  split_and!.
  - unfold i'. destruct (negb _); lia.
  - rewrite <-Hb. apply item_get_buddy_frame; [done|by apply same_frame_with_items].
  - eexists. rewrite (with_items_cell_at _ _ _ _ _ Hc'), decide_True by done.
    split; [done|]. done.
Qed.

Lemma coalesce_loop_exit fuel s i item b ib s' i' item' :
  coalesce_loop fuel s i item b ib = Some (s', i', item') →
  item_get_buddy s item i = Some (b, ib) →
  (∃ c, cell_at (arr s) i = Some c ∧ head (cell_items c) = Some item) →
  i ≤ i' ∧
  (∃ c, cell_at (arr s') i' = Some c ∧ head (cell_items c) = Some item') ∧
  ∃ b' ib', item_get_buddy s' item' i' = Some (b', ib') ∧
            coalesce_test s' b' ib' = Some false.
Proof.
  revert s i item b ib.
  induction fuel as [|fuel IH]; intros s i item b ib; [done|]. simpl.
  intros (go & Hgo & H)%bind_Some Hb Hhead. destruct go.
  - apply bind_Some in H as ([[[[s1 i1] item1] b1] ib1] & Hstep & H).
    destruct (coalesce_step_exit _ _ _ _ _ _ _ _ _ _ Hstep) as (Hi & Hb1 & Hh1).
    destruct (IH _ _ _ _ _ H Hb1 Hh1) as (Hi' & Hh' & Hb').
    split; [lia|done].
  - injection H as <- <- <-. split; [lia|]. split; [done|]. by exists b, ib.
Qed.

Lemma mem_free_end_exit s p s' i item :
  mem_free_end s p = Some (s', i, item) →
  mem_free s p = Some s' ∧
  ∃ c, cell_at (arr s') i = Some c ∧ head (cell_items c) = Some item ∧
    ∃ b ib, item_get_buddy s' item i = Some (b, ib) ∧
      coalesce_test s' b ib = Some false.
Proof.
  intros He. split; [by rewrite mem_free_end_eq, He|].
  unfold mem_free_end in He. apply bind_Some in He as ([s1 i1] & _ & He).
  unfold coalesce_end in He.
  apply bind_Some in He as (c & Hc & (it & Hit & ([b ib] & Hb & H)%bind_Some)%bind_Some).
  destruct (coalesce_loop_exit _ _ _ _ _ _ _ _ _ H Hb) as (_ & (c' & Hc' & Hh') & Hb');
    [by exists c|].
  by exists c'.
Qed.

(** C3: on any state, when mem_free(p) returns, the block coalesce
    ended on is the first item of the free list of its cell, and its
    buddy, as item_get_buddy finds it, is not both free (in_use = 0) and
    whole (of the header size its cell has).  On a reachable state, for
    [p] an area mem_alloc returned and not freed since, mem_free(p)
    returns and that block covers the freed area. *)
Theorem no_free_whole_buddy s p :
  (∀ s', mem_free s p = Some s' →
     ∃ i item c,
       mem_free_end s p = Some (s', i, item) ∧
       cell_at (arr s') i = Some c ∧ head (cell_items c) = Some item ∧
       ∃ b ib, item_get_buddy s' item i = Some (b, ib) ∧
         ¬ (item_is_in_use (heap s') b = false ∧
            ∃ cb, cell_at (arr s') ib = Some cb ∧
                  item_get_size (heap s') b = cell_size cb)) ∧
  (∀ U, reachable s U → p ∈ U →
     ∃ s' i item c,
       mem_free s p = Some s' ∧ mem_free_end s p = Some (s', i, item) ∧
       cell_at (arr s') i = Some c ∧ item ∈ cell_items c ∧
       item ≤ item_from_area p < item + cell_size c * BLOCK_SIZE).
Proof.
  split.
  - intros s' Hf. rewrite mem_free_end_eq in Hf.
    destruct (mem_free_end s p) as [[[s2 i] item]|] eqn:He; [|done].
    injection Hf as <-. simpl.
    destruct (mem_free_end_exit _ _ _ _ _ He) as (_ & c & Hc & Hh & b & ib & Hb & Htest).
    exists i, item, c. split_and!; [done..|]. exists b, ib. split; [done|].
    intros (Hfree & cb & Hcb & Hsz). unfold coalesce_test in Htest.
    rewrite Hfree, Hcb in Htest. cbn [mbind option_bind] in Htest.
    injection Htest as Hne. apply Z.eqb_neq in Hne. lia.
  - intros U HT%reachable_tinv Hp.
    destruct (mem_free_end_tinv _ _ _ HT Hp)
      as (s' & i & item & c & He & Hf & _ & _ & Hc & Hin & Hcov & _).
    exists s', i, item, c. split_and!; done || lia.
Qed.






Lemma no_free_whole_buddy_witness :
  array_size (arr s_61.1) = 61 ∧
  (∃ s' i item c,
     mem_free s_61.1 s_61.2 = Some s' ∧
     mem_free_end s_61.1 s_61.2 = Some (s', i, item) ∧
     cell_at (arr s') i = Some c ∧ head (cell_items c) = Some item ∧
     ∃ b ib, item_get_buddy s' item i = Some (b, ib) ∧
       ¬ (item_is_in_use (heap s') b = false ∧
          ∃ cb, cell_at (arr s') ib = Some cb ∧
                item_get_size (heap s') b = cell_size cb)) ∧
  (∃ s' i item c,
     mem_free s_ab.1 4680 = Some s' ∧ mem_free_end s_ab.1 4680 = Some (s', i, item) ∧
     cell_at (arr s') i = Some c ∧ item ∈ cell_items c ∧
     item ≤ item_from_area 4680 < item + cell_size c * BLOCK_SIZE).
Proof.
  split; [by vm_compute|]. split.
  - destruct (no_free_whole_buddy s_61.1 s_61.2) as [H _].
    destruct (H (default boot (mem_free s_61.1 s_61.2))) as (i & item & c & Hrest);
      [by vm_compute|].
    exists (default boot (mem_free s_61.1 s_61.2)), i, item, c.
    split; [by vm_compute|done].
  - destruct (no_free_whole_buddy s_ab.1 4680) as [_ H].
    apply (H s_ab.2); [apply reachable_ab|by vm_compute].
Defined.
